(** * The marshal core of agoric-sdk: pass-style classification, the
      remotable registry, the capdata encoder and the capdata decoder.

    Source: packages/marshal/src/marshal.js.

    The development is a shallow embedding.  JavaScript objects live in a
    heap (a list of object records addressed by position), so that the
    identity-keyed tables of the source (the remotable registry, the ibid
    tables, the slot map) are keyed by addresses.  Functions of the source
    that throw return a [result]; the source's names are kept.

    Modelling conventions, fixed once here:
    - numbers are the special values NaN, +Infinity, -Infinity, -0 and the
      integer-valued numbers, the latter represented by an integer (the
      model does not cover fractional numbers, nor the rounding of integers
      beyond the safe range);
    - strings are sequences of 8-bit code units;
    - the intrinsic prototype objects (Object.prototype, Array.prototype,
      Promise.prototype and the error prototypes) are frozen, as under SES,
      and are not themselves heap values;
    - an accessor property has a getter that returns a fixed value, and no
      setter. *)

From Stdlib Require Import ZArith Lia Ascii String.
From Stdlib Require Import DecimalString DecimalZ DecimalN DecimalNat DecimalPos DecimalFacts.
From stdpp Require Import base option list strings gmap sorting.

(** ** Results of functions that may throw *)

(** The places where the source throws, with the message of the source in
    the comment. *)
Inductive exn : Type :=
  (* passStyleOf and its helpers *)
  | ReservedQclass          (* Error: property @qclass reserved *)
  | NotFrozen               (* Error: Cannot pass non-frozen objects *)
  | NonPromiseThenable      (* Error: Cannot pass non-promise thenables *)
  | ErrorProtoMismatch      (* TypeError: Errors must inherit from an error class .prototype *)
  | ErrorExtraProps         (* TypeError: Unexpected own properties in error *)
  | ErrorMalformed          (* TypeError: Malformed error object *)
  | ErrorMessageEnumerable  (* TypeError: An error's .message must not be enumerable *)
  | ArrayMalformed          (* TypeError: Malformed array *)
  | ArrayHole (i : nat)     (* TypeError: Arrays must not contain holes *)
  | ArrayAccessor (i : nat) (* TypeError: Arrays must not contain accessors *)
  | ArrayMethod (i : nat)   (* TypeError: Arrays must not contain methods *)
  | ArrayNotEnumerable (i : nat) (* TypeError: Array elements must be enumerable *)
  | ArrayNonIndex           (* TypeError: Arrays must not have non-indexes *)
  | RecordAccessor (k : string)      (* TypeError: Records must not contain accessors *)
  | RecordNotEnumerable (k : string) (* TypeError: Record fields must be enumerable *)
  | RemotableNonObject      (* Error: cannot serialize non-objects *)
  | RemotableArray          (* Error: Arrays cannot be pass-by-remote *)
  | RemotableNull           (* Error: null cannot be pass-by-remote *)
  | RemotableNonMethod (k : string) (* Error: cannot serialize objects with non-methods *)
  | RemotableNotFrozen      (* Error: cannot serialize non-frozen objects *)
  | BareFunction            (* Error: Bare functions are disabled for now *)
  (* encode *)
  | UnsupportedSymbol       (* assert.fail: Unsupported symbol *)
  | SortSymbolKey           (* TypeError raised by Array.prototype.sort on a symbol *)
  | NonDataField            (* a field whose value cannot be read as data *)
  (* unserialize *)
  | JSONSyntax              (* SyntaxError raised by JSON.parse *)
  | JSONUnmodelled          (* a JSON number outside the modelled numbers *)
  | InvalidQclassType       (* TypeError: invalid qclass typeof *)
  | InvalidDigits           (* TypeError: invalid digits typeof *)
  | BigIntSyntax            (* SyntaxError raised by BigInt *)
  | NatRange                (* RangeError raised by Nat *)
  | IbidOutOfRange (i : nat)   (* RangeError: ibid out of range *)
  | IbidCycle (i : nat)        (* TypeError: Ibid cycle at *)
  | UnrecognizedCyclePolicy    (* TypeError: Unrecognized cycle policy *)
  | InvalidErrorName        (* TypeError: invalid error name typeof *)
  | InvalidErrorMessage     (* TypeError: invalid error message typeof *)
  | UnrecognizedQclass (q : string) (* TypeError: unrecognized @qclass *)
  | CyclicProto             (* TypeError: Cyclic __proto__ value *)
  | AssignInherited         (* TypeError raised by an assignment that an inherited property refuses *)
  (* Remotable *)
  | IfaceNotString          (* assert.typeof: Interface must be a string *)
  | IfaceInvalid            (* assert: iface must be Remotable or begin with Alleged:  *)
  | AlreadyRegistered       (* Error: Remotable is already mapped to an interface *)
  | PropsNotObject          (* TypeError raised by Object.entries on null or undefined *)
  | DefineOnFrozen          (* TypeError raised by Object.defineProperties *)
  | SetProtoOnFrozen.       (* TypeError raised by Object.setPrototypeOf *)

Inductive result (A : Type) : Type :=
  | Ok (a : A)
  | Throw (e : exn)
  | OutOfFuel.
Arguments Ok {A} a.
Arguments Throw {A} e.
Arguments OutOfFuel {A}.

Definition bind {A B : Type} (m : result A) (k : A -> result B) : result B :=
  match m with
  | Ok a => k a
  | Throw e => Throw e
  | OutOfFuel => OutOfFuel
  end.

Declare Scope js_scope.
Delimit Scope js_scope with js.
Notation "x <- m ;; k" := (bind m (fun x => k))
  (at level 60, m at next level, right associativity) : js_scope.
Notation "m ;;; k" := (bind m (fun _ => k))
  (at level 60, right associativity) : js_scope.
Local Open Scope js_scope.

Definition is_ok {A : Type} (r : result A) : bool :=
  match r with Ok _ => true | _ => false end.

Definition fails {A : Type} (r : result A) : Prop :=
  exists e, r = Throw e.

(** ** Values *)

Abbreviation addr := nat (only parsing).

Inductive symbol : Type :=
  | SymAsyncIterator              (* Symbol.asyncIterator *)
  | SymToStringTag                (* Symbol.toStringTag *)
  | SymOther (id : nat).          (* any other symbol *)

Inductive number : Type :=
  | NaN
  | PosInfinity
  | NegInfinity
  | NegZero
  | Fin (z : Z).                  (* an integer-valued number; [Fin 0] is +0 *)

Inductive value : Type :=
  | VUndefined
  | VNull
  | VBool (b : bool)
  | VNumber (n : number)
  | VBigInt (z : Z)
  | VString (s : string)
  | VSymbol (s : symbol)
  | VFunction (f : nat)           (* a function object, opaque and hardened *)
  | VObject (a : addr).           (* a reference to a heap object *)

#[global] Instance symbol_eq_dec : EqDecision symbol.
Proof. solve_decision. Defined.
#[global] Instance number_eq_dec : EqDecision number.
Proof. solve_decision. Defined.
#[global] Instance value_eq_dec : EqDecision value.
Proof. solve_decision. Defined.

Inductive typestr : Type :=
  | TyUndefined | TyObject | TyBoolean | TyNumber | TyBigint | TyString
  | TySymbol | TyFunction.

Definition typeof (v : value) : typestr :=
  match v with
  | VUndefined => TyUndefined
  | VNull => TyObject
  | VBool _ => TyBoolean
  | VNumber _ => TyNumber
  | VBigInt _ => TyBigint
  | VString _ => TyString
  | VSymbol _ => TySymbol
  | VFunction _ => TyFunction
  | VObject _ => TyObject
  end.

Definition is_function (v : value) : bool :=
  match v with VFunction _ => true | _ => false end.

Definition is_string (v : value) : bool :=
  match v with VString _ => true | _ => false end.

(** ** Objects and the heap *)

Inductive errclass : Type :=
  | EError | EEvalError | ERangeError | EReferenceError | ESyntaxError
  | ETypeError | EURIError.

Inductive intrinsic : Type :=
  | ObjectPrototype
  | ArrayPrototype
  | PromisePrototype
  | ErrorPrototype (c : errclass).

Inductive proto : Type :=
  | PNull
  | PIntrinsic (i : intrinsic)
  | PObject (a : addr).

#[global] Instance errclass_eq_dec : EqDecision errclass.
Proof. solve_decision. Defined.
#[global] Instance intrinsic_eq_dec : EqDecision intrinsic.
Proof. solve_decision. Defined.
#[global] Instance proto_eq_dec : EqDecision proto.
Proof. solve_decision. Defined.

(** A property descriptor. *)
Inductive prop : Type :=
  | DataProp (v : value) (enumerable : bool)
  | AccessorProp (getter_result : value) (enumerable : bool).

(** [desc.value]: undefined on an accessor descriptor. *)
Definition desc_value (d : prop) : value :=
  match d with DataProp v _ => v | AccessorProp _ _ => VUndefined end.

(** ['value' in desc] *)
Definition desc_has_value (d : prop) : bool :=
  match d with DataProp _ _ => true | AccessorProp _ _ => false end.

Definition desc_enumerable (d : prop) : bool :=
  match d with DataProp _ e => e | AccessorProp _ e => e end.

(** The value a property read yields. *)
Definition prop_get (d : prop) : value :=
  match d with DataProp v _ => v | AccessorProp r _ => r end.

Inductive pkey : Type :=
  | KStr (s : string)
  | KSym (s : symbol).

#[global] Instance pkey_eq_dec : EqDecision pkey.
Proof. solve_decision. Defined.

(** What kind of object the engine made: an ordinary object, an Array exotic
    object, an object made by an error constructor, a promise. *)
Inductive oclass : Type := COrdinary | CArray | CError | CPromise.

#[global] Instance oclass_eq_dec : EqDecision oclass.
Proof. solve_decision. Defined.

Record object : Type := mkObject {
  o_class : oclass;
  o_proto : proto;
  o_frozen : bool;
  (* the indexed slots 0..length-1 of an Array exotic object; None is a hole *)
  o_elems : list (option prop);
  (* the other own properties, in own-property-key order *)
  o_props : list (pkey * prop);
}.

Abbreviation heap := (list object) (only parsing).

(** ** Property keys and their order *)

Definition string_of_nat (n : nat) : string :=
  NilEmpty.string_of_uint (Nat.to_uint n).

Definition string_of_Z (z : Z) : string :=
  NilEmpty.string_of_int (Z.to_int z).

(** An array index is a canonical numeric string below 2^32 - 1. *)
Definition array_index (s : string) : option N :=
  match NilEmpty.uint_of_string s with
  | Some d =>
      if Decimal.uint_beq (Decimal.unorm d) d && (N.of_uint d <? 4294967295)%N
      then Some (N.of_uint d) else None
  | None => None
  end.

(** The three segments of an ordinary object's own property keys: array
    indices in ascending numeric order, then strings in creation order,
    then symbols in creation order. *)
Inductive key_rank : Type :=
  | RankIndex (n : N)
  | RankName
  | RankSymbol.

Definition pkey_rank (k : pkey) : key_rank :=
  match k with
  | KStr s => match array_index s with Some n => RankIndex n | None => RankName end
  | KSym _ => RankSymbol
  end.

Definition string_rank (s : string) : key_rank := pkey_rank (KStr s).

(** [comes_before new old]: a newly created key with rank [new] is
    enumerated before an existing key with rank [old]. *)
Definition comes_before (new old : key_rank) : bool :=
  match new, old with
  | RankIndex n, RankIndex m => (n <? m)%N
  | RankIndex _, _ => true
  | RankName, RankSymbol => true
  | _, _ => false
  end.

Section OwnProperties.
Context {K V : Type} `{EqDecision K} (rank : K -> key_rank).

Fixpoint assoc (k : K) (l : list (K * V)) : option V :=
  match l with
  | [] => None
  | (k', v) :: l' => if decide (k = k') then Some v else assoc k l'
  end.

Fixpoint assoc_replace (k : K) (v : V) (l : list (K * V)) : list (K * V) :=
  match l with
  | [] => []
  | (k', v') :: l' =>
      if decide (k = k') then (k, v) :: l' else (k', v') :: assoc_replace k v l'
  end.

Fixpoint ordered_insert (k : K) (v : V) (l : list (K * V)) : list (K * V) :=
  match l with
  | [] => [(k, v)]
  | (k', v') :: l' =>
      if comes_before (rank k) (rank k') then (k, v) :: l
      else (k', v') :: ordered_insert k v l'
  end.

(** CreateDataProperty on an ordinary extensible object. *)
Definition create_data_property (k : K) (v : V) (l : list (K * V)) : list (K * V) :=
  match assoc k l with
  | Some _ => assoc_replace k v l
  | None => ordered_insert k v l
  end.
End OwnProperties.

(** ** Reading objects *)

Definition elem_key (i : nat) : pkey := KStr (string_of_nat i).

(** The own property of an object under a key.  An Array exotic object owns
    its indexed slots and [length]. *)
Definition own_property (o : object) (k : pkey) : option prop :=
  match o_class o, k with
  | CArray, KStr s =>
      if decide (s = "length") then
        Some (DataProp (VNumber (Fin (Z.of_nat (length (o_elems o))))) false)
      else
        match array_index s with
        | Some n =>
            match o_elems o !! N.to_nat n with
            | Some (Some d) => Some d
            | _ => assoc k (o_props o)
            end
        | None => assoc k (o_props o)
        end
  | _, _ => assoc k (o_props o)
  end.

Definition string_keyed (l : list (pkey * prop)) : list (string * prop) :=
  omap (fun kd => match fst kd with KStr s => Some (s, snd kd) | KSym _ => None end) l.

Fixpoint indexed_from (i : nat) (l : list (option prop)) : list (string * prop) :=
  match l with
  | [] => []
  | Some d :: l' => (string_of_nat i, d) :: indexed_from (S i) l'
  | None :: l' => indexed_from (S i) l'
  end.

(** The string-keyed own properties with their descriptors, in order:
    [Object.entries(Object.getOwnPropertyDescriptors(o))]. *)
Definition own_string_entries (o : object) : list (string * prop) :=
  match o_class o with
  | CArray =>
      indexed_from 0 (o_elems o)
      ++ [("length", DataProp (VNumber (Fin (Z.of_nat (length (o_elems o))))) false)]
      ++ string_keyed (o_props o)
  | _ => string_keyed (o_props o)
  end.

(** [Object.getOwnPropertyNames(o)] *)
Definition getOwnPropertyNames (o : object) : list string :=
  map fst (own_string_entries o).

Definition symbol_keys (o : object) : list symbol :=
  omap (fun kd => match fst kd with KSym s => Some s | KStr _ => None end) (o_props o).

(** [Reflect.ownKeys(o)] *)
Definition ownKeys (o : object) : list pkey :=
  map KStr (getOwnPropertyNames o) ++ map KSym (symbol_keys o).

Definition errclass_name (c : errclass) : string :=
  match c with
  | EError => "Error"
  | EEvalError => "EvalError"
  | ERangeError => "RangeError"
  | EReferenceError => "ReferenceError"
  | ESyntaxError => "SyntaxError"
  | ETypeError => "TypeError"
  | EURIError => "URIError"
  end.

(** The own properties of the intrinsic prototypes that the marshal code can
    observe by name: [name] and [message] of the error prototypes, [then]
    of Promise.prototype.  None of them has [@qclass]. *)
Definition intrinsic_own (i : intrinsic) (k : pkey) : option prop :=
  match i, k with
  | ErrorPrototype c, KStr s =>
      if decide (s = "name") then Some (DataProp (VString (errclass_name c)) false)
      else if decide (s = "message") then Some (DataProp (VString EmptyString) false)
      else None
  | PromisePrototype, KStr s =>
      if decide (s = "then") then Some (DataProp (VFunction 0) false) else None
  | _, _ => None
  end.

Definition intrinsic_proto (i : intrinsic) : proto :=
  match i with
  | ObjectPrototype => PNull
  | ArrayPrototype => PIntrinsic ObjectPrototype
  | PromisePrototype => PIntrinsic ObjectPrototype
  | ErrorPrototype EError => PIntrinsic ObjectPrototype
  | ErrorPrototype _ => PIntrinsic (ErrorPrototype EError)
  end.

(** Property lookup along the prototype chain.  The chain of intrinsics has
    at most three links; [fuel] bounds the links through heap objects. *)
Fixpoint intrinsic_lookup (n : nat) (i : intrinsic) (k : pkey) : option prop :=
  match intrinsic_own i k with
  | Some d => Some d
  | None =>
      match n, intrinsic_proto i with
      | S n', PIntrinsic j => intrinsic_lookup n' j k
      | _, _ => None
      end
  end.

Fixpoint proto_lookup (fuel : nat) (h : heap) (p : proto) (k : pkey) : option prop :=
  match p with
  | PNull => None
  | PIntrinsic i => intrinsic_lookup 3 i k
  | PObject a =>
      match fuel, h !! a with
      | S fuel', Some o =>
          match own_property o k with
          | Some d => Some d
          | None => proto_lookup fuel' h (o_proto o) k
          end
      | _, _ => None
      end
  end.

(** [o[k]] with its own properties first, then the prototype chain. *)
Definition lookup_property (h : heap) (o : object) (k : pkey) : option prop :=
  match own_property o k with
  | Some d => Some d
  | None => proto_lookup (length h) h (o_proto o) k
  end.

(** [k in o] *)
Definition has_property (h : heap) (o : object) (k : pkey) : bool :=
  match lookup_property h o k with Some _ => true | None => false end.

(** [o.k] *)
Definition get (h : heap) (o : object) (k : pkey) : value :=
  match lookup_property h o k with Some d => prop_get d | None => VUndefined end.

(** [o instanceof Error]: Error.prototype is on the prototype chain. *)
Fixpoint proto_is_error (fuel : nat) (h : heap) (p : proto) : bool :=
  match p with
  | PNull => false
  | PIntrinsic (ErrorPrototype _) => true
  | PIntrinsic _ => false
  | PObject a =>
      match fuel, h !! a with
      | S fuel', Some o => proto_is_error fuel' h (o_proto o)
      | _, _ => false
      end
  end.

Definition instanceof_Error (h : heap) (o : object) : bool :=
  proto_is_error (length h) h (o_proto o).

(** Modelled from the spec: [isPromise] is imported from
    @agoric/promise-kit, which is not part of the sources.  A future is a
    promise object: it was made by the Promise constructor and still
    answers to it ([Promise.resolve(p) === p]). *)
Definition isPromise (o : object) : bool :=
  match o_class o, o_proto o, own_property o (KStr "constructor") with
  | CPromise, PIntrinsic PromisePrototype, None => true
  | _, _, _ => false
  end.

(** ** The remotable registry *)

(** [remotableToInterface], a WeakMap from objects to interface tags. *)
Abbreviation registry := (gmap nat string) (only parsing).

(** [getInterfaceOf(maybeRemotable)]: [WeakMap.prototype.get] answers
    undefined for every key that is not an object. *)
Definition getInterfaceOf (reg : registry) (maybeRemotable : value) : option string :=
  match maybeRemotable with
  | VObject a => reg !! a
  | _ => None
  end.

(** The truthiness of an interface tag read from the registry. *)
Definition truthy_iface (i : option string) : bool :=
  match i with
  | Some s => negb (String.eqb s EmptyString)
  | None => false
  end.

(** ** Pass-style classification *)

Definition QCLASS : string := "@qclass".

Inductive PassStyle : Type :=
  | PSundefined | PSstring | PSboolean | PSnumber | PSbigint | PSsymbol
  | PSnull | PScopyRecord | PScopyArray | PScopyError
  | REMOTE_STYLE               (* 'presence' *)
  | PSpromise.

#[global] Instance PassStyle_eq_dec : EqDecision PassStyle.
Proof. solve_decision. Defined.

(** [errorConstructors.get(name)] *)
Definition getErrorConstructor (name : value) : option errclass :=
  match name with
  | VString s =>
      if String.eqb s "Error" then Some EError
      else if String.eqb s "EvalError" then Some EEvalError
      else if String.eqb s "RangeError" then Some ERangeError
      else if String.eqb s "ReferenceError" then Some EReferenceError
      else if String.eqb s "SyntaxError" then Some ESyntaxError
      else if String.eqb s "TypeError" then Some ETypeError
      else if String.eqb s "URIError" then Some EURIError
      else None
  | _ => None
  end.

Definition isPassByCopyError (h : heap) (val : object) : result bool :=
  if negb (instanceof_Error h val) then Ok false
  else
    let proto := o_proto val in
    let name := get h val (KStr "name") in
    match getErrorConstructor name with
    | None => Throw ErrorProtoMismatch
    | Some EC =>
        if negb (bool_decide (PIntrinsic (ErrorPrototype EC) = proto))
        then Throw ErrorProtoMismatch
        else
          let descs := own_string_entries val in
          let mDesc := assoc "message" descs in
          let restNames :=
            filter (fun k => k <> "message" /\ k <> "stack") (map fst descs) in
          if 1 <=? length restNames then Throw ErrorExtraProps
          else
            match mDesc with
            | Some d =>
                if negb (is_string (desc_value d)) then Throw ErrorMalformed
                else if desc_enumerable d then Throw ErrorMessageEnumerable
                else Ok true
            | None => Ok true
            end
    end.

Fixpoint check_array_elems (i : nat) (descs : list (option prop)) : result unit :=
  match descs with
  | [] => Ok tt
  | None :: _ => Throw (ArrayHole i)
  | Some desc :: rest =>
      if negb (desc_has_value desc) then Throw (ArrayAccessor i)
      else if is_function (desc_value desc) then Throw (ArrayMethod i)
      else if negb (desc_enumerable desc) then Throw (ArrayNotEnumerable i)
      else check_array_elems (S i) rest
  end.

Definition isPassByCopyArray (val : object) : result bool :=
  if negb (bool_decide (o_class val = CArray)) then Ok false
  else if negb (bool_decide (o_proto val = PIntrinsic ArrayPrototype))
  then Throw ArrayMalformed
  else
    let len := length (o_elems val) in
    check_array_elems 0 (o_elems val) ;;;
    if negb (length (own_string_entries val) =? len + 1) then Throw ArrayNonIndex
    else Ok true.

Fixpoint check_record_fields (descEntries : list (string * prop)) : result unit :=
  match descEntries with
  | [] => Ok tt
  | (key, desc) :: rest =>
      if negb (desc_has_value desc) then Throw (RecordAccessor key)
      else if negb (desc_enumerable desc) then Throw (RecordNotEnumerable key)
      else check_record_fields rest
  end.

Definition isPassByCopyRecord (val : object) : result bool :=
  if negb (bool_decide (o_proto val = PIntrinsic ObjectPrototype)) then Ok false
  else
    let descEntries := own_string_entries val in
    if length descEntries =? 0 then Ok false
    else if existsb (fun kd => is_function (desc_value (snd kd))) descEntries
    then Ok false
    else check_record_fields descEntries ;;; Ok true.

Fixpoint check_methods (o : object) (names : list string) : result unit :=
  match names with
  | [] => Ok tt
  | name :: rest =>
      match own_property o (KStr name) with
      | Some d =>
          if is_function (prop_get d) then check_methods o rest
          else Throw (RemotableNonMethod name)
      | None => Throw (RemotableNonMethod name)
      end
  end.

(** [assertCanBeRemotable(val)] *)
Definition assertCanBeRemotable (h : heap) (val : value) : result unit :=
  match val with
  | VNull => Throw RemotableNull
  | VObject a =>
      match h !! a with
      | None => Throw RemotableNonObject
      | Some o =>
          if bool_decide (o_class o = CArray) then Throw RemotableArray
          else check_methods o (getOwnPropertyNames o)
      end
  | _ => Throw RemotableNonObject
  end.

(** [assertCanBeRemotable] on the intrinsic prototypes: Array.prototype is
    an array; the error prototypes own the strings [name] and [message];
    the own string-named properties of Promise.prototype are all methods. *)
Definition assertCanBeRemotable_intrinsic (i : intrinsic) : result unit :=
  match i with
  | ObjectPrototype => Ok tt
  | ArrayPrototype => Throw RemotableArray
  | PromisePrototype => Ok tt
  | ErrorPrototype _ => Throw (RemotableNonMethod "name")
  end.

(** [mustPassByRemote] along the prototype chain. *)
Fixpoint mustPassByRemote_proto (fuel : nat) (h : heap) (reg : registry)
    (p : proto) : result unit :=
  match p with
  | PNull => Ok tt
  | PIntrinsic ObjectPrototype => Ok tt
  | PIntrinsic i =>
      assertCanBeRemotable_intrinsic i ;;;
      match fuel with
      | S fuel' => mustPassByRemote_proto fuel' h reg (intrinsic_proto i)
      | O => OutOfFuel
      end
  | PObject a =>
      match fuel with
      | O => OutOfFuel
      | S fuel' =>
          match h !! a with
          | None => Throw RemotableNonObject
          | Some o =>
              if negb (o_frozen o) then Throw RemotableNotFrozen
              else
                (match getInterfaceOf reg (VObject a) with
                 | None => assertCanBeRemotable h (VObject a)
                 | Some _ => Ok tt
                 end) ;;;
                mustPassByRemote_proto fuel' h reg (o_proto o)
          end
      end
  end.

(** [mustPassByRemote(val)] for a heap object. *)
Definition mustPassByRemote (h : heap) (reg : registry) (a : addr) : result unit :=
  mustPassByRemote_proto (4 + length h) h reg (PObject a).

(** [passStyleOf(val)] *)
Definition passStyleOf (h : heap) (reg : registry) (val : value) : result PassStyle :=
  match typeof val with
  | TyObject =>
      if truthy_iface (getInterfaceOf reg val) then Ok REMOTE_STYLE
      else
        match val with
        | VObject a =>
            match h !! a with
            | None => Throw RemotableNonObject
            | Some o =>
                if has_property h o (KStr QCLASS) then Throw ReservedQclass
                else if negb (o_frozen o) then Throw NotFrozen
                else if isPromise o then Ok PSpromise
                else if is_function (get h o (KStr "then")) then Throw NonPromiseThenable
                else
                  isErr <- isPassByCopyError h o ;;
                  if isErr then Ok PScopyError
                  else
                    isArr <- isPassByCopyArray o ;;
                    if isArr then Ok PScopyArray
                    else
                      isRec <- isPassByCopyRecord o ;;
                      if isRec then Ok PScopyRecord
                      else
                        mustPassByRemote h reg a ;;;
                        Ok REMOTE_STYLE
            end
        | _ => Ok PSnull
        end
  | TyFunction => Throw BareFunction
  | TyUndefined => Ok PSundefined
  | TyString => Ok PSstring
  | TyBoolean => Ok PSboolean
  | TyNumber => Ok PSnumber
  | TyBigint => Ok PSbigint
  | TySymbol => Ok PSsymbol
  end.

(** ** JSON: the raw tree, JSON.stringify and JSON.parse *)

(** The plain data that [encode] builds and [JSON.parse] returns.  The
    members of an object are listed in own-property-key order. *)
#[warnings="-register-all"]
Inductive json : Type :=
  | JNull
  | JBool (b : bool)
  | JNum (n : number)
  | JStr (s : string)
  | JArr (l : list json)
  | JObj (l : list (string * json)).

Definition dquote : ascii := "034"%char.
Definition backslash : ascii := "092"%char.

Definition hex_digit (n : nat) : ascii :=
  if n <? 10 then ascii_of_nat (48 + n) else ascii_of_nat (87 + n).

(** QuoteJSONString, one code unit. *)
Definition quote_char (c : ascii) : string :=
  let n := nat_of_ascii c in
  if Ascii.eqb c dquote then String backslash (String dquote EmptyString)
  else if Ascii.eqb c backslash then String backslash (String backslash EmptyString)
  else if n =? 8 then String backslash "b"
  else if n =? 12 then String backslash "f"
  else if n =? 10 then String backslash "n"
  else if n =? 13 then String backslash "r"
  else if n =? 9 then String backslash "t"
  else if n <? 32 then
    String backslash
      (String "u" (String "0" (String "0"
        (String (hex_digit (n / 16)) (String (hex_digit (n mod 16)) EmptyString)))))
  else String c EmptyString.

Fixpoint quote_chars (s : string) : string :=
  match s with
  | EmptyString => EmptyString
  | String c s' => quote_char c +:+ quote_chars s'
  end.

Definition quoteJSONString (s : string) : string :=
  String dquote (quote_chars s +:+ String dquote EmptyString).

(** Number::toString as JSON.stringify uses it: not finite gives null. *)
Definition number_to_json (n : number) : string :=
  match n with
  | Fin z => string_of_Z z
  | NegZero => "0"
  | NaN | PosInfinity | NegInfinity => "null"
  end.

(** The elements of an array after the first, each behind a comma. *)
Fixpoint stringify_elements (stringify : json -> string) (l : list json) : string :=
  match l with
  | [] => EmptyString
  | t :: l' => "," +:+ stringify t +:+ stringify_elements stringify l'
  end.

(** The members of an object after the first, each behind a comma. *)
Fixpoint stringify_members (stringify : json -> string) (l : list (string * json))
    : string :=
  match l with
  | [] => EmptyString
  | (k, t) :: l' =>
      "," +:+ quoteJSONString k +:+ ":" +:+ stringify t +:+ stringify_members stringify l'
  end.

Fixpoint stringify (t : json) : string :=
  match t with
  | JNull => "null"
  | JBool true => "true"
  | JBool false => "false"
  | JNum n => number_to_json n
  | JStr s => quoteJSONString s
  | JArr [] => "[]"
  | JArr (t0 :: l) =>
      "[" +:+ stringify t0 +:+ stringify_elements stringify l +:+ "]"
  | JObj [] => "{}"
  | JObj ((k0, t0) :: l) =>
      "{" +:+ quoteJSONString k0 +:+ ":" +:+ stringify t0 +:+
      stringify_members stringify l +:+ "}"
  end.

Fixpoint json_size (t : json) : nat :=
  match t with
  | JArr l => S (foldr (fun t n => S (json_size t + n)) 0 l)
  | JObj l => S (foldr (fun kt n => S (json_size (snd kt) + n)) 0 l)
  | _ => 1
  end.

(** [JSON.stringify(value)] *)
Definition JSON_stringify (t : json) : string := stringify t.

Definition is_ws (c : ascii) : bool :=
  let n := nat_of_ascii c in
  (n =? 32) || (n =? 9) || (n =? 10) || (n =? 13).

Fixpoint skip_ws (s : string) : string :=
  match s with
  | String c s' => if is_ws c then skip_ws s' else s
  | EmptyString => s
  end.

Definition digit_of (c : ascii) : option (Decimal.uint -> Decimal.uint) :=
  match c with
  | "0" => Some Decimal.D0 | "1" => Some Decimal.D1 | "2" => Some Decimal.D2
  | "3" => Some Decimal.D3 | "4" => Some Decimal.D4 | "5" => Some Decimal.D5
  | "6" => Some Decimal.D6 | "7" => Some Decimal.D7 | "8" => Some Decimal.D8
  | "9" => Some Decimal.D9
  | _ => None
  end%char.

(** The longest prefix of decimal digits, and what follows it. *)
Fixpoint read_digits (s : string) : Decimal.uint * string :=
  match s with
  | String c s' =>
      match digit_of c with
      | Some d => let '(ds, rest) := read_digits s' in (d ds, rest)
      | None => (Decimal.Nil, s)
      end
  | EmptyString => (Decimal.Nil, s)
  end.

Definition starts_fraction_or_exponent (s : string) : bool :=
  match s with
  | String c _ => Ascii.eqb c "." || Ascii.eqb c "e" || Ascii.eqb c "E"
  | EmptyString => false
  end.

(** A JSON number.  Integers are read exactly; a fraction or an exponent
    is outside the modelled numbers. *)
Definition parse_digits (negative : bool) (s : string) : result (number * string) :=
  let '(d, s2) := read_digits s in
  if Decimal.uint_beq d Decimal.Nil then Throw JSONSyntax
  else if negb (Decimal.uint_beq (Decimal.unorm d) d) then Throw JSONSyntax
  else if starts_fraction_or_exponent s2 then Throw JSONUnmodelled
  else
    let z := Z.of_uint d in
    Ok (if negative then (if (z =? 0)%Z then NegZero else Fin (- z)) else Fin z, s2).

Definition parse_number (s : string) : result (number * string) :=
  match s with
  | String c r => if Ascii.eqb c "-" then parse_digits true r else parse_digits false s
  | EmptyString => Throw JSONSyntax
  end.

Definition hex_value (c : ascii) : option nat :=
  let n := nat_of_ascii c in
  if (48 <=? n) && (n <=? 57) then Some (n - 48)
  else if (97 <=? n) && (n <=? 102) then Some (n - 87)
  else if (65 <=? n) && (n <=? 70) then Some (n - 55)
  else None.

(** The characters of a JSON string after its opening quote, up to and
    including the closing quote. *)
Fixpoint parse_string (s : string) : result (string * string) :=
  match s with
  | EmptyString => Throw JSONSyntax
  | String c s' =>
      if Ascii.eqb c dquote then Ok (EmptyString, s')
      else if Ascii.eqb c backslash then
        match s' with
        | String e s'' =>
            if Ascii.eqb e "u" then
              match s'' with
              | String h1 (String h2 (String h3 (String h4 s3))) =>
                  match hex_value h1, hex_value h2, hex_value h3, hex_value h4 with
                  | Some a, Some b, Some c1, Some d =>
                      if (a =? 0) && (b =? 0) then
                        r <- parse_string s3 ;;
                        Ok (String (ascii_of_nat (c1 * 16 + d)) (fst r), snd r)
                      else Throw JSONUnmodelled
                  | _, _, _, _ => Throw JSONSyntax
                  end
              | _ => Throw JSONSyntax
              end
            else
              let unescaped :=
                if Ascii.eqb e dquote then Some dquote
                else if Ascii.eqb e backslash then Some backslash
                else if Ascii.eqb e "/" then Some "/"%char
                else if Ascii.eqb e "b" then Some (ascii_of_nat 8)
                else if Ascii.eqb e "f" then Some (ascii_of_nat 12)
                else if Ascii.eqb e "n" then Some (ascii_of_nat 10)
                else if Ascii.eqb e "r" then Some (ascii_of_nat 13)
                else if Ascii.eqb e "t" then Some (ascii_of_nat 9)
                else None in
              match unescaped with
              | Some u =>
                  r <- parse_string s'' ;;
                  Ok (String u (fst r), snd r)
              | None => Throw JSONSyntax
              end
        | EmptyString => Throw JSONSyntax
        end
      else if nat_of_ascii c <? 32 then Throw JSONSyntax
      else
        r <- parse_string s' ;;
        Ok (String c (fst r), snd r)
  end.

(** [expect lit s]: [s] without its prefix [lit]. *)
Fixpoint expect (lit s : string) : option string :=
  match lit, s with
  | EmptyString, _ => Some s
  | String a lit', String b s' => if Ascii.eqb a b then expect lit' s' else None
  | _, _ => None
  end.

Definition is_number_start (c : ascii) : bool :=
  Ascii.eqb c "-" || match digit_of c with Some _ => true | None => false end.

(** JSON.parse's grammar.  An object is built member by member with
    CreateDataProperty, so that a repeated name keeps its place and takes
    the last value, and array-index names move to the front. *)
Fixpoint parse_value (fuel : nat) (s : string) : result (json * string) :=
  match fuel with
  | O => OutOfFuel
  | S fuel' =>
      match skip_ws s with
      | EmptyString => Throw JSONSyntax
      | String c rest =>
          if Ascii.eqb c "n" then
            match expect "ull" rest with Some r => Ok (JNull, r) | None => Throw JSONSyntax end
          else if Ascii.eqb c "t" then
            match expect "rue" rest with
            | Some r => Ok (JBool true, r) | None => Throw JSONSyntax end
          else if Ascii.eqb c "f" then
            match expect "alse" rest with
            | Some r => Ok (JBool false, r) | None => Throw JSONSyntax end
          else if Ascii.eqb c dquote then
            r <- parse_string rest ;; Ok (JStr (fst r), snd r)
          else if Ascii.eqb c "[" then
            match skip_ws rest with
            | String "]" r => Ok (JArr [], r)
            | _ => r <- parse_elements fuel' rest [] ;; Ok (JArr (fst r), snd r)
            end
          else if Ascii.eqb c "{" then
            match skip_ws rest with
            | String "}" r => Ok (JObj [], r)
            | _ => r <- parse_members fuel' rest [] ;; Ok (JObj (fst r), snd r)
            end
          else if is_number_start c then
            r <- parse_number (String c rest) ;; Ok (JNum (fst r), snd r)
          else Throw JSONSyntax
      end
  end
with parse_elements (fuel : nat) (s : string) (acc : list json)
    : result (list json * string) :=
  match fuel with
  | O => OutOfFuel
  | S fuel' =>
      r <- parse_value fuel' s ;;
      match skip_ws (snd r) with
      | String "," rest => parse_elements fuel' rest (acc ++ [fst r])
      | String "]" rest => Ok (acc ++ [fst r], rest)
      | _ => Throw JSONSyntax
      end
  end
with parse_members (fuel : nat) (s : string) (acc : list (string * json))
    : result (list (string * json) * string) :=
  match fuel with
  | O => OutOfFuel
  | S fuel' =>
      match skip_ws s with
      | String c rest =>
          if Ascii.eqb c dquote then
            k <- parse_string rest ;;
            match skip_ws (snd k) with
            | String ":" rest1 =>
                r <- parse_value fuel' rest1 ;;
                let acc' := create_data_property string_rank (fst k) (fst r) acc in
                match skip_ws (snd r) with
                | String "," rest2 => parse_members fuel' rest2 acc'
                | String "}" rest2 => Ok (acc', rest2)
                | _ => Throw JSONSyntax
                end
            | _ => Throw JSONSyntax
            end
          else Throw JSONSyntax
      | EmptyString => Throw JSONSyntax
      end
  end.

(** [JSON.parse(text)] *)
Definition JSON_parse (text : string) : result json :=
  r <- parse_value (2 * String.length text + 2) text ;;
  match skip_ws (snd r) with
  | EmptyString => Ok (fst r)
  | _ => Throw JSONSyntax
  end.

(** Quoted text: the apostrophes of [s] stand for double quotes. *)
Fixpoint qq (s : string) : string :=
  match s with
  | EmptyString => EmptyString
  | String c s' => String (if Ascii.eqb c "'" then dquote else c) (qq s')
  end.

(** ** The encoder *)

(** [String(x)] and template interpolation, on the primitives the marshal
    code converts (error names and messages are strings already). *)
Definition to_string (v : value) : string :=
  match v with
  | VString s => s
  | VUndefined => "undefined"
  | VNull => "null"
  | VBool true => "true"
  | VBool false => "false"
  | VNumber n =>
      match n with
      | NaN => "NaN" | PosInfinity => "Infinity" | NegInfinity => "-Infinity"
      | NegZero => "0" | Fin z => string_of_Z z
      end
  | VBigInt z => string_of_Z z
  | VSymbol _ => "Symbol()"
  | VFunction _ => "function"
  | VObject _ => "[object Object]"
  end.

(** The default comparison of [Array.prototype.sort]: strings by code
    units. *)
Fixpoint sort_insert (s : string) (l : list string) : list string :=
  match l with
  | [] => [s]
  | s' :: l' => if String.leb s s' then s :: l else s' :: sort_insert s l'
  end.

Definition sort_strings (l : list string) : list string :=
  foldr sort_insert [] l.

(** [Object.fromEntries(entries)] *)
Definition fromEntries (entries : list (string * json)) : list (string * json) :=
  fold_left (fun acc kv => create_data_property string_rank (fst kv) (snd kv) acc)
    entries [].

(** The state of one [serialize] call, with the error counter of the
    marshal instance. *)
Record EncState : Type := mkEncState {
  slots : list value;
  slotMap : gmap addr nat;
  ibidMap : gmap addr nat;       (* makeReplacerIbidTable *)
  ibidCount : nat;
  errorCount : nat;
}.

Definition ibid_add (obj : addr) (st : EncState) : EncState :=
  {| slots := slots st; slotMap := slotMap st;
     ibidMap := <[obj := ibidCount st]> (ibidMap st);
     ibidCount := ibidCount st + 1;
     errorCount := errorCount st |}.

Definition qclass_envelope (q : string) (fields : list (string * json)) : json :=
  JObj ((QCLASS, JStr q) :: fields).

Definition json_of_nat (n : nat) : json := JNum (Fin (Z.of_nat n)).

Record capdata : Type := mkCapdata {
  body : string;
  cap_slots : list value;
}.

Section Marshal.
(** [makeMarshal(convertValToSlot, convertSlotToVal, { marshalName })] *)
Variable convertValToSlot : value -> value.
Variable convertSlotToVal : value -> option json -> value.
Variable marshalName : string.

Definition nextErrorId (st : EncState) : string * EncState :=
  let n := errorCount st + 1 in
  ("error:" +:+ marshalName +:+ "#" +:+ string_of_nat n,
   {| slots := slots st; slotMap := slotMap st; ibidMap := ibidMap st;
      ibidCount := ibidCount st; errorCount := n |}).

Definition serializeSlot (val : addr) (iface : option string) (st : EncState)
    : json * EncState :=
  let '(slotIndex, st') :=
    match slotMap st !! val with
    | Some i => (i, st)
    | None =>
        let slot := convertValToSlot (VObject val) in
        let slotIndex := length (slots st) in
        (slotIndex,
         {| slots := slots st ++ [slot];
            slotMap := <[val := slotIndex]> (slotMap st);
            ibidMap := ibidMap st; ibidCount := ibidCount st;
            errorCount := errorCount st |})
    end in
  match iface with
  | None => (qclass_envelope "slot" [("index", json_of_nat slotIndex)], st')
  | Some i =>
      (qclass_envelope "slot" [("iface", JStr i); ("index", json_of_nat slotIndex)],
       st')
  end.

Definition heap_object (h : heap) (a : addr) : result object :=
  match h !! a with
  | Some o => Ok o
  | None => Throw RemotableNonObject
  end.

(** [names.map(name => [name, encode(val[name])])] *)
Fixpoint encode_fields (encode : value -> EncState -> result (json * EncState))
    (h : heap) (o : object) (names : list string) (st : EncState)
    : result (list (string * json) * EncState) :=
  match names with
  | [] => Ok ([], st)
  | name :: names' =>
      r <- encode (get h o (KStr name)) st ;;
      rs <- encode_fields encode h o names' (snd r) ;;
      Ok ((name, fst r) :: fst rs, snd rs)
  end.

(** [val.map(encode)]; a hole stays a hole, which JSON.stringify writes as
    null. *)
Fixpoint encode_elements (encode : value -> EncState -> result (json * EncState))
    (elems : list (option prop)) (st : EncState) : result (list json * EncState) :=
  match elems with
  | [] => Ok ([], st)
  | Some d :: elems' =>
      r <- encode (prop_get d) st ;;
      rs <- encode_elements encode elems' (snd r) ;;
      Ok (fst r :: fst rs, snd rs)
  | None :: elems' =>
      rs <- encode_elements encode elems' st ;;
      Ok (JNull :: fst rs, snd rs)
  end.

Fixpoint encode (fuel : nat) (h : heap) (reg : registry) (val : value)
    (st : EncState) : result (json * EncState) :=
  match fuel with
  | O => OutOfFuel
  | S fuel' =>
      passStyle <- passStyleOf h reg val ;;
      match passStyle with
      | PSnull => Ok (JNull, st)
      | PSundefined => Ok (qclass_envelope "undefined" [], st)
      | PSstring =>
          match val with VString s => Ok (JStr s, st) | _ => Throw NonDataField end
      | PSboolean =>
          match val with VBool b => Ok (JBool b, st) | _ => Throw NonDataField end
      | PSnumber =>
          match val with
          | VNumber NaN => Ok (qclass_envelope "NaN" [], st)
          | VNumber NegZero => Ok (JNum (Fin 0), st)
          | VNumber PosInfinity => Ok (qclass_envelope "Infinity" [], st)
          | VNumber NegInfinity => Ok (qclass_envelope "-Infinity" [], st)
          | VNumber n => Ok (JNum n, st)
          | _ => Throw NonDataField
          end
      | PSbigint =>
          Ok (qclass_envelope "bigint" [("digits", JStr (to_string val))], st)
      | PSsymbol =>
          match val with
          | VSymbol SymAsyncIterator => Ok (qclass_envelope "@@asyncIterator" [], st)
          | _ => Throw UnsupportedSymbol
          end
      | _ =>
          match val with
          | VObject a =>
              match ibidMap st !! a with
              | Some index =>
                  (* Backreference to prior occurrence *)
                  Ok (qclass_envelope "ibid" [("index", json_of_nat index)], st)
              | None =>
                  let st := ibid_add a st in
                  match passStyle with
                  | PScopyRecord =>
                      o <- heap_object h a ;;
                      if negb (length (symbol_keys o) =? 0) then Throw SortSymbolKey
                      else
                        let names := sort_strings (getOwnPropertyNames o) in
                        r <- encode_fields (encode fuel' h reg) h o names st ;;
                        Ok (JObj (fromEntries (fst r)), snd r)
                  | PScopyArray =>
                      o <- heap_object h a ;;
                      r <- encode_elements (encode fuel' h reg) (o_elems o) st ;;
                      Ok (JArr (fst r), snd r)
                  | PScopyError =>
                      o <- heap_object h a ;;
                      let '(errorId, st) := nextErrorId st in
                      (* assert.note and console.log of the error sent *)
                      Ok (qclass_envelope "error"
                            [("errorId", JStr errorId);
                             ("message", JStr (to_string (get h o (KStr "message"))));
                             ("name", JStr (to_string (get h o (KStr "name"))))],
                          st)
                  | REMOTE_STYLE =>
                      let iface := getInterfaceOf reg val in
                      Ok (serializeSlot a iface st)
                  | PSpromise => Ok (serializeSlot a None st)
                  | _ => Throw NonDataField
                  end
              end
          | _ => Throw NonDataField
          end
      end
  end.

Definition init_EncState (errorCount : nat) : EncState :=
  {| slots := []; slotMap := ∅; ibidMap := ∅; ibidCount := 0;
     errorCount := errorCount |}.

(** [serialize(root)].  The error counter of the marshal instance goes in
    and comes out.  A traversal never nests deeper than the number of
    heap objects, each level announcing a new object to the ibid table. *)
Definition serialize (h : heap) (reg : registry) (errorCount0 : nat) (root : value)
    : result (capdata * nat) :=
  r <- encode (S (length h)) h reg root (init_EncState errorCount0) ;;
  Ok ({| body := JSON_stringify (fst r); cap_slots := slots (snd r) |},
      errorCount (snd r)).
(** *** The decoder *)

(** [makeReviverIbidTable(cyclePolicy)]: the table and the heap in which
    the decoder builds the graph. *)
Record RevState : Type := mkRevState {
  r_heap : heap;
  ibids : list value;
  unfinishedIbids : gset addr;
}.

(** [unfinishedIbids.has(result)]; a WeakSet holds objects only. *)
Definition unfinished_has (st : RevState) (found : value) : bool :=
  match found with
  | VObject a => bool_decide (a ∈ unfinishedIbids st)
  | _ => false
  end.

(** Modelled from the spec: [Nat] is imported from @agoric/nat, which is
    not part of the sources.  It returns its argument when it is a safe
    non-negative integer and raises a RangeError otherwise. *)
Definition Nat' (allegedNum : option json) : result nat :=
  match allegedNum with
  | Some (JNum (Fin z)) =>
      if (0 <=? z)%Z && (z <=? 9007199254740991)%Z then Ok (Z.to_nat z)
      else Throw NatRange
  | Some (JNum NegZero) => Ok 0
  | _ => Throw NatRange
  end.

Definition value_is (v : value) (s : string) : bool :=
  match v with VString s' => String.eqb s' s | _ => false end.

Definition ibid_get (cyclePolicy : value) (allegedIndex : option json)
    (st : RevState) : result value :=
  index <- Nat' allegedIndex ;;
  if length (ibids st) <=? index then Throw (IbidOutOfRange index)
  else
    match ibids st !! index with
    | None => Throw (IbidOutOfRange index)
    | Some found =>
        if unfinished_has st found then
          if value_is cyclePolicy "allowCycles" then Ok found
          else if value_is cyclePolicy "warnOfCycles" then
            (* console.log of a warning *)
            Ok found
          else if value_is cyclePolicy "forbidCycles" then Throw (IbidCycle index)
          else Throw UnrecognizedCyclePolicy
        else Ok found
    end.

Definition ibid_register (obj : value) (st : RevState) : RevState :=
  {| r_heap := r_heap st; ibids := ibids st ++ [obj];
     unfinishedIbids := unfinishedIbids st |}.

(** [ibidTable.start(obj)] for a newly made object: it is allocated at
    the next free address. *)
Definition ibid_start (obj : object) (st : RevState) : addr * RevState :=
  let a := length (r_heap st) in
  (a, {| r_heap := r_heap st ++ [obj];
         ibids := ibids st ++ [VObject a];
         unfinishedIbids := {[ a ]} ∪ unfinishedIbids st |}).

Definition ibid_finish (a : addr) (st : RevState) : RevState :=
  {| r_heap := r_heap st; ibids := ibids st;
     unfinishedIbids := unfinishedIbids st ∖ {[ a ]} |}.

Definition set_heap (h : heap) (st : RevState) : RevState :=
  {| r_heap := h; ibids := ibids st; unfinishedIbids := unfinishedIbids st |}.

Definition new_object : object :=
  mkObject COrdinary (PIntrinsic ObjectPrototype) false [] [].

Definition new_array : object :=
  mkObject CArray (PIntrinsic ArrayPrototype) false [] [].

(** [harden(new EC(message))] *)
Definition new_error (EC : errclass) (message : string) : object :=
  mkObject CError (PIntrinsic (ErrorPrototype EC)) true []
    [(KStr "message", DataProp (VString message) false)].

(** Whether the prototype chain from [p] passes through the object [a]. *)
Fixpoint chain_reaches (fuel : nat) (h : heap) (p : proto) (a : addr) : bool :=
  match p with
  | PObject b =>
      if decide (a = b) then true
      else
        match fuel, h !! b with
        | S fuel', Some o => chain_reaches fuel' h (o_proto o) a
        | _, _ => false
        end
  | _ => false
  end.

(** Whether what an object inherits from [p] refuses an assignment to the
    key [k]: the first object of the chain that owns [k] holds it in an
    accessor (an accessor of the model has no setter) or, being frozen, in
    a data property, which then is not writable.  The intrinsic prototypes
    do not refuse: under SES assignment overrides what they provide. *)
Fixpoint inherited_refuses (fuel : nat) (h : heap) (p : proto) (k : pkey) : bool :=
  match p with
  | PObject b =>
      match fuel, h !! b with
      | S fuel', Some o =>
          match own_property o k with
          | Some (DataProp _ _) => o_frozen o
          | Some (AccessorProp _ _) => true
          | None => inherited_refuses fuel' h (o_proto o) k
          end
      | _, _ => false
      end
  | _ => false
  end.

(** [result[name] = v], in strict code, on an object under construction.
    The name [__proto__] reaches the accessor of Object.prototype, which
    sets the prototype when [v] is an object or null and does nothing
    otherwise.  Any other name is looked up first: a property of the
    object itself takes the value; a property that the object inherits
    from a heap object (its prototype after an assignment to [__proto__])
    may refuse, and the assignment throws; otherwise the assignment
    defines an own enumerable data property. *)
Definition assign_field (a : addr) (name : string) (v : value) (h : heap)
    : result heap :=
  match h !! a with
  | None => Ok h
  | Some o =>
      let define :=
        if match assoc (KStr name) (o_props o) with
           | Some _ => false
           | None => inherited_refuses (length h) h (o_proto o) (KStr name)
           end
        then Throw AssignInherited
        else
          Ok (<[a := mkObject (o_class o) (o_proto o) (o_frozen o) (o_elems o)
                       (create_data_property pkey_rank (KStr name) (DataProp v true)
                          (o_props o))]> h) in
      if String.eqb name "__proto__" then
        match o_proto o with
        | PIntrinsic ObjectPrototype =>
            match v with
            | VObject b =>
                if chain_reaches (length h) h (PObject b) a then Throw CyclicProto
                else
                  Ok (<[a := mkObject (o_class o) (PObject b) (o_frozen o)
                               (o_elems o) (o_props o)]> h)
            | VNull =>
                Ok (<[a := mkObject (o_class o) PNull (o_frozen o)
                             (o_elems o) (o_props o)]> h)
            | _ => Ok h
            end
        | _ => define
        end
      else define
  end.

(** [result[i] = v] for the next index of an array under construction. *)
Definition assign_element (a : addr) (v : value) (h : heap) : heap :=
  match h !! a with
  | None => h
  | Some o =>
      <[a := mkObject (o_class o) (o_proto o) (o_frozen o)
               (o_elems o ++ [Some (DataProp v true)]) (o_props o)]> h
  end.

(** Modelled from the spec: [BigInt] applied to a string.  An optional
    sign and decimal digits; the empty string is zero.  The other
    literal forms of StringToBigInt (surrounding white space, the
    prefixes 0x, 0o and 0b) are not modelled. *)
Definition BigInt (s : string) : result Z :=
  let digits (s : string) : result Z :=
    match s, NilEmpty.uint_of_string s with
    | String _ _, Some d => Ok (Z.of_uint d)
    | _, _ => Throw BigIntSyntax
    end in
  match s with
  | EmptyString => Ok 0%Z
  | String "-" r => z <- digits r ;; Ok (- z)%Z
  | String "+" r => digits r
  | _ => digits s
  end.

Definition json_is_string (t : option json) : option string :=
  match t with Some (JStr s) => Some s | _ => None end.

(** [for (const name of names) result[name] = fullRevive(rawTree[name])] *)
Fixpoint revive_fields (fullRevive : json -> RevState -> result (value * RevState))
    (obj : addr) (members : list (string * json)) (st : RevState) : result RevState :=
  match members with
  | [] => Ok st
  | (name, t) :: members' =>
      r <- fullRevive t st ;;
      h <- assign_field obj name (fst r) (r_heap (snd r)) ;;
      revive_fields fullRevive obj members' (set_heap h (snd r))
  end.

(** [for (let i = 0; i < len; i += 1) result[i] = fullRevive(rawTree[i])] *)
Fixpoint revive_elements (fullRevive : json -> RevState -> result (value * RevState))
    (obj : addr) (elems : list json) (st : RevState) : result RevState :=
  match elems with
  | [] => Ok st
  | t :: elems' =>
      r <- fullRevive t st ;;
      revive_elements fullRevive obj elems'
        (set_heap (assign_element obj (fst r) (r_heap (snd r))) (snd r))
  end.

Section Revive.
Variable slots_in : list value.
Variable cyclePolicy : value.

Fixpoint fullRevive (rawTree : json) (st : RevState) : result (value * RevState) :=
  match rawTree with
  | JNull => Ok (VNull, st)
  | JBool b => Ok (VBool b, st)
  | JNum n => Ok (VNumber n, st)
  | JStr s => Ok (VString s, st)
  | JObj members =>
      match assoc QCLASS members with
      | Some qclass =>
          match qclass with
          | JStr qclass =>
              if String.eqb qclass "undefined" then Ok (VUndefined, st)
              else if String.eqb qclass "NaN" then Ok (VNumber NaN, st)
              else if String.eqb qclass "Infinity" then Ok (VNumber PosInfinity, st)
              else if String.eqb qclass "-Infinity" then Ok (VNumber NegInfinity, st)
              else if String.eqb qclass "bigint" then
                match json_is_string (assoc "digits" members) with
                | None => Throw InvalidDigits
                | Some digits => z <- BigInt digits ;; Ok (VBigInt z, st)
                end
              else if String.eqb qclass "@@asyncIterator" then
                Ok (VSymbol SymAsyncIterator, st)
              else if String.eqb qclass "ibid" then
                v <- ibid_get cyclePolicy (assoc "index" members) st ;;
                Ok (v, st)
              else if String.eqb qclass "error" then
                match json_is_string (assoc "name" members) with
                | None => Throw InvalidErrorName
                | Some name =>
                    match json_is_string (assoc "message" members) with
                    | None => Throw InvalidErrorMessage
                    | Some message =>
                        let EC :=
                          match getErrorConstructor (VString name) with
                          | Some EC => EC
                          | None => EError
                          end in
                        let a := length (r_heap st) in
                        let st := set_heap (r_heap st ++ [new_error EC message]) st in
                        (* a string errorId is noted on the error *)
                        Ok (VObject a, ibid_register (VObject a) st)
                    end
                end
              else if String.eqb qclass "slot" then
                index <- Nat' (assoc "index" members) ;;
                let slot :=
                  match slots_in !! index with
                  | Some slot => slot
                  | None => VUndefined
                  end in
                let v := convertSlotToVal slot (assoc "iface" members) in
                Ok (v, ibid_register v st)
              else Throw (UnrecognizedQclass qclass)
          | _ => Throw InvalidQclassType
          end
      | None =>
          let '(obj, st) := ibid_start new_object st in
          st <- revive_fields fullRevive obj members st ;;
          Ok (VObject obj, ibid_finish obj st)
      end
  | JArr elems =>
      let '(obj, st) := ibid_start new_array st in
      st <- revive_elements fullRevive obj elems st ;;
      Ok (VObject obj, ibid_finish obj st)
  end.
End Revive.

Definition freeze (o : object) : object :=
  mkObject (o_class o) (o_proto o) true (o_elems o) (o_props o).

(** Modelled from the spec: [harden] is provided by SES, which is not
    part of the sources.  It freezes every object reachable from the
    value through own properties and prototypes, and stops at objects
    that are frozen already. *)
Fixpoint harden_from (fuel : nat) (v : value) (h : heap) : heap :=
  match fuel with
  | O => h
  | S fuel' =>
      match v with
      | VObject a =>
          match h !! a with
          | Some o =>
              if o_frozen o then h
              else
                let h1 := <[a := freeze o]> h in
                let h2 :=
                  foldl (fun h kd => harden_from fuel' (desc_value (snd kd)) h)
                    h1 (o_props o) in
                let h3 :=
                  foldl (fun h e =>
                           match e with
                           | Some d => harden_from fuel' (desc_value d) h
                           | None => h
                           end) h2 (o_elems o) in
                match o_proto o with
                | PObject p => harden_from fuel' (VObject p) h3
                | _ => h3
                end
          | None => h
          end
      | _ => h
      end
  end.

Definition harden (v : value) (h : heap) : heap :=
  harden_from (S (length h)) v h.

(** [unserialize(data, cyclePolicy = 'forbidCycles')].  The two checks on
    the shape of [data] hold by its type. *)
Definition unserialize (h : heap) (data : capdata) (cyclePolicy : value)
    : result (value * heap) :=
  let cyclePolicy :=
    match cyclePolicy with
    | VUndefined => VString "forbidCycles"
    | _ => cyclePolicy
    end in
  rawTree <- JSON_parse (body data) ;;
  r <- fullRevive (cap_slots data) cyclePolicy rawTree
         {| r_heap := h; ibids := []; unfinishedIbids := ∅ |} ;;
  Ok (fst r, harden (fst r) (r_heap (snd r))).
End Marshal.

(** The default translators of [makeMarshal]. *)
Definition defaultValToSlotFn (x : value) : value := x.
Definition defaultSlotToValFn (x : value) (_ : option json) : value := x.

(** ** sameValueZero and structural equality *)

(** [x === y] *)
Definition strict_equals (x y : value) : bool :=
  match x, y with
  | VNumber NaN, _ | _, VNumber NaN => false
  | VNumber NegZero, VNumber (Fin 0) | VNumber (Fin 0), VNumber NegZero => true
  | _, _ => bool_decide (x = y)
  end.

(** [Object.is(x, y)] *)
Definition Object_is (x y : value) : bool := bool_decide (x = y).

Definition sameValueZero (x y : value) : bool :=
  strict_equals x y || Object_is x y.

Definition is_primitive (v : value) : bool :=
  match v with
  | VObject _ | VFunction _ => false
  | _ => true
  end.

(** Modelled from the spec: structural equality of two values ([≡] in the
    spec; the package that implements it is not part of the sources).
    Primitives are compared with [sameValueZero]; two sequences are equal
    when they have equal elements in order; two records when they have
    the same field names and equal values under each name; two errors when
    they have the same name and the same message.  The identity of the
    objects plays no part. *)
#[warnings="-register-all"]
Inductive sameStructure (h : heap) : value -> value -> Prop :=
  | same_primitive (x y : value) :
      is_primitive x = true ->
      sameValueZero x y = true ->
      sameStructure h x y
  | same_array (a b : addr) (oa ob : object) :
      h !! a = Some oa -> h !! b = Some ob ->
      o_class oa = CArray -> o_class ob = CArray ->
      Forall2 (fun ea eb =>
                 exists da db, ea = Some da /\ eb = Some db /\
                   sameStructure h (prop_get da) (prop_get db))
        (o_elems oa) (o_elems ob) ->
      sameStructure h (VObject a) (VObject b)
  | same_record (a b : addr) (oa ob : object) :
      h !! a = Some oa -> h !! b = Some ob ->
      o_class oa <> CArray -> o_class ob <> CArray ->
      instanceof_Error h oa = false -> instanceof_Error h ob = false ->
      (forall name, is_Some (own_property oa (KStr name)) <->
                    is_Some (own_property ob (KStr name))) ->
      (forall name da, own_property oa (KStr name) = Some da ->
         exists db, own_property ob (KStr name) = Some db /\
           sameStructure h (prop_get da) (prop_get db)) ->
      sameStructure h (VObject a) (VObject b)
  | same_error (a b : addr) (oa ob : object) :
      h !! a = Some oa -> h !! b = Some ob ->
      o_class oa <> CArray -> o_class ob <> CArray ->
      instanceof_Error h oa = true -> instanceof_Error h ob = true ->
      get h oa (KStr "name") = get h ob (KStr "name") ->
      get h oa (KStr "message") = get h ob (KStr "message") ->
      sameStructure h (VObject a) (VObject b).

(** ** Remotable *)

Definition starts_with (prefix s : string) : bool :=
  match expect prefix s with Some _ => true | None => false end.

Fixpoint string_entries_from (i : nat) (s : string) : list (string * value) :=
  match s with
  | EmptyString => []
  | String c s' =>
      (string_of_nat i, VString (String c EmptyString)) :: string_entries_from (S i) s'
  end.

(** [Object.entries(props)]: the enumerable own string-keyed properties
    and the values read from them. *)
Definition Object_entries (h : heap) (props : value) : result (list (string * value)) :=
  match props with
  | VUndefined | VNull => Throw PropsNotObject
  | VObject a =>
      match h !! a with
      | Some o =>
          Ok (omap (fun kd => if desc_enumerable (snd kd)
                              then Some (fst kd, prop_get (snd kd)) else None)
                (own_string_entries o))
      | None => Ok []
      end
  | VString s => Ok (string_entries_from 0 s)
  | _ => Ok []
  end.

(** [Object.defineProperties(target, newProps)] where every descriptor is
    [{ value }].  An object of the model is either frozen or fully
    configurable: on a frozen target only a property that already holds
    the same value may be named; otherwise a new property is a data
    property that is not enumerable, and an existing one keeps its
    enumerability. *)
Fixpoint defineProperties (target : object) (entries : list (string * value))
    : result object :=
  match entries with
  | [] => Ok target
  | (name, v) :: rest =>
      match assoc (KStr name) (o_props target) with
      | Some d =>
          if o_frozen target then
            match d with
            | DataProp v0 _ =>
                if bool_decide (v0 = v) then defineProperties target rest
                else Throw DefineOnFrozen
            | AccessorProp _ _ => Throw DefineOnFrozen
            end
          else
            defineProperties
              (mkObject (o_class target) (o_proto target) (o_frozen target)
                 (o_elems target)
                 (assoc_replace (KStr name) (DataProp v (desc_enumerable d))
                    (o_props target)))
              rest
      | None =>
          if o_frozen target then Throw DefineOnFrozen
          else
            defineProperties
              (mkObject (o_class target) (o_proto target) (o_frozen target)
                 (o_elems target)
                 (ordered_insert pkey_rank (KStr name) (DataProp v false)
                    (o_props target)))
              rest
      end
  end.

(** [harden(proto)] for a prototype. *)
Definition harden_proto (p : proto) (h : heap) : heap :=
  match p with
  | PObject a => harden (VObject a) h
  | _ => h
  end.

(** The world that [Remotable] acts on: the heap and the registry. *)
Definition world : Type := heap * registry.

(** [newProps], after [propEntries.forEach(([prop, value]) =>
    (newProps[prop] = { value }))]: the names that have become own
    properties of [newProps], with the values of their descriptors.  The
    assignment to the name [__proto__] reaches the accessor of
    Object.prototype: it gives [newProps] the descriptor as its prototype
    and no own property. *)
Definition newProps (propEntries : list (string * value)) : list (string * value) :=
  filter (fun kv => fst kv <> "__proto__") propEntries.

(** [mutateHardenAndCheck(target)] inside [Remotable]. *)
Definition mutateHardenAndCheck (propEntries : list (string * value))
    (remotableProto : addr) (target : addr) (h : heap) : result heap :=
  match h !! target with
  | None => Throw RemotableNonObject
  | Some o =>
      (* Add the snapshotted properties. *)
      o1 <- defineProperties o (newProps propEntries) ;;
      (* Set the prototype for debuggability. *)
      if o_frozen o1 then Throw SetProtoOnFrozen
      else
        let o2 := mkObject (o_class o1) (PObject remotableProto) (o_frozen o1)
                    (o_elems o1) (o_props o1) in
        let h := <[target := o2]> h in
        let h := harden (VObject remotableProto) h in
        let h := harden (VObject target) h in
        assertCanBeRemotable h (VObject target) ;;;
        Ok h
  end.

(** [Remotable(iface = 'Remotable', props = {}, remotable = {})].  An
    argument left undefined takes its default; the default objects are
    allocated by the call. *)
Definition Remotable (iface props remotable : value) (w : world)
    : result (value * world) :=
  let '(h, reg) := w in
  let iface := match iface with VUndefined => VString "Remotable" | _ => iface end in
  match iface with
  | VString iface =>
      if negb (String.eqb iface "Remotable" || starts_with "Alleged: " iface)
      then Throw IfaceInvalid
      else
        (* iface = pureCopy(harden(iface)): a string is its own copy *)
        let allegedName := iface in
        let '(props, h) :=
          match props with
          | VUndefined => (VObject (length h), h ++ [new_object])
          | _ => (props, h)
          end in
        let '(remotable, h) :=
          match remotable with
          | VUndefined => (VObject (length h), h ++ [new_object])
          | _ => (remotable, h)
          end in
        (* Fail fast: check that the unmodified object is able to become a
           Remotable. *)
        assertCanBeRemotable h remotable ;;;
        match remotable with
        | VObject r =>
            (* Ensure that the remotable isn't already registered. *)
            if bool_decide (is_Some (reg !! r)) then Throw AlreadyRegistered
            else
              match h !! r with
              | None => Throw RemotableNonObject
              | Some o =>
                  let oldRemotableProto := o_proto o in
                  let h := harden_proto oldRemotableProto h in
                  (* Fail fast: a fresh empty object with the old prototype *)
                  let fresh := length h in
                  let h := h ++ [mkObject COrdinary oldRemotableProto true [] []] in
                  mustPassByRemote h reg fresh ;;;
                  let remotableProto := length h in
                  let h :=
                    h ++ [mkObject COrdinary oldRemotableProto true []
                            [(KStr "toString", DataProp (VFunction 1) false);
                             (KSym SymToStringTag,
                              DataProp (VString allegedName) false)]] in
                  (* Take a static copy of the properties. *)
                  propEntries <- Object_entries h props ;;
                  (* Fail fast: check a fresh remotable to see if our rules
                     fit. *)
                  let throwawayRemotable := length h in
                  let h := h ++ [mkObject COrdinary oldRemotableProto false [] []] in
                  h <- mutateHardenAndCheck propEntries remotableProto
                         throwawayRemotable h ;;
                  (* Actually finish the new remotable. *)
                  h <- mutateHardenAndCheck propEntries remotableProto r h ;;
                  (* COMMITTED! *)
                  Ok (remotable, (h, <[r := iface]> reg))
              end
        | _ => Throw RemotableNonObject
        end
  | _ => Throw IfaceNotString
  end.

(** [Far(farName, remotable = {})] *)
Definition Far (farName : string) (remotable : value) (w : world)
    : result (value * world) :=
  Remotable (VString ("Alleged: " +:+ farName)) VUndefined remotable w.

(** * Properties *)

(** ** Prototype chains that start at an intrinsic *)

Lemma proto_lookup_intrinsic fuel h i k :
  proto_lookup fuel h (PIntrinsic i) k = intrinsic_lookup 3 i k.
Proof. by destruct fuel. Qed.

Lemma inherited_refuses_intrinsic fuel h i k :
  inherited_refuses fuel h (PIntrinsic i) k = false.
Proof. by destruct fuel. Qed.

(** An assignment to an object whose prototype is an intrinsic defines an
    own property. *)
Lemma assign_field_intrinsic a name v h o i :
  h !! a = Some o -> o_proto o = PIntrinsic i -> name <> "__proto__" ->
  assign_field a name v h
  = Ok (<[a := mkObject (o_class o) (o_proto o) (o_frozen o) (o_elems o)
               (create_data_property pkey_rank (KStr name) (DataProp v true)
                  (o_props o))]> h).
Proof.
  intros Ho Hp Hname. unfold assign_field. rewrite Ho, Hp.
  destruct (String.eqb_spec name "__proto__") as [?|_]; [done|].
  rewrite inherited_refuses_intrinsic. by destruct (assoc _ _).
Qed.

Lemma proto_is_error_intrinsic fuel h i :
  proto_is_error fuel h (PIntrinsic i) =
  match i with ErrorPrototype _ => true | _ => false end.
Proof. by destruct fuel. Qed.

Lemma mustPassByRemote_proto_Object fuel h reg :
  mustPassByRemote_proto fuel h reg (PIntrinsic ObjectPrototype) = Ok tt.
Proof. by destruct fuel. Qed.

(** ** The empty object is remote, a record has a field *)

Lemma ownKeys_nil o : ownKeys o = [] -> o_class o <> CArray /\ o_props o = [].
Proof.
  unfold ownKeys, getOwnPropertyNames, own_string_entries, symbol_keys, string_keyed.
  intros H. apply app_eq_nil in H as [H1 H2].
  destruct (o_class o) eqn:Hc.
  2: { rewrite !map_app in H1. apply app_eq_nil in H1 as [_ H1].
       simpl in H1. discriminate. }
  all: split; [discriminate|].
  all: destruct (o_props o) as [|[[s|s] d] l]; [done|simpl in *; discriminate..].
Qed.

Lemma empty_object_is_remote h reg a o :
  h !! a = Some o -> o_frozen o = true -> o_proto o = PIntrinsic ObjectPrototype ->
  ownKeys o = [] ->
  passStyleOf h reg (VObject a) = Ok REMOTE_STYLE.
Proof.
  intros Ha Hf Hp Hk. apply ownKeys_nil in Hk as [Hc Hprops].
  unfold passStyleOf. simpl typeof. cbv iota.
  destruct (truthy_iface _) eqn:Ht; [done|].
  rewrite Ha.
  assert (Hown : forall k, own_property o k = None).
  { intros k. unfold own_property. rewrite Hprops. destruct (o_class o); try done. }
  unfold has_property, get, lookup_property. rewrite !Hown, Hp.
  rewrite !proto_lookup_intrinsic. simpl.
  rewrite Hf. simpl.
  unfold isPromise. rewrite Hp.
  replace (match o_class o with COrdinary | _ => false end) with false
    by (by destruct (o_class o)).
  unfold isPassByCopyError, instanceof_Error.
  rewrite Hp, proto_is_error_intrinsic. simpl.
  unfold isPassByCopyArray. rewrite bool_decide_eq_false_2 by done. simpl.
  unfold isPassByCopyRecord. rewrite Hp. simpl.
  assert (He : own_string_entries o = []).
  { unfold own_string_entries. rewrite Hprops. by destruct (o_class o). }
  rewrite He. simpl.
  unfold mustPassByRemote.
  assert (Hstep : forall k, mustPassByRemote_proto (S k) h reg (PObject a) = Ok tt);
    [|change (4 + length h) with (S (3 + length h)); by rewrite Hstep].
  intros k. cbn [mustPassByRemote_proto]. rewrite Ha, Hf. simpl negb. cbv iota.
  rewrite Hp, mustPassByRemote_proto_Object.
  simpl getInterfaceOf. destruct (reg !! a); [done|]. simpl. rewrite Ha.
  rewrite bool_decide_eq_false_2 by done.
  unfold getOwnPropertyNames. by rewrite He.
Qed.

(** What [passStyleOf] has established when it answers for a heap object
    that the registry does not vouch for. *)
Lemma passStyleOf_object_inv h reg a ps :
  passStyleOf h reg (VObject a) = Ok ps ->
  truthy_iface (reg !! a) = true /\ ps = REMOTE_STYLE \/
  truthy_iface (reg !! a) = false /\
  exists o, h !! a = Some o /\
    has_property h o (KStr QCLASS) = false /\
    o_frozen o = true /\
    (isPromise o = true /\ ps = PSpromise \/
     isPromise o = false /\
     (isPassByCopyError h o = Ok true /\ ps = PScopyError \/
      isPassByCopyError h o = Ok false /\
      (isPassByCopyArray o = Ok true /\ ps = PScopyArray \/
       isPassByCopyArray o = Ok false /\
       (isPassByCopyRecord o = Ok true /\ ps = PScopyRecord \/
        isPassByCopyRecord o = Ok false /\ mustPassByRemote h reg a = Ok tt /\
        ps = REMOTE_STYLE)))).
Proof.
  unfold passStyleOf. simpl typeof. cbv iota. simpl getInterfaceOf.
  destruct (truthy_iface (reg !! a)) eqn:Ht.
  { intros [= <-]. by left. }
  intros H. right. split; [done|].
  destruct (h !! a) as [o|]; [|done]. exists o. split; [done|].
  destruct (has_property h o (KStr QCLASS)); [done|]. split; [done|].
  destruct (o_frozen o); [|done]. split; [done|]. simpl in H.
  destruct (isPromise o). { injection H as <-. by left. }
  right. split; [done|].
  destruct (is_function _); [done|].
  destruct (isPassByCopyError h o) as [[]| |]; simpl in H; try done.
  { injection H as <-. by left. }
  right. split; [done|].
  destruct (isPassByCopyArray o) as [[]| |]; simpl in H; try done.
  { injection H as <-. by left. }
  right. split; [done|].
  destruct (isPassByCopyRecord o) as [[]| |]; simpl in H; try done.
  { injection H as <-. by left. }
  right. split; [done|].
  destruct (mustPassByRemote h reg a) as [[]| |]; simpl in H; try done.
  by injection H as <-.
Qed.

Lemma isPassByCopyRecord_true o :
  isPassByCopyRecord o = Ok true ->
  o_proto o = PIntrinsic ObjectPrototype /\
  own_string_entries o <> [] /\
  Forall (fun kd => exists v, snd kd = DataProp v true /\ is_function v = false)
    (own_string_entries o).
Proof.
  unfold isPassByCopyRecord.
  case_bool_decide as Hp; [|done]. simpl.
  destruct (length (own_string_entries o) =? 0) eqn:Hl; [done|].
  apply Nat.eqb_neq in Hl.
  destruct (existsb _ _) eqn:He; [done|].
  intros H. split; [done|]. split; [by intros E; rewrite E in Hl|].
  assert (Hnf : Forall (fun kd => is_function (desc_value (snd kd)) = false)
                  (own_string_entries o)).
  { apply Forall_forall. intros kd Hin.
    destruct (is_function (desc_value (snd kd))) eqn:E; [|done].
    assert (existsb (fun kd => is_function (desc_value (snd kd)))
              (own_string_entries o) = true); [|congruence].
    apply existsb_exists. exists kd. split; [|done].
    by apply list_elem_of_In. }
  clear He Hl. induction (own_string_entries o) as [|[k d] l IH]; [constructor|].
  apply Forall_cons in Hnf as [Hd Hnf]. simpl in H, Hd.
  destruct d as [v e|r e]; simpl in H; [|done].
  destruct e; simpl in H; [|done].
  constructor; [by eexists|by apply IH].
Qed.

Lemma copyRecord_has_field h reg a o :
  h !! a = Some o -> passStyleOf h reg (VObject a) = Ok PScopyRecord ->
  getOwnPropertyNames o <> [].
Proof.
  intros Ha Hps. apply passStyleOf_object_inv in Hps as [[_ ?]|[_ (o' & Ho' & _ & _ & H)]];
    [done|].
  assert (o' = o) as -> by congruence.
  destruct H as [[_ ?]|[_ [[_ ?]|[_ [[_ ?]|[_ [[H _]|[_ [_ ?]]]]]]]]]; try done.
  apply isPassByCopyRecord_true in H as (_ & Hne & _).
  unfold getOwnPropertyNames. intros E. by apply map_eq_nil in E.
Qed.

(** C8.  Classification gives the record pass-style only to objects with
    at least one own field: a frozen object whose prototype is
    Object.prototype and that has no own property is classified as remote
    (and so not as a record), and an object classified as a record has an
    own field. *)
Theorem record_style_requires_a_field (h : heap) (reg : registry) (a : addr) (o : object) :
  h !! a = Some o ->
  (o_frozen o = true -> o_proto o = PIntrinsic ObjectPrototype -> ownKeys o = [] ->
   passStyleOf h reg (VObject a) = Ok REMOTE_STYLE) /\
  (passStyleOf h reg (VObject a) = Ok PScopyRecord -> getOwnPropertyNames o <> []).
Proof.
  intros Ha. split.
  - by apply empty_object_is_remote.
  - by apply copyRecord_has_field.
Qed.

Definition plain_record (fields : list (string * value)) : object :=
  mkObject COrdinary (PIntrinsic ObjectPrototype) true []
    (map (fun kv => (KStr (fst kv), DataProp (snd kv) true)) fields).

Definition plain_array (elems : list value) : object :=
  mkObject CArray (PIntrinsic ArrayPrototype) true
    (map (fun v => Some (DataProp v true)) elems) [].

Lemma record_style_requires_a_field_witness :
  passStyleOf [plain_record []; plain_record [("n", VNumber (Fin 1))]] ∅ (VObject 0)
    = Ok REMOTE_STYLE /\
  getOwnPropertyNames (plain_record [("n", VNumber (Fin 1))]) <> [].
Proof.
  split.
  - apply (record_style_requires_a_field
             [plain_record []; plain_record [("n", VNumber (Fin 1))]] ∅ 0 (plain_record []));
      reflexivity.
  - apply (record_style_requires_a_field
             [plain_record []; plain_record [("n", VNumber (Fin 1))]] ∅ 1
             (plain_record [("n", VNumber (Fin 1))])); reflexivity.
Defined.

(** ** The registry is written by Remotable alone *)

Lemma bind_Ok {A B} (m : result A) (k : A -> result B) b :
  bind m k = Ok b -> exists a, m = Ok a /\ k a = Ok b.
Proof. destruct m; simpl; [eauto|done..]. Qed.

(** The tag that a call of [Remotable] registers. *)
Definition iface_arg (iface : value) : option string :=
  match iface with
  | VUndefined => Some "Remotable"
  | VString s => Some s
  | _ => None
  end.

Lemma Remotable_Ok_inv iface props remotable h reg v w' :
  Remotable iface props remotable (h, reg) = Ok (v, w') ->
  exists r tag,
    v = VObject r /\ iface_arg iface = Some tag /\
    (String.eqb tag "Remotable" || starts_with "Alleged: " tag = true) /\
    reg !! r = None /\ snd w' = <[r := tag]> reg.
Proof.
  unfold Remotable.
  set (iface' := match iface with VUndefined => VString "Remotable" | _ => iface end).
  destruct iface' as [| | | | |tag| | |] eqn:Hi; try done.
  assert (iface_arg iface = Some tag) as Htag.
  { subst iface'. destruct iface; simplify_eq; done. }
  destruct (String.eqb tag "Remotable" || starts_with "Alleged: " tag) eqn:Hv; [|done].
  simpl negb. cbv iota.
  destruct (match props with VUndefined => _ | _ => _ end) as [props' h1].
  destruct (match remotable with VUndefined => _ | _ => _ end) as [remotable' h2].
  intros H. apply bind_Ok in H as ([] & _ & H).
  destruct remotable' as [| | | | | | | |r]; try done.
  case_bool_decide as Hreg; [done|].
  destruct (h2 !! r) as [o|]; [|done].
  apply bind_Ok in H as ([] & _ & H).
  apply bind_Ok in H as (pe & _ & H).
  apply bind_Ok in H as (h3 & _ & H).
  apply bind_Ok in H as (h4 & _ & H).
  injection H as <- <-.
  exists r, tag. repeat split; try done.
  destruct (reg !! r) eqn:E; [|done]. exfalso. apply Hreg. by eexists.
Qed.

(** The histories of a realm.  The registry is private to the module: it
    starts empty, code outside the module changes the heap and nothing
    else (a call of [Remotable] that throws is such a step), and a call of
    [Remotable] that returns is logged with the object and the tag. *)
Inductive run : world -> list (addr * string) -> Prop :=
  | run_start (h : heap) : run (h, ∅) []
  | run_other (h h' : heap) (reg : registry) (log : list (addr * string)) :
      run (h, reg) log -> run (h', reg) log
  | run_Remotable (iface props remotable : value) (w w' : world)
      (log : list (addr * string)) (r : addr) (tag : string) :
      run w log ->
      Remotable iface props remotable w = Ok (VObject r, w') ->
      iface_arg iface = Some tag ->
      run w' (log ++ [(r, tag)]).

Lemma run_registry w log :
  run w log -> forall r tag, snd w !! r = Some tag <-> (r, tag) ∈ log.
Proof.
  induction 1 as [h|h h' reg log _ IH
                 |iface props remotable [h reg] w' log r tag _ IH HR Hi];
    intros r' tag'; simpl in *.
  - rewrite lookup_empty. split; [done|]. by intros ?%elem_of_nil.
  - apply IH.
  - apply Remotable_Ok_inv in HR as (r0 & tag0 & [= <-] & Hi' & _ & Hfresh & ->).
    assert (tag0 = tag) as -> by congruence.
    rewrite elem_of_app, list_elem_of_singleton.
    destruct (decide (r' = r)) as [->|Hne].
    + rewrite lookup_insert_eq. split.
      * intros [= ->]. by right.
      * intros [Hin|[= ->]]; [|done].
        apply IH in Hin. simpl in Hin. congruence.
    + rewrite lookup_insert_ne by done. rewrite IH. split; [by left|].
      intros [?|[= ? ?]]; [done|congruence].
Qed.

(** C9.  [getInterfaceOf] is total and never throws: for every argument it
    answers the registered tag or undefined, it answers undefined for
    every primitive, and in every history of the realm it answers a tag
    exactly for the objects that a returning call of [Remotable] has
    registered, with the tag of that call. *)
Theorem getInterfaceOf_total_and_exact
    (w : world) (log : list (addr * string)) (v : value) :
  run w log ->
  (getInterfaceOf (snd w) v = None \/
   exists tag, getInterfaceOf (snd w) v = Some tag) /\
  (is_primitive v = true -> getInterfaceOf (snd w) v = None) /\
  (forall tag, getInterfaceOf (snd w) v = Some tag <->
               exists r, v = VObject r /\ (r, tag) ∈ log).
Proof.
  intros Hrun. split; [|split].
  - destruct (getInterfaceOf (snd w) v); eauto.
  - by destruct v.
  - intros tag. destruct v; simpl;
      try (split; [done|intros (r & ? & _); done]).
    rewrite (run_registry _ _ Hrun). split; [eauto|].
    by intros (r & [= <-] & ?).
Qed.

Definition counter_world : world :=
  ([mkObject COrdinary (PIntrinsic ObjectPrototype) false []
      [(KStr "incr", DataProp (VFunction 7) true)]], ∅).

Lemma getInterfaceOf_total_and_exact_witness :
  exists w, Far "counter" (VObject 0) counter_world = Ok (VObject 0, w) /\
    getInterfaceOf (snd w) (VObject 0) = Some "Alleged: counter" /\
    getInterfaceOf (snd w) (VString "counter") = None.
Proof.
  destruct (Far "counter" (VObject 0) counter_world) as [[v w]| |] eqn:E;
    [|vm_compute in E; discriminate E..].
  assert (v = VObject 0) as -> by (vm_compute in E; congruence).
  exists w. split; [reflexivity|].
  assert (Hrun : run w ([] ++ [(0, "Alleged: counter")])).
  { eapply run_Remotable; [apply run_start|exact E|reflexivity]. }
  split.
  - apply (getInterfaceOf_total_and_exact w _ (VObject 0) Hrun).
    exists 0. split; [reflexivity|]. apply list_elem_of_singleton. reflexivity.
  - apply (getInterfaceOf_total_and_exact w _ (VString "counter") Hrun). reflexivity.
Defined.

(** ** An error envelope is revived with or without an errorId *)

Section ReviveError.
Variable convertSlotToVal : value -> option json -> value.
Variable slots_in : list value.

Definition error_class_of (name : string) : errclass :=
  match getErrorConstructor (VString name) with
  | Some EC => EC
  | None => EError
  end.

Lemma fullRevive_error cyclePolicy members name message st :
  assoc QCLASS members = Some (JStr "error") ->
  assoc "name" members = Some (JStr name) ->
  assoc "message" members = Some (JStr message) ->
  fullRevive convertSlotToVal slots_in cyclePolicy (JObj members) st =
  Ok (VObject (length (r_heap st)),
      {| r_heap := r_heap st ++ [new_error (error_class_of name) message];
         ibids := ibids st ++ [VObject (length (r_heap st))];
         unfinishedIbids := unfinishedIbids st |}).
Proof.
  intros Hq Hn Hm. simpl. rewrite Hq. simpl. by rewrite Hn, Hm.
Qed.

Lemma harden_frozen h a o :
  h !! a = Some o -> o_frozen o = true -> harden (VObject a) h = h.
Proof. intros Ha Hf. unfold harden. simpl. by rewrite Ha, Hf. Qed.

End ReviveError.


(** ** The cycle policy is read only at a cycle *)

(** Induction on raw trees, with the hypothesis for every element of an
    array and for every member of an object. *)
Lemma json_induction (P : json -> Prop) :
  P JNull -> (forall b, P (JBool b)) -> (forall n, P (JNum n)) -> (forall s, P (JStr s)) ->
  (forall l, Forall P l -> P (JArr l)) ->
  (forall l, Forall (fun kt => P (snd kt)) l -> P (JObj l)) ->
  forall t, P t.
Proof.
  intros Hnull Hbool Hnum Hstr Harr Hobj.
  fix IH 1. intros [|b|n|s|l|l].
  - exact Hnull.
  - apply Hbool.
  - apply Hnum.
  - apply Hstr.
  - apply Harr. induction l as [|t l IHl]; constructor; [apply IH|apply IHl].
  - apply Hobj. induction l as [|[k t] l IHl]; constructor; [apply IH|apply IHl].
Qed.

Definition outcomes_agree {A : Type} (r1 r2 : result A) : Prop :=
  match r1, r2 with
  | Ok a1, Ok a2 => a1 = a2
  | Throw e1, Throw e2 =>
      e1 = e2 \/ (e1 = UnrecognizedCyclePolicy /\ exists i, e2 = IbidCycle i)
  | OutOfFuel, OutOfFuel => True
  | _, _ => False
  end.

Lemma outcomes_agree_refl {A} (r : result A) : outcomes_agree r r.
Proof. destruct r; simpl; auto. Qed.

Lemma outcomes_agree_bind {A B} (m1 m2 : result A) (k1 k2 : A -> result B) :
  outcomes_agree m1 m2 ->
  (forall a, m1 = Ok a -> outcomes_agree (k1 a) (k2 a)) ->
  outcomes_agree (bind m1 k1) (bind m2 k2).
Proof.
  destruct m1, m2; simpl; try done.
  intros -> H. by apply H.
Qed.

Definition known_policy (p : value) : bool :=
  value_is p "allowCycles" || value_is p "warnOfCycles" || value_is p "forbidCycles".

Section Policy.
Variable convertSlotToVal : value -> option json -> value.
Variable slots_in : list value.
Variable p : value.
Hypothesis Hp : known_policy p = false.

Lemma ibid_get_unknown idx st :
  outcomes_agree (ibid_get p idx st) (ibid_get (VString "forbidCycles") idx st).
Proof.
  unfold known_policy in Hp. apply orb_false_elim in Hp as [Hp' H3].
  apply orb_false_elim in Hp' as [H1 H2].
  unfold ibid_get. apply outcomes_agree_bind; [apply outcomes_agree_refl|].
  intros i _. destruct (length (ibids st) <=? i); [by left|].
  destruct (ibids st !! i) as [v|]; [|by left].
  destruct (unfinished_has st v); [|done].
  rewrite H1, H2, H3. simpl. right. eauto.
Qed.

Local Abbreviation rev1 := (fullRevive convertSlotToVal slots_in p).
Local Abbreviation rev2 := (fullRevive convertSlotToVal slots_in (VString "forbidCycles")).

Lemma revive_fields_agree obj members :
  Forall (fun kt => forall st, outcomes_agree (rev1 (snd kt) st) (rev2 (snd kt) st)) members ->
  forall st, outcomes_agree (revive_fields rev1 obj members st)
               (revive_fields rev2 obj members st).
Proof.
  induction 1 as [|[k t] l Ht _ IH]; intros st; simpl; [done|].
  apply outcomes_agree_bind; [apply Ht|]. intros r _.
  apply outcomes_agree_bind; [apply outcomes_agree_refl|]. intros h _. apply IH.
Qed.

Lemma revive_elements_agree obj elems :
  Forall (fun t => forall st, outcomes_agree (rev1 t st) (rev2 t st)) elems ->
  forall st, outcomes_agree (revive_elements rev1 obj elems st)
               (revive_elements rev2 obj elems st).
Proof.
  induction 1 as [|t l Ht _ IH]; intros st; simpl; [done|].
  apply outcomes_agree_bind; [apply Ht|]. intros r _. apply IH.
Qed.

Lemma fullRevive_unknown_policy t :
  forall st, outcomes_agree (rev1 t st) (rev2 t st).
Proof.
  induction t as [| | | |l IH|l IH] using json_induction; intros st.
  1-4: apply outcomes_agree_refl.
  - simpl. destruct (ibid_start new_array st) as [obj st1].
    apply outcomes_agree_bind; [by apply revive_elements_agree|].
    intros; apply outcomes_agree_refl.
  - simpl. destruct (assoc QCLASS l) as [[| | |q| |]|].
    1-3,5-6: apply outcomes_agree_refl.
    + repeat (case_match; try apply outcomes_agree_refl).
      apply outcomes_agree_bind; [apply ibid_get_unknown|].
      intros; apply outcomes_agree_refl.
    + destruct (ibid_start new_object st) as [obj st1].
      apply outcomes_agree_bind; [by apply revive_fields_agree|].
      intros; apply outcomes_agree_refl.
Qed.
End Policy.

(** ** A value seen before is written as an ibid *)

Definition ibid_envelope (index : nat) : json :=
  qclass_envelope "ibid" [("index", json_of_nat index)].

Definition is_copy_or_reference (ps : PassStyle) : bool :=
  match ps with
  | PScopyRecord | PScopyArray | PScopyError | REMOTE_STYLE | PSpromise => true
  | _ => false
  end.

Lemma passStyleOf_object h reg a ps :
  passStyleOf h reg (VObject a) = Ok ps -> is_copy_or_reference ps = true.
Proof.
  intros H. apply passStyleOf_object_inv in H as [[_ ->]|[_ (o & _ & _ & _ & H)]]; [done|].
  destruct H as [[_ ->]|[_ [[_ ->]|[_ [[_ ->]|[_ [[_ ->]|[_ [_ ->]]]]]]]]]; done.
Qed.

Section Encode.
Variable convertValToSlot : value -> value.
Variable marshalName : string.

Lemma encode_seen fuel h reg a ps st index :
  passStyleOf h reg (VObject a) = Ok ps ->
  ibidMap st !! a = Some index ->
  encode convertValToSlot marshalName (S fuel) h reg (VObject a) st
  = Ok (ibid_envelope index, st).
Proof.
  intros Hps Hi. pose proof (passStyleOf_object _ _ _ _ Hps) as Hk.
  cbn [encode]. rewrite Hps. cbn [bind]. rewrite Hi.
  by destruct ps.
Qed.

Lemma encode_remote_first fuel h reg a st :
  passStyleOf h reg (VObject a) = Ok REMOTE_STYLE ->
  ibidMap st !! a = None ->
  slotMap st !! a = None ->
  encode convertValToSlot marshalName (S fuel) h reg (VObject a) st
  = Ok (qclass_envelope "slot"
          (match reg !! a with
           | Some iface => [("iface", JStr iface)]
           | None => []
           end ++ [("index", json_of_nat (length (slots st)))]),
        {| slots := slots st ++ [convertValToSlot (VObject a)];
           slotMap := <[a := length (slots st)]> (slotMap st);
           ibidMap := <[a := ibidCount st]> (ibidMap st);
           ibidCount := ibidCount st + 1;
           errorCount := errorCount st |}).
Proof.
  intros Hps Hi Hs.
  cbn [encode]. rewrite Hps. cbn [bind]. rewrite Hi.
  unfold serializeSlot. cbn [ibid_add slotMap slots]. rewrite Hs. simpl.
  by destruct (reg !! a).
Qed.

Definition remote_twice_heap : heap :=
  [plain_record []; plain_record [("a", VObject 0); ("b", VObject 0)]].

Definition remote_twice_registry : registry := {[ 0 := "Remotable" ]}.

End Encode.

(** C3 as stated fails: the second occurrence of the remotable is not a
    slot envelope. *)
Lemma repeated_remote_is_not_a_second_slot :
  exists b ec,
    serialize defaultValToSlotFn "anon-marshal" remote_twice_heap remote_twice_registry 0
      (VObject 1) = Ok ({| body := b; cap_slots := [VObject 0] |}, ec) /\
    exists members,
      JSON_parse b = Ok (JObj members) /\
      assoc "a" members
        = Some (JObj [(QCLASS, JStr "slot"); ("iface", JStr "Remotable");
                      ("index", JNum (Fin 0))]) /\
      assoc "b" members = Some (JObj [(QCLASS, JStr "ibid"); ("index", JNum (Fin 1))]).
Proof.
  eexists _, _. split; [vm_compute; reflexivity|].
  eexists. split; [vm_compute; reflexivity|]. split; reflexivity.
Qed.

(** ** The scenarios of the spec *)
Definition shared_empty_heap : heap :=
  [plain_record []; plain_record [("x", VObject 0); ("y", VObject 0)]].

Definition shared_empty_capdata : capdata :=
  {| body := qq "{'x':{'@qclass':'slot','index':0},'y':{'@qclass':'ibid','index':1}}";
     cap_slots := [VObject 0] |}.

(** C4, amended.  For a = {} and b = {x:a, y:a}, both frozen, the empty
    object a is remote: serialize(b) gives the slots [a] and the body
    {x: slot 0, y: ibid 1}, and unserialize of that capdata under
    allowCycles gives an object whose fields x and y are the same
    reference. *)
Theorem shared_empty_object_scenario :
  serialize defaultValToSlotFn "anon-marshal" shared_empty_heap ∅ 0 (VObject 1)
    = Ok (shared_empty_capdata, 0) /\
  exists out h' o,
    unserialize defaultSlotToValFn shared_empty_heap shared_empty_capdata
      (VString "allowCycles") = Ok (VObject out, h') /\
    h' !! out = Some o /\
    get h' o (KStr "x") = VObject 0 /\
    get h' o (KStr "y") = VObject 0.
Proof.
  split; [vm_compute; reflexivity|].
  eexists _, _, _. split; [vm_compute; reflexivity|].
  split; [reflexivity|]. split; reflexivity.
Qed.

(** C4 as stated fails: the body is not the one the spec expects, and the
    body the spec expects does not decode. *)
Lemma shared_empty_object_is_not_ibid_2 :
  (exists cd ec,
     serialize defaultValToSlotFn "anon-marshal" shared_empty_heap ∅ 0 (VObject 1)
       = Ok (cd, ec) /\
     body cd <> qq "{'x':{},'y':{'@qclass':'ibid','index':2}}") /\
  unserialize defaultSlotToValFn shared_empty_heap
    {| body := qq "{'x':{},'y':{'@qclass':'ibid','index':2}}"; cap_slots := [] |}
    (VString "allowCycles") = Throw (IbidOutOfRange 2).
Proof.
  split; [|vm_compute; reflexivity].
  eexists _, _. split; [vm_compute; reflexivity|]. simpl. discriminate.
Qed.

(** C6 at its failing input: a slot index outside the slots list is not
    rejected; the slot is read as undefined and handed to the translator. *)
Lemma slot_index_out_of_range_is_accepted :
  unserialize defaultSlotToValFn []
    {| body := qq "{'@qclass':'slot','index':0}"; cap_slots := [] |} VUndefined
  = Ok (VUndefined, []).
Proof. vm_compute. reflexivity. Qed.


Lemma own_property_ordinary o k :
  o_class o <> CArray -> own_property o k = assoc k (o_props o).
Proof. unfold own_property. by destruct (o_class o), k. Qed.

Lemma same_record_fields h a b oa ob :
  h !! a = Some oa -> h !! b = Some ob ->
  o_class oa <> CArray -> o_class ob <> CArray ->
  instanceof_Error h oa = false -> instanceof_Error h ob = false ->
  Forall2 (fun p q => fst p = fst q /\ sameStructure h (prop_get (snd p)) (prop_get (snd q)))
    (o_props oa) (o_props ob) ->
  sameStructure h (VObject a) (VObject b).
Proof.
  intros Ha Hb Hca Hcb Hea Heb HF.
  eapply same_record; try done.
  - intros name. rewrite !own_property_ordinary by done.
    induction HF as [|[k1 d1] [k2 d2] l1 l2 [Hk _] _ IH]; simpl in *; [done|].
    subst. by destruct (decide (KStr name = k2)).
  - intros name da. rewrite !own_property_ordinary by done.
    induction HF as [|[k1 d1] [k2 d2] l1 l2 [Hk Hs] _ IH]; simpl in *; [done|].
    subst. destruct (decide (KStr name = k2)); [|done].
    intros [= <-]. eauto.
Qed.

Definition sharing_heap : heap :=
  [ plain_record [("z", VNumber (Fin 1))];
    plain_record [("x", VObject 0); ("y", VObject 0)];
    plain_record [("z", VNumber (Fin 1))];
    plain_record [("z", VNumber (Fin 1))];
    plain_record [("x", VObject 2); ("y", VObject 3)] ].

(** C2 at its failing input: two structurally equal records, one with a
    shared field value and one without, are serialized to different
    bodies. *)
Lemma sharing_breaks_canonicity :
  sameStructure sharing_heap (VObject 1) (VObject 4) /\
  serialize defaultValToSlotFn "anon-marshal" sharing_heap ∅ 0 (VObject 1)
    = Ok ({| body := qq "{'x':{'z':1},'y':{'@qclass':'ibid','index':1}}";
             cap_slots := [] |}, 0) /\
  serialize defaultValToSlotFn "anon-marshal" sharing_heap ∅ 0 (VObject 4)
    = Ok ({| body := qq "{'x':{'z':1},'y':{'z':1}}"; cap_slots := [] |}, 0).
Proof.
  split; [|split; vm_compute; reflexivity].
  assert (Hleaf : forall a b, a < 4 -> a <> 1 -> b < 4 -> b <> 1 ->
            sameStructure sharing_heap (VObject a) (VObject b)).
  { intros a b Ha Ha1 Hb Hb1.
    assert (sharing_heap !! a = Some (plain_record [("z", VNumber (Fin 1))])) as Hoa.
    { destruct a as [|[|[|[|a]]]]; try done; lia. }
    assert (sharing_heap !! b = Some (plain_record [("z", VNumber (Fin 1))])) as Hob.
    { destruct b as [|[|[|[|b]]]]; try done; lia. }
    eapply (same_record_fields _ a b); try done.
    apply Forall2_cons. split; [|by apply Forall2_nil].
    split; [done|]. by apply same_primitive. }
  eapply (same_record_fields _ 1 4); try done.
  apply Forall2_cons. split; [split; [done|]; simpl; apply Hleaf; lia|].
  apply Forall2_cons. split; [split; [done|]; simpl; apply Hleaf; lia|].
  apply Forall2_nil. done.
Qed.

Definition index_names_heap : heap :=
  [ plain_record [("10", VBool true); ("9", VBool false)] ].

(** C2, second part, at its failing input: the names 10 and 9 sort as 10,
    9 and are written as 9, 10. *)
Lemma index_names_are_not_emitted_sorted :
  sort_strings ["10"; "9"] = ["10"; "9"] /\
  serialize defaultValToSlotFn "anon-marshal" index_names_heap ∅ 0 (VObject 0)
    = Ok ({| body := qq "{'9':false,'10':true}"; cap_slots := [] |}, 0).
Proof. split; vm_compute; reflexivity. Qed.

(** ** Pure data, containment and well-formed raw trees *)

(** No key of the list is enumerated before a key that precedes it in the
    list: an object that receives its properties in this order enumerates
    them in this order. *)
Fixpoint enumeration_ordered (ranks : list key_rank) : bool :=
  match ranks with
  | [] => true
  | r :: rest =>
      forallb (fun r' => negb (comes_before r' r)) rest && enumeration_ordered rest
  end.

Definition canonical_keys (names : list string) : bool :=
  bool_decide (NoDup names) && enumeration_ordered (map string_rank names).

(** The names of a record whose sort order is its enumeration order (the
    requirement stated in the comment above [encode] in the source), and
    that does not use the name [__proto__]. *)
Definition plain_names (names : list string) : bool :=
  bool_decide (NoDup names) &&
  bool_decide ("__proto__" ∉ names) &&
  enumeration_ordered (map string_rank (sort_strings names)).

(** [pure_data n h reg v]: the value is made of primitives, records,
    arrays and errors only (no remote-style object, no promise), nested at
    most [n] deep, so without a cycle; its records have plain names. *)
Fixpoint pure_data (n : nat) (h : heap) (reg : registry) (v : value) : bool :=
  match v with
  | VObject a =>
      match n with
      | O => false
      | S n' =>
          match passStyleOf h reg v, h !! a with
          | Ok PScopyRecord, Some o =>
              plain_names (getOwnPropertyNames o) &&
              bool_decide (symbol_keys o = []) &&
              forallb (fun name => pure_data n' h reg (get h o (KStr name)))
                (getOwnPropertyNames o)
          | Ok PScopyArray, Some o =>
              forallb (fun e =>
                         match e with
                         | Some d => pure_data n' h reg (prop_get d)
                         | None => true
                         end) (o_elems o)
          | Ok PScopyError, Some o => true
          | _, _ => false
          end
      end
  | VFunction _ => false
  | VSymbol s => bool_decide (s = SymAsyncIterator)
  | _ => true
  end.

(** [contains h reg v b]: the object [b] is [v] or is reached from [v]
    through fields of records and elements of arrays. *)
Inductive contains (h : heap) (reg : registry) : value -> addr -> Prop :=
  | contains_here (a : addr) : contains h reg (VObject a) a
  | contains_field (a b : addr) (o : object) (name : string) :
      h !! a = Some o ->
      passStyleOf h reg (VObject a) = Ok PScopyRecord ->
      name ∈ getOwnPropertyNames o ->
      contains h reg (get h o (KStr name)) b ->
      contains h reg (VObject a) b
  | contains_element (a b : addr) (o : object) (d : prop) :
      h !! a = Some o ->
      passStyleOf h reg (VObject a) = Ok PScopyArray ->
      Some d ∈ o_elems o ->
      contains h reg (prop_get d) b ->
      contains h reg (VObject a) b.

(** Whether the prototype chain from [p] ends within [fuel] links. *)
Fixpoint chain_ends (fuel : nat) (h : heap) (p : proto) : bool :=
  match p with
  | PObject a =>
      match h !! a with
      | Some o =>
          match fuel with
          | S fuel' => chain_ends fuel' h (o_proto o)
          | O => false
          end
      | None => true
      end
  | _ => true
  end.

(** Prototype chains are finite, as in every JavaScript heap. *)
Definition finite_protos (h : heap) : bool :=
  forallb (fun a => chain_ends (length h) h (PObject a)) (seq 0 (length h)).

(** A raw tree that [JSON.parse] returns for its own [JSON.stringify]:
    finite numbers, and object members in enumeration order. *)
Fixpoint json_wf (t : json) : bool :=
  match t with
  | JNum (Fin _) => true
  | JNum _ => false
  | JArr l => forallb json_wf l
  | JObj l => canonical_keys (map fst l) && forallb (fun kt => json_wf (snd kt)) l
  | _ => true
  end.

(** ** JSON.parse inverts JSON.stringify *)

Lemma append_String c s t : String c s +:+ t = String c (s +:+ t).
Proof. reflexivity. Qed.

Lemma append_Empty t : EmptyString +:+ t = t.
Proof. reflexivity. Qed.

Lemma append_assoc (s t u : string) : (s +:+ t) +:+ u = s +:+ (t +:+ u).
Proof. induction s as [|c s IH]; [done|]. by rewrite !append_String, IH. Qed.

Lemma append_Empty_r (s : string) : s +:+ EmptyString = s.
Proof. induction s as [|c s IH]; [done|]. by rewrite append_String, IH. Qed.

Lemma length_append (s t : string) :
  String.length (s +:+ t) = String.length s + String.length t.
Proof. induction s as [|c s IH]; [done|]. rewrite append_String. simpl. by rewrite IH. Qed.

Ltac text_norm := rewrite ?append_assoc, ?append_String, ?append_Empty.

(** *** Strings *)

Lemma parse_string_quote_chars (s rest : string) :
  parse_string (quote_chars s +:+ String dquote rest) = Ok (s, rest).
Proof.
  induction s as [|c s IH]; [done|].
  cbn [quote_chars]. rewrite append_assoc.
  destruct c as [[] [] [] [] [] [] [] []];
    vm_compute quote_char; text_norm;
    cbn -[String.append quote_chars]; rewrite IH; reflexivity.
Qed.

Lemma parse_string_quoteJSONString (s rest : string) :
  exists tail, quoteJSONString s +:+ rest = String dquote tail /\
    parse_string tail = Ok (s, rest).
Proof.
  unfold quoteJSONString. eexists. split; [by rewrite append_String|].
  rewrite append_assoc, append_String, append_Empty.
  apply parse_string_quote_chars.
Qed.

(** *** Numbers *)

(** What may follow a value in the text that [stringify] writes. *)
Definition ends_value (rest : string) : Prop :=
  match rest with
  | EmptyString => True
  | String c _ => c = ","%char \/ c = "]"%char \/ c = "}"%char
  end.

Lemma read_digits_string_of_uint (d : Decimal.uint) (rest : string) :
  ends_value rest ->
  read_digits (NilEmpty.string_of_uint d +:+ rest) = (d, rest).
Proof.
  intros Hrest.
  induction d; cbn [NilEmpty.string_of_uint]; rewrite ?append_String;
    try (cbn [read_digits digit_of]; rewrite IHd; reflexivity).
  rewrite append_Empty. destruct rest as [|c rest]; [done|].
  simpl in Hrest. by destruct Hrest as [->|[->| ->]].
Qed.

Lemma to_uint_unorm (p : positive) : Decimal.unorm (Pos.to_uint p) = Pos.to_uint p.
Proof.
  rewrite <- DecimalPos.Unsigned.to_of, DecimalPos.Unsigned.of_to. reflexivity.
Qed.

Lemma to_uint_nonnil (p : positive) : Pos.to_uint p <> Decimal.Nil.
Proof. rewrite <- to_uint_unorm. apply unorm_nonnil. Qed.

Lemma uint_beq_refl (d : Decimal.uint) : Decimal.uint_beq d d = true.
Proof. induction d; simpl; auto. Qed.

Lemma starts_fraction_or_exponent_ends rest :
  ends_value rest -> starts_fraction_or_exponent rest = false.
Proof. destruct rest as [|c rest]; [done|]. by intros [->|[->| ->]]. Qed.

Lemma Z_of_uint_to_uint (p : positive) : Z.of_uint (Pos.to_uint p) = Z.pos p.
Proof. unfold Z.of_uint. by rewrite DecimalPos.Unsigned.of_to. Qed.

Lemma parse_digits_to_uint (negative : bool) (p : positive) (rest : string) :
  ends_value rest ->
  parse_digits negative (NilEmpty.string_of_uint (Pos.to_uint p) +:+ rest)
  = Ok (Fin (if negative then Z.neg p else Z.pos p), rest).
Proof.
  intros Hrest. unfold parse_digits.
  rewrite read_digits_string_of_uint by done.
  pose proof (to_uint_nonnil p) as Hnil.
  destruct (Decimal.uint_beq (Pos.to_uint p) Decimal.Nil) eqn:E.
  { by destruct (Pos.to_uint p). }
  rewrite to_uint_unorm, uint_beq_refl, starts_fraction_or_exponent_ends,
    Z_of_uint_to_uint by done.
  by destruct negative.
Qed.

Lemma string_of_uint_head (p : positive) (rest : string) :
  exists c s, NilEmpty.string_of_uint (Pos.to_uint p) +:+ rest = String c s /\
    Ascii.eqb c "-" = false.
Proof.
  pose proof (to_uint_nonnil p).
  destruct (Pos.to_uint p); try done; cbn [NilEmpty.string_of_uint];
    rewrite append_String; eauto.
Qed.

Lemma parse_number_string_of_Z (z : Z) (rest : string) :
  ends_value rest ->
  parse_number (string_of_Z z +:+ rest) = Ok (Fin z, rest).
Proof.
  intros Hrest. unfold string_of_Z.
  destruct z as [|p|p]; cbn [Z.to_int NilEmpty.string_of_int].
  - cbn [NilEmpty.string_of_uint]. rewrite append_String, append_Empty.
    unfold parse_number, parse_digits. cbn [Ascii.eqb Bool.eqb read_digits digit_of].
    destruct rest as [|c rest]; [done|].
    simpl in Hrest. by destruct Hrest as [->|[->| ->]].
  - destruct (string_of_uint_head p rest) as (c & s & E & Hc).
    unfold parse_number. rewrite E, Hc, <- E. by apply parse_digits_to_uint.
  - rewrite append_String. unfold parse_number.
    replace (Ascii.eqb "-" "-") with true by done.
    by apply (parse_digits_to_uint true).
Qed.

(** *** The order of own property keys *)

Section KeyOrder.
Context {K V : Type} `{EqDecision K} (rank : K -> key_rank).

Lemma assoc_None (k : K) (l : list (K * V)) :
  k ∉ map fst l -> assoc k l = None.
Proof.
  induction l as [|[k' v] l IH]; [done|]. simpl. intros Hk.
  apply not_elem_of_cons in Hk as [Hne Hk].
  destruct (decide (k = k')); [done|]. by apply IH.
Qed.

Lemma assoc_Some_elem (k : K) (v : V) (l : list (K * V)) :
  assoc k l = Some v -> (k, v) ∈ l.
Proof.
  induction l as [|[k' v'] l IH]; [done|]. simpl.
  destruct (decide (k = k')) as [->|].
  - intros [= ->]. apply list_elem_of_here.
  - intros H. apply list_elem_of_further. by apply IH.
Qed.

Lemma assoc_lookup_NoDup (k : K) (v : V) (l : list (K * V)) :
  NoDup (map fst l) -> (k, v) ∈ l -> assoc k l = Some v.
Proof.
  induction l as [|[k' v'] l IH]; [by intros _ ?%elem_of_nil|].
  simpl. intros [Hk Hnd]%NoDup_cons [[= -> ->]|Hin]%elem_of_cons.
  - by rewrite decide_True.
  - rewrite decide_False; [by apply IH|].
    intros ->. apply Hk. apply list_elem_of_fmap. by exists (k', v).
Qed.

Lemma ordered_insert_last (k : K) (v : V) (l : list (K * V)) :
  Forall (fun kv => comes_before (rank k) (rank (fst kv)) = false) l ->
  ordered_insert rank k v l = l ++ [(k, v)].
Proof.
  induction 1 as [|[k' v'] l Hk _ IH]; [done|]. simpl in *. by rewrite Hk, IH.
Qed.

Lemma enumeration_ordered_middle (rs rs' : list key_rank) (r : key_rank) :
  enumeration_ordered (rs ++ r :: rs') = true ->
  Forall (fun r0 => comes_before r r0 = false) rs.
Proof.
  induction rs as [|r0 rs IH]; [constructor|]. simpl.
  intros [Hall Hrest]%andb_true_iff. constructor; [|by apply IH].
  rewrite forallb_forall in Hall. apply negb_true_iff, Hall.
  apply list_elem_of_In. apply elem_of_app. right. apply list_elem_of_here.
Qed.

Lemma create_data_property_last (k : K) (v : V) (acc rest : list (K * V)) :
  NoDup (map fst (acc ++ (k, v) :: rest)) ->
  enumeration_ordered (map (fun kv => rank (fst kv)) (acc ++ (k, v) :: rest)) = true ->
  create_data_property rank k v acc = acc ++ [(k, v)].
Proof.
  intros Hnd Hord. unfold create_data_property.
  rewrite assoc_None.
  - apply ordered_insert_last. rewrite map_app in Hord. simpl in Hord.
    apply enumeration_ordered_middle in Hord.
    by rewrite Forall_map in Hord.
  - rewrite map_app in Hnd. apply NoDup_app in Hnd as (_ & Hnd & _).
    intros Hin. apply (Hnd _ Hin). simpl. apply list_elem_of_here.
Qed.

Lemma fold_create_data_property (l acc : list (K * V)) :
  NoDup (map fst (acc ++ l)) ->
  enumeration_ordered (map (fun kv => rank (fst kv)) (acc ++ l)) = true ->
  fold_left (fun acc kv => create_data_property rank (fst kv) (snd kv) acc) l acc
  = acc ++ l.
Proof.
  revert acc. induction l as [|[k v] l IH]; intros acc Hnd Hord.
  - by rewrite app_nil_r.
  - simpl. rewrite (create_data_property_last k v acc l) by done.
    rewrite IH; rewrite <- app_assoc; done.
Qed.
End KeyOrder.

Lemma canonical_keys_spec (names : list string) :
  canonical_keys names = true <->
  NoDup names /\ enumeration_ordered (map string_rank names) = true.
Proof.
  unfold canonical_keys. rewrite andb_true_iff, bool_decide_eq_true. done.
Qed.

Lemma fromEntries_canonical (entries : list (string * json)) :
  canonical_keys (map fst entries) = true -> fromEntries entries = entries.
Proof.
  intros [Hnd Hord]%canonical_keys_spec. unfold fromEntries.
  rewrite (fold_create_data_property string_rank); [done|done|].
  simpl. by rewrite map_map in Hord.
Qed.

(** *** Values *)

(** The first character of the text of a value. *)
Definition value_starts : list ascii :=
  ["n"; "t"; "f"; dquote; "["; "{"; "-";
   "0"; "1"; "2"; "3"; "4"; "5"; "6"; "7"; "8"; "9"]%char.

Lemma string_of_uint_starts (d : Decimal.uint) (rest : string) :
  d <> Decimal.Nil ->
  exists c s, NilEmpty.string_of_uint d +:+ rest = String c s /\ c ∈ value_starts.
Proof.
  intros Hd. destruct d; try done; cbn [NilEmpty.string_of_uint];
    rewrite append_String; eexists _, _; (split; [done|]);
    unfold value_starts; set_solver.
Qed.

Lemma stringify_starts (t : json) (rest : string) :
  json_wf t = true ->
  exists c s, stringify t +:+ rest = String c s /\ c ∈ value_starts.
Proof.
  destruct t as [|[]|[]|s|[|t0 l]|[|[k0 t0] l]]; simpl stringify; try done; intros _;
    try (rewrite ?append_String; eexists _, _; (split; [done|]);
         unfold value_starts; set_solver).
  unfold string_of_Z. destruct z as [|p|p]; cbn [Z.to_int NilEmpty.string_of_int].
  - by apply string_of_uint_starts.
  - apply string_of_uint_starts, to_uint_nonnil.
  - rewrite append_String. eexists _, _. split; [done|].
    unfold value_starts; set_solver.
Qed.

Ltac starts_cases H :=
  unfold value_starts in H;
  repeat (apply elem_of_cons in H as [->|H]); [..|by apply elem_of_nil in H].

Lemma skip_ws_value c s : c ∈ value_starts -> skip_ws (String c s) = String c s.
Proof. intros H. starts_cases H; reflexivity. Qed.

Lemma skip_ws_ends rest : ends_value rest -> skip_ws rest = rest.
Proof. destruct rest as [|c rest]; [done|]. by intros [->|[->| ->]]. Qed.

Definition parses (t : json) : Prop :=
  forall fuel rest, json_size t <= fuel -> ends_value rest ->
    parse_value fuel (stringify t +:+ rest) = Ok (t, rest).

Lemma skip_ws_String c s : is_ws c = false -> skip_ws (String c s) = String c s.
Proof. intros H. simpl. by rewrite H. Qed.

Lemma parse_elements_stringify (l : list json) :
  Forall parses l ->
  forall t0 acc fuel rest,
    parses t0 ->
    foldr (fun t n => S (json_size t + n)) 0 (t0 :: l) <= fuel ->
    ends_value rest ->
    parse_elements fuel
      (stringify t0 +:+ stringify_elements stringify l +:+ String "]" rest) acc
    = Ok (acc ++ t0 :: l, rest).
Proof.
  induction 1 as [|t1 l Ht1 _ IH]; intros t0 acc fuel rest Ht0 Hfuel Hrest.
  - destruct fuel as [|fuel]; [simpl in Hfuel; lia|]. simpl in Hfuel.
    cbn [parse_elements stringify_elements]. text_norm.
    rewrite Ht0; [|lia|by right; left]. cbn [bind fst snd].
    rewrite skip_ws_String by done. reflexivity.
  - destruct fuel as [|fuel]; [simpl in Hfuel; lia|]. simpl in Hfuel.
    cbn [parse_elements stringify_elements]. text_norm.
    rewrite Ht0; [|lia|by left]. cbn [bind fst snd].
    rewrite skip_ws_String by done. cbv beta iota.
    rewrite IH; try done; [|simpl; lia].
    by rewrite <- app_assoc.
Qed.

Lemma parse_members_stringify (l : list (string * json)) :
  Forall (fun kt => parses (snd kt)) l ->
  forall k0 t0 acc fuel rest,
    parses t0 ->
    NoDup (map fst (acc ++ (k0, t0) :: l)) ->
    enumeration_ordered (map (fun kv => string_rank (fst kv)) (acc ++ (k0, t0) :: l)) = true ->
    foldr (fun kt n => S (json_size (snd kt) + n)) 0 ((k0, t0) :: l) <= fuel ->
    ends_value rest ->
    parse_members fuel
      (quoteJSONString k0 +:+
       String ":" (stringify t0 +:+ stringify_members stringify l +:+ String "}" rest))
      acc
    = Ok (acc ++ (k0, t0) :: l, rest).
Proof.
  induction 1 as [|[k1 t1] l Ht1 _ IH];
    intros k0 t0 acc fuel rest Ht0 Hnd Hord Hfuel Hrest.
  - destruct fuel as [|fuel]; [simpl in Hfuel; lia|]. simpl in Hfuel.
    cbn [parse_members stringify_members]. rewrite append_Empty.
    destruct (parse_string_quoteJSONString k0
                (String ":" (stringify t0 +:+ String "}" rest))) as (tail & -> & Htail).
    rewrite skip_ws_String by done.
    replace (Ascii.eqb dquote dquote) with true by done.
    rewrite Htail. cbn [bind fst snd]. text_norm.
    rewrite skip_ws_String by done. cbv beta iota.
    rewrite Ht0; [|lia|by right; right]. cbn [bind fst snd]. text_norm.
    rewrite skip_ws_String by done. cbv beta iota.
    by rewrite (create_data_property_last string_rank k0 t0 acc []).
  - destruct fuel as [|fuel]; [simpl in Hfuel; lia|]. simpl in Hfuel.
    cbn [parse_members stringify_members]. text_norm.
    destruct (parse_string_quoteJSONString k0
                (String ":" (stringify t0 +:+
                 String "," (quoteJSONString k1 +:+ String ":" (stringify t1 +:+
                 stringify_members stringify l +:+ String "}" rest)))))
      as (tail & -> & Htail).
    rewrite skip_ws_String by done.
    replace (Ascii.eqb dquote dquote) with true by done.
    rewrite Htail. cbn [bind fst snd]. text_norm.
    rewrite skip_ws_String by done. cbv beta iota.
    rewrite Ht0; [|lia|by left]. cbn [bind fst snd].
    rewrite skip_ws_String by done. cbv beta iota.
    rewrite (create_data_property_last string_rank k0 t0 acc ((k1, t1) :: l)) by done.
    rewrite IH; try done.
    + by rewrite <- app_assoc.
    + by rewrite <- app_assoc.
    + by rewrite <- app_assoc.
    + simpl. lia.
Qed.

Lemma json_wf_JObj l :
  json_wf (JObj l) = true ->
  canonical_keys (map fst l) = true /\ Forall (fun kt => json_wf (snd kt) = true) l.
Proof.
  simpl. intros [Hk Hl]%andb_true_iff. split; [done|].
  apply Forall_forall. intros kt Hin. rewrite forallb_forall in Hl.
  apply Hl. by apply list_elem_of_In.
Qed.

Lemma json_wf_JArr l :
  json_wf (JArr l) = true -> Forall (fun t => json_wf t = true) l.
Proof.
  simpl. intros Hl. apply Forall_forall. intros t Hin. rewrite forallb_forall in Hl.
  apply Hl. by apply list_elem_of_In.
Qed.

Lemma parse_value_stringify (t : json) : json_wf t = true -> parses t.
Proof.
  induction t as [|b|n|s|l IH|l IH] using json_induction; intros Hwf fuel rest Hfuel Hrest;
    (destruct fuel as [|fuel]; [simpl in Hfuel; lia|]).
  - reflexivity.
  - by destruct b.
  - destruct n as [| | | |z]; try done. simpl stringify.
    destruct (stringify_starts (JNum (Fin z)) rest) as (c & s & E & Hc); [done|].
    simpl stringify in E. cbn [parse_value]. rewrite E, skip_ws_value by done.
    rewrite <- E.
    replace (parse_number (string_of_Z z +:+ rest)) with (Ok (Fin z, rest))
      by (symmetry; by apply parse_number_string_of_Z).
    starts_cases Hc; try reflexivity.
    all: exfalso; revert E; unfold string_of_Z;
      destruct z as [|p|p]; cbn [Z.to_int NilEmpty.string_of_int]; try done;
      pose proof (to_uint_nonnil p); by destruct (Pos.to_uint p).
  - simpl stringify.
    destruct (parse_string_quoteJSONString s rest) as (tail & E & Htail).
    cbn [parse_value]. rewrite E, skip_ws_String by done.
    replace (Ascii.eqb dquote "n") with false by done.
    replace (Ascii.eqb dquote "t") with false by done.
    replace (Ascii.eqb dquote "f") with false by done.
    replace (Ascii.eqb dquote dquote) with true by done.
    by rewrite Htail.
  - destruct l as [|t0 l]; [reflexivity|].
    apply json_wf_JArr in Hwf. apply Forall_cons in Hwf as [Hwf0 Hwf].
    apply Forall_cons in IH as [IH0 IH].
    simpl stringify. text_norm. cbn [parse_value]. rewrite skip_ws_String by done.
    cbv beta iota. simpl (Ascii.eqb _ _). cbv beta iota.
    destruct (stringify_starts t0 (stringify_elements stringify l +:+ String "]" rest))
      as (c & s & E & Hc); [done|].
    rewrite E. rewrite skip_ws_value by done.
    replace (match String c s with
             | String "]"%char r => Ok (JArr [], r)
             | _ => r <- parse_elements fuel (String c s) [];; Ok (JArr (fst r), snd r)
             end)
      with (r <- parse_elements fuel (String c s) [];; Ok (JArr (fst r), snd r))
      by (starts_cases Hc; reflexivity).
    rewrite <- E. rewrite parse_elements_stringify; try done.
    + apply Forall_forall. intros t Hin.
      rewrite Forall_forall in Hwf, IH. apply IH; [done|]. by apply Hwf.
    + by apply IH0.
    + simpl in Hfuel |- *. lia.
  - destruct l as [|[k0 t0] l]; [reflexivity|].
    apply json_wf_JObj in Hwf as [[Hnd Hord]%canonical_keys_spec Hwf].
    apply Forall_cons in Hwf as [Hwf0 Hwf].
    apply Forall_cons in IH as [IH0 IH]. simpl in IH0, Hwf0.
    simpl stringify. text_norm. cbn [parse_value]. rewrite skip_ws_String by done.
    cbv beta iota. simpl (Ascii.eqb _ _). cbv beta iota.
    destruct (parse_string_quoteJSONString k0
                (String ":" (stringify t0 +:+ stringify_members stringify l +:+
                             String "}" rest))) as (tail & E & Htail).
    rewrite E. rewrite skip_ws_String by done. cbv beta iota.
    rewrite <- E. rewrite parse_members_stringify; try done.
    + apply Forall_forall. intros kt Hin.
      rewrite Forall_forall in Hwf, IH. apply IH; [done|]. by apply Hwf.
    + by apply IH0.
    + simpl. by rewrite map_map in Hord.
    + simpl in Hfuel |- *. lia.
Qed.

Lemma length_string_of_Z (z : Z) : 1 <= String.length (string_of_Z z).
Proof.
  unfold string_of_Z. destruct z as [|p|p]; cbn [Z.to_int NilEmpty.string_of_int].
  - simpl. lia.
  - pose proof (to_uint_nonnil p). destruct (Pos.to_uint p); try done; simpl; lia.
  - simpl. lia.
Qed.

Lemma json_size_elements (l : list json) :
  Forall (fun t => json_size t <= 2 * String.length (stringify t)) l ->
  foldr (fun t n => S (json_size t + n)) 0 l
  <= 2 * String.length (stringify_elements stringify l).
Proof.
  induction 1 as [|t l Ht _ IH]; [done|].
  simpl foldr. cbn [stringify_elements]. rewrite append_String, append_Empty.
  simpl String.length. rewrite length_append. lia.
Qed.

Lemma json_size_members (l : list (string * json)) :
  Forall (fun kt => json_size (snd kt) <= 2 * String.length (stringify (snd kt))) l ->
  foldr (fun kt n => S (json_size (snd kt) + n)) 0 l
  <= 2 * String.length (stringify_members stringify l).
Proof.
  induction 1 as [|[k t] l Ht _ IH]; [done|]. simpl in Ht.
  simpl foldr. cbn [stringify_members]. rewrite append_String, append_Empty.
  simpl String.length. rewrite !length_append. lia.
Qed.

Lemma json_size_stringify (t : json) : json_size t <= 2 * String.length (stringify t).
Proof.
  induction t as [|b|n|s|l IH|l IH] using json_induction.
  - simpl. lia.
  - destruct b; simpl; lia.
  - destruct n; simpl; try lia. pose proof (length_string_of_Z z). lia.
  - unfold stringify, quoteJSONString. simpl. lia.
  - destruct l as [|t0 l]; [simpl; lia|].
    apply Forall_cons in IH as [IH0 IH]. apply json_size_elements in IH.
    cbn [json_size foldr stringify]. rewrite append_String, append_Empty.
    simpl String.length. rewrite !length_append. simpl String.length. lia.
  - destruct l as [|[k0 t0] l]; [simpl; lia|].
    apply Forall_cons in IH as [IH0 IH]. apply json_size_members in IH.
    simpl in IH0.
    cbn [json_size foldr stringify snd]. rewrite append_String, append_Empty.
    simpl String.length. rewrite !length_append. simpl String.length. lia.
Qed.

Lemma JSON_parse_stringify (t : json) :
  json_wf t = true -> JSON_parse (JSON_stringify t) = Ok t.
Proof.
  intros Hwf. unfold JSON_parse, JSON_stringify.
  pose proof (parse_value_stringify t Hwf (2 * String.length (stringify t) + 2)
                EmptyString) as H.
  rewrite append_Empty_r in H. rewrite H; [done| |done].
  pose proof (json_size_stringify t). lia.
Qed.

(** ** What a traversal of the encoder has visited *)

Lemma sort_insert_perm (s : string) (l : list string) : sort_insert s l ≡ₚ s :: l.
Proof.
  induction l as [|s' l IH]; [done|]. simpl.
  destruct (String.leb s s'); [done|]. rewrite IH. apply Permutation_swap.
Qed.

Lemma sort_strings_perm (l : list string) : sort_strings l ≡ₚ l.
Proof.
  induction l as [|s l IH]; [done|]. simpl. by rewrite sort_insert_perm, IH.
Qed.

Lemma bind_Throw_or_Ok {A B} (m : result A) (k : A -> result B) :
  bind m k <> OutOfFuel -> m <> OutOfFuel.
Proof. by destruct m. Qed.

Definition visited (st : EncState) : gset nat := dom (ibidMap st).

Lemma visited_ibid_add a st : visited (ibid_add a st) = {[a]} ∪ visited st.
Proof. unfold visited, ibid_add. simpl. apply dom_insert_L. Qed.

Section Traversal.
Variable convertValToSlot : value -> value.
Variable marshalName : string.
Variable h : list object.
Variable reg : gmap nat string.

Local Abbreviation enc := (encode convertValToSlot marshalName).

(** The objects that the encoder visits from a record or an array. *)
Definition child (a c : nat) : Prop :=
  exists o, h !! a = Some o /\
    (passStyleOf h reg (VObject a) = Ok PScopyRecord /\
     (exists name, name ∈ getOwnPropertyNames o /\ get h o (KStr name) = VObject c) \/
     passStyleOf h reg (VObject a) = Ok PScopyArray /\
     (exists d, Some d ∈ o_elems o /\ prop_get d = VObject c)).

(** Every visited object outside [P] has all its children visited. *)
Definition closed (P : gset nat) (st : EncState) : Prop :=
  forall a c, a ∈ visited st -> a ∉ P -> child a c -> c ∈ visited st.

Definition classified (st : EncState) : Prop :=
  forall a, a ∈ visited st -> exists ps, passStyleOf h reg (VObject a) = Ok ps.

(** What one successful call of the encoder does to the ibid table. *)
Record advances (v : value) (st st' : EncState) : Prop := {
  adv_mono : visited st ⊆ visited st';
  adv_here : forall a, v = VObject a -> a ∈ visited st';
  adv_classified : classified st -> classified st';
  adv_closed : forall P, closed P st -> closed P st';
}.

Lemma advances_refl_primitive v st : is_primitive v = true -> advances v st st.
Proof. intros Hv. split; try done. intros a ->. done. Qed.

Lemma encode_fields_advances (f : value -> EncState -> result (json * EncState))
    (o : object) :
  (forall v st t st', f v st = Ok (t, st') -> advances v st st') ->
  forall names st entries st',
    encode_fields f h o names st = Ok (entries, st') ->
    visited st ⊆ visited st' /\
    (forall name c, name ∈ names -> get h o (KStr name) = VObject c -> c ∈ visited st') /\
    (classified st -> classified st') /\
    (forall P, closed P st -> closed P st') /\
    map fst entries = names.
Proof.
  intros Hf. induction names as [|name names IH]; intros st entries st' H.
  - injection H as <- <-. split; [done|]. split; [by intros ? ? ?%elem_of_nil|]. done.
  - simpl in H. apply bind_Ok in H as ([t st1] & H1 & H).
    apply bind_Ok in H as ([es st2] & H2 & H). injection H as <- <-. simpl in *.
    apply Hf in H1 as [M1 A1 C1 K1]. apply IH in H2 as (M2 & A2 & C2 & K2 & E2).
    split; [set_solver|]. split; [|split; [auto|split; [auto|by rewrite E2]]].
    intros n c [->|Hin]%elem_of_cons Hg.
    + apply M2. by apply A1.
    + by eapply A2.
Qed.

Lemma encode_elements_advances (f : value -> EncState -> result (json * EncState)) :
  (forall v st t st', f v st = Ok (t, st') -> advances v st st') ->
  forall elems st ts st',
    encode_elements f elems st = Ok (ts, st') ->
    visited st ⊆ visited st' /\
    (forall d c, Some d ∈ elems -> prop_get d = VObject c -> c ∈ visited st') /\
    (classified st -> classified st') /\
    (forall P, closed P st -> closed P st').
Proof.
  intros Hf. induction elems as [|[d|] elems IH]; intros st ts st' H.
  - injection H as <- <-. split; [done|]. split; [by intros ? ? ?%elem_of_nil|]. done.
  - simpl in H. apply bind_Ok in H as ([t st1] & H1 & H).
    apply bind_Ok in H as ([es st2] & H2 & H). injection H as <- <-. simpl in *.
    apply Hf in H1 as [M1 A1 C1 K1]. apply IH in H2 as (M2 & A2 & C2 & K2).
    split; [set_solver|]. split; [|split; auto].
    intros d' c [[= ->]|Hin]%elem_of_cons Hg.
    + apply M2. by apply A1.
    + by eapply A2.
  - simpl in H. apply bind_Ok in H as ([es st2] & H2 & H). injection H as <- <-.
    simpl in *. apply IH in H2 as (M2 & A2 & C2 & K2).
    split; [done|]. split; [|split; auto].
    intros d' c [[=]|Hin]%elem_of_cons Hg. by eapply A2.
Qed.
Lemma serializeSlot_ibidMap a iface st :
  ibidMap (snd (serializeSlot convertValToSlot a iface st)) = ibidMap st.
Proof.
  unfold serializeSlot. destruct (slotMap st !! a); by destruct iface.
Qed.

Lemma closed_ibid_add P a st :
  closed P st -> closed (P ∪ {[a]}) (ibid_add a st).
Proof.
  intros Hc x c Hx HP Hch. rewrite visited_ibid_add in Hx |- *.
  apply elem_of_union. right. apply (Hc x c); [set_solver|set_solver|done].
Qed.

Lemma classified_ibid_add a ps st :
  passStyleOf h reg (VObject a) = Ok ps -> classified st -> classified (ibid_add a st).
Proof.
  intros Hps Hc x. rewrite visited_ibid_add. intros [->%elem_of_singleton|Hx]%elem_of_union.
  - eauto.
  - by apply Hc.
Qed.

(** A leaf: an object that the encoder announces and does not enter. *)
Lemma advances_leaf a ps st st' :
  passStyleOf h reg (VObject a) = Ok ps ->
  ps <> PScopyRecord -> ps <> PScopyArray ->
  visited st' = {[a]} ∪ visited st ->
  advances (VObject a) st st'.
Proof.
  intros Hps Hr Ha Hv. split.
  - rewrite Hv. set_solver.
  - intros ? [= <-]. rewrite Hv. set_solver.
  - intros Hc x. rewrite Hv. intros [->%elem_of_singleton|Hx]%elem_of_union; eauto.
  - intros P Hc x c. rewrite !Hv. intros [->%elem_of_singleton|Hx]%elem_of_union HP Hch.
    + destruct Hch as (o & _ & [[E _]|[E _]]); congruence.
    + apply elem_of_union. right. by apply (Hc x c).
Qed.

Lemma encode_advances fuel :
  forall v st t st', enc fuel h reg v st = Ok (t, st') -> advances v st st'.
Proof.
  induction fuel as [|fuel IH]; [done|]. intros v st t st' H.
  cbn [encode] in H. apply bind_Ok in H as (ps & Hps & H).
  destruct v as [| | | | | | | |a].
  1-8: assert (st' = st) as ->
    by (simpl in Hps; simplify_eq; simpl in H; repeat case_match; simplify_eq; done);
    by apply advances_refl_primitive.
  pose proof (passStyleOf_object _ _ _ _ Hps) as Hk.
  assert (H' : match ibidMap st !! a with
               | Some index => Ok (ibid_envelope index, st)
               | None =>
                   match ps with
                   | PScopyRecord =>
                       o <- heap_object h a ;;
                       if negb (length (symbol_keys o) =? 0) then Throw SortSymbolKey
                       else
                         r <- encode_fields (enc fuel h reg) h o
                                (sort_strings (getOwnPropertyNames o)) (ibid_add a st) ;;
                         Ok (JObj (fromEntries (fst r)), snd r)
                   | PScopyArray =>
                       o <- heap_object h a ;;
                       r <- encode_elements (enc fuel h reg) (o_elems o) (ibid_add a st) ;;
                       Ok (JArr (fst r), snd r)
                   | PScopyError =>
                       o <- heap_object h a ;;
                       let '(errorId, st) := nextErrorId marshalName (ibid_add a st) in
                       Ok (qclass_envelope "error"
                             [("errorId", JStr errorId);
                              ("message", JStr (to_string (get h o (KStr "message"))));
                              ("name", JStr (to_string (get h o (KStr "name"))))],
                           st)
                   | REMOTE_STYLE =>
                       Ok (serializeSlot convertValToSlot a (getInterfaceOf reg (VObject a))
                             (ibid_add a st))
                   | _ => Ok (serializeSlot convertValToSlot a None (ibid_add a st))
                   end
               end = Ok (t, st')).
  { by destruct ps. }
  clear H. destruct (ibidMap st !! a) as [i|] eqn:Hi.
  { injection H' as <- <-. split; try done.
    intros ? [= <-]. apply elem_of_dom. eauto. }
  destruct ps; try done.
  - (* record *)
    apply bind_Ok in H' as (o & Ho & H). unfold heap_object in Ho.
    destruct (h !! a) as [o'|] eqn:Hoa; [|done]. injection Ho as ->.
    destruct (negb _); [done|].
    apply bind_Ok in H as ([es st2] & Hf & H). injection H as <- <-. simpl.
    apply (encode_fields_advances _ o IH) in Hf as (M & A & C & K & _).
    rewrite visited_ibid_add in M.
    split.
    + set_solver.
    + intros ? [= <-]. set_solver.
    + intros Hc. apply C. by eapply classified_ibid_add.
    + intros P Hc. specialize (K _ (closed_ibid_add P a st Hc)).
      intros x c Hx HP Hch. destruct (decide (x = a)) as [->|Hne].
      * destruct Hch as (o' & Ho' & [[_ (name & Hn & Hg)]|[E _]]); [|congruence].
        assert (o' = o) as -> by congruence.
        apply (A name c); [|done]. by rewrite sort_strings_perm.
      * apply (K x c); [done|set_solver|done].
  - (* array *)
    apply bind_Ok in H' as (o & Ho & H). unfold heap_object in Ho.
    destruct (h !! a) as [o'|] eqn:Hoa; [|done]. injection Ho as ->.
    apply bind_Ok in H as ([es st2] & Hf & H). injection H as <- <-. simpl.
    apply (encode_elements_advances _ IH) in Hf as (M & A & C & K).
    rewrite visited_ibid_add in M.
    split.
    + set_solver.
    + intros ? [= <-]. set_solver.
    + intros Hc. apply C. by eapply classified_ibid_add.
    + intros P Hc. specialize (K _ (closed_ibid_add P a st Hc)).
      intros x c Hx HP Hch. destruct (decide (x = a)) as [->|Hne].
      * destruct Hch as (o' & Ho' & [[E _]|[_ (d & Hd & Hg)]]); [congruence|].
        assert (o' = o) as -> by congruence.
        by apply (A d c).
      * apply (K x c); [done|set_solver|done].
  - (* error *)
    apply bind_Ok in H' as (o & Ho & H). injection H as <- <-.
    apply (advances_leaf a PScopyError); try done.
    unfold visited. simpl. apply dom_insert_L.
  - (* remote *)
    injection H' as H'. apply (f_equal snd) in H'. simpl in H'. subst st'.
    apply (advances_leaf a REMOTE_STYLE); try done.
    unfold visited. rewrite serializeSlot_ibidMap. apply visited_ibid_add.
  - (* promise *)
    injection H' as H'. apply (f_equal snd) in H'. simpl in H'. subst st'.
    apply (advances_leaf a PSpromise); try done.
    unfold visited. rewrite serializeSlot_ibidMap. apply visited_ibid_add.
Qed.
End Traversal.

(** ** The encoder returns or throws *)

Lemma bind_returns {A B} (m : result A) (k : A -> result B) :
  m <> OutOfFuel -> (forall a, m = Ok a -> k a <> OutOfFuel) -> bind m k <> OutOfFuel.
Proof. destruct m; simpl; [eauto|done..]. Qed.

Lemma check_methods_returns o names : check_methods o names <> OutOfFuel.
Proof.
  induction names as [|name names IH]; [done|]. simpl.
  destruct (own_property o (KStr name)); [|done]. by destruct (is_function _).
Qed.

Lemma assertCanBeRemotable_returns h v : assertCanBeRemotable h v <> OutOfFuel.
Proof.
  destruct v as [| | | | | | | |a]; try done. simpl. destruct (h !! a); [|done].
  case_bool_decide; [done|]. apply check_methods_returns.
Qed.

Lemma isPassByCopyError_returns h o : isPassByCopyError h o <> OutOfFuel.
Proof. unfold isPassByCopyError. repeat case_match; done. Qed.

Lemma check_array_elems_returns i descs : check_array_elems i descs <> OutOfFuel.
Proof.
  revert i. induction descs as [|[d|] descs IH]; intros i; simpl; try done.
  destruct (negb (desc_has_value d)); [done|].
  destruct (is_function _); [done|].
  destruct (negb (desc_enumerable d)); [done|]. apply IH.
Qed.

Lemma isPassByCopyArray_returns o : isPassByCopyArray o <> OutOfFuel.
Proof.
  unfold isPassByCopyArray.
  destruct (negb (bool_decide (o_class o = CArray))); [done|].
  destruct (negb (bool_decide (o_proto o = PIntrinsic ArrayPrototype))); [done|].
  apply bind_returns; [apply check_array_elems_returns|].
  intros _ _. by destruct (negb _).
Qed.

Lemma check_record_fields_returns l : check_record_fields l <> OutOfFuel.
Proof.
  induction l as [|[k d] l IH]; simpl; [done|]. by repeat case_match.
Qed.

Lemma isPassByCopyRecord_returns o : isPassByCopyRecord o <> OutOfFuel.
Proof.
  unfold isPassByCopyRecord.
  destruct (negb (bool_decide (o_proto o = PIntrinsic ObjectPrototype))); [done|].
  destruct (length (own_string_entries o) =? 0); [done|].
  destruct (existsb _ _); [done|].
  apply bind_returns; [apply check_record_fields_returns|done].
Qed.

Lemma mustPassByRemote_proto_intrinsic h reg fuel i :
  mustPassByRemote_proto (S (S fuel)) h reg (PIntrinsic i) <> OutOfFuel.
Proof. by destruct i as [| | |[]]. Qed.

Lemma chain_ends_mustPassByRemote_proto h reg fuel :
  forall k p, fuel + 2 <= k -> chain_ends fuel h p = true ->
    mustPassByRemote_proto k h reg p <> OutOfFuel.
Proof.
  induction fuel as [|fuel IH]; intros k p Hk Hc.
  - destruct k as [|[|k]]; [lia..|].
    destruct p as [|i|a]; [done|apply mustPassByRemote_proto_intrinsic|].
    simpl in *. by destruct (h !! a).
  - destruct k as [|k]; [lia|].
    destruct p as [|i|a]; [done| |].
    { destruct k as [|k]; [lia|]. apply mustPassByRemote_proto_intrinsic. }
    cbn [mustPassByRemote_proto]. simpl in Hc.
    destruct (h !! a) as [o|]; [|done].
    destruct (negb (o_frozen o)); [done|].
    apply bind_returns; [|intros _ _; apply IH; [lia|done]].
    destruct (getInterfaceOf reg (VObject a)); [done|].
    apply assertCanBeRemotable_returns.
Qed.

Lemma finite_protos_chain h a :
  finite_protos h = true -> chain_ends (length h) h (PObject a) = true.
Proof.
  intros Hf. destruct (h !! a) as [o|] eqn:Ho.
  - unfold finite_protos in Hf. rewrite forallb_forall in Hf. apply Hf.
    apply in_seq. apply lookup_lt_Some in Ho. lia.
  - destruct (length h); simpl; by rewrite Ho.
Qed.

Lemma passStyleOf_returns h reg v :
  finite_protos h = true -> passStyleOf h reg v <> OutOfFuel.
Proof.
  intros Hf. unfold passStyleOf. destruct v as [| | | | | | | |a]; try done.
  simpl typeof. cbv iota. destruct (truthy_iface _); [done|].
  destruct (h !! a) as [o|]; [|done].
  destruct (has_property h o (KStr QCLASS)); [done|].
  destruct (negb (o_frozen o)); [done|].
  destruct (isPromise o); [done|].
  destruct (is_function _); [done|].
  apply bind_returns; [apply isPassByCopyError_returns|]. intros [] _; [done|].
  apply bind_returns; [apply isPassByCopyArray_returns|]. intros [] _; [done|].
  apply bind_returns; [apply isPassByCopyRecord_returns|]. intros [] _; [done|].
  apply bind_returns; [|done].
  apply (chain_ends_mustPassByRemote_proto _ _ (length h)); [lia|]. by apply finite_protos_chain.
Qed.

Section Termination.
Variable convertValToSlot : value -> value.
Variable marshalName : string.
Variable h : list object.
Variable reg : gmap nat string.
Hypothesis Hfinite : finite_protos h = true.

Local Abbreviation enc := (encode convertValToSlot marshalName).

(** The heap objects that the traversal has not announced yet. *)
Definition unvisited (st : EncState) : gset nat :=
  filter (fun a => a ∉ visited st) (set_seq 0 (length h)).

Lemma unvisited_mono st st' :
  visited st ⊆ visited st' -> size (unvisited st') <= size (unvisited st).
Proof.
  intros Hv. apply subseteq_size. unfold unvisited.
  intros a [Ha Hin]%elem_of_filter. apply elem_of_filter. split; [|done]. set_solver.
Qed.

Lemma unvisited_ibid_add a o st :
  h !! a = Some o -> ibidMap st !! a = None ->
  size (unvisited (ibid_add a st)) < size (unvisited st).
Proof.
  intros Ho Hi. apply subset_size. unfold unvisited. split.
  - intros x [Hx Hin]%elem_of_filter. apply elem_of_filter. split; [|done].
    rewrite visited_ibid_add in Hx. set_solver.
  - intros Hsub. assert (a ∈ unvisited (ibid_add a st)) as Ha.
    { apply Hsub. apply elem_of_filter. split.
      - unfold visited. by apply not_elem_of_dom.
      - apply elem_of_set_seq. apply lookup_lt_Some in Ho. lia. }
    apply elem_of_filter in Ha as [Ha _]. apply Ha. rewrite visited_ibid_add. set_solver.
Qed.

Lemma encode_fields_returns (f : value -> EncState -> result (json * EncState))
    (o : object) (n : nat) :
  (forall v st, size (unvisited st) < n -> f v st <> OutOfFuel) ->
  (forall v st t st', f v st = Ok (t, st') -> visited st ⊆ visited st') ->
  forall names st, size (unvisited st) < n -> encode_fields f h o names st <> OutOfFuel.
Proof.
  intros Hr Hm. induction names as [|name names IH]; intros st Hn; [done|].
  simpl. apply bind_returns; [by apply Hr|]. intros [t st1] H1.
  apply bind_returns; [|done]. apply IH. simpl.
  apply Hm in H1. pose proof (unvisited_mono _ _ H1). lia.
Qed.

Lemma encode_elements_returns (f : value -> EncState -> result (json * EncState))
    (n : nat) :
  (forall v st, size (unvisited st) < n -> f v st <> OutOfFuel) ->
  (forall v st t st', f v st = Ok (t, st') -> visited st ⊆ visited st') ->
  forall elems st, size (unvisited st) < n -> encode_elements f elems st <> OutOfFuel.
Proof.
  intros Hr Hm. induction elems as [|[d|] elems IH]; intros st Hn; [done| |].
  - simpl. apply bind_returns; [by apply Hr|]. intros [t st1] H1.
    apply bind_returns; [|done]. apply IH. simpl.
    apply Hm in H1. pose proof (unvisited_mono _ _ H1). lia.
  - simpl. apply bind_returns; [by apply IH|done].
Qed.

Lemma encode_returns fuel :
  forall v st, size (unvisited st) < fuel -> enc fuel h reg v st <> OutOfFuel.
Proof.
  induction fuel as [|fuel IH]; intros v st Hn; [lia|].
  cbn [encode]. apply bind_returns; [by apply passStyleOf_returns|].
  intros ps Hps.
  assert (Hmono : forall v st t st', enc fuel h reg v st = Ok (t, st') ->
                    visited st ⊆ visited st').
  { intros v0 st0 t0 st0' H0. by apply (encode_advances _ _ h reg) in H0 as []. }
  destruct v as [| | | | | | | |a];
    try (simpl in Hps; simplify_eq; simpl; repeat case_match; done).
  pose proof (passStyleOf_object _ _ _ _ Hps) as Hk.
  destruct (ibidMap st !! a) as [i|] eqn:Hi; [by destruct ps|].
  destruct ps; try done.
  - unfold heap_object. destruct (h !! a) as [o|] eqn:Ho; [|done]. cbn [bind].
    destruct (negb _); [done|].
    apply bind_returns; [|done]. apply (encode_fields_returns _ _ fuel); try done.
    pose proof (unvisited_ibid_add a o st Ho Hi). lia.
  - unfold heap_object. destruct (h !! a) as [o|] eqn:Ho; [|done]. cbn [bind].
    apply bind_returns; [|done]. apply (encode_elements_returns _ fuel); try done.
    pose proof (unvisited_ibid_add a o st Ho Hi). lia.
  - unfold heap_object. by destruct (h !! a).
Qed.

Lemma serialize_returns errorCount0 root :
  serialize convertValToSlot marshalName h reg errorCount0 root <> OutOfFuel.
Proof.
  unfold serialize. apply bind_returns; [|done]. apply encode_returns.
  assert (size (unvisited (init_EncState errorCount0)) <= length h); [|lia].
  etrans; [apply (subseteq_size _ (set_seq 0 (length h)))|by rewrite size_set_seq].
  unfold unvisited. by intros x [_ ?]%elem_of_filter.
Qed.
End Termination.

(** ** The reserved name *)

Lemma own_QCLASS_is_reserved h reg a o :
  h !! a = Some o ->
  is_Some (own_property o (KStr QCLASS)) ->
  truthy_iface (reg !! a) = false ->
  passStyleOf h reg (VObject a) = Throw ReservedQclass.
Proof.
  intros Ho [d Hd] Ht. unfold passStyleOf. simpl. rewrite Ht, Ho.
  unfold has_property, lookup_property. by rewrite Hd.
Qed.

Lemma contains_visited h reg st v b :
  closed h reg ∅ st ->
  contains h reg v b ->
  (forall a, v = VObject a -> a ∈ visited st) ->
  b ∈ visited st.
Proof.
  intros Hc. induction 1 as [a|a b o name Ho Hps Hn _ IH|a b o d Ho Hps Hd _ IH];
    intros Hv.
  - by apply Hv.
  - apply IH. intros c Hg. apply (Hc a c); [by apply Hv|set_solver|].
    exists o. split; [done|]. left. split; [done|]. eauto.
  - apply IH. intros c Hg. apply (Hc a c); [by apply Hv|set_solver|].
    exists o. split; [done|]. right. split; [done|]. eauto.
Qed.

Definition reserved_heap : list object :=
  [ plain_record [("@qclass", VString "slot"); ("index", VNumber (Fin 0))];
    plain_array [VBool true; VObject 0];
    plain_record [("payload", VObject 1)] ].

(** ** The round trip of pure data *)

(** What the decoder returns for a primitive: the value, -0 having been
    written as 0. *)
Definition normalize (v : value) : value :=
  match v with
  | VNumber NegZero => VNumber (Fin 0)
  | _ => v
  end.

(** The object that the decoder has built for a record, field by field. *)
Definition record_object (fields : list (string * value)) : object :=
  mkObject COrdinary (PIntrinsic ObjectPrototype) false []
    (map (fun kv => (KStr (fst kv), DataProp (snd kv) true)) fields).

Definition array_object (elems : list value) : object :=
  mkObject CArray (PIntrinsic ArrayPrototype) false
    (map (fun v => Some (DataProp v true)) elems) [].

(** Two objects that differ at most in being frozen. *)
Definition same_shape (o1 o2 : object) : Prop :=
  o_class o1 = o_class o2 /\ o_proto o1 = o_proto o2 /\
  o_elems o1 = o_elems o2 /\ o_props o1 = o_props o2.

(** [corr h0 reg F h' v v']: the value [v] of the heap [h0] that was
    encoded and the value [v'] that the decoder has built in the heap [h']
    have the same structure, and the objects of [v'] are finished ones,
    in [F]. *)
Inductive corr (h0 : list object) (reg : gmap nat string) (F : gset nat)
    (h' : list object) : value -> value -> Prop :=
  | corr_primitive (v : value) :
      is_primitive v = true -> corr h0 reg F h' v (normalize v)
  | corr_record (a b : nat) (o o' : object) (fields : list (string * value)) :
      h0 !! a = Some o ->
      passStyleOf h0 reg (VObject a) = Ok PScopyRecord ->
      b ∈ F -> h' !! b = Some o' ->
      same_shape o' (record_object fields) ->
      NoDup (map fst fields) ->
      map fst fields ≡ₚ getOwnPropertyNames o ->
      (forall name v', (name, v') ∈ fields ->
         corr h0 reg F h' (get h0 o (KStr name)) v') ->
      corr h0 reg F h' (VObject a) (VObject b)
  | corr_array (a b : nat) (o o' : object) (elems : list value) :
      h0 !! a = Some o ->
      passStyleOf h0 reg (VObject a) = Ok PScopyArray ->
      b ∈ F -> h' !! b = Some o' ->
      same_shape o' (array_object elems) ->
      length elems = length (o_elems o) ->
      (forall i d v', o_elems o !! i = Some (Some d) -> elems !! i = Some v' ->
         corr h0 reg F h' (prop_get d) v') ->
      corr h0 reg F h' (VObject a) (VObject b)
  | corr_error (a b : nat) (o o' : object) (EC : errclass) (message : string) :
      h0 !! a = Some o ->
      passStyleOf h0 reg (VObject a) = Ok PScopyError ->
      b ∈ F -> h' !! b = Some o' ->
      same_shape o' (new_error EC message) ->
      get h0 o (KStr "name") = VString (errclass_name EC) ->
      get h0 o (KStr "message") = VString message ->
      corr h0 reg F h' (VObject a) (VObject b).

Lemma same_shape_trans o1 o2 o3 : same_shape o1 o2 -> same_shape o2 o3 -> same_shape o1 o3.
Proof. intros (?&?&?&?) (?&?&?&?). repeat split; congruence. Qed.

Lemma same_shape_refl o : same_shape o o.
Proof. done. Qed.

Lemma same_shape_sym o1 o2 : same_shape o1 o2 -> same_shape o2 o1.
Proof. intros (?&?&?&?). repeat split; congruence. Qed.

(** [corr] looks at the built heap only at the objects of [F], and only
    at their shape. *)
Lemma corr_stable h0 reg F F' h1 h2 v v' :
  corr h0 reg F h1 v v' ->
  F ⊆ F' ->
  (forall b o1, b ∈ F -> h1 !! b = Some o1 ->
     exists o2, h2 !! b = Some o2 /\ same_shape o2 o1) ->
  corr h0 reg F' h2 v v'.
Proof.
  intros Hc HF Hh. induction Hc as
    [v Hv
    |a b o o' fields Ho Hps Hb Ho' Hs Hnd Hperm _ IH
    |a b o o' elems Ho Hps Hb Ho' Hs Hlen _ IH
    |a b o o' EC message Ho Hps Hb Ho' Hs Hn Hm].
  - by constructor.
  - destruct (Hh b o' Hb Ho') as (o2 & Ho2 & Hs2).
    eapply corr_record; eauto using same_shape_trans.
  - destruct (Hh b o' Hb Ho') as (o2 & Ho2 & Hs2).
    eapply corr_array; eauto using same_shape_trans.
  - destruct (Hh b o' Hb Ho') as (o2 & Ho2 & Hs2).
    eapply corr_error; eauto using same_shape_trans.
Qed.

Lemma corr_mono h0 reg F F' h' v v' :
  corr h0 reg F h' v v' -> F ⊆ F' -> corr h0 reg F' h' v v'.
Proof.
  intros Hc HF. eapply corr_stable; [done|done|].
  intros b o1 _ Ho1. exists o1. split; [done|apply same_shape_refl].
Qed.

Lemma corr_object_inv h0 reg F h' a v' :
  corr h0 reg F h' (VObject a) v' -> exists b, v' = VObject b /\ b ∈ F.
Proof. inversion 1; subst; try done; eauto. Qed.

(** *** What the classifier has checked *)

Lemma assoc_string_keyed (s : string) (l : list (pkey * prop)) :
  assoc s (string_keyed l) = assoc (KStr s) l.
Proof.
  induction l as [|[[s'|y] d] l IH]; [done| |]; simpl.
  - unfold string_keyed in *. simpl. rewrite IH.
    destruct (decide (s = s')) as [->|Hne].
    + by rewrite decide_True.
    + by rewrite decide_False by congruence.
  - unfold string_keyed in *. simpl. by rewrite IH.
Qed.

Lemma assoc_is_Some {K V} `{EqDecision K} (k : K) (l : list (K * V)) :
  is_Some (assoc k l) <-> k ∈ map fst l.
Proof.
  induction l as [|[k' v] l IH]; simpl.
  - split; [by intros [? ?]|by intros ?%elem_of_nil].
  - destruct (decide (k = k')) as [->|Hne].
    + split; [intros _; apply list_elem_of_here|eauto].
    + rewrite IH. rewrite elem_of_cons. naive_solver.
Qed.

Lemma isPassByCopyArray_false o : isPassByCopyArray o = Ok false -> o_class o <> CArray.
Proof.
  unfold isPassByCopyArray. destruct (bool_decide (o_class o = CArray)) eqn:Hc.
  - simpl. destruct (negb _); [done|].
    destruct (check_array_elems 0 (o_elems o)) as [[]|e|]; simpl; try done.
    by destruct (negb _).
  - intros _. by apply bool_decide_eq_false in Hc.
Qed.

Lemma check_array_elems_Ok i elems :
  check_array_elems i elems = Ok tt ->
  Forall (fun e => exists v, e = Some (DataProp v true) /\ is_function v = false) elems.
Proof.
  revert i. induction elems as [|[d|] elems IH]; intros i; simpl; [done| |done].
  destruct d as [v e|g e]; simpl; [|done].
  destruct (is_function v) eqn:Hf; [done|]. destruct e; simpl; [|done].
  intros H. constructor; eauto.
Qed.

Lemma isPassByCopyArray_true o :
  isPassByCopyArray o = Ok true ->
  o_class o = CArray /\
  Forall (fun e => exists v, e = Some (DataProp v true) /\ is_function v = false)
    (o_elems o).
Proof.
  unfold isPassByCopyArray. destruct (bool_decide (o_class o = CArray)) eqn:Hc; [|done].
  apply bool_decide_eq_true in Hc. simpl. destruct (negb _); [done|].
  destruct (check_array_elems 0 (o_elems o)) as [[]|e|] eqn:Hch; simpl; try done.
  intros _. split; [done|]. by eapply check_array_elems_Ok.
Qed.

Lemma getErrorConstructor_name name EC :
  getErrorConstructor name = Some EC -> name = VString (errclass_name EC).
Proof.
  destruct name as [| | | | |s| | |]; try done. simpl.
  repeat match goal with
    | |- context [String.eqb s ?t] =>
        destruct (String.eqb_spec s t) as [->|_]; [by intros [= <-]|]
    end.
  done.
Qed.

Lemma getErrorConstructor_errclass_name EC :
  getErrorConstructor (VString (errclass_name EC)) = Some EC.
Proof. by destruct EC. Qed.

Lemma isPassByCopyError_true h o :
  isPassByCopyError h o = Ok true ->
  exists EC message,
    o_proto o = PIntrinsic (ErrorPrototype EC) /\
    o_class o <> CArray /\
    get h o (KStr "name") = VString (errclass_name EC) /\
    get h o (KStr "message") = VString message.
Proof.
  unfold isPassByCopyError. destruct (negb (instanceof_Error h o)); [done|].
  destruct (getErrorConstructor (get h o (KStr "name"))) as [EC|] eqn:HEC; [|done].
  apply getErrorConstructor_name in HEC.
  destruct (bool_decide (PIntrinsic (ErrorPrototype EC) = o_proto o)) eqn:Hp; [|done].
  apply bool_decide_eq_true in Hp. cbn [negb].
  destruct (Nat.leb_spec 1 (length (filter (fun k : string => k <> "message" /\ k <> "stack")
              (map fst (own_string_entries o))))) as [|Hrest]; [done|].
  assert (o_class o <> CArray) as Hc.
  { intros Hc. unfold own_string_entries in Hrest. rewrite Hc in Hrest.
    rewrite !map_app, !filter_app, !length_app in Hrest. simpl in Hrest.
    lia. }
  intros Hm.
  assert (exists message, get h o (KStr "message") = VString message) as [message Hmsg].
  { unfold get, lookup_property. rewrite own_property_ordinary by done.
    unfold own_string_entries in Hm. destruct (o_class o) eqn:Hcl; try done;
      rewrite assoc_string_keyed in Hm;
      (destruct (assoc (KStr "message") (o_props o)) as [d|];
       [destruct d as [v e|g e]; simpl in *; [|done];
        destruct v; try done; eauto
       |rewrite <- Hp, proto_lookup_intrinsic; destruct EC; simpl; eauto]). }
  exists EC, message. eauto.
Qed.

Lemma BigInt_digits (d : Decimal.uint) :
  d <> Decimal.Nil ->
  BigInt (NilEmpty.string_of_uint d) = Ok (Z.of_uint d).
Proof.
  intros Hd. pose proof (NilEmpty.usu d) as Hu.
  destruct d; [done|..]; simpl in *; unfold BigInt; simpl; by rewrite Hu.
Qed.

Lemma BigInt_string_of_Z (z : Z) : BigInt (string_of_Z z) = Ok z.
Proof.
  destruct z as [|p|p]; [done| |].
  - unfold string_of_Z. simpl. rewrite BigInt_digits by apply to_uint_nonnil.
    by rewrite Z_of_uint_to_uint.
  - unfold string_of_Z. simpl.
    pose proof (BigInt_digits (Pos.to_uint p) (to_uint_nonnil p)) as Hd.
    pose proof (NilEmpty.usu (Pos.to_uint p)) as Hu.
    pose proof (to_uint_nonnil p) as Hn.
    unfold BigInt. destruct (Pos.to_uint p) eqn:Hp; [done|..]; simpl in *;
      rewrite Hu; simpl; rewrite <- Hp, Z_of_uint_to_uint; done.
Qed.

Lemma forallb_elem_of {A} (f : A -> bool) (l : list A) :
  forallb f l = true <-> forall x, x ∈ l -> f x = true.
Proof. rewrite forallb_forall. split; intros H x Hx; apply H; by apply list_elem_of_In. Qed.

Lemma getOwnPropertyNames_ordinary o name :
  o_class o <> CArray ->
  name ∈ getOwnPropertyNames o <-> is_Some (own_property o (KStr name)).
Proof.
  intros Hc. rewrite own_property_ordinary by done.
  unfold getOwnPropertyNames, own_string_entries.
  rewrite <- assoc_string_keyed, assoc_is_Some. by destruct (o_class o).
Qed.

Lemma copyRecord_inv h reg a o :
  h !! a = Some o -> passStyleOf h reg (VObject a) = Ok PScopyRecord ->
  o_class o <> CArray /\
  o_proto o = PIntrinsic ObjectPrototype /\
  QCLASS ∉ getOwnPropertyNames o /\
  (forall name, name ∈ getOwnPropertyNames o ->
     exists v, own_property o (KStr name) = Some (DataProp v true)).
Proof.
  intros Ho Hps. apply passStyleOf_object_inv in Hps as [[_ ?]|(_ & o' & Ho' & Hq & _ & Hps)];
    [done|]. assert (o' = o) as -> by congruence.
  destruct Hps as [[_ ?]|[_ [[_ ?]|[_ [[_ ?]|[Harr [[Hrec _]|(_ & _ & ?)]]]]]]]; try done.
  apply isPassByCopyArray_false in Harr.
  apply isPassByCopyRecord_true in Hrec as (Hproto & _ & Hall).
  split; [done|]. split; [done|]. split.
  - rewrite getOwnPropertyNames_ordinary by done. intros [d Hd].
    unfold has_property, lookup_property in Hq. by rewrite Hd in Hq.
  - intros name Hn. pose proof Hn as Hn'.
    apply getOwnPropertyNames_ordinary in Hn as [d Hd]; [|done].
    rewrite Hd. rewrite own_property_ordinary in Hd by done.
    rewrite <- assoc_string_keyed in Hd. apply assoc_Some_elem in Hd.
    assert (own_string_entries o = string_keyed (o_props o)) as Heq.
    { unfold own_string_entries. by destruct (o_class o). }
    rewrite Heq in Hall. rewrite Forall_forall in Hall.
    destruct (Hall _ Hd) as (v & Hv & _). simpl in Hv. subst d. eauto.
Qed.

Lemma copyArray_inv h reg a o :
  h !! a = Some o -> passStyleOf h reg (VObject a) = Ok PScopyArray ->
  o_class o = CArray /\
  Forall (fun e => exists v, e = Some (DataProp v true) /\ is_function v = false)
    (o_elems o).
Proof.
  intros Ho Hps. apply passStyleOf_object_inv in Hps as [[_ ?]|(_ & o' & Ho' & Hq & _ & Hps)];
    [done|]. assert (o' = o) as -> by congruence.
  destruct Hps as [[_ ?]|[_ [[_ ?]|[_ [[Harr _]|[_ [[_ ?]|(_ & _ & ?)]]]]]]]; try done.
  by apply isPassByCopyArray_true.
Qed.

Lemma copyError_inv h reg a o :
  h !! a = Some o -> passStyleOf h reg (VObject a) = Ok PScopyError ->
  exists EC message,
    o_proto o = PIntrinsic (ErrorPrototype EC) /\
    o_class o <> CArray /\
    get h o (KStr "name") = VString (errclass_name EC) /\
    get h o (KStr "message") = VString message.
Proof.
  intros Ho Hps. apply passStyleOf_object_inv in Hps as [[_ ?]|(_ & o' & Ho' & Hq & _ & Hps)];
    [done|]. assert (o' = o) as -> by congruence.
  destruct Hps as [[_ ?]|[_ [[Herr _]|[_ [[_ ?]|[_ [[_ ?]|(_ & _ & ?)]]]]]]]; try done.
  by apply isPassByCopyError_true.
Qed.

Lemma pure_data_mono h reg n : forall m v,
  pure_data n h reg v = true -> n <= m -> pure_data m h reg v = true.
Proof.
  induction n as [|n IH]; intros m v Hv Hle.
  - destruct v; try done; by destruct m.
  - destruct m as [|m]; [lia|].
    destruct v as [| | | | | | | |a]; try done. simpl in *.
    destruct (passStyleOf h reg (VObject a)) as [[]| |]; try done;
      destruct (h !! a) as [o|]; try done.
    + apply andb_true_iff in Hv as [Hv1 Hv2]. apply andb_true_iff. split; [done|].
      rewrite forallb_elem_of in Hv2. apply forallb_elem_of. intros name Hn.
      apply IH; [by apply Hv2|lia].
    + rewrite forallb_elem_of in Hv. apply forallb_elem_of. intros [d|] He; [|done].
      apply IH; [by apply (Hv (Some d))|lia].
Qed.

Ltac decide_names :=
  repeat first [rewrite decide_True by done | rewrite decide_False by done]; cbn.

#[local] Instance KStr_inj : Inj (=) (=) KStr.
Proof. by intros s1 s2 [= ->]. Qed.

(** Assigning the next field of a record under construction appends
    it. *)
Lemma assign_field_record (h : list object) (obj : nat) (done : list (string * value))
    (name : string) (v : value) :
  h !! obj = Some (record_object done) ->
  name <> "__proto__" ->
  NoDup (map fst done ++ [name]) ->
  enumeration_ordered (map string_rank (map fst done ++ [name])) = true ->
  assign_field obj name v h = Ok (<[obj := record_object (done ++ [(name, v)])]> h).
Proof.
  intros Ho Hname Hnd Hord.
  rewrite (assign_field_intrinsic _ _ _ _ _ ObjectPrototype Ho eq_refl Hname).
  cbn [o_class o_proto o_frozen o_elems o_props record_object].
  rewrite (create_data_property_last pkey_rank _ _ _ []).
  - unfold record_object. by rewrite map_app.
  - rewrite map_app. simpl. rewrite map_map. simpl.
    rewrite <- (map_map fst KStr). change [KStr name] with (map KStr [name]).
    rewrite <- map_app. by apply (NoDup_fmap_2 KStr).
  - rewrite map_app, map_map. simpl. by rewrite map_app, map_map in Hord.
Qed.

Lemma assign_element_array (h : list object) (obj : nat) (done : list value) (v : value) :
  h !! obj = Some (array_object done) ->
  assign_element obj v h = <[obj := array_object (done ++ [v])]> h.
Proof.
  intros Ho. unfold assign_element. rewrite Ho. unfold array_object. simpl.
  by rewrite map_app.
Qed.

Section RoundTrip.
Variable convertValToSlot : value -> value.
Variable convertSlotToVal : value -> option json -> value.
Variable marshalName : string.
Variable slots_in : list value.
Variable cyclePolicy : value.
Variable h0 : list object.
Variable reg : gmap nat string.
Hypothesis Hsmall : (Z.of_nat (length h0) <= 9007199254740991)%Z.

Local Abbreviation enc := (encode convertValToSlot marshalName).
Local Abbreviation revive := (fullRevive convertSlotToVal slots_in cyclePolicy).

(** The invariant that ties the ibid table of the encoder to the ibid
    table of the decoder, when the decoder has read what the encoder has
    written so far.  [U] holds the source objects whose encoding is under
    way, [F] the built objects that are finished. *)
Record Inv (U F : gset nat) (st : EncState) (rs : RevState) : Prop := {
  inv_count : ibidCount st = length (ibids rs);
  inv_size : ibidCount st = size (visited st);
  inv_valid : forall a, a ∈ visited st -> a < length h0;
  inv_F : forall b, b ∈ F -> b < length (r_heap rs) /\ b ∉ unfinishedIbids rs;
  inv_unfinished : forall b, b ∈ unfinishedIbids rs -> b < length (r_heap rs);
  inv_map : forall a i, ibidMap st !! a = Some i ->
    a ∈ U \/
    exists v', ibids rs !! i = Some v' /\ corr h0 reg F (r_heap rs) (VObject a) v';
}.

(** What the decoder leaves as it was. *)
Record frame (rs rs' : RevState) : Prop := {
  frame_heap : forall b o, r_heap rs !! b = Some o -> r_heap rs' !! b = Some o;
  frame_ibids : forall i v, ibids rs !! i = Some v -> ibids rs' !! i = Some v;
  frame_unfinished : unfinishedIbids rs' = unfinishedIbids rs;
}.

(** The same, but for the object under construction. *)
Record frame_but (obj : nat) (rs rs' : RevState) : Prop := {
  fb_heap : forall b o, b <> obj -> r_heap rs !! b = Some o -> r_heap rs' !! b = Some o;
  fb_ibids : forall i v, ibids rs !! i = Some v -> ibids rs' !! i = Some v;
  fb_unfinished : unfinishedIbids rs' = unfinishedIbids rs;
}.

Lemma frame_refl rs : frame rs rs.
Proof. by split. Qed.

Lemma frame_but_refl obj rs : frame_but obj rs rs.
Proof. by split. Qed.

Lemma frame_frame_but obj rs rs' : frame rs rs' -> frame_but obj rs rs'.
Proof. intros [H1 H2 H3]. split; auto. Qed.

Lemma frame_but_trans obj rs1 rs2 rs3 :
  frame_but obj rs1 rs2 -> frame_but obj rs2 rs3 -> frame_but obj rs1 rs3.
Proof. intros [H1 H2 H3] [H1' H2' H3']. split; [auto|auto|congruence]. Qed.

Lemma ibidCount_small U F st rs : Inv U F st rs -> ibidCount st <= length h0.
Proof.
  intros HI. rewrite (inv_size _ _ _ _ HI).
  etrans; [apply (subseteq_size _ (set_seq 0 (length h0)))|by rewrite size_set_seq].
  intros a Ha. apply elem_of_set_seq. apply (inv_valid _ _ _ _ HI) in Ha. lia.
Qed.

(** The decoder's heap changes at unfinished objects only, or grows. *)
Lemma Inv_heap U F st rs rs' :
  Inv U F st rs ->
  ibids rs' = ibids rs ->
  unfinishedIbids rs' = unfinishedIbids rs ->
  length (r_heap rs) <= length (r_heap rs') ->
  (forall b o, b ∉ unfinishedIbids rs -> r_heap rs !! b = Some o ->
     r_heap rs' !! b = Some o) ->
  Inv U F st rs'.
Proof.
  intros [H1 H2 H3 H4 H5 H6] Hi Hu Hl Hh. split; try done.
  - by rewrite Hi.
  - rewrite Hu. intros b Hb%H4. split; [lia|tauto].
  - rewrite Hu. intros b Hb%H5. lia.
  - intros a i Hai. destruct (H6 a i Hai) as [?|(v' & Hv' & Hc)]; [by left|right].
    exists v'. rewrite Hi. split; [done|].
    eapply corr_stable; [done|done|]. intros b o1 Hb Ho1.
    exists o1. split; [|done]. apply Hh; [|done]. by apply H4.
Qed.

(** The encoder announces a new object and the decoder makes one. *)
Lemma Inv_start U F st st1 rs a o obj0 :
  Inv U F st rs ->
  ibidMap st !! a = None -> h0 !! a = Some o ->
  ibidMap st1 = <[a := ibidCount st]> (ibidMap st) ->
  ibidCount st1 = ibidCount st + 1 ->
  Inv (U ∪ {[a]}) F st1 (snd (ibid_start obj0 rs)).
Proof.
  intros [H1 H2 H3 H4 H5 H6] Hnone Ho Hm Hc.
  assert (visited st1 = {[a]} ∪ visited st) as Hvis.
  { unfold visited. rewrite Hm. by rewrite dom_insert_L. }
  split; simpl.
  - rewrite length_app. simpl. lia.
  - rewrite Hvis, size_union, size_singleton; [lia|].
    apply disjoint_singleton_l. unfold visited. by apply not_elem_of_dom.
  - intros b. rewrite Hvis. intros [->%elem_of_singleton|Hb]%elem_of_union; [|by apply H3].
    by apply lookup_lt_Some in Ho.
  - intros b Hb%H4. rewrite length_app. simpl. split; [lia|].
    apply not_elem_of_union. split; [|tauto].
    intros ->%elem_of_singleton. lia.
  - intros b [->%elem_of_singleton|Hb%H5]%elem_of_union; rewrite length_app; simpl; lia.
  - intros a' i. rewrite Hm. destruct (decide (a' = a)) as [->|Hne].
    + intros _. left. set_solver.
    + rewrite lookup_insert_ne by done. intros Hai.
      destruct (H6 a' i Hai) as [?|(v' & Hv' & Hcorr)]; [left; set_solver|right].
      exists v'. split; [by apply lookup_app_l_Some|].
      eapply corr_stable; [done|done|]. intros b o1 Hb Ho1. exists o1.
      split; [by apply lookup_app_l_Some|done].
Qed.

(** The decoder finishes the object that it has built for [a]. *)
Lemma Inv_finish U F st rs a i obj :
  Inv (U ∪ {[a]}) F st rs ->
  ibidMap st !! a = Some i -> ibids rs !! i = Some (VObject obj) ->
  obj < length (r_heap rs) ->
  corr h0 reg (F ∪ {[obj]}) (r_heap rs) (VObject a) (VObject obj) ->
  Inv U (F ∪ {[obj]}) st (ibid_finish obj rs).
Proof.
  intros [H1 H2 H3 H4 H5 H6] Hai Hi Hlt Hc. split; simpl; try done.
  - intros b [Hb%H4| ->%elem_of_singleton]%elem_of_union; set_solver.
  - intros b Hb. apply H5. set_solver.
  - intros a' i' Hai'. destruct (decide (a' = a)) as [->|Hne].
    + right. exists (VObject obj). split; [congruence|done].
    + destruct (H6 a' i' Hai') as [?|(v' & Hv' & Hcorr)]; [left; set_solver|right].
      exists v'. split; [done|]. eapply corr_mono; [done|set_solver].
Qed.

Lemma start_finish obj0 rs :
  (forall b, b ∈ unfinishedIbids rs -> b < length (r_heap rs)) ->
  ibid_finish (length (r_heap rs)) (snd (ibid_start obj0 rs)) =
  {| r_heap := r_heap rs ++ [obj0];
     ibids := ibids rs ++ [VObject (length (r_heap rs))];
     unfinishedIbids := unfinishedIbids rs |}.
Proof.
  intros Hu. unfold ibid_finish, ibid_start. simpl. f_equal.
  apply set_eq. intros b. specialize (Hu b). set_solver by lia.
Qed.

(** The pointer that the encoder writes for an object met before is read
    by the decoder as the object that it built for it. *)
Lemma revive_ibid U F st rs a i n :
  Inv U F st rs ->
  ibidMap st !! a = Some i ->
  pure_data n h0 reg (VObject a) = true ->
  (forall u, u ∈ U -> pure_data n h0 reg (VObject u) = false) ->
  exists v', revive (ibid_envelope i) rs = Ok (v', rs) /\
    corr h0 reg F (r_heap rs) (VObject a) v'.
Proof.
  intros HI Hai Hp HU. pose proof (ibidCount_small _ _ _ _ HI) as Hsm.
  destruct (inv_map _ _ _ _ HI a i Hai) as [Ha|(v' & Hv' & Hc)].
  { apply HU in Ha. congruence. }
  exists v'. split; [|done].
  assert (i < length (ibids rs)) as Hlt by by apply lookup_lt_Some in Hv'.
  rewrite <- (inv_count _ _ _ _ HI) in Hlt.
  destruct (corr_object_inv _ _ _ _ _ _ Hc) as (b & -> & Hb).
  unfold ibid_envelope, qclass_envelope. cbn. unfold QCLASS. decide_names.
  unfold ibid_get. cbn.
  destruct (Z.leb_spec 0 (Z.of_nat i)); [|lia].
  destruct (Z.leb_spec (Z.of_nat i) 9007199254740991); [|lia]. cbn.
  rewrite Nat2Z.id. rewrite (inv_count _ _ _ _ HI) in Hlt.
  destruct (Nat.leb_spec (length (ibids rs)) i); [lia|].
  rewrite Hv'. cbn. rewrite bool_decide_eq_false_2; [done|].
  by apply (inv_F _ _ _ _ HI).
Qed.

(** A primitive is written without the tables and is read back as
    itself. *)
Lemma sim_primitive f v st t st' :
  is_primitive v = true ->
  enc (S f) h0 reg v st = Ok (t, st') ->
  st' = st /\ json_wf t = true /\
  forall rs, revive t rs = Ok (normalize v, rs).
Proof.
  intros Hv He. destruct v as [| |b|n|z|s|y|g|a]; try done; cbn in He.
  - injection He as <- <-. done.
  - injection He as <- <-. done.
  - injection He as <- <-. done.
  - destruct n; injection He as <- <-; done.
  - injection He as <- <-. split; [done|]. split; [done|]. intros rs.
    unfold qclass_envelope. cbn. unfold QCLASS. decide_names.
    by rewrite BigInt_string_of_Z.
  - injection He as <- <-. done.
  - destruct y; try done. injection He as <- <-. done.
Qed.

Lemma corr_Inv_heap U F st rs h2 v v' :
  Inv U F st rs ->
  corr h0 reg F (r_heap rs) v v' ->
  (forall b o, b ∉ unfinishedIbids rs -> r_heap rs !! b = Some o -> h2 !! b = Some o) ->
  corr h0 reg F h2 v v'.
Proof.
  intros HI Hc Hh. eapply corr_stable; [done|done|].
  intros b o1 Hb Ho1. exists o1. split; [|apply same_shape_refl].
  apply Hh; [|done]. by apply (inv_F _ _ _ _ HI).
Qed.

(** The simulation at a given fuel of the encoder: what the encoder
    writes for pure data, the decoder reads back as a value of the same
    structure, with the tables kept in step. *)
Definition sim_at (f : nat) : Prop :=
  forall n v st t st' U F rs,
    enc f h0 reg v st = Ok (t, st') ->
    pure_data n h0 reg v = true ->
    (forall u, u ∈ U -> pure_data n h0 reg (VObject u) = false) ->
    Inv U F st rs ->
    exists v' rs' F',
      revive t rs = Ok (v', rs') /\
      Inv U F' st' rs' /\ F ⊆ F' /\
      corr h0 reg F' (r_heap rs') v v' /\
      frame rs rs' /\ ibidMap st ⊆ ibidMap st' /\ json_wf t = true.

Lemma sim_fields f (o : object) (obj n : nat) (U : gset nat) :
  sim_at f ->
  (forall u, u ∈ U -> pure_data n h0 reg (VObject u) = false) ->
  forall names done st entries st' F rs,
    encode_fields (enc f h0 reg) h0 o names st = Ok (entries, st') ->
    (forall name, name ∈ names -> pure_data n h0 reg (get h0 o (KStr name)) = true) ->
    Inv U F st rs ->
    obj ∈ unfinishedIbids rs ->
    r_heap rs !! obj = Some (record_object done) ->
    NoDup (map fst done ++ names) ->
    enumeration_ordered (map string_rank (map fst done ++ names)) = true ->
    "__proto__" ∉ names ->
    (forall name v', (name, v') ∈ done ->
       corr h0 reg F (r_heap rs) (get h0 o (KStr name)) v') ->
    exists rs' F' fields,
      revive_fields revive obj entries rs = Ok rs' /\
      Inv U F' st' rs' /\ F ⊆ F' /\ frame_but obj rs rs' /\
      ibidMap st ⊆ ibidMap st' /\
      r_heap rs' !! obj = Some (record_object (done ++ fields)) /\
      map fst fields = names /\ map fst entries = names /\
      (forall name v', (name, v') ∈ done ++ fields ->
         corr h0 reg F' (r_heap rs') (get h0 o (KStr name)) v') /\
      forallb (fun kt => json_wf (snd kt)) entries = true.
Proof.
  intros Hsim HU. induction names as [|name names IH];
    intros done st entries st' F rs Henc Hpure HI Hobj Hheap Hnd Hord Hproto Hdone.
  - injection Henc as <- <-. exists rs, F, []. rewrite app_nil_r.
    split_and!; done.
  - cbn [encode_fields] in Henc.
    apply bind_Ok in Henc as ([t1 st1] & He1 & Henc).
    apply bind_Ok in Henc as ([entries2 st2] & He2 & Henc).
    injection Henc as <- <-. cbn [fst snd] in *.
    destruct (Hsim n _ _ _ _ U F rs He1) as (v1 & rs1 & F1 & Hr1 & HI1 & HF1 & Hc1 & Hfr1 & Hm1 & Hwf1);
      [apply Hpure; apply list_elem_of_here|done|done|].
    assert (name <> "__proto__") as Hname.
    { intros ->. apply Hproto. apply list_elem_of_here. }
    assert (map fst done ++ name :: names = (map fst done ++ [name]) ++ names) as Hsplit
      by by rewrite <- app_assoc.
    pose proof (frame_heap _ _ Hfr1 _ _ Hheap) as Hheap1.
    assert (assign_field obj name v1 (r_heap rs1)
            = Ok (<[obj := record_object (done ++ [(name, v1)])]> (r_heap rs1))) as Hassign.
    { apply assign_field_record; [done|done| |].
      - rewrite Hsplit in Hnd. by apply NoDup_app in Hnd as [? _].
      - rewrite Hsplit, map_app in Hord. clear -Hord.
        revert Hord. generalize (map string_rank (map fst done ++ [name])).
        intros l. induction l as [|r l IHl]; [done|]. simpl.
        intros [H1 H2]%andb_true_iff. apply andb_true_iff. split; [|by apply IHl].
        rewrite forallb_app in H1. by apply andb_true_iff in H1 as [? _]. }
    set (rs2 := set_heap (<[obj := record_object (done ++ [(name, v1)])]> (r_heap rs1)) rs1).
    assert (obj ∈ unfinishedIbids rs1) as Hobj1 by by rewrite (frame_unfinished _ _ Hfr1).
    assert (forall b o', b ∉ unfinishedIbids rs1 -> r_heap rs1 !! b = Some o' ->
              r_heap rs2 !! b = Some o') as Hh2.
    { intros b o' Hb Ho'. simpl. rewrite list_lookup_insert_ne; [done|]. by intros <-. }
    assert (Inv U F1 st1 rs2) as HI2.
    { apply (Inv_heap _ _ _ rs1); try done. simpl. by rewrite length_insert. }
    destruct (IH (done ++ [(name, v1)]) st1 entries2 st2 F1 rs2 He2)
      as (rs' & F' & fields & Hr' & HI' & HF' & Hfr' & Hm' & Hheap' & Hfs & Hes & Hc' & Hwf').
    { intros name' Hn'. apply Hpure. by apply list_elem_of_further. }
    { done. }
    { done. }
    { simpl. apply list_lookup_insert_eq. by apply lookup_lt_Some in Hheap1. }
    { replace (map fst (done ++ [(name, v1)])) with (map fst done ++ [name])
        by by rewrite map_app.
      rewrite Hsplit in Hnd. exact Hnd. }
    { replace (map fst (done ++ [(name, v1)])) with (map fst done ++ [name])
        by by rewrite map_app.
      rewrite Hsplit in Hord. exact Hord. }
    { intros Hin. apply Hproto. by apply list_elem_of_further. }
    { intros name' v' [Hin|Hin%list_elem_of_singleton]%elem_of_app.
      - apply (corr_Inv_heap _ _ _ _ _ _ _ HI1); [|done].
        apply corr_mono with F; [|done].
        apply (corr_Inv_heap _ _ _ _ _ _ _ HI); [by apply Hdone|].
        intros b o' _ Ho'. by apply (frame_heap _ _ Hfr1).
      - injection Hin as -> ->. by apply (corr_Inv_heap _ _ _ _ _ _ _ HI1). }
    exists rs', F', ((name, v1) :: fields).
    split.
    { cbn [revive_fields]. rewrite Hr1. cbn [bind fst snd]. rewrite Hassign. done. }
    split; [done|]. split; [set_solver|]. split.
    { eapply frame_but_trans; [by apply frame_frame_but|].
      eapply frame_but_trans; [|done]. split; [|done|done].
      intros b o' Hb Ho'. simpl. by rewrite list_lookup_insert_ne. }
    split; [by etrans|].
    split; [by rewrite <- app_assoc in Hheap'|].
    split; [simpl; by rewrite Hfs|]. split; [simpl; by rewrite Hes|].
    split; [intros name' v' Hin; apply Hc'; by rewrite <- app_assoc|].
    simpl. by rewrite Hwf1, Hwf'.
Qed.

Lemma sim_elements f (obj n : nat) (U : gset nat) :
  sim_at f ->
  (forall u, u ∈ U -> pure_data n h0 reg (VObject u) = false) ->
  forall elems pre done st ts st' F rs,
    encode_elements (enc f h0 reg) elems st = Ok (ts, st') ->
    Forall (fun e => is_Some e) elems ->
    (forall d, Some d ∈ elems -> pure_data n h0 reg (prop_get d) = true) ->
    Inv U F st rs ->
    obj ∈ unfinishedIbids rs ->
    r_heap rs !! obj = Some (array_object done) ->
    Forall2 (fun e v' => exists d, e = Some d /\
               corr h0 reg F (r_heap rs) (prop_get d) v') pre done ->
    exists rs' F' vs,
      revive_elements revive obj ts rs = Ok rs' /\
      Inv U F' st' rs' /\ F ⊆ F' /\ frame_but obj rs rs' /\
      ibidMap st ⊆ ibidMap st' /\
      r_heap rs' !! obj = Some (array_object (done ++ vs)) /\
      Forall2 (fun e v' => exists d, e = Some d /\
                 corr h0 reg F' (r_heap rs') (prop_get d) v')
        (pre ++ elems) (done ++ vs) /\
      forallb json_wf ts = true.
Proof.
  intros Hsim HU. induction elems as [|e elems IH];
    intros pre done st ts st' F rs Henc Hsome Hpure HI Hobj Hheap Hdone.
  - injection Henc as <- <-. exists rs, F, []. rewrite !app_nil_r.
    split_and!; done.
  - apply Forall_cons in Hsome as [[d ->] Hsome]. cbn [encode_elements] in Henc.
    apply bind_Ok in Henc as ([t1 st1] & He1 & Henc).
    apply bind_Ok in Henc as ([ts2 st2] & He2 & Henc).
    injection Henc as <- <-. cbn [fst snd] in *.
    destruct (Hsim n _ _ _ _ U F rs He1) as (v1 & rs1 & F1 & Hr1 & HI1 & HF1 & Hc1 & Hfr1 & Hm1 & Hwf1);
      [apply Hpure; apply list_elem_of_here|done|done|].
    pose proof (frame_heap _ _ Hfr1 _ _ Hheap) as Hheap1.
    pose proof (assign_element_array _ _ _ v1 Hheap1) as Hassign.
    set (rs2 := set_heap (<[obj := array_object (done ++ [v1])]> (r_heap rs1)) rs1).
    assert (obj ∈ unfinishedIbids rs1) as Hobj1 by by rewrite (frame_unfinished _ _ Hfr1).
    assert (forall b o', b ∉ unfinishedIbids rs1 -> r_heap rs1 !! b = Some o' ->
              r_heap rs2 !! b = Some o') as Hh2.
    { intros b o' Hb Ho'. simpl. rewrite list_lookup_insert_ne; [done|]. by intros <-. }
    assert (Inv U F1 st1 rs2) as HI2.
    { apply (Inv_heap _ _ _ rs1); try done. simpl. by rewrite length_insert. }
    destruct (IH (pre ++ [Some d]) (done ++ [v1]) st1 ts2 st2 F1 rs2 He2)
      as (rs' & F' & vs & Hr' & HI' & HF' & Hfr' & Hm' & Hheap' & Hc' & Hwf').
    { done. }
    { intros d' Hd'. apply Hpure. by apply list_elem_of_further. }
    { done. }
    { done. }
    { simpl. apply list_lookup_insert_eq. by apply lookup_lt_Some in Hheap1. }
    { apply Forall2_app.
      - eapply Forall2_impl; [exact Hdone|]. intros e' v' (d' & -> & Hcd).
        exists d'. split; [done|].
        apply (corr_Inv_heap _ _ _ _ _ _ _ HI1); [|done].
        apply corr_mono with F; [|done].
        apply (corr_Inv_heap _ _ _ _ _ _ _ HI); [done|].
        intros b o' _ Ho'. by apply (frame_heap _ _ Hfr1).
      - apply Forall2_cons. split; [|apply Forall2_nil_2].
        exists d. split; [done|]. by apply (corr_Inv_heap _ _ _ _ _ _ _ HI1). }
    exists rs', F', (v1 :: vs).
    split.
    { cbn [revive_elements]. rewrite Hr1. cbn [bind fst snd]. rewrite Hassign. done. }
    split; [done|]. split; [set_solver|]. split.
    { eapply frame_but_trans; [by apply frame_frame_but|].
      eapply frame_but_trans; [|done]. split; [|done|done].
      intros b o' Hb Ho'. simpl. by rewrite list_lookup_insert_ne. }
    split; [by etrans|].
    split; [by rewrite <- app_assoc in Hheap'|].
    split; [by rewrite <- !app_assoc in Hc'|].
    simpl. by rewrite Hwf1, Hwf'.
Qed.

Lemma enc_record f a o st :
  passStyleOf h0 reg (VObject a) = Ok PScopyRecord ->
  h0 !! a = Some o -> ibidMap st !! a = None -> symbol_keys o = [] ->
  enc (S f) h0 reg (VObject a) st =
  (r <- encode_fields (enc f h0 reg) h0 o (sort_strings (getOwnPropertyNames o))
          (ibid_add a st) ;;
   Ok (JObj (fromEntries (fst r)), snd r)).
Proof.
  intros Hps Ho Hib Hsym. cbn [encode]. rewrite Hps. cbn [bind]. rewrite Hib.
  unfold heap_object. rewrite Ho. cbn [bind]. by rewrite Hsym.
Qed.

Lemma enc_array f a o st :
  passStyleOf h0 reg (VObject a) = Ok PScopyArray ->
  h0 !! a = Some o -> ibidMap st !! a = None ->
  enc (S f) h0 reg (VObject a) st =
  (r <- encode_elements (enc f h0 reg) (o_elems o) (ibid_add a st) ;;
   Ok (JArr (fst r), snd r)).
Proof.
  intros Hps Ho Hib. cbn [encode]. rewrite Hps. cbn [bind]. rewrite Hib.
  unfold heap_object. by rewrite Ho.
Qed.

Lemma enc_error f a o st :
  passStyleOf h0 reg (VObject a) = Ok PScopyError ->
  h0 !! a = Some o -> ibidMap st !! a = None ->
  enc (S f) h0 reg (VObject a) st =
  Ok (qclass_envelope "error"
        [("errorId", JStr (fst (nextErrorId marshalName (ibid_add a st))));
         ("message", JStr (to_string (get h0 o (KStr "message"))));
         ("name", JStr (to_string (get h0 o (KStr "name"))))],
      snd (nextErrorId marshalName (ibid_add a st))).
Proof.
  intros Hps Ho Hib. cbn [encode]. rewrite Hps. cbn [bind]. rewrite Hib.
  unfold heap_object. by rewrite Ho.
Qed.

Lemma revive_record entries rs :
  assoc QCLASS entries = None ->
  revive (JObj entries) rs =
  (st <- revive_fields revive (length (r_heap rs)) entries
           (snd (ibid_start new_object rs)) ;;
   Ok (VObject (length (r_heap rs)), ibid_finish (length (r_heap rs)) st)).
Proof. intros H. cbn [fullRevive]. by rewrite H. Qed.

Lemma revive_array ts rs :
  revive (JArr ts) rs =
  (st <- revive_elements revive (length (r_heap rs)) ts
           (snd (ibid_start new_array rs)) ;;
   Ok (VObject (length (r_heap rs)), ibid_finish (length (r_heap rs)) st)).
Proof. done. Qed.

(** The bookkeeping around the fields or elements of a new object. *)
Lemma sim_finish U F F2 st st1 st' rs rs2 a o obj0 :
  let obj := length (r_heap rs) in
  Inv U F st rs ->
  ibidMap st !! a = None -> h0 !! a = Some o ->
  ibidMap st1 = <[a := ibidCount st]> (ibidMap st) ->
  Inv (U ∪ {[a]}) F2 st' rs2 ->
  frame_but obj (snd (ibid_start obj0 rs)) rs2 ->
  ibidMap st1 ⊆ ibidMap st' ->
  is_Some (r_heap rs2 !! obj) ->
  corr h0 reg (F2 ∪ {[obj]}) (r_heap rs2) (VObject a) (VObject obj) ->
  Inv U (F2 ∪ {[obj]}) st' (ibid_finish obj rs2) /\
  frame rs (ibid_finish obj rs2) /\
  ibidMap st ⊆ ibidMap st'.
Proof.
  intros obj HI Hnone Ho Hm1 HI2 [Hf1 Hf2 Hf3] Hm [o2 Ho2] Hc. split; [|split].
  - apply (Inv_finish _ _ _ _ a (ibidCount st)); try done.
    + eapply lookup_weaken; [|done]. rewrite Hm1. apply lookup_insert_eq.
    + apply Hf2. simpl. rewrite (inv_count _ _ _ _ HI).
      by apply list_lookup_middle.
    + by apply lookup_lt_Some in Ho2.
  - split; simpl.
    + intros b o' Ho'. apply Hf1; [apply lookup_lt_Some in Ho'; unfold obj; lia|].
      simpl. by apply lookup_app_l_Some.
    + intros i v Hv. apply Hf2. simpl. by apply lookup_app_l_Some.
    + rewrite Hf3. simpl. apply set_eq. intros b.
      pose proof (inv_unfinished _ _ _ _ HI b). unfold obj. set_solver by lia.
  - etrans; [|done]. rewrite Hm1. by apply insert_subseteq.
Qed.

Lemma plain_names_spec names :
  plain_names names = true ->
  NoDup (sort_strings names) /\ "__proto__" ∉ sort_strings names /\
  enumeration_ordered (map string_rank (sort_strings names)) = true.
Proof.
  unfold plain_names. intros [[Hnd Hp]%andb_true_iff Hord]%andb_true_iff.
  apply bool_decide_eq_true in Hnd, Hp. split; [|split; [|done]].
  - by rewrite sort_strings_perm.
  - by rewrite sort_strings_perm.
Qed.

(** An object that the encoder meets for the first time. *)
Lemma sim_object f :
  sim_at f ->
  forall n a st t st' U F rs,
    ibidMap st !! a = None ->
    enc (S f) h0 reg (VObject a) st = Ok (t, st') ->
    pure_data n h0 reg (VObject a) = true ->
    (forall u, u ∈ U -> pure_data n h0 reg (VObject u) = false) ->
    Inv U F st rs ->
    exists v' rs' F',
      revive t rs = Ok (v', rs') /\
      Inv U F' st' rs' /\ F ⊆ F' /\
      corr h0 reg F' (r_heap rs') (VObject a) v' /\
      frame rs rs' /\ ibidMap st ⊆ ibidMap st' /\ json_wf t = true.
Proof.
  intros Hsim. induction n as [|n IHn]; intros a st t st' U F rs Hnone Henc Hp HU HI; [done|].
  destruct (pure_data n h0 reg (VObject a)) eqn:Hmin.
  { eapply IHn; try done. intros u Hu. specialize (HU u Hu).
    destruct (pure_data n h0 reg (VObject u)) eqn:E; [|done].
    apply (pure_data_mono _ _ _ (S n)) in E; [congruence|lia]. }
  assert (forall u, u ∈ U ∪ {[a]} -> pure_data n h0 reg (VObject u) = false) as HU'.
  { intros u [Hu| ->%elem_of_singleton]%elem_of_union; [|done]. specialize (HU u Hu).
    destruct (pure_data n h0 reg (VObject u)) eqn:E; [|done].
    apply (pure_data_mono _ _ _ (S n)) in E; [congruence|lia]. }
  cbn [pure_data] in Hp.
  destruct (passStyleOf h0 reg (VObject a)) as [ps| |] eqn:Hps; [|done|done].
  destruct (h0 !! a) as [o|] eqn:Ho; [|by destruct ps].
  set (obj := length (r_heap rs)).
  destruct ps; try done.
  - (* a record *)
    apply andb_true_iff in Hp as [[Hplain Hsym]%andb_true_iff Hfields].
    apply bool_decide_eq_true in Hsym. rewrite forallb_elem_of in Hfields.
    apply plain_names_spec in Hplain as (Hnd & Hproto & Hord).
    destruct (copyRecord_inv _ _ _ _ Ho Hps) as (Hclass & Hpr & Hq & Hown).
    rewrite (enc_record _ _ o) in Henc by done.
    apply bind_Ok in Henc as ([entries st1] & Hef & Henc). cbn [fst snd] in Henc.
    injection Henc as <- <-.
    destruct (sim_fields f o obj n (U ∪ {[a]}) Hsim HU' _ [] _ _ _ F
                (snd (ibid_start new_object rs)) Hef)
      as (rs2 & F2 & fields & Hrev & HI2 & HF2 & Hfr2 & Hm2 & Hheap2 & Hfs & Hes & Hc2 & Hwf).
    { intros name Hn. apply Hfields. by rewrite sort_strings_perm in Hn. }
    { by apply (Inv_start _ _ st _ _ a o). }
    { simpl. set_solver. }
    { simpl. by apply list_lookup_middle. }
    { done. }
    { done. }
    { done. }
    { by intros name v' ?%elem_of_nil. }
    simpl in Hheap2.
    assert (canonical_keys (map fst entries) = true) as Hcanon.
    { rewrite Hes. by apply canonical_keys_spec. }
    rewrite (fromEntries_canonical _ Hcanon).
    assert (corr h0 reg (F2 ∪ {[obj]}) (r_heap rs2) (VObject a) (VObject obj)) as Hcorr.
    { apply (corr_record _ _ _ _ a obj o (record_object fields) fields); try done.
      - set_solver.
      - by rewrite Hfs.
      - by rewrite Hfs, sort_strings_perm.
      - intros name v' Hin. apply corr_mono with F2; [|set_solver]. by apply Hc2. }
    destruct (sim_finish U F F2 st (ibid_add a st) st1 rs rs2 a o new_object)
      as (HI' & Hfr' & Hm'); try done.
    exists (VObject obj), (ibid_finish obj rs2), (F2 ∪ {[obj]}).
    split.
    { rewrite revive_record.
      - fold obj. by rewrite Hrev.
      - apply assoc_None. rewrite Hes. by rewrite sort_strings_perm. }
    split_and!; try done; [set_solver|].
    cbn [json_wf]. by rewrite Hcanon, Hwf.
  - (* an array *)
    rewrite forallb_elem_of in Hp.
    destruct (copyArray_inv _ _ _ _ Ho Hps) as (Hclass & Helems).
    rewrite (enc_array _ _ o) in Henc by done.
    apply bind_Ok in Henc as ([ts st1] & Hee & Henc). cbn [fst snd] in Henc.
    injection Henc as <- <-.
    destruct (sim_elements f obj n (U ∪ {[a]}) Hsim HU' _ [] [] _ _ _ F
                (snd (ibid_start new_array rs)) Hee)
      as (rs2 & F2 & vs & Hrev & HI2 & HF2 & Hfr2 & Hm2 & Hheap2 & Hc2 & Hwf).
    { eapply Forall_impl; [exact Helems|]. by intros e (v & -> & _). }
    { intros d Hd. by apply (Hp (Some d)). }
    { by apply (Inv_start _ _ st _ _ a o). }
    { simpl. set_solver. }
    { simpl. by apply list_lookup_middle. }
    { constructor. }
    simpl in Hheap2, Hc2.
    assert (corr h0 reg (F2 ∪ {[obj]}) (r_heap rs2) (VObject a) (VObject obj)) as Hcorr.
    { apply (corr_array _ _ _ _ a obj o (array_object vs) vs); try done.
      - set_solver.
      - symmetry. by eapply Forall2_length.
      - intros i d v' Hd Hv'.
        destruct (Forall2_lookup_lr _ _ _ _ _ _ Hc2 Hd Hv') as (d' & [= <-] & Hcd).
        apply corr_mono with F2; [done|set_solver]. }
    destruct (sim_finish U F F2 st (ibid_add a st) st1 rs rs2 a o new_array)
      as (HI' & Hfr' & Hm'); try done.
    exists (VObject obj), (ibid_finish obj rs2), (F2 ∪ {[obj]}).
    split.
    { rewrite revive_array. fold obj. by rewrite Hrev. }
    split_and!; try done; set_solver.
  - (* an error *)
    destruct (copyError_inv _ _ _ _ Ho Hps) as (EC & message & Hpr & Hclass & Hname & Hmsg).
    rewrite (enc_error _ _ o) in Henc by done.
    rewrite Hname, Hmsg in Henc. cbn [to_string] in Henc.
    injection Henc as <- <-.
    set (st1 := snd (nextErrorId marshalName (ibid_add a st))).
    set (o' := new_error EC message).
    assert (corr h0 reg (F ∪ {[obj]}) (r_heap rs ++ [o']) (VObject a) (VObject obj)) as Hcorr.
    { apply (corr_error _ _ _ _ a obj o o' EC message); try done.
      - set_solver.
      - by apply list_lookup_middle. }
    destruct (sim_finish U F F st st1 st1 rs (snd (ibid_start o' rs)) a o o')
      as (HI' & Hfr' & Hm'); try done.
    { by apply (Inv_start _ _ st _ _ a o). }
    { simpl. rewrite list_lookup_middle by done. eauto. }
    rewrite start_finish in HI', Hfr' by apply (inv_unfinished _ _ _ _ HI).
    eexists (VObject obj), _, (F ∪ {[obj]}).
    split.
    { unfold qclass_envelope. erewrite fullRevive_error.
      - unfold error_class_of. rewrite getErrorConstructor_errclass_name. reflexivity.
      - cbn. by decide_names.
      - unfold QCLASS. cbn. by decide_names.
      - unfold QCLASS. cbn. by decide_names. }
    split_and!; try done. set_solver.
Qed.

(** The simulation, at every fuel. *)
Lemma sim f : sim_at f.
Proof.
  induction f as [|f IHf]; intros n v st t st' U F rs Henc Hp HU HI; [done|].
  destruct (is_primitive v) eqn:Hprim.
  - destruct (sim_primitive f v st t st' Hprim Henc) as (-> & Hwf & Hrev).
    exists (normalize v), rs, F.
    split_and!; [apply Hrev|done|done|by constructor|apply frame_refl|done|done].
  - destruct v as [| | | | | | |g|a]; try done; try by destruct n.
    destruct (ibidMap st !! a) as [i|] eqn:Hai.
    + assert (exists ps, passStyleOf h0 reg (VObject a) = Ok ps) as [ps Hps].
      { destruct n as [|n]; [done|]. cbn [pure_data] in Hp.
        destruct (passStyleOf h0 reg (VObject a)); [eauto|done|done]. }
      rewrite (encode_seen _ _ _ _ _ _ _ _ _ Hps Hai) in Henc. injection Henc as <- <-.
      destruct (revive_ibid U F st rs a i n HI Hai Hp HU) as (v' & Hrev & Hc).
      exists v', rs, F. split_and!; done.
    + by apply (sim_object f IHf n a st t st' U F rs).
Qed.

(** *** Pure data is always encoded *)

Lemma bind_no_throw {A B} (m : result A) (k : A -> result B) :
  (forall e, m <> Throw e) -> (forall a, m = Ok a -> forall e, k a <> Throw e) ->
  forall e, bind m k <> Throw e.
Proof. destruct m; simpl; [eauto|intros H; by destruct (H e)|done]. Qed.

Lemma encode_fields_no_throw (f : value -> EncState -> result (json * EncState))
    (o : object) (P : value -> Prop) :
  (forall v st e, P v -> f v st <> Throw e) ->
  forall names st e, (forall name, name ∈ names -> P (get h0 o (KStr name))) ->
    encode_fields f h0 o names st <> Throw e.
Proof.
  intros Hf. induction names as [|name names IH]; intros st e HP; [done|].
  simpl. apply bind_no_throw; [intros e'; apply Hf, HP, list_elem_of_here|].
  intros [t st1] _. apply bind_no_throw; [|done].
  intros e'. apply IH. intros name' Hn. by apply HP, list_elem_of_further.
Qed.

Lemma encode_elements_no_throw (f : value -> EncState -> result (json * EncState))
    (P : value -> Prop) :
  (forall v st e, P v -> f v st <> Throw e) ->
  forall elems st e, (forall d, Some d ∈ elems -> P (prop_get d)) ->
    encode_elements f elems st <> Throw e.
Proof.
  intros Hf. induction elems as [|[d|] elems IH]; intros st e HP; [done| |].
  - simpl. apply bind_no_throw; [intros e'; apply Hf, HP, list_elem_of_here|].
    intros [t st1] _. apply bind_no_throw; [|done].
    intros e'. apply IH. intros d' Hd. by apply HP, list_elem_of_further.
  - simpl. apply bind_no_throw; [|done].
    intros e'. apply IH. intros d' Hd. by apply HP, list_elem_of_further.
Qed.

Lemma encode_pure_no_throw fuel :
  forall n v st e, pure_data n h0 reg v = true -> enc fuel h0 reg v st <> Throw e.
Proof.
  induction fuel as [|fuel IH]; intros n v st e Hp; [done|].
  destruct v as [| |b|[]|z|s|y|g|a]; try done.
  - destruct n; simpl in Hp; apply bool_decide_eq_true in Hp; by subst y.
  - by destruct n.
  - destruct n as [|n]; [done|]. cbn [pure_data] in Hp.
    destruct (passStyleOf h0 reg (VObject a)) as [ps| |] eqn:Hps; [|done|done].
    destruct (h0 !! a) as [o|] eqn:Ho; [|by destruct ps].
    destruct (ibidMap st !! a) as [i|] eqn:Hai.
    { by rewrite (encode_seen _ _ _ _ _ _ _ _ _ Hps Hai). }
    destruct ps; try done.
    + apply andb_true_iff in Hp as [[Hplain Hsym]%andb_true_iff Hfields].
      apply bool_decide_eq_true in Hsym. rewrite forallb_elem_of in Hfields.
      rewrite (enc_record _ _ o) by done. apply bind_no_throw; [|done].
      intros e'. apply (encode_fields_no_throw _ _ (fun v => pure_data n h0 reg v = true)).
      * intros v st0 e0 Hv. by apply (IH n).
      * intros name Hn. apply Hfields. by rewrite sort_strings_perm in Hn.
    + rewrite forallb_elem_of in Hp.
      rewrite (enc_array _ _ o) by done. apply bind_no_throw; [|done].
      intros e'. apply (encode_elements_no_throw _ (fun v => pure_data n h0 reg v = true)).
      * intros v st0 e0 Hv. by apply (IH n).
      * intros d Hd. by apply (Hp (Some d)).
    + by rewrite (enc_error _ _ o).
Qed.
End RoundTrip.

(** *** From the correspondence to structural equality *)

Lemma own_property_shape o1 o2 k :
  same_shape o1 o2 -> own_property o1 k = own_property o2 k.
Proof. intros (Hc & _ & He & Hp). unfold own_property. by rewrite Hc, He, Hp. Qed.

Lemma get_shape_intrinsic h h' o1 o2 i k :
  same_shape o1 o2 -> o_proto o2 = PIntrinsic i -> get h o1 k = get h' o2 k.
Proof.
  intros Hs Hi. unfold get, lookup_property. rewrite (own_property_shape _ _ _ Hs).
  destruct Hs as (_ & Hp & _). by rewrite Hp, Hi, !proto_lookup_intrinsic.
Qed.

Lemma assoc_record_object name fields :
  assoc (KStr name) (o_props (record_object fields))
  = (fun v => DataProp v true) <$> assoc name fields.
Proof.
  simpl. induction fields as [|[name' v] fields IH]; [done|]. simpl.
  destruct (decide (name = name')) as [->|Hne].
  - by rewrite decide_True.
  - by rewrite decide_False by congruence.
Qed.

Lemma sameValueZero_normalize v :
  is_primitive v = true -> sameValueZero v (normalize v) = true.
Proof.
  intros Hv. unfold sameValueZero. apply orb_true_iff.
  destruct v as [| |b|[]|z|s|y|g|a]; try done;
    try (right; by apply bool_decide_eq_true_2).
  by left.
Qed.

Lemma corr_sameStructure h0 reg F h' hf v v' :
  corr h0 reg F h' v v' ->
  (forall a o, h0 !! a = Some o -> exists o2, hf !! a = Some o2 /\ same_shape o2 o) ->
  (forall b o', h' !! b = Some o' -> exists o2, hf !! b = Some o2 /\ same_shape o2 o') ->
  sameStructure hf v v'.
Proof.
  intros Hc Hsrc Hbuilt. induction Hc as
    [v Hv
    |a b o o' fields Ho Hps Hb Ho' Hs Hnd Hperm _ IH
    |a b o o' elems Ho Hps Hb Ho' Hs Hlen _ IH
    |a b o o' EC message Ho Hps Hb Ho' Hs Hn Hm].
  - apply same_primitive; [done|by apply sameValueZero_normalize].
  - destruct (Hsrc _ _ Ho) as (oa & Hoa & Hsa).
    destruct (Hbuilt _ _ Ho') as (ob & Hob & Hsb).
    pose proof (same_shape_trans _ _ _ Hsb Hs) as Hsb'.
    destruct (copyRecord_inv _ _ _ _ Ho Hps) as (Hclass & Hpr & Hq & Hown).
    assert (forall name, own_property ob (KStr name)
              = (fun v => DataProp v true) <$> assoc name fields) as Hobp.
    { intros name. rewrite (own_property_shape _ _ _ Hsb').
      rewrite own_property_ordinary by done. apply assoc_record_object. }
    apply (same_record _ a b oa ob); try done.
    + destruct Hsa as (-> & _). done.
    + destruct Hsb' as (-> & _). done.
    + unfold instanceof_Error. destruct Hsa as (_ & -> & _).
      by rewrite Hpr, proto_is_error_intrinsic.
    + unfold instanceof_Error. destruct Hsb' as (_ & -> & _).
      cbn [o_proto record_object new_error]. by rewrite proto_is_error_intrinsic.
    + intros name. rewrite (own_property_shape _ _ _ Hsa), Hobp.
      rewrite <- getOwnPropertyNames_ordinary by done.
      rewrite <- Hperm, <- assoc_is_Some, fmap_is_Some. done.
    + intros name da Hda. rewrite (own_property_shape _ _ _ Hsa) in Hda.
      assert (name ∈ map fst fields) as Hin.
      { rewrite Hperm. apply getOwnPropertyNames_ordinary; [done|eauto]. }
      apply assoc_is_Some in Hin as [v' Hv'].
      exists (DataProp v' true). rewrite Hobp, Hv'. split; [done|].
      apply assoc_Some_elem in Hv'. specialize (IH _ _ Hv').
      unfold get, lookup_property in IH. by rewrite Hda in IH.
  - destruct (Hsrc _ _ Ho) as (oa & Hoa & Hsa).
    destruct (Hbuilt _ _ Ho') as (ob & Hob & Hsb).
    pose proof (same_shape_trans _ _ _ Hsb Hs) as Hsb'.
    destruct (copyArray_inv _ _ _ _ Ho Hps) as (Hclass & Helems).
    apply (same_array _ a b oa ob); try done.
    + destruct Hsa as (-> & _). done.
    + destruct Hsb' as (-> & _). done.
    + destruct Hsa as (_ & _ & -> & _). destruct Hsb' as (_ & _ & -> & _). simpl.
      apply Forall2_same_length_lookup_2.
      { by rewrite length_map. }
      intros i e e' He He'. rewrite list_lookup_fmap in He'.
      destruct (elems !! i) as [v'|] eqn:Hv'; [|done]. injection He' as <-.
      rewrite Forall_forall in Helems.
      destruct (Helems e) as (v & -> & _); [by eapply list_elem_of_lookup_2|].
      eexists _, _. split; [done|]. split; [done|]. by apply (IH i).
  - destruct (Hsrc _ _ Ho) as (oa & Hoa & Hsa).
    destruct (Hbuilt _ _ Ho') as (ob & Hob & Hsb).
    pose proof (same_shape_trans _ _ _ Hsb Hs) as Hsb'.
    destruct (copyError_inv _ _ _ _ Ho Hps) as (EC' & message' & Hpr & Hclass & Hname & Hmsg).
    apply (same_error _ a b oa ob); try done.
    + destruct Hsa as (-> & _). done.
    + destruct Hsb' as (-> & _). done.
    + unfold instanceof_Error. destruct Hsa as (_ & -> & _).
      by rewrite Hpr, proto_is_error_intrinsic.
    + unfold instanceof_Error. destruct Hsb' as (_ & -> & _).
      cbn [o_proto record_object new_error]. by rewrite proto_is_error_intrinsic.
    + rewrite (get_shape_intrinsic hf h0 oa o _ _ Hsa Hpr), Hn.
      rewrite (get_shape_intrinsic hf hf ob _ (ErrorPrototype EC) _ Hsb' eq_refl).
      unfold get, lookup_property. cbn [o_proto new_error].
      rewrite proto_lookup_intrinsic. by destruct EC.
    + rewrite (get_shape_intrinsic hf h0 oa o _ _ Hsa Hpr), Hm.
      rewrite (get_shape_intrinsic hf hf ob _ (ErrorPrototype EC) _ Hsb' eq_refl).
      unfold get, lookup_property, own_property. cbn. by decide_names.
Qed.

(** *** harden changes no shape *)

Definition shape_preserved (h h' : list object) : Prop :=
  forall a o, h !! a = Some o -> exists o2, h' !! a = Some o2 /\ same_shape o2 o.

Lemma shape_preserved_refl h : shape_preserved h h.
Proof. intros a o Ho. exists o. split; [done|apply same_shape_refl]. Qed.

Lemma shape_preserved_trans h1 h2 h3 :
  shape_preserved h1 h2 -> shape_preserved h2 h3 -> shape_preserved h1 h3.
Proof.
  intros H12 H23 a o Ho. destruct (H12 a o Ho) as (o2 & Ho2 & Hs2).
  destruct (H23 a o2 Ho2) as (o3 & Ho3 & Hs3). exists o3.
  split; [done|]. by eapply same_shape_trans.
Qed.

Lemma shape_preserved_foldl {A} (f : list object -> A -> list object) (l : list A) :
  (forall h x, shape_preserved h (f h x)) ->
  forall h, shape_preserved h (foldl f h l).
Proof.
  intros Hf. induction l as [|x l IH]; intros h; [apply shape_preserved_refl|].
  simpl. eapply shape_preserved_trans; [apply Hf|apply IH].
Qed.

Lemma harden_from_shape fuel : forall v h, shape_preserved h (harden_from fuel v h).
Proof.
  induction fuel as [|fuel IH]; intros v h; [apply shape_preserved_refl|].
  destruct v as [| | | | | | | |b]; try apply shape_preserved_refl.
  cbn [harden_from]. destruct (h !! b) as [ob|] eqn:Hb; [|apply shape_preserved_refl].
  destruct (o_frozen ob); [apply shape_preserved_refl|].
  assert (shape_preserved h (<[b := freeze ob]> h)) as H1.
  { intros a o Ho. destruct (decide (a = b)) as [->|Hne].
    - exists (freeze ob). split; [|by simplify_eq].
      apply list_lookup_insert_eq. by apply lookup_lt_Some in Hb.
    - exists o. split; [by rewrite list_lookup_insert_ne|apply same_shape_refl]. }
  cbv zeta. set (h1 := <[b := freeze ob]> h) in *.
  set (h2 := foldl (fun h kd => harden_from fuel (desc_value (snd kd)) h) h1 (o_props ob)).
  set (h3 := foldl (fun h e => match e with
                               | Some d => harden_from fuel (desc_value d) h
                               | None => h
                               end) h2 (o_elems ob)).
  assert (shape_preserved h1 h2) as H2.
  { apply shape_preserved_foldl. intros h' x. apply IH. }
  assert (shape_preserved h2 h3) as H3.
  { apply shape_preserved_foldl. intros h' [d|]; [apply IH|apply shape_preserved_refl]. }
  assert (shape_preserved h h3) as H13
    by (eapply shape_preserved_trans; [exact H1|];
        eapply shape_preserved_trans; [exact H2|exact H3]).
  destruct (o_proto ob); try done.
  eapply shape_preserved_trans; [exact H13|apply IH].
Qed.

(** *** The round trip *)

Definition cyclic_heap : list object :=
  [ plain_array [VString "a"; VObject 0; VString "c"] ].



Definition pure_heap : list object :=
  [ plain_array [VNumber NegZero; VNumber NaN; VBigInt (-12)];
    mkObject CError (PIntrinsic (ErrorPrototype ERangeError)) true []
      [(KStr "message", DataProp (VString "out of range") false)];
    plain_record [("again", VObject 0); ("first", VObject 0); ("why", VObject 1)] ].


(** *** Names that are not plain *)

(** A record whose names 9 and 10 sort as 10, 9 and enumerate as 9, 10,
    with the object under 9 shared with the field z. *)
Definition index_sharing_heap : list object :=
  [ plain_record [("p", VNumber (Fin 1))];
    plain_record [("q", VNumber (Fin 2))];
    plain_record [("9", VObject 1); ("10", VObject 0); ("z", VObject 1)] ].

(** The encoder numbers the objects in sorted order of the names and the
    decoder in enumeration order: the pointer written for z is read as the
    object under 10. *)
Lemma index_names_confuse_sharing :
  exists cd ec h' o',
    serialize defaultValToSlotFn "anon-marshal" index_sharing_heap ∅ 0 (VObject 2)
      = Ok (cd, ec) /\
    unserialize defaultSlotToValFn index_sharing_heap cd VUndefined
      = Ok (VObject 3, h') /\
    h' !! 3 = Some o' /\
    get h' o' (KStr "z") = get h' o' (KStr "10") /\
    get h' o' (KStr "z") <> get h' o' (KStr "9").
Proof.
  eexists _, _, _, _. split; [vm_compute; reflexivity|].
  split; [vm_compute; reflexivity|]. split; [reflexivity|].
  split; [vm_compute; reflexivity|vm_compute; discriminate].
Qed.

Definition proto_name_heap : list object :=
  [ plain_record [("__proto__", VNumber (Fin 1)); ("x", VNumber (Fin 2))] ].

(** An own field named __proto__ is written, and is lost when the decoder
    assigns it: the assignment reaches the accessor of Object.prototype. *)
Lemma proto_name_is_lost :
  exists ec h' o',
    serialize defaultValToSlotFn "anon-marshal" proto_name_heap ∅ 0 (VObject 0)
      = Ok ({| body := qq "{'__proto__':1,'x':2}"; cap_slots := [] |}, ec) /\
    unserialize defaultSlotToValFn proto_name_heap
      {| body := qq "{'__proto__':1,'x':2}"; cap_slots := [] |} VUndefined
      = Ok (VObject 1, h') /\
    h' !! 1 = Some o' /\
    getOwnPropertyNames o' = ["x"].
Proof.
  eexists _, _, _. split; [vm_compute; reflexivity|].
  split; [vm_compute; reflexivity|]. split; reflexivity.
Qed.

(** * Further properties of the code *)

(** ** sameValueZero *)

(** X1.  [sameValueZero] relates two values exactly when they are the same
    value once -0 is read as 0: it is an equivalence, NaN is the same as
    NaN, -0 the same as 0, and two objects are the same only when they are
    one object. *)
Theorem sameValueZero_is_equality_up_to_zero (x y : value) :
  sameValueZero x y = true <-> normalize x = normalize y.
Proof.
  unfold sameValueZero, strict_equals, Object_is. split.
  - intros [H| ->%bool_decide_eq_true]%orb_true_iff; [|done].
    destruct x as [| |b|[| | | |[|p|p]]|z|s|s|f|a],
             y as [| |b'|[| | | |[|p'|p']]|z'|s'|s'|f'|a'];
      simpl in H |- *; try done;
      apply bool_decide_eq_true in H; by simplify_eq.
  - intros H. apply orb_true_iff.
    destruct (decide (x = y)) as [->|Hne]; [right; by apply bool_decide_eq_true|].
    left.
    destruct x as [| |b|[| | | |[|p|p]]|z|s|s|f|a],
             y as [| |b'|[| | | |[|p'|p']]|z'|s'|s'|f'|a'];
      simpl in H |- *; try done; congruence.
Qed.

(** ** What classification accepts *)

Lemma check_array_elems_complete i elems :
  Forall (fun e => exists v, e = Some (DataProp v true) /\ is_function v = false) elems ->
  check_array_elems i elems = Ok tt.
Proof.
  intros H. revert i. induction H as [|e elems (v & -> & Hv) _ IH]; intros i; [done|].
  simpl. rewrite Hv. simpl. apply IH.
Qed.

Lemma length_indexed_from i elems :
  Forall (fun e : option prop => is_Some e) elems ->
  length (indexed_from i elems) = length elems.
Proof.
  intros H. revert i. induction H as [|e elems [d ->] _ IH]; intros i; [done|].
  simpl. by rewrite IH.
Qed.

(** The shape of a pass-by-copy array: a frozen array with the prototype
    Array.prototype, whose elements are enumerable data properties that
    hold no function, without a hole and without any other string-named
    property. *)
Definition copyArray_shape (o : object) : Prop :=
  o_frozen o = true /\ o_class o = CArray /\
  o_proto o = PIntrinsic ArrayPrototype /\
  Forall (fun e => exists v, e = Some (DataProp v true) /\ is_function v = false)
    (o_elems o) /\
  string_keyed (o_props o) = [].

Lemma isPassByCopyArray_shape o :
  isPassByCopyArray o = Ok true ->
  o_class o = CArray /\ o_proto o = PIntrinsic ArrayPrototype /\
  Forall (fun e => exists v, e = Some (DataProp v true) /\ is_function v = false)
    (o_elems o) /\
  string_keyed (o_props o) = [].
Proof.
  intros H. pose proof (isPassByCopyArray_true _ H) as [Hc Hall].
  unfold isPassByCopyArray in H. rewrite bool_decide_eq_true_2 in H by done.
  simpl in H. case_bool_decide as Hp; [|done]. simpl in H.
  rewrite (check_array_elems_complete _ _ Hall) in H. simpl in H.
  destruct (Nat.eqb_spec (length (own_string_entries o)) (length (o_elems o) + 1))
    as [Hlen|]; [|done].
  split; [done|]. split; [done|]. split; [done|].
  unfold own_string_entries in Hlen. rewrite Hc, !length_app in Hlen.
  rewrite length_indexed_from in Hlen.
  - simpl in Hlen. apply length_zero_iff_nil. lia.
  - eapply Forall_impl; [exact Hall|]. by intros e (v & -> & _).
Qed.

Lemma copyArray_shape_classified (h : list object) (reg : gmap nat string) (a : nat) (o : object) :
  h !! a = Some o ->
  truthy_iface (reg !! a) = false ->
  copyArray_shape o -> passStyleOf h reg (VObject a) = Ok PScopyArray.
Proof.
  intros Ho Hreg (Hf & Hc & Hp & Hall & Hprops).
  assert (forall s, s <> "length" -> array_index s = None ->
            lookup_property h o (KStr s) = None) as Hnone.
  { intros s Hs Hi. unfold lookup_property, own_property.
    rewrite Hc, decide_False, Hi by done.
    rewrite <- assoc_string_keyed, Hprops. simpl.
    rewrite Hp, proto_lookup_intrinsic. simpl.
    destruct (decide (s = "name")); [|destruct (decide (s = "message"))]; done. }
  unfold passStyleOf. simpl. rewrite Hreg, Ho.
  unfold has_property, get. rewrite !Hnone by done. rewrite Hf. simpl.
  unfold isPromise. rewrite Hc.
  unfold isPassByCopyError, instanceof_Error. rewrite Hp, proto_is_error_intrinsic.
  simpl. unfold isPassByCopyArray. rewrite Hc, Hp.
  rewrite !bool_decide_eq_true_2 by done. simpl.
  rewrite (check_array_elems_complete _ _ Hall). simpl.
  unfold own_string_entries. rewrite Hc, Hprops, !length_app, length_indexed_from.
  + simpl. by rewrite Nat.eqb_refl.
  + eapply Forall_impl; [exact Hall|]. by intros e (v & -> & _).
Qed.

(** X2.  An object that the registry does not vouch for is classified
    copyArray exactly when it has the shape of a pass-by-copy array; a
    symbol-named property does not count against it. *)
Theorem copyArray_exactly (h : list object) (reg : gmap nat string) (a : nat) (o : object) :
  h !! a = Some o ->
  truthy_iface (reg !! a) = false ->
  passStyleOf h reg (VObject a) = Ok PScopyArray <-> copyArray_shape o.
Proof.
  intros Ho Hreg. split.
  - intros Hps. apply passStyleOf_object_inv in Hps as [[? _]|(_ & o' & Ho' & _ & Hf & Hps)];
      [congruence|]. assert (o' = o) as -> by congruence.
    destruct Hps as [[_ ?]|[_ [[_ ?]|[_ [[Harr _]|[_ [[_ ?]|(_ & _ & ?)]]]]]]]; try done.
    split; [done|]. by apply isPassByCopyArray_shape.
  - by apply copyArray_shape_classified.
Qed.

Lemma copyArray_exactly_witness :
  passStyleOf [plain_array [VNumber (Fin 1); VString "two"]] ∅ (VObject 0)
    = Ok PScopyArray <->
  copyArray_shape (plain_array [VNumber (Fin 1); VString "two"]).
Proof.
  apply (copyArray_exactly [plain_array [VNumber (Fin 1); VString "two"]] ∅ 0);
    reflexivity.
Defined.

(** The shape of a pass-by-copy record: a frozen object that is not an
    array, with the prototype Object.prototype, with at least one
    string-named own property, all of them enumerable data properties that
    hold no function, and none of them named @qclass. *)
Definition copyRecord_shape (o : object) : Prop :=
  o_frozen o = true /\ o_class o <> CArray /\
  o_proto o = PIntrinsic ObjectPrototype /\
  string_keyed (o_props o) <> [] /\
  Forall (fun kd => exists v, snd kd = DataProp v true /\ is_function v = false)
    (string_keyed (o_props o)) /\
  assoc (KStr QCLASS) (o_props o) = None.

Lemma own_string_entries_ordinary o :
  o_class o <> CArray -> own_string_entries o = string_keyed (o_props o).
Proof. intros Hc. unfold own_string_entries. by destruct (o_class o). Qed.

Lemma check_record_fields_complete (entries : list (string * prop)) :
  Forall (fun kd => exists v, snd kd = DataProp v true /\ is_function v = false) entries ->
  existsb (fun kd => is_function (desc_value (snd kd))) entries = false /\
  check_record_fields entries = Ok tt.
Proof.
  induction 1 as [|[k d] entries (v & Hd & Hv) _ [IH1 IH2]]; [done|].
  simpl in *. subst d. simpl. by rewrite Hv, IH1, IH2.
Qed.

Lemma copyRecord_shape_classified (h : list object) (reg : gmap nat string) (a : nat) (o : object) :
  h !! a = Some o ->
  truthy_iface (reg !! a) = false ->
  copyRecord_shape o -> passStyleOf h reg (VObject a) = Ok PScopyRecord.
Proof.
  intros Ho Hreg (Hf & Hc & Hp & Hne & Hall & Hq).
  destruct (check_record_fields_complete _ Hall) as [Hex Hchk].
  assert (forall k, proto_lookup (length h) h (o_proto o) k = None) as Hproto.
  { intros k. by rewrite Hp, proto_lookup_intrinsic. }
  unfold passStyleOf. simpl. rewrite Hreg, Ho.
  unfold has_property, get, lookup_property.
  rewrite !own_property_ordinary, Hq, !Hproto by done. rewrite Hf. simpl.
  assert (isPromise o = false) as ->.
  { unfold isPromise. rewrite Hp. by destruct (o_class o). }
  assert (is_function match match assoc (KStr "then") (o_props o) with
                            | Some d => Some d
                            | None => None
                            end with
                      | Some d => prop_get d
                      | None => VUndefined
                      end = false) as ->.
  { destruct (assoc (KStr "then") (o_props o)) as [d|] eqn:Hthen; [|done].
    rewrite <- assoc_string_keyed in Hthen. apply assoc_Some_elem in Hthen.
    rewrite Forall_forall in Hall. destruct (Hall _ Hthen) as (v & Hd & Hv).
    simpl in Hd. by subst d. }
  unfold isPassByCopyError, instanceof_Error. rewrite Hp, proto_is_error_intrinsic.
  simpl. unfold isPassByCopyArray. rewrite bool_decide_eq_false_2 by done. simpl.
  unfold isPassByCopyRecord. rewrite Hp, bool_decide_eq_true_2 by done. simpl.
  rewrite own_string_entries_ordinary by done.
  destruct (string_keyed (o_props o)) as [|kd l] eqn:Hk; [done|]. simpl length.
  simpl Nat.eqb. cbv iota. by rewrite Hex, Hchk.
Qed.

(** X3.  An object that the registry does not vouch for is classified
    copyRecord exactly when it has the shape of a pass-by-copy record;
    symbol-named properties are not looked at. *)
Theorem copyRecord_exactly (h : list object) (reg : gmap nat string) (a : nat) (o : object) :
  h !! a = Some o ->
  truthy_iface (reg !! a) = false ->
  passStyleOf h reg (VObject a) = Ok PScopyRecord <-> copyRecord_shape o.
Proof.
  intros Ho Hreg. split.
  - intros Hps. pose proof Hps as Hinv.
    apply passStyleOf_object_inv in Hinv as [[? _]|(_ & o' & Ho' & Hq & Hf & Hinv)];
      [congruence|]. assert (o' = o) as -> by congruence.
    destruct Hinv as [[_ ?]|[_ [[_ ?]|[_ [[_ ?]|[Harr [[Hrec _]|(_ & _ & ?)]]]]]]]; try done.
    apply isPassByCopyArray_false in Harr.
    apply isPassByCopyRecord_true in Hrec as (Hp & Hne & Hall).
    rewrite own_string_entries_ordinary in Hne, Hall by done.
    split_and!; try done.
    unfold has_property, lookup_property in Hq.
    rewrite own_property_ordinary in Hq by done.
    by destruct (assoc (KStr QCLASS) (o_props o)).
  - by apply copyRecord_shape_classified.
Qed.

Lemma copyRecord_exactly_witness :
  passStyleOf [plain_record [("x", VNumber (Fin 1))]] ∅ (VObject 0) = Ok PScopyRecord <->
  copyRecord_shape (plain_record [("x", VNumber (Fin 1))]).
Proof.
  apply (copyRecord_exactly [plain_record [("x", VNumber (Fin 1))]] ∅ 0); reflexivity.
Defined.

(** The shape of a pass-by-copy error: a frozen object whose prototype is
    the prototype of one of the seven standard error classes, whose
    string-named own properties are at most [message] and [stack], the
    message being a string in a data property that is not enumerable. *)
Definition copyError_shape (o : object) : Prop :=
  o_frozen o = true /\
  (exists EC, o_proto o = PIntrinsic (ErrorPrototype EC)) /\
  (forall name, name ∈ getOwnPropertyNames o -> name = "message" \/ name = "stack") /\
  (forall d, assoc "message" (own_string_entries o) = Some d ->
     exists m, d = DataProp (VString m) false).

Lemma rest_names_nil (names : list string) :
  filter (fun k : string => k <> "message" /\ k <> "stack") names = [] <->
  forall name, name ∈ names -> name = "message" \/ name = "stack".
Proof.
  induction names as [|k names IH].
  - split; [by intros _ name ?%elem_of_nil|done].
  - destruct (decide (k <> "message" /\ k <> "stack")) as [Hk|Hk].
    + rewrite filter_cons_True by done. split; [done|].
      intros H. destruct (H k) as [->| ->]; [apply list_elem_of_here|..]; by destruct Hk.
    + rewrite filter_cons_False, IH by done. split.
      * intros H name [->|Hin]%elem_of_cons; [|by apply H].
        destruct (decide (k = "message")); [by left|].
        destruct (decide (k = "stack")); [by right|]. by destruct Hk.
      * intros H name Hin. apply H. by apply list_elem_of_further.
Qed.

Lemma copyError_shape_classified (h : list object) (reg : gmap nat string) (a : nat) (o : object) :
  h !! a = Some o ->
  truthy_iface (reg !! a) = false ->
  copyError_shape o -> passStyleOf h reg (VObject a) = Ok PScopyError.
Proof.
  intros Ho Hreg (Hf & [EC Hp] & Hnames & Hmsg).
  assert (o_class o <> CArray) as Hc.
  { intros Hc. destruct (Hnames "length") as [?|?]; try done.
    unfold getOwnPropertyNames, own_string_entries. rewrite Hc, !map_app.
    apply elem_of_app. right. apply list_elem_of_here. }
  assert (forall s, s <> "message" -> s <> "stack" ->
            own_property o (KStr s) = None) as Hown.
  { intros s H1 H2. destruct (own_property o (KStr s)) as [d|] eqn:Hd; [|done].
    destruct (Hnames s); [|done..]. apply getOwnPropertyNames_ordinary; eauto. }
  unfold passStyleOf. simpl. rewrite Hreg, Ho.
  unfold has_property, get, lookup_property.
  rewrite !Hown, Hp, !proto_lookup_intrinsic by done.
  assert (intrinsic_lookup 3 (ErrorPrototype EC) (KStr QCLASS) = None) as ->
    by by destruct EC.
  assert (intrinsic_lookup 3 (ErrorPrototype EC) (KStr "then") = None) as ->
    by by destruct EC.
  rewrite Hf. simpl.
  assert (isPromise o = false) as ->.
  { unfold isPromise. rewrite Hp. by destruct (o_class o). }
  unfold isPassByCopyError, instanceof_Error, get, lookup_property.
  rewrite Hown, Hp, proto_is_error_intrinsic, proto_lookup_intrinsic by done.
  assert (intrinsic_lookup 3 (ErrorPrototype EC) (KStr "name")
          = Some (DataProp (VString (errclass_name EC)) false)) as ->
    by by destruct EC.
  simpl prop_get. rewrite getErrorConstructor_errclass_name.
  rewrite bool_decide_eq_true_2 by done. simpl negb. cbv iota.
  apply rest_names_nil in Hnames. unfold getOwnPropertyNames in Hnames.
  rewrite Hnames. simpl.
  destruct (assoc "message" (own_string_entries o)) as [d|]; [|done].
  by destruct (Hmsg d eq_refl) as [m ->].
Qed.

(** X4.  An object that the registry does not vouch for, and that is an
    instance of Error, is classified copyError exactly when it has the
    shape of a pass-by-copy error: an error of another class, or with
    another own property, is not passed by copy. *)
Theorem copyError_exactly (h : list object) (reg : gmap nat string) (a : nat) (o : object) :
  h !! a = Some o ->
  truthy_iface (reg !! a) = false ->
  passStyleOf h reg (VObject a) = Ok PScopyError <-> copyError_shape o.
Proof.
  intros Ho Hreg. split.
  - intros Hps. pose proof Hps as Hinv.
    apply passStyleOf_object_inv in Hinv as [[? _]|(_ & o' & Ho' & Hq & Hf & Hinv)];
      [congruence|]. assert (o' = o) as -> by congruence.
    destruct Hinv as [[_ ?]|[_ [[Herr _]|[_ [[_ ?]|[_ [[_ ?]|(_ & _ & ?)]]]]]]]; try done.
    split; [done|]. unfold isPassByCopyError in Herr.
    destruct (negb (instanceof_Error h o)); [done|].
    destruct (getErrorConstructor (get h o (KStr "name"))) as [EC|]; [|done].
    case_bool_decide as Hp; [|done]. cbn [negb] in Herr.
    destruct (Nat.leb_spec 1 (length (filter (fun k : string => k <> "message" /\ k <> "stack")
                (map fst (own_string_entries o))))) as [|Hrest]; [done|].
    split; [by exists EC|]. split.
    + apply rest_names_nil. apply length_zero_iff_nil.
      unfold getOwnPropertyNames. lia.
    + intros d Hd. rewrite Hd in Herr. destruct d as [v e|g e]; simpl in Herr; [|done].
      destruct v; try done. destruct e; [done|]. eauto.
  - by apply copyError_shape_classified.
Qed.

Definition range_error : object :=
  mkObject CError (PIntrinsic (ErrorPrototype ERangeError)) true []
    [(KStr "message", DataProp (VString "out of range") false)].

Lemma copyError_exactly_witness :
  passStyleOf [range_error] ∅ (VObject 0) = Ok PScopyError <-> copyError_shape range_error.
Proof. apply (copyError_exactly [range_error] ∅ 0); reflexivity. Defined.

Lemma check_methods_Ok o names :
  check_methods o names = Ok tt ->
  forall name, name ∈ names ->
    exists d, own_property o (KStr name) = Some d /\ is_function (prop_get d) = true.
Proof.
  induction names as [|k names IH]; intros H name Hin; [by apply elem_of_nil in Hin|].
  simpl in H. destruct (own_property o (KStr k)) as [d|] eqn:Hd; [|done].
  destruct (is_function (prop_get d)) eqn:Hf; [|done].
  apply elem_of_cons in Hin as [->|Hin]; eauto.
Qed.

(** X5.  An object that is not registered and that classification passes
    by reference is frozen, is not an array, and all its string-named
    own properties hold functions when read: what is not a method keeps an
    unregistered object from being a remotable. *)
Theorem remote_style_means_methods
    (h : list object) (reg : gmap nat string) (a : nat) (o : object) :
  h !! a = Some o ->
  reg !! a = None ->
  passStyleOf h reg (VObject a) = Ok REMOTE_STYLE ->
  o_frozen o = true /\ o_class o <> CArray /\
  forall name, name ∈ getOwnPropertyNames o ->
    exists d, own_property o (KStr name) = Some d /\ is_function (prop_get d) = true.
Proof.
  intros Ho Hreg Hps.
  apply passStyleOf_object_inv in Hps as [[Ht _]|(_ & o' & Ho' & _ & Hf & Hps)].
  { by rewrite Hreg in Ht. }
  assert (o' = o) as -> by congruence.
  destruct Hps as [[_ ?]|[_ [[_ ?]|[_ [[_ ?]|[_ [[_ ?]|(_ & Hm & _)]]]]]]]; try done.
  split; [done|]. unfold mustPassByRemote in Hm.
  change (4 + length h) with (S (3 + length h)) in Hm.
  cbn [mustPassByRemote_proto] in Hm. rewrite Ho, Hf in Hm. simpl in Hm.
  rewrite Hreg in Hm. apply bind_Ok in Hm as ([] & Hcan & _).
  simpl in Hcan. rewrite Ho in Hcan. case_bool_decide as Hc; [done|].
  split; [done|]. by apply check_methods_Ok.
Qed.

Definition counter_object : object :=
  mkObject COrdinary (PIntrinsic ObjectPrototype) true []
    [(KStr "incr", DataProp (VFunction 7) true)].

Lemma remote_style_means_methods_witness :
  o_frozen counter_object = true /\ o_class counter_object <> CArray /\
  forall name, name ∈ getOwnPropertyNames counter_object ->
    exists d, own_property counter_object (KStr name) = Some d /\
      is_function (prop_get d) = true.
Proof.
  apply (remote_style_means_methods [counter_object] ∅ 0); reflexivity.
Defined.


Definition mixed_object : object :=
  mkObject COrdinary (PIntrinsic ObjectPrototype) true []
    [(KStr "count", DataProp (VNumber (Fin 0)) true);
     (KStr "incr", DataProp (VFunction 7) true)].


(** ** The traversal of serialize *)

(** X7.  serialize classifies every object that it reaches through
    fields of records and elements of arrays: when classification throws
    on one of them (an object that is not frozen, a thenable, an error of
    an unknown class, ...), serialize throws. *)
Theorem unpassable_object_fails_encoding
    (convertValToSlot : value -> value) (marshalName : string)
    (h : list object) (reg : gmap nat string) (errorCount0 : nat)
    (root : value) (b : nat) (e : exn) :
  finite_protos h = true ->
  contains h reg root b ->
  passStyleOf h reg (VObject b) = Throw e ->
  fails (serialize convertValToSlot marshalName h reg errorCount0 root).
Proof.
  intros Hfin Hcont Hthrow.
  destruct (serialize convertValToSlot marshalName h reg errorCount0 root)
    as [[cd ec]|e'|] eqn:Hser.
  - exfalso. unfold serialize in Hser. apply bind_Ok in Hser as ([t st] & Henc & _).
    apply encode_advances in Henc as [_ Hhere Hcl Hclosed].
    assert (b ∈ visited st) as Hin.
    { apply (contains_visited h reg st root b); [|done|done].
      apply Hclosed. intros a c Ha. unfold visited in Ha. simpl in Ha. set_solver. }
    destruct (Hcl) with (a := b) as [ps Hps]; [|done|congruence].
    intros a Ha. unfold visited in Ha. simpl in Ha. set_solver.
  - by exists e'.
  - by apply serialize_returns in Hser.
Qed.

Definition unfrozen_heap : list object :=
  [ mkObject COrdinary (PIntrinsic ObjectPrototype) false []
      [(KStr "x", DataProp (VNumber (Fin 1)) true)];
    plain_array [VBool true; VObject 0] ].

Lemma unpassable_object_fails_encoding_witness :
  fails (serialize defaultValToSlotFn "anon-marshal" unfrozen_heap ∅ 0 (VObject 1)).
Proof.
  apply (unpassable_object_fails_encoding defaultValToSlotFn "anon-marshal"
           unfrozen_heap ∅ 0 (VObject 1) 0 NotFrozen); [reflexivity| |reflexivity].
  eapply (contains_element _ _ 1 0 _ (DataProp (VObject 0) true));
    [reflexivity|reflexivity| |apply contains_here].
  apply list_elem_of_further, list_elem_of_here.
Defined.

(** X8.  serialize terminates on every heap, cyclic graphs included: the
    ibid table stops the traversal at an object met before, so that the
    traversal never nests deeper than there are objects; serialize
    returns capdata or throws. *)
Theorem serialize_terminates
    (convertValToSlot : value -> value) (marshalName : string)
    (h : list object) (reg : gmap nat string) (errorCount0 : nat) (root : value) :
  finite_protos h = true ->
  (exists cd ec,
     serialize convertValToSlot marshalName h reg errorCount0 root = Ok (cd, ec)) \/
  fails (serialize convertValToSlot marshalName h reg errorCount0 root).
Proof.
  intros Hfin.
  destruct (serialize convertValToSlot marshalName h reg errorCount0 root)
    as [[cd ec]|e|] eqn:Hser.
  - left. eauto.
  - right. by exists e.
  - by apply serialize_returns in Hser.
Qed.

Lemma serialize_terminates_witness :
  (exists cd ec,
     serialize defaultValToSlotFn "anon-marshal" cyclic_heap ∅ 0 (VObject 0)
       = Ok (cd, ec)) \/
  fails (serialize defaultValToSlotFn "anon-marshal" cyclic_heap ∅ 0 (VObject 0)).
Proof.
  apply (serialize_terminates defaultValToSlotFn "anon-marshal" cyclic_heap ∅ 0
           (VObject 0)).
  reflexivity.
Defined.

(** ** Objects passed by reference *)

Lemma encode_promise_first convertValToSlot marshalName fuel h reg a st :
  passStyleOf h reg (VObject a) = Ok PSpromise ->
  ibidMap st !! a = None ->
  slotMap st !! a = None ->
  encode convertValToSlot marshalName (S fuel) h reg (VObject a) st
  = Ok (qclass_envelope "slot" [("index", json_of_nat (length (slots st)))],
        {| slots := slots st ++ [convertValToSlot (VObject a)];
           slotMap := <[a := length (slots st)]> (slotMap st);
           ibidMap := <[a := ibidCount st]> (ibidMap st);
           ibidCount := ibidCount st + 1;
           errorCount := errorCount st |}).
Proof.
  intros Hps Hi Hs.
  cbn [encode]. rewrite Hps. cbn [bind]. rewrite Hi.
  unfold serializeSlot. cbn [ibid_add slotMap slots]. by rewrite Hs.
Qed.

(** The interface tag that travels with a value passed by reference. *)
Definition iface_sent (reg : gmap nat string) (ps : PassStyle) (a : nat) : option json :=
  match ps with
  | REMOTE_STYLE => JStr <$> reg !! a
  | _ => None
  end.

(** X9.  A remotable or a promise at the root is sent as slot 0: the
    slots are the one slot that convertValToSlot answers for it, and
    unserialize of the capdata answers what convertSlotToVal makes of that
    slot and of the interface tag of the remotable (no tag for a promise
    or an unregistered remotable).  With the default translators, which
    are identities, the value comes back as the same object. *)
Theorem presence_round_trip
    (convertValToSlot : value -> value)
    (convertSlotToVal : value -> option json -> value)
    (marshalName : string) (h : list object) (reg : gmap nat string)
    (errorCount0 : nat) (a : nat) (ps : PassStyle) (cyclePolicy : value) :
  passStyleOf h reg (VObject a) = Ok ps ->
  ps = REMOTE_STYLE \/ ps = PSpromise ->
  exists cd h',
    serialize convertValToSlot marshalName h reg errorCount0 (VObject a)
      = Ok (cd, errorCount0) /\
    cap_slots cd = [convertValToSlot (VObject a)] /\
    unserialize convertSlotToVal h cd cyclePolicy
      = Ok (convertSlotToVal (convertValToSlot (VObject a)) (iface_sent reg ps a), h').
Proof.
  intros Hps Hcase.
  set (t := qclass_envelope "slot"
              (match iface_sent reg ps a with
               | Some i => [("iface", i)]
               | None => []
               end ++ [("index", json_of_nat 0)])).
  assert (encode convertValToSlot marshalName (S (length h)) h reg (VObject a)
            (init_EncState errorCount0)
          = Ok (t, {| slots := [convertValToSlot (VObject a)];
                      slotMap := {[ a := 0 ]}; ibidMap := {[ a := 0 ]};
                      ibidCount := 1; errorCount := errorCount0 |})) as Henc.
  { destruct Hcase as [-> | ->].
    - rewrite encode_remote_first by done. subst t. simpl.
      by destruct (reg !! a).
    - by rewrite encode_promise_first. }
  assert (json_wf t = true) as Hwf.
  { subst t. destruct (iface_sent reg ps a) as [i|] eqn:Hi; [|done].
    assert (exists s, i = JStr s) as [s ->]; [|done].
    destruct ps; simpl in Hi; try done.
    destruct (reg !! a) as [s|]; simpl in Hi; [|done]. injection Hi as <-. eauto. }
  set (v := convertSlotToVal (convertValToSlot (VObject a)) (iface_sent reg ps a)).
  set (rs0 := {| r_heap := h; ibids := []; unfinishedIbids := ∅ |}).
  assert (forall policy,
            fullRevive convertSlotToVal [convertValToSlot (VObject a)] policy t rs0
            = Ok (v, ibid_register v rs0)) as Hrev.
  { intros policy. subst t v. unfold qclass_envelope.
    destruct (iface_sent reg ps a) as [i|]; cbn; unfold QCLASS; decide_names;
      reflexivity. }
  exists {| body := JSON_stringify t; cap_slots := [convertValToSlot (VObject a)] |},
    (harden v h).
  split; [unfold serialize; by rewrite Henc|].
  split; [done|]. unfold unserialize. cbn [body cap_slots].
  rewrite (JSON_parse_stringify _ Hwf). cbn [bind]. fold rs0. by rewrite Hrev.
Qed.

Definition presence_heap : list object := [plain_record []].

Lemma presence_round_trip_witness :
  exists cd h',
    serialize defaultValToSlotFn "anon-marshal" presence_heap {[ 0 := "Alleged: door" ]} 0
      (VObject 0) = Ok (cd, 0) /\
    cap_slots cd = [VObject 0] /\
    unserialize defaultSlotToValFn presence_heap cd VUndefined = Ok (VObject 0, h').
Proof.
  apply (presence_round_trip defaultValToSlotFn defaultSlotToValFn "anon-marshal"
           presence_heap {[ 0 := "Alleged: door" ]} 0 0 REMOTE_STYLE VUndefined).
  - reflexivity.
  - left. reflexivity.
Defined.

(** ** Errors *)

(** The envelope that stands for an error. *)
Definition error_envelope (errorId message name : string) : json :=
  qclass_envelope "error"
    [("errorId", JStr errorId); ("message", JStr message); ("name", JStr name)].

(** X10.  A pass-by-copy error at the root is sent as its class name and
    its message under the next error id of the marshal instance, which
    counts one up; its stack and its identity are not sent.  unserialize of
    the capdata makes one new frozen error of that class with that
    message. *)
Theorem error_is_sent_by_name_and_message
    (convertValToSlot : value -> value)
    (convertSlotToVal : value -> option json -> value)
    (marshalName : string) (h : list object) (reg : gmap nat string)
    (errorCount0 : nat) (a : nat) (o : object) (cyclePolicy : value) :
  h !! a = Some o ->
  passStyleOf h reg (VObject a) = Ok PScopyError ->
  exists EC message,
    o_proto o = PIntrinsic (ErrorPrototype EC) /\
    get h o (KStr "message") = VString message /\
    serialize convertValToSlot marshalName h reg errorCount0 (VObject a)
      = Ok ({| body := JSON_stringify
                         (error_envelope
                            ("error:" +:+ marshalName +:+ "#" +:+
                             string_of_nat (errorCount0 + 1))
                            message (errclass_name EC));
               cap_slots := [] |},
            errorCount0 + 1) /\
    unserialize convertSlotToVal h
      {| body := JSON_stringify
                   (error_envelope
                      ("error:" +:+ marshalName +:+ "#" +:+
                       string_of_nat (errorCount0 + 1))
                      message (errclass_name EC));
         cap_slots := [] |} cyclePolicy
      = Ok (VObject (length h), h ++ [new_error EC message]).
Proof.
  intros Ho Hps.
  destruct (copyError_inv _ _ _ _ Ho Hps) as (EC & message & Hp & _ & Hname & Hmsg).
  exists EC, message. split; [done|]. split; [done|]. split.
  - unfold serialize. rewrite (enc_error _ _ _ _ _ _ o) by done.
    cbn [bind fst snd]. by rewrite Hname, Hmsg.
  - unfold unserialize. cbn [body cap_slots].
    rewrite JSON_parse_stringify by done. cbn [bind]. unfold error_envelope, qclass_envelope.
    rewrite (fullRevive_error _ _ _ _ (errclass_name EC) message).
    + cbn [bind fst snd r_heap]. unfold error_class_of.
      rewrite getErrorConstructor_errclass_name. f_equal. f_equal.
      apply harden_frozen with (o := new_error EC message); [|done].
      by apply list_lookup_middle.
    + cbn. by decide_names.
    + unfold QCLASS. cbn. by decide_names.
    + unfold QCLASS. cbn. by decide_names.
Qed.

Lemma error_is_sent_by_name_and_message_witness :
  exists EC message,
    o_proto range_error = PIntrinsic (ErrorPrototype EC) /\
    get [range_error] range_error (KStr "message") = VString message /\
    serialize defaultValToSlotFn "anon-marshal" [range_error] ∅ 4 (VObject 0)
      = Ok ({| body := JSON_stringify
                         (error_envelope
                            ("error:" +:+ "anon-marshal" +:+ "#" +:+ string_of_nat (4 + 1))
                            message (errclass_name EC));
               cap_slots := [] |},
            4 + 1) /\
    unserialize defaultSlotToValFn [range_error]
      {| body := JSON_stringify
                   (error_envelope
                      ("error:" +:+ "anon-marshal" +:+ "#" +:+ string_of_nat (4 + 1))
                      message (errclass_name EC));
         cap_slots := [] |} VUndefined
      = Ok (VObject (length [range_error]), [range_error] ++ [new_error EC message]).
Proof.
  apply (error_is_sent_by_name_and_message defaultValToSlotFn defaultSlotToValFn
           "anon-marshal" [range_error] ∅ 4 0 range_error VUndefined); reflexivity.
Defined.

(** ** The raw tree that serialize writes *)

Lemma comes_before_trans (a b c : key_rank) :
  comes_before a b = true -> comes_before b c = true -> comes_before a c = true.
Proof.
  destruct a as [n| |], b as [m| |], c as [p| |]; simpl; try done.
  intros H1%N.ltb_lt H2%N.ltb_lt. apply N.ltb_lt. lia.
Qed.

Lemma comes_before_asym (a b : key_rank) :
  comes_before a b = true -> comes_before b a = false.
Proof.
  destruct a as [n| |], b as [m| |]; simpl; try done.
  intros H1%N.ltb_lt. apply N.ltb_ge. lia.
Qed.

Section Enumeration.
Context {K V : Type} `{EqDecision K} (rank : K -> key_rank).

Lemma map_fst_assoc_replace (k : K) (v : V) (l : list (K * V)) :
  map fst (assoc_replace k v l) = map fst l.
Proof.
  induction l as [|[k' v'] l IH]; [done|]. simpl.
  destruct (decide (k = k')) as [->|]; simpl; [done|]. by rewrite IH.
Qed.

Lemma elem_of_assoc_replace (k : K) (v : V) (l : list (K * V)) (kv : K * V) :
  kv ∈ assoc_replace k v l -> kv = (k, v) \/ kv ∈ l.
Proof.
  induction l as [|[k' v'] l IH]; [by intros ?%elem_of_nil|]. simpl.
  destruct (decide (k = k')) as [->|].
  - intros [->|Hin]%elem_of_cons; [by left|]. right. by apply list_elem_of_further.
  - intros [->|Hin]%elem_of_cons; [right; apply list_elem_of_here|].
    destruct (IH Hin) as [?|?]; [by left|]. right. by apply list_elem_of_further.
Qed.

Lemma ordered_insert_perm (k : K) (v : V) (l : list (K * V)) :
  ordered_insert rank k v l ≡ₚ (k, v) :: l.
Proof.
  induction l as [|[k' v'] l IH]; [done|]. simpl.
  destruct (comes_before (rank k) (rank k')); [done|].
  rewrite IH. apply Permutation_swap.
Qed.

Lemma ordered_insert_ordered (k : K) (v : V) (l : list (K * V)) :
  enumeration_ordered (map (fun kv => rank (fst kv)) l) = true ->
  enumeration_ordered (map (fun kv => rank (fst kv)) (ordered_insert rank k v l)) = true.
Proof.
  induction l as [|[k' v'] l IH]; [done|]. simpl.
  intros [Hall Hord]%andb_true_iff.
  destruct (comes_before (rank k) (rank k')) eqn:Hk; simpl.
  - rewrite (comes_before_asym _ _ Hk), Hall, Hord. simpl.
    rewrite andb_true_r. apply forallb_forall. intros r Hr.
    rewrite forallb_forall in Hall. specialize (Hall r Hr).
    destruct (comes_before r (rank k)) eqn:Hrk; [|done].
    by rewrite (comes_before_trans _ _ _ Hrk Hk) in Hall.
  - rewrite IH by done. rewrite andb_true_r.
    apply forallb_forall. intros r Hr%list_elem_of_In.
    apply list_elem_of_fmap in Hr as (kv & -> & Hkv).
    rewrite ordered_insert_perm in Hkv. apply elem_of_cons in Hkv as [->|Hkv].
    + simpl. by rewrite Hk.
    + rewrite forallb_forall in Hall. apply Hall, list_elem_of_In.
      apply list_elem_of_fmap. by exists kv.
Qed.

(** CreateDataProperty keeps the keys distinct and in enumeration order,
    and makes up no member. *)
Lemma create_data_property_canonical (k : K) (v : V) (l : list (K * V)) :
  NoDup (map fst l) ->
  enumeration_ordered (map (fun kv => rank (fst kv)) l) = true ->
  NoDup (map fst (create_data_property rank k v l)) /\
  enumeration_ordered (map (fun kv => rank (fst kv)) (create_data_property rank k v l))
    = true /\
  forall kv, kv ∈ create_data_property rank k v l -> kv = (k, v) \/ kv ∈ l.
Proof.
  intros Hnd Hord. unfold create_data_property.
  destruct (assoc k l) as [v0|] eqn:Hk.
  - split; [by rewrite map_fst_assoc_replace|]. split.
    + rewrite <- (map_map fst rank), map_fst_assoc_replace, (map_map fst rank). done.
    + apply elem_of_assoc_replace.
  - split; [|split].
    + rewrite ordered_insert_perm. simpl. apply NoDup_cons. split; [|done].
      intros Hin. apply assoc_is_Some in Hin as [? ?]. congruence.
    + by apply ordered_insert_ordered.
    + intros kv Hin. rewrite ordered_insert_perm in Hin.
      by apply elem_of_cons in Hin.
Qed.

Lemma fold_create_data_property_canonical (l acc : list (K * V)) :
  NoDup (map fst acc) ->
  enumeration_ordered (map (fun kv => rank (fst kv)) acc) = true ->
  let out := fold_left (fun acc kv => create_data_property rank (fst kv) (snd kv) acc)
               l acc in
  NoDup (map fst out) /\
  enumeration_ordered (map (fun kv => rank (fst kv)) out) = true /\
  forall kv, kv ∈ out -> kv ∈ acc \/ kv ∈ l.
Proof.
  revert acc. induction l as [|[k v] l IH]; intros acc Hnd Hord; simpl.
  - split_and!; try done. by left.
  - destruct (create_data_property_canonical k v acc Hnd Hord) as (H1 & H2 & H3).
    destruct (IH _ H1 H2) as (H4 & H5 & H6). split_and!; try done.
    intros kv Hin. destruct (H6 kv Hin) as [Hin'|Hin'].
    + destruct (H3 kv Hin') as [->|?]; [right; apply list_elem_of_here|by left].
    + right. by apply list_elem_of_further.
Qed.
End Enumeration.

Lemma fromEntries_always_canonical (entries : list (string * json)) :
  canonical_keys (map fst (fromEntries entries)) = true /\
  forall kt, kt ∈ fromEntries entries -> kt ∈ entries.
Proof.
  destruct (fold_create_data_property_canonical string_rank entries [])
    as (H1 & H2 & H3); [constructor|done|].
  split.
  - apply canonical_keys_spec. split; [done|]. by rewrite map_map.
  - intros kt Hin. destruct (H3 kt Hin) as [?%elem_of_nil|?]; done.
Qed.

Section EncodedTree.
Variable convertValToSlot : value -> value.
Variable marshalName : string.
Variable h : list object.
Variable reg : gmap nat string.

Local Abbreviation enc := (encode convertValToSlot marshalName).

Lemma encode_fields_wf (f : value -> EncState -> result (json * EncState)) (o : object) :
  (forall v st t st', f v st = Ok (t, st') -> json_wf t = true) ->
  forall names st entries st',
    encode_fields f h o names st = Ok (entries, st') ->
    forall kt, kt ∈ entries -> json_wf (snd kt) = true.
Proof.
  intros Hf. induction names as [|name names IH]; intros st entries st' Henc kt Hin.
  - injection Henc as <- <-. by apply elem_of_nil in Hin.
  - cbn [encode_fields] in Henc.
    apply bind_Ok in Henc as ([t1 st1] & He1 & Henc).
    apply bind_Ok in Henc as ([entries2 st2] & He2 & Henc).
    injection Henc as <- <-. cbn [fst snd] in *.
    apply elem_of_cons in Hin as [->|Hin]; [by eapply Hf|by eapply IH].
Qed.

Lemma encode_elements_wf (f : value -> EncState -> result (json * EncState)) :
  (forall v st t st', f v st = Ok (t, st') -> json_wf t = true) ->
  forall elems st ts st',
    encode_elements f elems st = Ok (ts, st') ->
    forall t, t ∈ ts -> json_wf t = true.
Proof.
  intros Hf. induction elems as [|[d|] elems IH]; intros st ts st' Henc t Hin.
  - injection Henc as <- <-. by apply elem_of_nil in Hin.
  - cbn [encode_elements] in Henc.
    apply bind_Ok in Henc as ([t1 st1] & He1 & Henc).
    apply bind_Ok in Henc as ([ts2 st2] & He2 & Henc).
    injection Henc as <- <-. cbn [fst snd] in *.
    apply elem_of_cons in Hin as [->|Hin]; [by eapply Hf|by eapply IH].
  - cbn [encode_elements] in Henc.
    apply bind_Ok in Henc as ([ts2 st2] & He2 & Henc).
    injection Henc as <- <-. cbn [fst snd] in *.
    apply elem_of_cons in Hin as [->|Hin]; [done|by eapply IH].
Qed.

(** Whatever [encode] returns is a tree that JSON.stringify writes
    without loss: its numbers are finite, and the members of its objects
    are in enumeration order. *)
Lemma encode_wf fuel :
  forall v st t st', enc fuel h reg v st = Ok (t, st') -> json_wf t = true.
Proof.
  induction fuel as [|fuel IH]; intros v st t st' Henc; [done|].
  destruct (is_primitive v) eqn:Hprim.
  { by destruct (sim_primitive convertValToSlot (fun x _ => x) marshalName [] VUndefined
                   h reg fuel v st t st' Hprim Henc) as (_ & Hwf & _). }
  destruct v as [| | | | | | |g|a]; try done.
  cbn [encode] in Henc. apply bind_Ok in Henc as (ps & Hps & Henc).
  pose proof (passStyleOf_object _ _ _ _ Hps) as Hk.
  destruct (ibidMap st !! a) as [i|] eqn:Hi.
  { destruct ps; try done; by injection Henc as <- <-. }
  destruct ps; try done.
  - apply bind_Ok in Henc as (o & Ho & Henc).
    destruct (negb _); [done|].
    apply bind_Ok in Henc as ([entries st1] & Hef & Henc). injection Henc as <- <-.
    destruct (fromEntries_always_canonical entries) as [Hcanon Hsub].
    cbn [json_wf fst]. rewrite Hcanon. simpl. apply forallb_elem_of.
    intros kt Hin. apply (encode_fields_wf _ _ IH _ _ _ _ Hef). by apply Hsub.
  - apply bind_Ok in Henc as (o & Ho & Henc).
    apply bind_Ok in Henc as ([ts st1] & Hee & Henc). injection Henc as <- <-.
    cbn [json_wf fst]. apply forallb_elem_of.
    intros t Hin. by apply (encode_elements_wf _ IH _ _ _ _ Hee).
  - apply bind_Ok in Henc as (o & Ho & Henc). by injection Henc as <- <-.
  - injection Henc as Henc. unfold serializeSlot in Henc. simpl in Henc.
    destruct (slotMap st !! a); destruct (reg !! a); by injection Henc as <- _.
  - injection Henc as Henc. unfold serializeSlot in Henc. simpl in Henc.
    destruct (slotMap st !! a); by injection Henc as <- _.
Qed.
End EncodedTree.

(** X11.  The body that serialize returns is JSON text that JSON.parse
    reads back as the very tree that encode built: nothing that
    JSON.stringify would drop or change (NaN, an infinity, undefined, a
    hole, members out of enumeration order) is left in that tree. *)
Theorem serialize_body_parses
    (convertValToSlot : value -> value) (marshalName : string)
    (h : list object) (reg : gmap nat string) (errorCount0 : nat)
    (root : value) (cd : capdata) (ec : nat) :
  serialize convertValToSlot marshalName h reg errorCount0 root = Ok (cd, ec) ->
  exists t st,
    encode convertValToSlot marshalName (S (length h)) h reg root
      (init_EncState errorCount0) = Ok (t, st) /\
    body cd = JSON_stringify t /\
    JSON_parse (body cd) = Ok t.
Proof.
  unfold serialize. intros ([t st] & Henc & [= <- <-])%bind_Ok.
  exists t, st. split; [done|]. split; [done|]. cbn [body fst].
  apply JSON_parse_stringify. by eapply encode_wf.
Qed.

Lemma serialize_body_parses_witness :
  exists t st,
    encode defaultValToSlotFn "anon-marshal" (S (length cyclic_heap)) cyclic_heap ∅
      (VObject 0) (init_EncState 0) = Ok (t, st) /\
    body {| body := qq "['a',{'@qclass':'ibid','index':0},'c']"; cap_slots := [] |}
      = JSON_stringify t /\
    JSON_parse
      (body {| body := qq "['a',{'@qclass':'ibid','index':0},'c']"; cap_slots := [] |})
      = Ok t.
Proof.
  apply (serialize_body_parses defaultValToSlotFn "anon-marshal" cyclic_heap ∅ 0
           (VObject 0) _ 0).
  vm_compute. reflexivity.
Defined.

(** ** The slots that the body refers to *)

(** Every slot envelope of the tree holds an index below [n], read the
    way the decoder reads it. *)
Fixpoint slot_refs_below (n : nat) (t : json) : bool :=
  match t with
  | JArr l => forallb (slot_refs_below n) l
  | JObj l =>
      match assoc QCLASS l with
      | Some (JStr q) =>
          if String.eqb q "slot" then
            match assoc "index" l with
            | Some (JNum (Fin z)) => (0 <=? z)%Z && (z <? Z.of_nat n)%Z
            | _ => false
            end
          else true
      | _ => true
      end && forallb (fun kt => slot_refs_below n (snd kt)) l
  | _ => true
  end.

Lemma slot_refs_below_mono (n m : nat) (t : json) :
  n <= m -> slot_refs_below n t = true -> slot_refs_below m t = true.
Proof.
  intros Hle. induction t as [| | | |l IH|l IH] using json_induction; try done.
  - simpl. rewrite !forallb_elem_of. rewrite Forall_forall in IH.
    intros H t Ht. apply IH; [done|by apply H].
  - simpl. intros [Hq Hl]%andb_true_iff. apply andb_true_iff. split.
    + destruct (assoc QCLASS l) as [[| | |q| |]|]; try done.
      destruct (String.eqb q "slot"); [|done].
      destruct (assoc "index" l) as [[| |[| | | |z]| | |]|]; try done.
      apply andb_true_iff in Hq as [H0 Hz%Z.ltb_lt].
      apply andb_true_iff. split; [done|]. apply Z.ltb_lt. lia.
    + rewrite forallb_elem_of in Hl. apply forallb_elem_of. rewrite Forall_forall in IH.
      intros kt Hkt. apply IH; [done|by apply Hl].
Qed.

(** The slot table of the encoder points into its list of slots. *)
Definition slotMap_ok (st : EncState) : Prop :=
  forall a i, slotMap st !! a = Some i -> i < length (slots st).

Section Slots.
Variable convertValToSlot : value -> value.
Variable marshalName : string.
Variable h : list object.
Variable reg : gmap nat string.

Local Abbreviation enc := (encode convertValToSlot marshalName).

(** What a call of the encoder keeps and establishes. *)
Definition slots_kept (st : EncState) (t : json) (st' : EncState) : Prop :=
  slotMap_ok st' /\ length (slots st) <= length (slots st') /\
  slot_refs_below (length (slots st')) t = true.

Lemma encode_fields_slots (f : value -> EncState -> result (json * EncState))
    (o : object) :
  (forall v st t st', f v st = Ok (t, st') -> slotMap_ok st -> slots_kept st t st') ->
  forall names st entries st',
    encode_fields f h o names st = Ok (entries, st') ->
    slotMap_ok st ->
    slotMap_ok st' /\ length (slots st) <= length (slots st') /\
    map fst entries = names /\
    forall kt, kt ∈ entries -> slot_refs_below (length (slots st')) (snd kt) = true.
Proof.
  intros Hf. induction names as [|name names IH]; intros st entries st' Henc Hok.
  - injection Henc as <- <-. split_and!; try done. by intros kt ?%elem_of_nil.
  - cbn [encode_fields] in Henc.
    apply bind_Ok in Henc as ([t1 st1] & He1 & Henc).
    apply bind_Ok in Henc as ([entries2 st2] & He2 & Henc).
    injection Henc as <- <-. cbn [fst snd] in *.
    destruct (Hf _ _ _ _ He1 Hok) as (Hok1 & Hlen1 & Hb1).
    destruct (IH _ _ _ He2 Hok1) as (Hok2 & Hlen2 & Hnames & Hb2).
    split_and!; [done|lia|simpl; by rewrite Hnames|].
    intros kt [->|Hin]%elem_of_cons; [|by apply Hb2].
    by apply (slot_refs_below_mono (length (slots st1))).
Qed.

Lemma encode_elements_slots (f : value -> EncState -> result (json * EncState)) :
  (forall v st t st', f v st = Ok (t, st') -> slotMap_ok st -> slots_kept st t st') ->
  forall elems st ts st',
    encode_elements f elems st = Ok (ts, st') ->
    slotMap_ok st ->
    slotMap_ok st' /\ length (slots st) <= length (slots st') /\
    forall t, t ∈ ts -> slot_refs_below (length (slots st')) t = true.
Proof.
  intros Hf. induction elems as [|[d|] elems IH]; intros st ts st' Henc Hok.
  - injection Henc as <- <-. split_and!; try done. by intros kt ?%elem_of_nil.
  - cbn [encode_elements] in Henc.
    apply bind_Ok in Henc as ([t1 st1] & He1 & Henc).
    apply bind_Ok in Henc as ([ts2 st2] & He2 & Henc).
    injection Henc as <- <-. cbn [fst snd] in *.
    destruct (Hf _ _ _ _ He1 Hok) as (Hok1 & Hlen1 & Hb1).
    destruct (IH _ _ _ He2 Hok1) as (Hok2 & Hlen2 & Hb2).
    split_and!; [done|lia|].
    intros t [->|Hin]%elem_of_cons; [|by apply Hb2].
    by apply (slot_refs_below_mono (length (slots st1))).
  - cbn [encode_elements] in Henc.
    apply bind_Ok in Henc as ([ts2 st2] & He2 & Henc).
    injection Henc as <- <-. cbn [fst snd] in *.
    destruct (IH _ _ _ He2 Hok) as (Hok2 & Hlen2 & Hb2).
    split_and!; [done|lia|].
    intros t [->|Hin]%elem_of_cons; [done|by apply Hb2].
Qed.

Lemma serializeSlot_slots a iface st :
  slotMap_ok st ->
  slots_kept st (fst (serializeSlot convertValToSlot a iface st))
    (snd (serializeSlot convertValToSlot a iface st)).
Proof.
  intros Hok. unfold serializeSlot, slots_kept.
  destruct (slotMap st !! a) as [i|] eqn:Hi.
  - pose proof (Hok a i Hi) as Hlt.
    destruct iface; simpl; (split_and!; [exact Hok|done|]);
      unfold QCLASS; decide_names; rewrite !andb_true_r;
      apply andb_true_iff; (split; [apply Z.leb_le|apply Z.ltb_lt]); lia.
  - assert (slotMap_ok
              {| slots := slots st ++ [convertValToSlot (VObject a)];
                 slotMap := <[a := length (slots st)]> (slotMap st);
                 ibidMap := ibidMap st; ibidCount := ibidCount st;
                 errorCount := errorCount st |}) as Hok'.
    { intros a' i'. simpl. rewrite length_app. simpl.
      destruct (decide (a' = a)) as [->|Hne].
      - rewrite lookup_insert_eq. intros [= <-]. lia.
      - rewrite lookup_insert_ne by done. intros ?%Hok. lia. }
    destruct iface; simpl; (split_and!; [done|rewrite length_app; lia|]);
      unfold QCLASS; decide_names; rewrite !andb_true_r, length_app;
      apply andb_true_iff; (split; [apply Z.leb_le|apply Z.ltb_lt]); simpl; lia.
Qed.

Lemma encode_primitive_slots fuel v st t st' n :
  is_primitive v = true ->
  enc (S fuel) h reg v st = Ok (t, st') ->
  st' = st /\ slot_refs_below n t = true.
Proof.
  intros Hv He. destruct v as [| |b|[]|z|s|y|g|a]; try done; cbn in He;
    try (by injection He as <- <-).
  destruct y; try done. by injection He as <- <-.
Qed.

Lemma encode_slots fuel :
  forall v st t st',
    enc fuel h reg v st = Ok (t, st') -> slotMap_ok st -> slots_kept st t st'.
Proof.
  induction fuel as [|fuel IH]; intros v st t st' Henc Hok; [done|].
  destruct (is_primitive v) eqn:Hprim.
  { destruct (encode_primitive_slots fuel v st t st' (length (slots st)) Hprim Henc)
      as [-> Hb]. by split_and!. }
  destruct v as [| | | | | | |g|a]; try done.
  cbn [encode] in Henc. apply bind_Ok in Henc as (ps & Hps & Henc).
  pose proof (passStyleOf_object _ _ _ _ Hps) as Hk.
  destruct (ibidMap st !! a) as [i|] eqn:Hi.
  { destruct ps; try done; injection Henc as <- <-; by split_and!. }
  assert (slotMap_ok (ibid_add a st)) as Hok1 by done.
  destruct ps; try done.
  - apply bind_Ok in Henc as (o & Ho & Henc).
    destruct (negb _); [done|].
    apply bind_Ok in Henc as ([entries st1] & Hef & Henc). injection Henc as <- <-.
    destruct (encode_fields_slots _ _ IH _ _ _ _ Hef Hok1) as (Hok' & Hlen & Hnames & Hb).
    destruct (fromEntries_always_canonical entries) as [_ Hsub].
    unfold heap_object in Ho. destruct (h !! a) as [o'|] eqn:Ho'; [|done].
    injection Ho as ->.
    destruct (copyRecord_inv _ _ _ _ Ho' Hps) as (_ & _ & Hq & _).
    split_and!; try done. cbn [slot_refs_below fst].
    rewrite assoc_None.
    + simpl. apply forallb_elem_of. intros kt Hin. by apply Hb, Hsub.
    + intros (kt & Hk1 & Hin%Hsub)%list_elem_of_fmap. apply Hq.
      rewrite <- (sort_strings_perm (getOwnPropertyNames o)), <- Hnames, Hk1.
      apply list_elem_of_fmap. by exists kt.
  - apply bind_Ok in Henc as (o & Ho & Henc).
    apply bind_Ok in Henc as ([ts st1] & Hee & Henc). injection Henc as <- <-.
    destruct (encode_elements_slots _ IH _ _ _ _ Hee Hok1) as (Hok' & Hlen & Hb).
    split_and!; try done. cbn [slot_refs_below fst]. by apply forallb_elem_of.
  - apply bind_Ok in Henc as (o & Ho & Henc). injection Henc as <- <-. by split_and!.
  - injection Henc as Henc.
    pose proof (serializeSlot_slots a (reg !! a) _ Hok1) as Hs.
    rewrite Henc in Hs. by destruct Hs as (? & ? & ?).
  - injection Henc as Henc.
    pose proof (serializeSlot_slots a None _ Hok1) as Hs.
    rewrite Henc in Hs. by destruct Hs as (? & ? & ?).
Qed.
End Slots.

(** X12.  Every slot envelope in the body that serialize returns refers
    into the slots that it returns with it: the body parses to a tree all
    of whose slot indices are natural numbers below the number of slots. *)
Theorem serialize_slot_indices_in_range
    (convertValToSlot : value -> value) (marshalName : string)
    (h : list object) (reg : gmap nat string) (errorCount0 : nat)
    (root : value) (cd : capdata) (ec : nat) :
  serialize convertValToSlot marshalName h reg errorCount0 root = Ok (cd, ec) ->
  exists t,
    JSON_parse (body cd) = Ok t /\
    slot_refs_below (length (cap_slots cd)) t = true.
Proof.
  unfold serialize. intros ([t st] & Henc & [= <- <-])%bind_Ok.
  exists t. cbn [body cap_slots fst snd]. split.
  - apply JSON_parse_stringify. by eapply encode_wf.
  - by destruct (encode_slots _ _ _ _ _ _ _ _ _ Henc) as (_ & _ & ?).
Qed.

Lemma serialize_slot_indices_in_range_witness :
  exists t,
    JSON_parse
      (body {| body := qq "{'a':{'@qclass':'slot','iface':'Remotable','index':0},'b':{'@qclass':'ibid','index':1}}";
               cap_slots := [VObject 0] |}) = Ok t /\
    slot_refs_below (length (cap_slots {| body := qq "{'a':{'@qclass':'slot','iface':'Remotable','index':0},'b':{'@qclass':'ibid','index':1}}";
               cap_slots := [VObject 0] |})) t = true.
Proof.
  apply (serialize_slot_indices_in_range defaultValToSlotFn "anon-marshal"
           remote_twice_heap remote_twice_registry 0 (VObject 1) _ 0).
  vm_compute. reflexivity.
Defined.

(** ** What the decoder validates *)

(** [descends root t]: the decoder, reviving [root], comes to revive
    [t]: it goes into the elements of an array and into the members of an
    object that has no @qclass. *)
Inductive descends : json -> json -> Prop :=
  | descends_here (t : json) : descends t t
  | descends_element (l : list json) (s t : json) :
      s ∈ l -> descends s t -> descends (JArr l) t
  | descends_member (l : list (string * json)) (k : string) (s t : json) :
      assoc QCLASS l = None -> (k, s) ∈ l -> descends s t -> descends (JObj l) t.

(** The tags that the decoder knows. *)
Definition known_qclass : list string :=
  ["undefined"; "NaN"; "Infinity"; "-Infinity"; "bigint"; "@@asyncIterator";
   "ibid"; "error"; "slot"].

(** The members of an envelope that the decoder refuses whatever came
    before it. *)
Inductive malformed_envelope (l : list (string * json)) : Prop :=
  | malformed_tag_type (x : json) :
      assoc QCLASS l = Some x -> json_is_string (Some x) = None -> malformed_envelope l
  | malformed_tag (q : string) :
      assoc QCLASS l = Some (JStr q) -> q ∉ known_qclass -> malformed_envelope l
  | malformed_digits :
      assoc QCLASS l = Some (JStr "bigint") ->
      json_is_string (assoc "digits" l) = None -> malformed_envelope l
  | malformed_error_name :
      assoc QCLASS l = Some (JStr "error") ->
      json_is_string (assoc "name" l) = None -> malformed_envelope l
  | malformed_error_message :
      assoc QCLASS l = Some (JStr "error") ->
      json_is_string (assoc "message" l) = None -> malformed_envelope l
  | malformed_index (q : string) (e : exn) :
      assoc QCLASS l = Some (JStr q) -> q = "ibid" \/ q = "slot" ->
      Nat' (assoc "index" l) = Throw e -> malformed_envelope l.

Section Validation.
Variable convertSlotToVal : value -> option json -> value.
Variable slots_in : list value.
Variable cyclePolicy : value.

Local Abbreviation revive := (fullRevive convertSlotToVal slots_in cyclePolicy).

Lemma bind_fails {A B} (m : result A) (k : A -> result B) :
  m <> OutOfFuel -> (forall a, m = Ok a -> fails (k a)) -> fails (bind m k).
Proof. destruct m as [a|e|]; simpl; [eauto|by exists e|done]. Qed.

Lemma assign_field_returns obj name v h : assign_field obj name v h <> OutOfFuel.
Proof.
  unfold assign_field. destruct (h !! obj) as [o|]; [|done].
  assert (forall (c : bool) (h1 : list object),
            (if c then Throw AssignInherited else Ok h1) <> OutOfFuel) as Hdef
    by by intros [].
  destruct (String.eqb name "__proto__"); [|apply Hdef].
  destruct (o_proto o) as [|[]|]; try apply Hdef.
  destruct v; try done. by destruct (chain_reaches _ _ _ _).
Qed.

Lemma revive_fields_returns (f : json -> RevState -> result (value * RevState)) obj :
  forall l, Forall (fun kt => forall st, f (snd kt) st <> OutOfFuel) l ->
    forall st, revive_fields f obj l st <> OutOfFuel.
Proof.
  induction 1 as [|[k t] l Ht _ IH]; intros st; [done|]. simpl.
  apply bind_returns; [apply Ht|]. intros [v st1] _.
  apply bind_returns; [apply assign_field_returns|]. intros h1 _. apply IH.
Qed.

Lemma revive_elements_returns (f : json -> RevState -> result (value * RevState)) obj :
  forall l, Forall (fun t => forall st, f t st <> OutOfFuel) l ->
    forall st, revive_elements f obj l st <> OutOfFuel.
Proof.
  induction 1 as [|t l Ht _ IH]; intros st; [done|]. simpl.
  apply bind_returns; [apply Ht|]. intros [v st1] _. apply IH.
Qed.

Lemma Nat'_returns x : Nat' x <> OutOfFuel.
Proof. destruct x as [[| |[| | | |z]| | |]|]; try done. simpl. by destruct (_ && _). Qed.

Lemma BigInt_returns s : BigInt s <> OutOfFuel.
Proof.
  unfold BigInt. destruct s as [|c s]; [done|].
  assert (forall s', match s', NilEmpty.uint_of_string s' with
                     | String _ _, Some d => Ok (Z.of_uint d)
                     | _, _ => Throw BigIntSyntax
                     end <> @OutOfFuel Z) as Hd.
  { intros [|c' s']; [done|]. by destruct (NilEmpty.uint_of_string _). }
  destruct c as [[] [] [] [] [] [] [] []];
    first [apply (Hd (String _ s)) | apply Hd | apply bind_returns; [apply Hd|done]].
Qed.

(** The decoder returns or throws. *)
Lemma fullRevive_returns t : forall st, revive t st <> OutOfFuel.
Proof.
  induction t as [| | | |l IH|l IH] using json_induction; intros st; try done.
  - cbn [fullRevive]. apply bind_returns; [|done]. by apply revive_elements_returns.
  - cbn [fullRevive]. destruct (assoc QCLASS l) as [x|].
    + destruct x as [| | |q| |]; try done.
      repeat (destruct (String.eqb q _); [try done|]); try done.
      * destruct (json_is_string _); [|done]. apply bind_returns; [apply BigInt_returns|done].
      * apply bind_returns; [|done]. unfold ibid_get.
        apply bind_returns; [apply Nat'_returns|]. intros i _.
        destruct (_ <=? _); [done|]. destruct (ibids st !! i); [|done].
        destruct (unfinished_has _ _); [|done].
        by repeat (destruct (value_is _ _); [try done|]).
      * destruct (json_is_string _); [|done]. by destruct (json_is_string _).
      * apply bind_returns; [apply Nat'_returns|done].
    + apply bind_returns; [|done]. by apply revive_fields_returns.
Qed.

(** A failure below fails the whole. *)
Lemma revive_elements_fails obj (l : list json) (t : json) :
  t ∈ l -> (forall st, fails (revive t st)) ->
  forall st, fails (revive_elements revive obj l st).
Proof.
  intros Hin Ht. induction l as [|s l IH]; intros st; [by apply elem_of_nil in Hin|].
  simpl. apply elem_of_cons in Hin as [<-|Hin].
  - destruct (Ht st) as [e ->]. by exists e.
  - apply bind_fails; [apply fullRevive_returns|]. intros [v st1] _. by apply IH.
Qed.

Lemma revive_fields_fails obj (l : list (string * json)) (k : string) (t : json) :
  (k, t) ∈ l -> (forall st, fails (revive t st)) ->
  forall st, fails (revive_fields revive obj l st).
Proof.
  intros Hin Ht. induction l as [|[k' s] l IH]; intros st; [by apply elem_of_nil in Hin|].
  simpl. apply elem_of_cons in Hin as [[= <- <-]|Hin].
  - destruct (Ht st) as [e ->]. by exists e.
  - apply bind_fails; [apply fullRevive_returns|]. intros [v st1] _.
    apply bind_fails; [apply assign_field_returns|]. intros h1 _. by apply IH.
Qed.

Lemma descends_fails root t :
  descends root t -> (forall st, fails (revive t st)) -> forall st, fails (revive root st).
Proof.
  induction 1 as [t|l s t Hin _ IH|l k s t Hq Hin _ IH]; intros Ht st; [done|..].
  - cbn [fullRevive].
    destruct (revive_elements_fails (length (r_heap st)) l s Hin (IH Ht)
                (snd (ibid_start new_array st))) as [e He].
    exists e. unfold ibid_start in *. simpl in *. by rewrite He.
  - cbn [fullRevive]. rewrite Hq.
    destruct (revive_fields_fails (length (r_heap st)) l k s Hin (IH Ht)
                (snd (ibid_start new_object st))) as [e He].
    exists e. unfold ibid_start in *. simpl in *. by rewrite He.
Qed.

Lemma malformed_envelope_fails l :
  malformed_envelope l -> forall st, fails (revive (JObj l) st).
Proof.
  intros Hbad st. cbn [fullRevive].
  destruct Hbad as [x Hq Hx|q Hq Hk|Hq Hd|Hq Hn|Hq Hm|q e Hq Hcase Hi]; rewrite Hq.
  - destruct x; try done; by eexists.
  - unfold known_qclass in Hk.
    repeat match goal with
      | |- context [String.eqb q ?s] =>
          destruct (String.eqb_spec q s) as [->|?];
          [exfalso; apply Hk; set_solver|]
      end.
    by eexists.
  - simpl. rewrite Hd. by eexists.
  - simpl. rewrite Hn. by eexists.
  - simpl. rewrite Hm. destruct (json_is_string (assoc "name" l)); by eexists.
  - destruct Hcase as [-> | ->]; simpl.
    + unfold ibid_get. rewrite Hi. by eexists.
    + rewrite Hi. by eexists.
Qed.
End Validation.

(** X13.  The decoder validates what it reads: when JSON.parse of the
    body gives a tree in which the decoder comes, at any depth, to an
    envelope whose tag is not a string or is not one of the nine known
    tags, to a bigint envelope whose digits are not a string, to an error
    envelope whose name or message is not a string, or to an ibid or slot
    envelope whose index is not a safe natural number, unserialize
    throws, whatever the slots, the translator and the cycle policy. *)
Theorem malformed_envelope_fails_decoding
    (convertSlotToVal : value -> option json -> value)
    (h : list object) (data : capdata) (cyclePolicy : value)
    (root : json) (l : list (string * json)) :
  JSON_parse (body data) = Ok root ->
  descends root (JObj l) ->
  malformed_envelope l ->
  fails (unserialize convertSlotToVal h data cyclePolicy).
Proof.
  intros Hparse Hdesc Hbad. unfold unserialize. rewrite Hparse. cbn [bind].
  apply bind_fails; [apply fullRevive_returns|].
  intros [v st] Hok. exfalso.
  set (policy := match cyclePolicy with
                 | VUndefined => VString "forbidCycles"
                 | _ => cyclePolicy
                 end) in *.
  destruct (descends_fails convertSlotToVal (cap_slots data) policy _ _ Hdesc
              (malformed_envelope_fails convertSlotToVal (cap_slots data) policy _ Hbad)
              {| r_heap := h; ibids := []; unfinishedIbids := ∅ |}) as [e He].
  congruence.
Qed.

Lemma malformed_envelope_fails_decoding_witness :
  fails (unserialize defaultSlotToValFn []
           {| body := qq "[1,{'x':{'@qclass':'bigint','digits':7}}]"; cap_slots := [] |}
           VUndefined).
Proof.
  apply (malformed_envelope_fails_decoding defaultSlotToValFn []
           {| body := qq "[1,{'x':{'@qclass':'bigint','digits':7}}]"; cap_slots := [] |}
           VUndefined
           (JArr [JNum (Fin 1);
                  JObj [("x", JObj [("@qclass", JStr "bigint");
                                    ("digits", JNum (Fin 7))])]])
           [("@qclass", JStr "bigint"); ("digits", JNum (Fin 7))]).
  - vm_compute. reflexivity.
  - eapply descends_element; [apply list_elem_of_further, list_elem_of_here|].
    eapply (descends_member _ "x"); [reflexivity|apply list_elem_of_here|].
    apply descends_here.
  - apply malformed_digits; reflexivity.
Defined.

(** ** What the decoder leaves alone *)

Lemma assign_field_others obj name v h h' :
  assign_field obj name v h = Ok h' ->
  forall b, b <> obj -> h' !! b = h !! b.
Proof.
  unfold assign_field. intros H b Hb.
  destruct (h !! obj) as [o|]; [|by injection H as <-].
  assert (forall (c : bool) (o1 : object),
            (if c then Throw AssignInherited else Ok (<[obj := o1]> h)) = Ok h' ->
            h' !! b = h !! b) as Hdef.
  { intros [] o1 Hd; [done|]. injection Hd as <-. by rewrite list_lookup_insert_ne. }
  destruct (String.eqb name "__proto__"); [|by eapply Hdef].
  destruct (o_proto o) as [|[]|]; try (by eapply Hdef).
  destruct v; try (injection H as <-; done);
    try (injection H as <-; by rewrite list_lookup_insert_ne).
  destruct (chain_reaches _ _ _ _); [done|].
  injection H as <-; by rewrite list_lookup_insert_ne.
Qed.

Lemma assign_element_others obj v h b :
  b <> obj -> assign_element obj v h !! b = h !! b.
Proof.
  intros Hb. unfold assign_element. destruct (h !! obj); [|done].
  by rewrite list_lookup_insert_ne.
Qed.

(** The objects of the heap stay as they are. *)
Definition heap_kept (h h' : list object) : Prop :=
  forall b o, h !! b = Some o -> h' !! b = Some o.

Section Frame.
Variable convertSlotToVal : value -> option json -> value.
Variable slots_in : list value.
Variable cyclePolicy : value.

Local Abbreviation revive := (fullRevive convertSlotToVal slots_in cyclePolicy).

Lemma revive_fields_kept (f : json -> RevState -> result (value * RevState)) obj :
  forall l,
    Forall (fun kt => forall st v st', f (snd kt) st = Ok (v, st') ->
                        heap_kept (r_heap st) (r_heap st')) l ->
    forall st st', revive_fields f obj l st = Ok st' ->
      forall b o, b <> obj -> r_heap st !! b = Some o -> r_heap st' !! b = Some o.
Proof.
  induction 1 as [|[k t] l Ht _ IH]; intros st st' Hrev b o Hb Ho.
  - by injection Hrev as <-.
  - simpl in Hrev. apply bind_Ok in Hrev as ([v st1] & H1 & Hrev).
    apply bind_Ok in Hrev as (h1 & H2 & Hrev). cbn [fst snd] in *.
    apply (IH _ _ Hrev b o Hb). simpl.
    rewrite (assign_field_others _ _ _ _ _ H2) by done. by apply (Ht _ _ _ H1).
Qed.

Lemma revive_elements_kept (f : json -> RevState -> result (value * RevState)) obj :
  forall l,
    Forall (fun t => forall st v st', f t st = Ok (v, st') ->
                       heap_kept (r_heap st) (r_heap st')) l ->
    forall st st', revive_elements f obj l st = Ok st' ->
      forall b o, b <> obj -> r_heap st !! b = Some o -> r_heap st' !! b = Some o.
Proof.
  induction 1 as [|t l Ht _ IH]; intros st st' Hrev b o Hb Ho.
  - by injection Hrev as <-.
  - simpl in Hrev. apply bind_Ok in Hrev as ([v st1] & H1 & Hrev). cbn [fst snd] in *.
    apply (IH _ _ Hrev b o Hb). simpl.
    rewrite assign_element_others by done. by apply (Ht _ _ _ H1).
Qed.

(** The decoder builds new objects and changes none that was there. *)
Lemma fullRevive_kept t :
  forall st v st', revive t st = Ok (v, st') -> heap_kept (r_heap st) (r_heap st').
Proof.
  induction t as [| | | |l IH|l IH] using json_induction; intros st v st' Hrev;
    try (injection Hrev as <- <-; by intros ? ?).
  - cbn [fullRevive] in Hrev. apply bind_Ok in Hrev as (st1 & Hl & Hrev).
    injection Hrev as <- <-. intros b o Ho. simpl.
    apply (revive_elements_kept _ _ _ IH _ _ Hl).
    + apply lookup_lt_Some in Ho. lia.
    + simpl. by apply lookup_app_l_Some.
  - cbn [fullRevive] in Hrev. destruct (assoc QCLASS l) as [x|].
    + destruct x as [| | |q| |]; try done.
      repeat (destruct (String.eqb q _);
              [try (injection Hrev as <- <-; by intros ? ?); try done|]); try done.
      * destruct (json_is_string _); [|done].
        apply bind_Ok in Hrev as (z & _ & Hrev). injection Hrev as <- <-. by intros ? ?.
      * apply bind_Ok in Hrev as (w & _ & Hrev). injection Hrev as <- <-. by intros ? ?.
      * destruct (json_is_string _); [|done]. destruct (json_is_string _); [|done].
        injection Hrev as <- <-. intros b o Ho. simpl. by apply lookup_app_l_Some.
      * apply bind_Ok in Hrev as (i & _ & Hrev). injection Hrev as <- <-. by intros ? ?.
    + apply bind_Ok in Hrev as (st1 & Hl & Hrev).
      injection Hrev as <- <-. intros b o Ho. simpl.
      apply (revive_fields_kept _ _ _ IH _ _ Hl).
      * apply lookup_lt_Some in Ho. lia.
      * simpl. by apply lookup_app_l_Some.
Qed.
End Frame.

(** harden leaves a frozen object as it is. *)
Definition frozen_kept (h h' : list object) : Prop :=
  forall a o, h !! a = Some o -> o_frozen o = true -> h' !! a = Some o.

Lemma frozen_kept_refl h : frozen_kept h h.
Proof. by intros a o. Qed.

Lemma frozen_kept_foldl {A} (f : list object -> A -> list object) (l : list A) :
  (forall h x, frozen_kept h (f h x)) -> forall h, frozen_kept h (foldl f h l).
Proof.
  intros Hf. induction l as [|x l IH]; intros h; [apply frozen_kept_refl|].
  simpl. intros a o Ho Hfr. apply IH; [|done]. by apply Hf.
Qed.

Lemma harden_from_frozen_kept fuel : forall v h, frozen_kept h (harden_from fuel v h).
Proof.
  induction fuel as [|fuel IH]; intros v h; [apply frozen_kept_refl|].
  destruct v as [| | | | | | | |b]; try apply frozen_kept_refl.
  cbn [harden_from]. destruct (h !! b) as [ob|] eqn:Hb; [|apply frozen_kept_refl].
  destruct (o_frozen ob) eqn:Hfb; [apply frozen_kept_refl|].
  cbv zeta. set (h1 := <[b := freeze ob]> h) in *.
  set (h2 := foldl (fun h kd => harden_from fuel (desc_value (snd kd)) h) h1 (o_props ob)).
  set (h3 := foldl (fun h e => match e with
                               | Some d => harden_from fuel (desc_value d) h
                               | None => h
                               end) h2 (o_elems ob)).
  assert (frozen_kept h h1) as H1.
  { intros a o Ho Hfr. unfold h1. rewrite list_lookup_insert_ne; [done|].
    intros <-. congruence. }
  assert (frozen_kept h1 h2) as H2.
  { apply frozen_kept_foldl. intros h' x. apply IH. }
  assert (frozen_kept h2 h3) as H3.
  { apply frozen_kept_foldl. intros h' [d|]; [apply IH|apply frozen_kept_refl]. }
  assert (frozen_kept h h3) as H13.
  { intros a o Ho Hfr. apply H3; [|done]. apply H2; [|done]. by apply H1. }
  destruct (o_proto ob) as [|i|p]; try done.
  intros a o Ho Hfr. apply IH; [|done]. by apply H13.
Qed.

(** No member of the tree is named __proto__. *)
Fixpoint no_proto_member (t : json) : bool :=
  match t with
  | JArr l =>
      (fix all (l : list json) : bool :=
         match l with
         | [] => true
         | t :: l' => no_proto_member t && all l'
         end) l
  | JObj l =>
      (fix all (l : list (string * json)) : bool :=
         match l with
         | [] => true
         | (name, t) :: l' =>
             negb (String.eqb name "__proto__") && no_proto_member t && all l'
         end) l
  | _ => true
  end.

Definition door : object :=
  mkObject COrdinary (PIntrinsic ObjectPrototype) false []
    [(KStr "open", DataProp (VFunction 3) true)].

(** An object with an accessor, that a slot may stand for. *)
Definition latch : object :=
  mkObject COrdinary (PIntrinsic ObjectPrototype) false []
    [(KStr "x", AccessorProp (VNumber (Fin 0)) true)].

(** The member __proto__ makes the object of the slot the prototype of the
    new record; the assignment to the member x then finds the accessor of
    that object, and is refused. *)
Lemma assignment_consults_the_prototype :
  unserialize defaultSlotToValFn [latch]
    {| body := qq "{'__proto__':{'@qclass':'slot','index':0},'x':1}";
       cap_slots := [VObject 0] |} VUndefined
  = Throw AssignInherited.
Proof. vm_compute. reflexivity. Qed.

(** X14.  unserialize leaves the objects that were in the heap before in
    the heap, and a frozen one as it was.  When no member of the body is
    named __proto__, so that no object of the heap comes to stand in the
    prototype chain of a new one, every object that was in the heap before
    stays what it was, but that harden, at the end, may freeze it when the
    result reaches it through a slot. *)
Theorem unserialize_keeps_the_heap
    (convertSlotToVal : value -> option json -> value)
    (h : list object) (data : capdata) (cyclePolicy : value)
    (v : value) (h' : list object) (a : nat) (o : object) :
  unserialize convertSlotToVal h data cyclePolicy = Ok (v, h') ->
  h !! a = Some o ->
  exists o',
    h' !! a = Some o' /\
    (o_frozen o = true -> o' = o) /\
    (forall root, JSON_parse (body data) = Ok root -> no_proto_member root = true ->
       same_shape o' o).
Proof.
  unfold unserialize. intros (root & _ & Hrev)%bind_Ok Ho.
  apply bind_Ok in Hrev as ([v1 rs] & Hrev & [= <- <-]). cbn [fst snd].
  apply fullRevive_kept in Hrev. specialize (Hrev a o Ho). simpl in Hrev.
  destruct (harden_from_shape (S (length (r_heap rs))) v1 (r_heap rs) a o Hrev)
    as (o' & Ho' & Hs).
  exists o'. split; [done|]. split; [|done]. intros Hfr.
  pose proof (harden_from_frozen_kept (S (length (r_heap rs))) v1 (r_heap rs) a o Hrev Hfr)
    as Hk. unfold harden in Ho'. congruence.
Qed.

Lemma unserialize_keeps_the_heap_witness :
  exists o', harden (VObject 0) [door] !! 0 = Some o' /\ same_shape o' door.
Proof.
  destruct (unserialize_keeps_the_heap defaultSlotToValFn [door]
              {| body := qq "{'@qclass':'slot','index':0}"; cap_slots := [VObject 0] |}
              VUndefined (VObject 0) (harden (VObject 0) [door]) 0 door)
    as (o' & Ho' & _ & Hs).
  - vm_compute. reflexivity.
  - reflexivity.
  - exists o'. split; [exact Ho'|].
    apply (Hs (JObj [(QCLASS, JStr "slot"); ("index", JNum (Fin 0))])).
    + vm_compute. reflexivity.
    + reflexivity.
Defined.

(** ** What Remotable returns *)

Lemma harden_root_frozen (h : list object) (a : nat) (o : object) :
  h !! a = Some o ->
  exists o', harden (VObject a) h !! a = Some o' /\ o_frozen o' = true /\ same_shape o' o.
Proof.
  intros Ho. destruct (o_frozen o) eqn:Hf.
  { exists o. rewrite (harden_frozen _ _ _ Ho Hf).
    split; [done|]. split; [done|apply same_shape_refl]. }
  unfold harden. cbn [harden_from]. rewrite Ho, Hf. cbv zeta.
  set (h1 := <[a := freeze o]> h).
  assert (h1 !! a = Some (freeze o)) as H1.
  { apply list_lookup_insert_eq. by apply lookup_lt_Some in Ho. }
  exists (freeze o). split; [|done].
  set (h2 := foldl (fun h0 kd => harden_from (length h) (desc_value (snd kd)) h0) h1
               (o_props o)).
  set (h3 := foldl (fun h0 e => match e with
                                | Some d => harden_from (length h) (desc_value d) h0
                                | None => h0
                                end) h2 (o_elems o)).
  assert (frozen_kept h1 h2) as H2.
  { apply frozen_kept_foldl. intros h' x. apply harden_from_frozen_kept. }
  assert (frozen_kept h2 h3) as H3.
  { apply frozen_kept_foldl. intros h' [d|];
      [apply harden_from_frozen_kept|apply frozen_kept_refl]. }
  assert (h3 !! a = Some (freeze o)) as H13.
  { apply H3; [|done]. by apply H2. }
  destruct (o_proto o) as [|i|p]; try done.
  by apply harden_from_frozen_kept.
Qed.

Lemma mutateHardenAndCheck_Ok propEntries remotableProto target h h' :
  mutateHardenAndCheck propEntries remotableProto target h = Ok h' ->
  exists o',
    h' !! target = Some o' /\ o_frozen o' = true /\
    o_proto o' = PObject remotableProto /\ o_class o' <> CArray /\
    forall name, name ∈ getOwnPropertyNames o' ->
      exists d, own_property o' (KStr name) = Some d /\ is_function (prop_get d) = true.
Proof.
  unfold mutateHardenAndCheck. destruct (h !! target) as [o|] eqn:Ho; [|done].
  intros (o1 & Hdef & H)%bind_Ok. destruct (o_frozen o1) eqn:Hf1; [done|].
  cbv zeta in H.
  set (o2 := mkObject (o_class o1) (PObject remotableProto) false (o_elems o1) (o_props o1))
    in *.
  set (h1 := <[target := o2]> h) in *.
  set (h2 := harden (VObject remotableProto) h1) in *.
  apply bind_Ok in H as ([] & Hcan & [= <-]).
  assert (h1 !! target = Some o2) as H1.
  { apply list_lookup_insert_eq. by apply lookup_lt_Some in Ho. }
  destruct (harden_from_shape (S (length h1)) (VObject remotableProto) h1 target o2 H1)
    as (o3 & H2 & Hs3).
  destruct (harden_root_frozen h2 target o3 H2) as (o' & H3 & Hf & Hs).
  exists o'. split; [done|]. split; [done|].
  pose proof (same_shape_trans _ _ _ Hs Hs3) as (Hc & Hp & _).
  split; [by rewrite Hp|].
  simpl in Hcan. rewrite H3 in Hcan. case_bool_decide as Hca; [done|].
  split; [done|]. by apply check_methods_Ok.
Qed.

Lemma iface_tag_truthy (tag : string) :
  String.eqb tag "Remotable" || starts_with "Alleged: " tag = true ->
  truthy_iface (Some tag) = true.
Proof. by destruct tag. Qed.

Lemma Remotable_Ok_inv_heap iface props remotable h reg v w' :
  Remotable iface props remotable (h, reg) = Ok (v, w') ->
  exists r pe rp h3,
    v = VObject r /\ mutateHardenAndCheck pe rp r h3 = Ok (fst w').
Proof.
  unfold Remotable.
  set (iface' := match iface with VUndefined => VString "Remotable" | _ => iface end).
  destruct iface' as [| | | | |tag| | |] eqn:Hi; try done.
  destruct (String.eqb tag "Remotable" || starts_with "Alleged: " tag) eqn:Hv; [|done].
  simpl negb. cbv iota.
  destruct (match props with VUndefined => _ | _ => _ end) as [props' h1].
  destruct (match remotable with VUndefined => _ | _ => _ end) as [remotable' h2].
  intros H. apply bind_Ok in H as ([] & _ & H).
  destruct remotable' as [| | | | | | | |r]; try done.
  case_bool_decide as Hreg; [done|].
  destruct (h2 !! r) as [o|]; [|done].
  apply bind_Ok in H as ([] & _ & H).
  apply bind_Ok in H as (pe & _ & H).
  apply bind_Ok in H as (h3 & _ & H).
  apply bind_Ok in H as (h4 & Hm & H).
  injection H as <- <-. eauto 10.
Qed.

(** X15.  What Remotable returns is a presence: the object is frozen,
    it is not an array, its string-named own properties all hold
    functions, classification passes it by reference, and serialize sends
    it as slot 0 under the interface tag of the call. *)
Theorem Remotable_returns_a_presence
    (iface props remotable : value) (h : list object) (reg : gmap nat string)
    (v : value) (w' : list object * gmap nat string) :
  Remotable iface props remotable (h, reg) = Ok (v, w') ->
  exists r tag o',
    v = VObject r /\ iface_arg iface = Some tag /\
    fst w' !! r = Some o' /\ o_frozen o' = true /\ o_class o' <> CArray /\
    (forall name, name ∈ getOwnPropertyNames o' ->
       exists d, own_property o' (KStr name) = Some d /\ is_function (prop_get d) = true) /\
    passStyleOf (fst w') (snd w') (VObject r) = Ok REMOTE_STYLE /\
    forall convertValToSlot marshalName errorCount0,
      serialize convertValToSlot marshalName (fst w') (snd w') errorCount0 (VObject r)
      = Ok ({| body := JSON_stringify
                         (qclass_envelope "slot"
                            [("iface", JStr tag); ("index", json_of_nat 0)]);
               cap_slots := [convertValToSlot (VObject r)] |},
            errorCount0).
Proof.
  intros HR. pose proof HR as HR'.
  apply Remotable_Ok_inv in HR as (r & tag & -> & Htag & Hvalid & Hfresh & Hreg).
  apply Remotable_Ok_inv_heap in HR' as (r' & pe & rp & h3 & [= <-] & Hm).
  apply mutateHardenAndCheck_Ok in Hm as (o' & Ho' & Hf & _ & Hc & Hmeth).
  assert (passStyleOf (fst w') (snd w') (VObject r) = Ok REMOTE_STYLE) as Hps.
  { unfold passStyleOf. simpl. rewrite Hreg, lookup_insert_eq.
    by rewrite (iface_tag_truthy _ Hvalid). }
  exists r, tag, o'. split_and!; try done.
  intros convertValToSlot marshalName errorCount0. unfold serialize.
  rewrite encode_remote_first by done. cbn [bind fst snd body cap_slots slots].
  rewrite Hreg, lookup_insert_eq. done.
Qed.

Lemma Remotable_returns_a_presence_witness :
  exists w r tag o',
    Far "counter" (VObject 0) counter_world = Ok (VObject r, w) /\
    iface_arg (VString "Alleged: counter") = Some tag /\
    fst w !! r = Some o' /\ o_frozen o' = true /\ o_class o' <> CArray /\
    (forall name, name ∈ getOwnPropertyNames o' ->
       exists d, own_property o' (KStr name) = Some d /\ is_function (prop_get d) = true) /\
    passStyleOf (fst w) (snd w) (VObject r) = Ok REMOTE_STYLE /\
    forall convertValToSlot marshalName errorCount0,
      serialize convertValToSlot marshalName (fst w) (snd w) errorCount0 (VObject r)
      = Ok ({| body := JSON_stringify
                         (qclass_envelope "slot"
                            [("iface", JStr tag); ("index", json_of_nat 0)]);
               cap_slots := [convertValToSlot (VObject r)] |},
            errorCount0).
Proof.
  destruct (Far "counter" (VObject 0) counter_world) as [[v w]| |] eqn:E;
    [|vm_compute in E; discriminate E..].
  destruct (Remotable_returns_a_presence _ _ _ _ _ _ _ E) as (r & tag & o' & -> & H).
  exists w, r, tag, o'. split; [reflexivity|exact H].
Defined.

(** X16.  An object that is registered cannot be registered again:
    Remotable throws on it, whatever the interface and the properties
    asked for, so the interface of a remotable never changes. *)
Theorem Remotable_refuses_a_registered_object
    (iface props : value) (r : nat) (h : list object) (reg : gmap nat string) :
  is_Some (reg !! r) ->
  fails (Remotable iface props (VObject r) (h, reg)).
Proof.
  intros Hreg. unfold Remotable.
  destruct (match iface with VUndefined => VString "Remotable" | _ => iface end)
    as [| | | | |tag| | |]; try by eexists.
  destruct (negb _); [by eexists|].
  destruct (match props with VUndefined => _ | _ => _ end) as [props' h1].
  apply bind_fails; [apply assertCanBeRemotable_returns|]. intros [] _.
  rewrite bool_decide_eq_true_2 by done. by eexists.
Qed.

Lemma Remotable_refuses_a_registered_object_witness :
  fails (Remotable (VString "Alleged: door") VUndefined (VObject 0)
           ([plain_record []], {[ 0 := "Alleged: counter" ]})).
Proof.
  apply (Remotable_refuses_a_registered_object (VString "Alleged: door") VUndefined 0
           [plain_record []] {[ 0 := "Alleged: counter" ]}).
  exists "Alleged: counter". reflexivity.
Defined.

(** X17.  Far(farName, remotable) is Remotable with the tag
    "Alleged: farName", which the check of the tag always accepts: when
    Far returns, the object that it returns is registered under that
    tag, and had no tag before. *)
Theorem Far_registers_the_alleged_name
    (farName : string) (remotable : value) (h : list object) (reg : gmap nat string)
    (v : value) (w' : list object * gmap nat string) :
  Far farName remotable (h, reg) = Ok (v, w') ->
  starts_with "Alleged: " ("Alleged: " +:+ farName) = true /\
  exists r,
    v = VObject r /\ reg !! r = None /\
    getInterfaceOf (snd w') v = Some ("Alleged: " +:+ farName) /\
    forall r', r' <> r -> snd w' !! r' = reg !! r'.
Proof.
  intros HF. split; [done|]. unfold Far in HF.
  apply Remotable_Ok_inv in HF as (r & tag & -> & [= <-] & _ & Hfresh & ->).
  exists r. split_and!; try done.
  - simpl. apply lookup_insert_eq.
  - intros r' Hne. by apply lookup_insert_ne.
Qed.

Lemma Far_registers_the_alleged_name_witness :
  exists w,
    Far "counter" (VObject 0) counter_world = Ok (VObject 0, w) /\
    starts_with "Alleged: " ("Alleged: " +:+ "counter") = true /\
    exists r,
      VObject 0 = VObject r /\ (∅ : gmap nat string) !! r = None /\
      getInterfaceOf (snd w) (VObject 0) = Some ("Alleged: " +:+ "counter") /\
      forall r', r' <> r -> snd w !! r' = (∅ : gmap nat string) !! r'.
Proof.
  destruct (Far "counter" (VObject 0) counter_world) as [[v w]| |] eqn:E;
    [|vm_compute in E; discriminate E..].
  assert (v = VObject 0) as -> by (vm_compute in E; congruence).
  exists w. split; [reflexivity|].
  exact (Far_registers_the_alleged_name "counter" (VObject 0) _ ∅ (VObject 0) w E).
Defined.

(** * pureCopy *)

(** What [pureCopy] throws: what [passStyleOf] has thrown, one of its own
    TypeErrors, or the TypeError of an assignment that a frozen object
    refuses. *)
Inductive copy_exn : Type :=
  | NotPassable (e : exn)
  | CopyRemote         (* Input value ... cannot be copied as it must be passed by reference *)
  | CopyPromise        (* Promises cannot be copied *)
  | AssignToFrozen.    (* TypeError raised by an assignment to a frozen object *)

Inductive copied (A : Type) : Type :=
  | Copied (a : A)
  | CopyThrows (e : copy_exn)
  | CopyOutOfFuel.
Arguments Copied {A} a.
Arguments CopyThrows {A} e.
Arguments CopyOutOfFuel {A}.

Definition copied_bind {A B : Type} (m : copied A) (k : A -> copied B) : copied B :=
  match m with
  | Copied a => k a
  | CopyThrows e => CopyThrows e
  | CopyOutOfFuel => CopyOutOfFuel
  end.

Definition called {A : Type} (r : result A) : copied A :=
  match r with
  | Ok a => Copied a
  | Throw e => CopyThrows (NotPassable e)
  | OutOfFuel => CopyOutOfFuel
  end.

(** The heap and the WeakMap [already], from the objects met to their
    copies. *)
Record CopyState : Type := mkCopyState {
  c_heap : list object;
  already : gmap nat value;
}.

(** [copy[prop] = v] in strict code, where [copy] has been made by [{}] or
    [[]] and has received nothing but such assignments.  A frozen object
    refuses (only the accessor [__proto__] of Object.prototype ignores a
    value that is neither an object nor null); an array takes an index
    name as an element, the elements between its length and the index
    becoming holes (an array copy receives index names only, the entries of
    a pass-by-copy array); any other assignment is [assign_field]. *)
Definition assign_entry (copy : nat) (prop : string) (v : value) (h : list object)
    : copied (list object) :=
  match h !! copy with
  | None => Copied h
  | Some o =>
      if o_frozen o then
        if String.eqb prop "__proto__" &&
           bool_decide (o_proto o = PIntrinsic ObjectPrototype) &&
           match v with VObject _ | VNull => false | _ => true end
        then Copied h
        else CopyThrows AssignToFrozen
      else
        match o_class o, array_index prop with
        | CArray, Some i =>
            let i := N.to_nat i in
            let elems :=
              if i <? length (o_elems o)
              then <[i := Some (DataProp v true)]> (o_elems o)
              else o_elems o ++ replicate (i - length (o_elems o)) None
                     ++ [Some (DataProp v true)] in
            Copied (<[copy := mkObject (o_class o) (o_proto o) (o_frozen o) elems
                                (o_props o)]> h)
        | _, _ => called (assign_field copy prop v h)
        end
  end.

(** The loop [Object.entries(obj).forEach(([prop, value]) => { copy[prop] =
    pureCopy(value, already); })]. *)
Fixpoint copy_entries (pureCopy : value -> CopyState -> copied (value * CopyState))
    (copy : nat) (entries : list (string * value)) (st : CopyState)
    : copied CopyState :=
  match entries with
  | [] => Copied st
  | (prop, value) :: rest =>
      copied_bind (pureCopy value st) (fun r =>
      copied_bind (assign_entry copy prop (fst r) (c_heap (snd r))) (fun h =>
      copy_entries pureCopy copy rest
        {| c_heap := h; already := already (snd r) |}))
  end.

(** [pureCopy(val, already)].  The switch has a case for each of the pass
    styles, so its default case is not reached; the styles copyArray,
    copyRecord and copyError are styles of objects only. *)
Fixpoint pureCopy (fuel : nat) (reg : gmap nat string) (val : value) (st : CopyState)
    : copied (value * CopyState) :=
  match fuel with
  | O => CopyOutOfFuel
  | S fuel' =>
      copied_bind (called (passStyleOf (c_heap st) reg val)) (fun passStyle =>
      match passStyle with
      | PSbigint | PSboolean | PSnull | PSnumber | PSstring | PSundefined
      | PSsymbol => Copied (val, st)
      | PScopyArray | PScopyRecord =>
          match val with
          | VObject obj =>
              match already st !! obj with
              | Some copy => Copied (copy, st)
              | None =>
                  (* Create a new identity. *)
                  let copy := length (c_heap st) in
                  let fresh :=
                    if decide (passStyle = PScopyArray) then new_array
                    else new_object in
                  (* Prevent recursion. *)
                  let st1 := {| c_heap := c_heap st ++ [fresh];
                                already := <[obj := VObject copy]> (already st) |} in
                  (* Make a deep copy on the new identity. *)
                  copied_bind (called (Object_entries (c_heap st1) val)) (fun entries =>
                  copied_bind (copy_entries (pureCopy fuel' reg) copy entries st1)
                    (fun st2 =>
                  Copied (VObject copy,
                          {| c_heap := harden (VObject copy) (c_heap st2);
                             already := already st2 |})))
              end
          | _ => Copied (val, st)
          end
      | PScopyError =>
          match val with
          | VObject err =>
              match already st !! err, c_heap st !! err with
              | Some copy, _ => Copied (copy, st)
              | None, Some o =>
                  let name := get (c_heap st) o (KStr "name") in
                  let message := get (c_heap st) o (KStr "message") in
                  let EC :=
                    match getErrorConstructor (VString (to_string name)) with
                    | Some EC => EC
                    | None => EError
                    end in
                  let copy := length (c_heap st) in
                  Copied (VObject copy,
                          {| c_heap := c_heap st ++ [new_error EC (to_string message)];
                             already := <[err := VObject copy]> (already st) |})
              | None, None => Copied (val, st)
              end
          | _ => Copied (val, st)
          end
      | REMOTE_STYLE => CopyThrows CopyRemote
      | PSpromise => CopyThrows CopyPromise
      end)
  end.

(** [pureCopy(val)], the WeakMap being new.  Every nested call that goes
    on to nest has entered one more object of the heap in the WeakMap. *)
Definition pureCopy_of (h : list object) (reg : gmap nat string) (val : value)
    : copied (value * list object) :=
  copied_bind (pureCopy (S (length h)) reg val {| c_heap := h; already := ∅ |})
    (fun r => Copied (fst r, c_heap (snd r))).

(** ** The copy of pure data *)

(** [copy_of h0 reg F h v v']: the value [v'] of the heap [h] is a copy of
    the value [v] of the heap [h0]: the same primitive, or a finished
    object, in [F], whose parts are copies of the parts of [v]. *)
Inductive copy_of (h0 : list object) (reg : gmap nat string) (F : gset nat)
    (h : list object) : value -> value -> Prop :=
  | copy_primitive (v : value) :
      is_primitive v = true -> copy_of h0 reg F h v v
  | copy_record (a b : nat) (o o' : object) (fields : list (string * value)) :
      h0 !! a = Some o ->
      passStyleOf h0 reg (VObject a) = Ok PScopyRecord ->
      b ∈ F -> h !! b = Some o' ->
      same_shape o' (record_object fields) ->
      NoDup (map fst fields) ->
      map fst fields ≡ₚ getOwnPropertyNames o ->
      (forall name v', (name, v') ∈ fields ->
         copy_of h0 reg F h (get h0 o (KStr name)) v') ->
      copy_of h0 reg F h (VObject a) (VObject b)
  | copy_array (a b : nat) (o o' : object) (elems : list value) :
      h0 !! a = Some o ->
      passStyleOf h0 reg (VObject a) = Ok PScopyArray ->
      b ∈ F -> h !! b = Some o' ->
      same_shape o' (array_object elems) ->
      length elems = length (o_elems o) ->
      (forall i d v', o_elems o !! i = Some (Some d) -> elems !! i = Some v' ->
         copy_of h0 reg F h (prop_get d) v') ->
      copy_of h0 reg F h (VObject a) (VObject b)
  | copy_error (a b : nat) (o o' : object) (EC : errclass) (message : string) :
      h0 !! a = Some o ->
      passStyleOf h0 reg (VObject a) = Ok PScopyError ->
      b ∈ F -> h !! b = Some o' ->
      same_shape o' (new_error EC message) ->
      get h0 o (KStr "name") = VString (errclass_name EC) ->
      get h0 o (KStr "message") = VString message ->
      copy_of h0 reg F h (VObject a) (VObject b).

(** [copy_of] looks at the heap of the copies only at the objects of [F],
    and only at their shape. *)
Lemma copy_of_stable h0 reg F F' h1 h2 v v' :
  copy_of h0 reg F h1 v v' ->
  F ⊆ F' ->
  (forall b o1, b ∈ F -> h1 !! b = Some o1 ->
     exists o2, h2 !! b = Some o2 /\ same_shape o2 o1) ->
  copy_of h0 reg F' h2 v v'.
Proof.
  intros Hc HF Hh. induction Hc as
    [v Hv
    |a b o o' fields Ho Hps Hb Ho' Hs Hnd Hperm _ IH
    |a b o o' elems Ho Hps Hb Ho' Hs Hlen _ IH
    |a b o o' EC message Ho Hps Hb Ho' Hs Hn Hm].
  - by constructor.
  - destruct (Hh b o' Hb Ho') as (o2 & Ho2 & Hs2).
    eapply copy_record; eauto using same_shape_trans.
  - destruct (Hh b o' Hb Ho') as (o2 & Ho2 & Hs2).
    eapply copy_array; eauto using same_shape_trans.
  - destruct (Hh b o' Hb Ho') as (o2 & Ho2 & Hs2).
    eapply copy_error; eauto using same_shape_trans.
Qed.

Lemma copy_of_mono h0 reg F F' h v v' :
  copy_of h0 reg F h v v' -> F ⊆ F' -> copy_of h0 reg F' h v v'.
Proof.
  intros Hc HF. eapply copy_of_stable; [done|done|].
  intros b o1 _ Ho1. exists o1. split; [done|apply same_shape_refl].
Qed.

Lemma copy_of_inv h0 reg F h v v' :
  copy_of h0 reg F h v v' ->
  is_primitive v' = true \/ exists b, v' = VObject b /\ b ∈ F.
Proof. inversion 1; subst; eauto. Qed.

Lemma sameValueZero_refl v : is_primitive v = true -> sameValueZero v v = true.
Proof.
  intros _. unfold sameValueZero, Object_is. apply orb_true_iff. right.
  by apply bool_decide_eq_true_2.
Qed.

Lemma copy_of_sameStructure h0 reg F h hf v v' :
  copy_of h0 reg F h v v' ->
  (forall a o, h0 !! a = Some o -> exists o2, hf !! a = Some o2 /\ same_shape o2 o) ->
  (forall b o', h !! b = Some o' -> exists o2, hf !! b = Some o2 /\ same_shape o2 o') ->
  sameStructure hf v v'.
Proof.
  intros Hc Hsrc Hbuilt. induction Hc as
    [v Hv
    |a b o o' fields Ho Hps Hb Ho' Hs Hnd Hperm _ IH
    |a b o o' elems Ho Hps Hb Ho' Hs Hlen _ IH
    |a b o o' EC message Ho Hps Hb Ho' Hs Hn Hm].
  - apply same_primitive; [done|by apply sameValueZero_refl].
  - destruct (Hsrc _ _ Ho) as (oa & Hoa & Hsa).
    destruct (Hbuilt _ _ Ho') as (ob & Hob & Hsb).
    pose proof (same_shape_trans _ _ _ Hsb Hs) as Hsb'.
    destruct (copyRecord_inv _ _ _ _ Ho Hps) as (Hclass & Hpr & Hq & Hown).
    assert (forall name, own_property ob (KStr name)
              = (fun v => DataProp v true) <$> assoc name fields) as Hobp.
    { intros name. rewrite (own_property_shape _ _ _ Hsb').
      rewrite own_property_ordinary by done. apply assoc_record_object. }
    apply (same_record _ a b oa ob); try done.
    + destruct Hsa as (-> & _). done.
    + destruct Hsb' as (-> & _). done.
    + unfold instanceof_Error. destruct Hsa as (_ & -> & _).
      by rewrite Hpr, proto_is_error_intrinsic.
    + unfold instanceof_Error. destruct Hsb' as (_ & -> & _).
      cbn [o_proto record_object new_error]. by rewrite proto_is_error_intrinsic.
    + intros name. rewrite (own_property_shape _ _ _ Hsa), Hobp.
      rewrite <- getOwnPropertyNames_ordinary by done.
      rewrite <- Hperm, <- assoc_is_Some, fmap_is_Some. done.
    + intros name da Hda. rewrite (own_property_shape _ _ _ Hsa) in Hda.
      assert (name ∈ map fst fields) as Hin.
      { rewrite Hperm. apply getOwnPropertyNames_ordinary; [done|eauto]. }
      apply assoc_is_Some in Hin as [v' Hv'].
      exists (DataProp v' true). rewrite Hobp, Hv'. split; [done|].
      apply assoc_Some_elem in Hv'. specialize (IH _ _ Hv').
      unfold get, lookup_property in IH. by rewrite Hda in IH.
  - destruct (Hsrc _ _ Ho) as (oa & Hoa & Hsa).
    destruct (Hbuilt _ _ Ho') as (ob & Hob & Hsb).
    pose proof (same_shape_trans _ _ _ Hsb Hs) as Hsb'.
    destruct (copyArray_inv _ _ _ _ Ho Hps) as (Hclass & Helems).
    apply (same_array _ a b oa ob); try done.
    + destruct Hsa as (-> & _). done.
    + destruct Hsb' as (-> & _). done.
    + destruct Hsa as (_ & _ & -> & _). destruct Hsb' as (_ & _ & -> & _). simpl.
      apply Forall2_same_length_lookup_2.
      { by rewrite length_map. }
      intros i e e' He He'. rewrite list_lookup_fmap in He'.
      destruct (elems !! i) as [v'|] eqn:Hv'; [|done]. injection He' as <-.
      rewrite Forall_forall in Helems.
      destruct (Helems e) as (v & -> & _); [by eapply list_elem_of_lookup_2|].
      eexists _, _. split; [done|]. split; [done|]. by apply (IH i).
  - destruct (Hsrc _ _ Ho) as (oa & Hoa & Hsa).
    destruct (Hbuilt _ _ Ho') as (ob & Hob & Hsb).
    pose proof (same_shape_trans _ _ _ Hsb Hs) as Hsb'.
    destruct (copyError_inv _ _ _ _ Ho Hps) as (EC' & message' & Hpr & Hclass & Hname & Hmsg).
    apply (same_error _ a b oa ob); try done.
    + destruct Hsa as (-> & _). done.
    + destruct Hsb' as (-> & _). done.
    + unfold instanceof_Error. destruct Hsa as (_ & -> & _).
      by rewrite Hpr, proto_is_error_intrinsic.
    + unfold instanceof_Error. destruct Hsb' as (_ & -> & _).
      cbn [o_proto record_object new_error]. by rewrite proto_is_error_intrinsic.
    + rewrite (get_shape_intrinsic hf h0 oa o _ _ Hsa Hpr), Hn.
      rewrite (get_shape_intrinsic hf hf ob _ (ErrorPrototype EC) _ Hsb' eq_refl).
      unfold get, lookup_property. cbn [o_proto new_error].
      rewrite proto_lookup_intrinsic. by destruct EC.
    + rewrite (get_shape_intrinsic hf h0 oa o _ _ Hsa Hpr), Hm.
      rewrite (get_shape_intrinsic hf hf ob _ (ErrorPrototype EC) _ Hsb' eq_refl).
      unfold get, lookup_property, own_property. cbn. by decide_names.
Qed.

(** *** Classification looks at the object and at the intrinsics *)

Lemma passStyleOf_intrinsic_proto h1 h2 reg a o i :
  h1 !! a = Some o -> h2 !! a = Some o -> o_proto o = PIntrinsic i ->
  passStyleOf h2 reg (VObject a) = passStyleOf h1 reg (VObject a).
Proof.
  intros H1 H2 Hp. unfold passStyleOf. simpl. rewrite H1, H2.
  unfold isPassByCopyError, instanceof_Error, mustPassByRemote.
  unfold has_property, get, lookup_property.
  rewrite Hp, !proto_lookup_intrinsic, !proto_is_error_intrinsic.
  change (4 + length h1) with (S (3 + length h1)).
  change (4 + length h2) with (S (3 + length h2)).
  cbn [mustPassByRemote_proto]. rewrite H1, H2. unfold assertCanBeRemotable.
  rewrite H1, H2, Hp.
  replace (mustPassByRemote_proto (3 + length h2) h2 reg (PIntrinsic i))
    with (mustPassByRemote_proto (3 + length h1) h1 reg (PIntrinsic i)); [done|].
  by destruct i as [| | |[]].
Qed.

Lemma passStyleOf_primitive h1 h2 reg v :
  is_primitive v = true -> passStyleOf h2 reg v = passStyleOf h1 reg v.
Proof. by destruct v. Qed.

(** *** Index names *)

Lemma Nat_to_uint_N (n : nat) : Nat.to_uint n = N.to_uint (N.of_nat n).
Proof.
  rewrite DecimalNat.Unsigned.to_uint_alt.
  assert (DecimalNat.Unsigned.to_lu n = DecimalPos.Unsigned.to_lu (N.of_nat n)) as ->.
  { induction n as [|n IH]; [done|].
    rewrite Nat2N.inj_succ, DecimalPos.Unsigned.to_lu_succ, <- IH. done. }
  by destruct (N.of_nat n).
Qed.

Lemma array_index_string_of_nat (i : nat) :
  (N.of_nat i < 4294967295)%N ->
  array_index (string_of_nat i) = Some (N.of_nat i).
Proof.
  intros Hi. unfold array_index, string_of_nat. rewrite NilEmpty.usu.
  assert (Decimal.unorm (Nat.to_uint i) = Nat.to_uint i) as ->.
  { by rewrite <- DecimalNat.Unsigned.to_of, DecimalNat.Unsigned.of_to. }
  rewrite uint_beq_refl, Nat_to_uint_N, DecimalN.Unsigned.of_to. simpl.
  by apply N.ltb_lt in Hi as ->.
Qed.

(** *** Assignments to a copy under construction *)

Lemma ordered_insert_record (name : string) (v : value) (done : list (string * value)) :
  ordered_insert pkey_rank (KStr name) (DataProp v true)
    (map (fun kv => (KStr (fst kv), DataProp (snd kv) true)) done)
  = map (fun kv => (KStr (fst kv), DataProp (snd kv) true))
      (ordered_insert string_rank name v done).
Proof.
  induction done as [|[name' v'] done IH]; [done|].
  cbn [map ordered_insert fst snd].
  change (pkey_rank (KStr name)) with (string_rank name).
  change (pkey_rank (KStr name')) with (string_rank name').
  destruct (comes_before (string_rank name) (string_rank name')); [done|].
  cbn [map fst snd]. by rewrite IH.
Qed.

Lemma assign_entry_record (h : list object) (obj : nat) (done : list (string * value))
    (name : string) (v : value) :
  h !! obj = Some (record_object done) ->
  name <> "__proto__" ->
  name ∉ map fst done ->
  assign_entry obj name v h
  = Copied (<[obj := record_object (ordered_insert string_rank name v done)]> h).
Proof.
  intros Ho Hname Hnew. unfold assign_entry. rewrite Ho.
  cbn [o_class o_proto o_frozen o_elems o_props record_object].
  rewrite (assign_field_intrinsic _ _ _ _ _ ObjectPrototype Ho eq_refl Hname).
  cbn [o_class o_proto o_frozen o_elems o_props record_object called].
  unfold create_data_property. rewrite assoc_None.
  - by rewrite ordered_insert_record.
  - rewrite map_map. simpl. intros Hin. apply Hnew.
    apply list_elem_of_fmap in Hin as ([name' v'] & [= ->] & Hin).
    apply list_elem_of_fmap. by exists (name', v').
Qed.

Lemma assign_entry_array (h : list object) (obj : nat) (done : list value) (v : value) :
  h !! obj = Some (array_object done) ->
  (N.of_nat (length done) < 4294967295)%N ->
  assign_entry obj (string_of_nat (length done)) v h
  = Copied (<[obj := array_object (done ++ [v])]> h).
Proof.
  intros Ho Hlen. unfold assign_entry. rewrite Ho.
  cbn [o_class o_proto o_frozen o_elems o_props array_object].
  rewrite array_index_string_of_nat by done. rewrite Nat2N.id, length_map.
  rewrite Nat.ltb_irrefl, Nat.sub_diag. unfold array_object. by rewrite map_app.
Qed.

(** *** Hardening a copy whose parts are hardened *)

Definition settled (h : list object) (v : value) : Prop :=
  match v with
  | VObject b => exists ob, h !! b = Some ob /\ o_frozen ob = true
  | _ => True
  end.

Lemma harden_from_settled fuel h v : settled h v -> harden_from fuel v h = h.
Proof.
  destruct fuel as [|fuel]; [done|]. destruct v as [| | | | | | | |b]; try done.
  intros (ob & Hb & Hf). simpl. by rewrite Hb, Hf.
Qed.

Lemma foldl_fixed {A B} (f : A -> B -> A) (a : A) (l : list B) :
  (forall x, x ∈ l -> f a x = a) -> foldl f a l = a.
Proof.
  induction l as [|x l IH]; [done|]. intros H. simpl.
  rewrite H by apply list_elem_of_here. apply IH. intros y Hy. apply H.
  by apply list_elem_of_further.
Qed.

Lemma harden_copy (h : list object) (copy : nat) (o : object) (i : intrinsic) :
  h !! copy = Some o -> o_frozen o = false -> o_proto o = PIntrinsic i ->
  (forall kd, kd ∈ o_props o -> settled h (desc_value (snd kd))) ->
  (forall d, Some d ∈ o_elems o -> settled h (desc_value d)) ->
  harden (VObject copy) h = <[copy := freeze o]> h.
Proof.
  intros Ho Hf Hp Hprops Helems. unfold harden. cbn [harden_from].
  rewrite Ho, Hf, Hp. cbv zeta.
  assert (forall v, settled h v -> settled (<[copy := freeze o]> h) v) as Hkeep.
  { intros [| | | | | | | |b]; try done. intros (ob & Hb & Hfb).
    destruct (decide (b = copy)) as [->|Hne].
    - exists (freeze o). split; [|done]. apply list_lookup_insert_eq.
      by apply lookup_lt_Some in Ho.
    - exists ob. by rewrite list_lookup_insert_ne. }
  rewrite (foldl_fixed _ _ (o_props o)).
  - apply foldl_fixed. intros [d|] Hd; [|done].
    apply harden_from_settled, Hkeep. by apply Helems.
  - intros kd Hkd. apply harden_from_settled, Hkeep. by apply Hprops.
Qed.

(** *** What a pass-by-copy object lists *)

Lemma copyArray_plain h reg a o :
  h !! a = Some o -> passStyleOf h reg (VObject a) = Ok PScopyArray ->
  o_proto o = PIntrinsic ArrayPrototype /\ string_keyed (o_props o) = [].
Proof.
  intros Ho Hps. apply passStyleOf_object_inv in Hps as [[_ ?]|(_ & o' & Ho' & Hq & _ & Hps)];
    [done|]. assert (o' = o) as -> by congruence.
  destruct Hps as [[_ ?]|[_ [[_ ?]|[_ [[Harr _]|[_ [[_ ?]|(_ & _ & ?)]]]]]]]; try done.
  apply isPassByCopyArray_shape in Harr. tauto.
Qed.

Lemma copyRecord_plain h reg a o :
  h !! a = Some o -> passStyleOf h reg (VObject a) = Ok PScopyRecord ->
  Forall (fun kd => exists v, snd kd = DataProp v true) (own_string_entries o).
Proof.
  intros Ho Hps. apply passStyleOf_object_inv in Hps as [[_ ?]|(_ & o' & Ho' & Hq & _ & Hps)];
    [done|]. assert (o' = o) as -> by congruence.
  destruct Hps as [[_ ?]|[_ [[_ ?]|[_ [[_ ?]|[Harr [[Hrec _]|(_ & _ & ?)]]]]]]]; try done.
  apply isPassByCopyRecord_true in Hrec as (_ & _ & Hall).
  eapply Forall_impl; [exact Hall|]. intros kd (v & Hv & _). eauto.
Qed.

Local Abbreviation entry_of :=
  (fun kd : string * prop =>
     if desc_enumerable (snd kd) then Some (fst kd, prop_get (snd kd)) else None).

Lemma entries_plain (l : list (string * prop)) :
  Forall (fun kd => exists v, snd kd = DataProp v true) l ->
  omap entry_of l = map (fun kd => (fst kd, prop_get (snd kd))) l.
Proof.
  induction 1 as [|[name d] l (v & Hv) _ IH]; [done|]. simpl in Hv. subst d.
  cbn [omap list_omap map fst snd desc_enumerable prop_get]. by f_equal.
Qed.

(** The length of an array is at most 2^32 - 1. *)
Definition arrays_bounded (h : list object) : bool :=
  forallb (fun o => (N.of_nat (length (o_elems o)) <=? 4294967295)%N) h.

(** *** The invariant of the copy *)

Section PureCopy.
Variable h0 : list object.
Variable reg : gmap nat string.
Hypothesis Hbound : arrays_bounded h0 = true.

(** [U] holds the source objects whose copy is under way, [F] the copies
    that are finished. *)
Record CInv (U F : gset nat) (st : CopyState) : Prop := {
  ci_length : length h0 <= length (c_heap st);
  ci_source : forall a o, h0 !! a = Some o -> c_heap st !! a = Some o;
  ci_F : forall b, b ∈ F ->
    length h0 <= b /\ exists o, c_heap st !! b = Some o /\ o_frozen o = true;
  ci_already : forall a v', already st !! a = Some v' ->
    a ∈ U \/ copy_of h0 reg F (c_heap st) (VObject a) v';
}.

Record cframe (st st' : CopyState) : Prop := {
  cf_heap : forall b o, c_heap st !! b = Some o -> c_heap st' !! b = Some o;
  cf_already : already st ⊆ already st';
}.

Record cframe_but (obj : nat) (st st' : CopyState) : Prop := {
  cb_heap : forall b o, b <> obj -> c_heap st !! b = Some o -> c_heap st' !! b = Some o;
  cb_already : already st ⊆ already st';
}.

Lemma copy_of_kept F h1 h2 v v' :
  copy_of h0 reg F h1 v v' ->
  (forall b o, b ∈ F -> h1 !! b = Some o -> h2 !! b = Some o) ->
  copy_of h0 reg F h2 v v'.
Proof.
  intros Hc Hh. eapply copy_of_stable; [done|done|].
  intros b o1 Hb Ho1. exists o1. split; [by apply Hh|apply same_shape_refl].
Qed.

Lemma CInv_heap U F st st' :
  CInv U F st ->
  already st' = already st ->
  length (c_heap st) <= length (c_heap st') ->
  (forall b o, b ∈ F \/ b < length h0 -> c_heap st !! b = Some o ->
     c_heap st' !! b = Some o) ->
  CInv U F st'.
Proof.
  intros [H1 H2 H3 H4] Ha Hl Hh. split.
  - lia.
  - intros a o Ho. apply Hh; [right; by apply lookup_lt_Some in Ho|by apply H2].
  - intros b Hb. destruct (H3 b Hb) as (Hlb & o & Ho & Hf). split; [done|].
    exists o. split; [|done]. apply Hh; [by left|done].
  - rewrite Ha. intros a v' Hav. destruct (H4 a v' Hav) as [?|Hc]; [by left|right].
    apply (copy_of_kept _ _ _ _ _ Hc). intros b o Hb Ho. apply Hh; [by left|done].
Qed.

Lemma CInv_settled U F st v v' :
  CInv U F st -> copy_of h0 reg F (c_heap st) v v' -> settled (c_heap st) v'.
Proof.
  intros HI [Hp|(b & -> & Hb)]%copy_of_inv.
  - by destruct v'.
  - destruct (ci_F _ _ _ HI b Hb) as (_ & o & Ho & Hf). by exists o.
Qed.

(** The copy at a given fuel: pure data is copied to a value of which it
    is a copy, and what was in the heap stays as it was. *)
Definition copies_at (f : nat) : Prop :=
  forall n v st U F,
    n < f ->
    pure_data n h0 reg v = true ->
    (forall u, u ∈ U -> pure_data n h0 reg (VObject u) = false) ->
    CInv U F st ->
    exists v' st' F',
      pureCopy f reg v st = Copied (v', st') /\
      CInv U F' st' /\ F ⊆ F' /\
      copy_of h0 reg F' (c_heap st') v v' /\
      cframe st st'.

Lemma copy_fields f (o : object) (obj n : nat) (U : gset nat) :
  copies_at f -> n < f ->
  (forall u, u ∈ U -> pure_data n h0 reg (VObject u) = false) ->
  length h0 <= obj ->
  forall entries done st F,
    (forall name v, (name, v) ∈ entries ->
       v = get h0 o (KStr name) /\ pure_data n h0 reg v = true) ->
    CInv U F st ->
    c_heap st !! obj = Some (record_object done) ->
    NoDup (map fst done ++ map fst entries) ->
    "__proto__" ∉ map fst entries ->
    (forall name v', (name, v') ∈ done ->
       copy_of h0 reg F (c_heap st) (get h0 o (KStr name)) v') ->
    exists st' F' fields,
      copy_entries (pureCopy f reg) obj entries st = Copied st' /\
      CInv U F' st' /\ F ⊆ F' /\ cframe_but obj st st' /\
      c_heap st' !! obj = Some (record_object fields) /\
      map fst fields ≡ₚ map fst done ++ map fst entries /\
      (forall name v', (name, v') ∈ fields ->
         copy_of h0 reg F' (c_heap st') (get h0 o (KStr name)) v').
Proof.
  intros Hsim Hn HU Hobj. induction entries as [|[name val] entries IH];
    intros done st F Hent HI Hheap Hnd Hproto Hdone.
  - exists st, F, done. simpl. rewrite app_nil_r. split_and!; try done.
  - destruct (Hent name val) as [Hval Hpure]; [apply list_elem_of_here|].
    destruct (Hsim n val st U F Hn Hpure HU HI)
      as (v1 & st1 & F1 & Hc1 & HI1 & HF1 & Hco1 & Hfr1).
    pose proof (cf_heap _ _ Hfr1 _ _ Hheap) as Hheap1.
    simpl in Hnd, Hproto.
    assert (name <> "__proto__") as Hname.
    { intros ->. apply Hproto. apply list_elem_of_here. }
    assert (name ∉ map fst done) as Hnew.
    { intros Hin. apply NoDup_app in Hnd as (_ & Hnd & _).
      apply (Hnd name Hin). apply list_elem_of_here. }
    pose proof (assign_entry_record _ _ _ name v1 Hheap1 Hname Hnew) as Hassign.
    set (done' := ordered_insert string_rank name v1 done) in *.
    set (st2 := {| c_heap := <[obj := record_object done']> (c_heap st1);
                   already := already st1 |}).
    assert (forall b, b ∈ F1 \/ b < length h0 -> b <> obj) as Hother.
    { intros b [Hb|Hb] ->; [|lia].
      destruct (ci_F _ _ _ HI1 obj Hb) as (_ & ob & Hob & Hf).
      rewrite Hheap1 in Hob. by injection Hob as <-. }
    assert (CInv U F1 st2) as HI2.
    { apply (CInv_heap _ _ st1); try done.
      - simpl. by rewrite length_insert.
      - intros b ob Hb Hob. simpl. rewrite list_lookup_insert_ne; [done|].
        intros <-. by apply (Hother obj). }
    assert (done' ≡ₚ (name, v1) :: done) as Hperm by apply ordered_insert_perm.
    destruct (IH done' st2 F1) as (st' & F' & fields & Hc' & HI' & HF' & Hfr' & Hheap' & Hfs & Hco').
    { intros name' v Hin. apply Hent. by apply list_elem_of_further. }
    { done. }
    { simpl. apply list_lookup_insert_eq. by apply lookup_lt_Some in Hheap1. }
    { rewrite Hperm. simpl. by rewrite <- Permutation_middle in Hnd. }
    { intros Hin. apply Hproto. by apply list_elem_of_further. }
    { intros name' v' Hin. rewrite Hperm in Hin.
      assert (copy_of h0 reg F1 (c_heap st1) (get h0 o (KStr name')) v') as Hc.
      { apply elem_of_cons in Hin as [[= -> ->]|Hin]; [by rewrite <- Hval|].
        apply copy_of_mono with F; [|done].
        apply (copy_of_kept _ (c_heap st)); [by apply Hdone|].
        intros b ob _ Hob. by apply (cf_heap _ _ Hfr1). }
      apply (copy_of_kept _ _ _ _ _ Hc). intros b ob Hb Hob. simpl.
      rewrite list_lookup_insert_ne; [done|]. intros <-. apply (Hother obj); [by left|done]. }
    exists st', F', fields. split.
    { cbn [copy_entries]. rewrite Hc1. cbn [copied_bind fst snd]. rewrite Hassign.
      done. }
    split; [done|]. split; [set_solver|]. split.
    { split.
      - intros b ob Hb Hob. apply (cb_heap _ _ _ Hfr'); [done|]. simpl.
        rewrite list_lookup_insert_ne by done. by apply (cf_heap _ _ Hfr1).
      - etrans; [apply (cf_already _ _ Hfr1)|apply (cb_already _ _ _ Hfr')]. }
    split; [done|]. split; [|done].
    rewrite Hfs, Hperm. simpl. by rewrite <- Permutation_middle.
Qed.

Lemma copy_elements f (obj n : nat) (U : gset nat) :
  copies_at f -> n < f ->
  (forall u, u ∈ U -> pure_data n h0 reg (VObject u) = false) ->
  length h0 <= obj ->
  forall elems pre done st F i,
    i = length done ->
    Forall (fun e => exists v, e = Some (DataProp v true)) elems ->
    (forall d, Some d ∈ elems -> pure_data n h0 reg (prop_get d) = true) ->
    CInv U F st ->
    c_heap st !! obj = Some (array_object done) ->
    (N.of_nat (i + length elems) <= 4294967295)%N ->
    Forall2 (fun e v' => exists d, e = Some d /\
               copy_of h0 reg F (c_heap st) (prop_get d) v') pre done ->
    exists st' F' vs,
      copy_entries (pureCopy f reg) obj (omap entry_of (indexed_from i elems)) st
        = Copied st' /\
      CInv U F' st' /\ F ⊆ F' /\ cframe_but obj st st' /\
      c_heap st' !! obj = Some (array_object (done ++ vs)) /\
      Forall2 (fun e v' => exists d, e = Some d /\
                 copy_of h0 reg F' (c_heap st') (prop_get d) v')
        (pre ++ elems) (done ++ vs).
Proof.
  intros Hsim Hn HU Hobj. induction elems as [|e elems IH];
    intros pre done st F i Hi Hsome Hpure HI Hheap Hlen Hdone.
  - exists st, F, []. simpl. rewrite !app_nil_r. split_and!; try done.
  - apply Forall_cons in Hsome as [[v ->] Hsome].
    cbn [indexed_from omap list_omap fst snd desc_enumerable prop_get].
    assert (pure_data n h0 reg v = true) as Hv
      by apply (Hpure (DataProp v true)), list_elem_of_here.
    destruct (Hsim n v st U F Hn Hv HU HI)
      as (v1 & st1 & F1 & Hc1 & HI1 & HF1 & Hco1 & Hfr1).
    pose proof (cf_heap _ _ Hfr1 _ _ Hheap) as Hheap1.
    assert (assign_entry obj (string_of_nat i) v1 (c_heap st1)
            = Copied (<[obj := array_object (done ++ [v1])]> (c_heap st1))) as Hassign.
    { subst i. apply assign_entry_array; [done|]. simpl in Hlen. lia. }
    set (st2 := {| c_heap := <[obj := array_object (done ++ [v1])]> (c_heap st1);
                   already := already st1 |}).
    assert (forall b, b ∈ F1 \/ b < length h0 -> b <> obj) as Hother.
    { intros b [Hb|Hb] ->; [|lia].
      destruct (ci_F _ _ _ HI1 obj Hb) as (_ & ob & Hob & Hf).
      rewrite Hheap1 in Hob. by injection Hob as <-. }
    assert (CInv U F1 st2) as HI2.
    { apply (CInv_heap _ _ st1); try done.
      - simpl. by rewrite length_insert.
      - intros b ob Hb Hob. simpl. rewrite list_lookup_insert_ne; [done|].
        intros <-. by apply (Hother obj). }
    destruct (IH (pre ++ [Some (DataProp v true)]) (done ++ [v1]) st2 F1 (S i))
      as (st' & F' & vs & Hc' & HI' & HF' & Hfr' & Hheap' & Hco').
    { rewrite length_app. simpl. lia. }
    { done. }
    { intros d' Hd'. apply Hpure. by apply list_elem_of_further. }
    { done. }
    { simpl. apply list_lookup_insert_eq. by apply lookup_lt_Some in Hheap1. }
    { simpl in Hlen. lia. }
    { assert (forall b ob, b ∈ F1 -> c_heap st1 !! b = Some ob ->
                c_heap st2 !! b = Some ob) as Hkeep.
      { intros b ob Hb Hob. simpl. rewrite list_lookup_insert_ne; [done|].
        intros <-. apply (Hother obj); [by left|done]. }
      apply Forall2_app.
      - eapply Forall2_impl; [exact Hdone|]. intros e' v' (d' & -> & Hcd).
        exists d'. split; [done|].
        apply (copy_of_kept _ (c_heap st1)); [|done].
        apply copy_of_mono with F; [|done].
        apply (copy_of_kept _ (c_heap st)); [done|].
        intros b ob _ Hob. by apply (cf_heap _ _ Hfr1).
      - apply Forall2_cons. split; [|apply Forall2_nil_2].
        exists (DataProp v true). split; [done|].
        by apply (copy_of_kept _ (c_heap st1)). }
    exists st', F', (v1 :: vs). split.
    { cbn [copy_entries]. rewrite Hc1. cbn [copied_bind fst snd]. rewrite Hassign.
      done. }
    split; [done|]. split; [set_solver|]. split.
    { split.
      - intros b ob Hb Hob. apply (cb_heap _ _ _ Hfr'); [done|]. simpl.
        rewrite list_lookup_insert_ne by done. by apply (cf_heap _ _ Hfr1).
      - etrans; [apply (cf_already _ _ Hfr1)|apply (cb_already _ _ _ Hfr')]. }
    split; [by rewrite <- app_assoc in Hheap'|].
    by rewrite <- !app_assoc in Hco'.
Qed.

(** An object that [pureCopy] is given. *)
Lemma copies_object f :
  copies_at f ->
  forall n a st U F,
    n < S f ->
    pure_data n h0 reg (VObject a) = true ->
    (forall u, u ∈ U -> pure_data n h0 reg (VObject u) = false) ->
    CInv U F st ->
    exists v' st' F',
      pureCopy (S f) reg (VObject a) st = Copied (v', st') /\
      CInv U F' st' /\ F ⊆ F' /\
      copy_of h0 reg F' (c_heap st') (VObject a) v' /\
      cframe st st'.
Proof.
  intros Hsim. induction n as [|n IHn]; intros a st U F Hn Hp HU HI; [done|].
  destruct (pure_data n h0 reg (VObject a)) eqn:Hmin.
  { eapply IHn; try done; [lia|]. intros u Hu. specialize (HU u Hu).
    destruct (pure_data n h0 reg (VObject u)) eqn:E; [|done].
    apply (pure_data_mono _ _ _ (S n)) in E; [congruence|lia]. }
  assert (forall u, u ∈ U ∪ {[a]} -> pure_data n h0 reg (VObject u) = false) as HU'.
  { intros u [Hu| ->%elem_of_singleton]%elem_of_union; [|done]. specialize (HU u Hu).
    destruct (pure_data n h0 reg (VObject u)) eqn:E; [|done].
    apply (pure_data_mono _ _ _ (S n)) in E; [congruence|lia]. }
  assert (n < f) as Hn' by lia.
  assert (forall v', already st !! a = Some v' ->
            copy_of h0 reg F (c_heap st) (VObject a) v') as Hknown.
  { intros v' Hv'. destruct (ci_already _ _ _ HI a v' Hv') as [Hu|?]; [|done].
    apply HU in Hu. congruence. }
  cbn [pure_data] in Hp.
  destruct (passStyleOf h0 reg (VObject a)) as [ps| |] eqn:Hps; [|done|done].
  destruct (h0 !! a) as [o|] eqn:Ho; [|by destruct ps].
  pose proof (ci_source _ _ _ HI a o Ho) as Hcur.
  pose proof (ci_length _ _ _ HI) as Hobj.
  assert (forall b ob, c_heap st !! b = Some ob -> b <> length (c_heap st)) as Hold.
  { intros b ob Hb%lookup_lt_Some. lia. }
  destruct ps; try done.
  - (* a record *)
    apply andb_true_iff in Hp as [[Hplain Hsym]%andb_true_iff Hfields].
    rewrite forallb_elem_of in Hfields.
    unfold plain_names in Hplain.
    apply andb_true_iff in Hplain as [[Hnd Hproto]%andb_true_iff _].
    apply bool_decide_eq_true in Hnd, Hproto.
    destruct (copyRecord_inv _ _ _ _ Ho Hps) as (Hclass & Hpr & Hq & Hown).
    pose proof (copyRecord_plain _ _ _ _ Ho Hps) as Hall.
    assert (passStyleOf (c_heap st) reg (VObject a) = Ok PScopyRecord) as Hps'.
    { by rewrite (passStyleOf_intrinsic_proto h0 (c_heap st) reg a o ObjectPrototype). }
    cbn [pureCopy]. rewrite Hps'. cbn [called copied_bind].
    destruct (already st !! a) as [v'|] eqn:Hal.
    { exists v', st, F. split_and!; [done|done|done|by apply Hknown|by split]. }
    cbv zeta. rewrite decide_False by done.
    set (obj := length (c_heap st)) in *.
    set (st1 := {| c_heap := c_heap st ++ [new_object];
                   already := <[a := VObject obj]> (already st) |}).
    assert (Object_entries (c_heap st1) (VObject a)
            = Ok (map (fun kd => (fst kd, prop_get (snd kd))) (own_string_entries o)))
      as Hentries.
    { simpl. rewrite lookup_app_l by (by apply lookup_lt_Some in Hcur).
      rewrite Hcur. by rewrite entries_plain. }
    rewrite Hentries. cbn [called copied_bind].
    assert (CInv (U ∪ {[a]}) F st1) as HI1.
    { split; simpl.
      - rewrite length_app. lia.
      - intros a' o' Ho'. apply lookup_app_l_Some. by apply (ci_source _ _ _ HI).
      - intros b Hb. destruct (ci_F _ _ _ HI b Hb) as (Hlb & ob & Hob & Hf).
        split; [done|]. exists ob. split; [by apply lookup_app_l_Some|done].
      - intros a' v'. rewrite lookup_insert_Some.
        intros [[<- <-]|[Hne Hav]]; [left; set_solver|].
        destruct (ci_already _ _ _ HI a' v' Hav) as [?|Hc]; [left; set_solver|right].
        apply (copy_of_kept _ _ _ _ _ Hc). intros b ob _ Hob.
        by apply lookup_app_l_Some. }
    destruct (copy_fields f o obj n (U ∪ {[a]}) Hsim Hn' HU' Hobj
                (map (fun kd => (fst kd, prop_get (snd kd))) (own_string_entries o))
                [] st1 F)
      as (st2 & F2 & fields & Hc2 & HI2 & HF2 & Hfr2 & Hheap2 & Hfs & Hco2).
    { intros name v Hin.
      apply list_elem_of_fmap in Hin as ([name' d] & [= -> ->] & Hin). simpl.
      assert (get h0 o (KStr name') = prop_get d) as Hget.
      { unfold get, lookup_property. rewrite own_property_ordinary by done.
        rewrite <- assoc_string_keyed, <- own_string_entries_ordinary by done.
        by rewrite (assoc_lookup_NoDup name' d (own_string_entries o) Hnd Hin). }
      rewrite <- Hget. split; [done|]. apply Hfields.
      apply list_elem_of_fmap. by exists (name', d). }
    { done. }
    { simpl. by apply list_lookup_middle. }
    { simpl. rewrite map_map. exact Hnd. }
    { rewrite map_map. exact Hproto. }
    { by intros name v' ?%elem_of_nil. }
    rewrite Hc2. cbn [copied_bind].
    simpl in Hfs. rewrite map_map in Hfs. simpl in Hfs.
    assert (harden (VObject obj) (c_heap st2)
            = <[obj := freeze (record_object fields)]> (c_heap st2)) as Hharden.
    { apply (harden_copy _ _ _ ObjectPrototype); try done.
      - intros [k d] Hkd. simpl in Hkd.
        apply list_elem_of_fmap in Hkd as ([name v'] & [= -> ->] & Hin). simpl.
        eapply CInv_settled; [exact HI2|]. by apply Hco2.
      - by intros d ?%elem_of_nil. }
    rewrite Hharden.
    set (st3 := {| c_heap := <[obj := freeze (record_object fields)]> (c_heap st2);
                   already := already st2 |}).
    assert (obj ∉ F2) as HobjF.
    { intros Hb. destruct (ci_F _ _ _ HI2 obj Hb) as (_ & ob & Hob & Hf).
      rewrite Hheap2 in Hob. by injection Hob as <-. }
    assert (forall v v', copy_of h0 reg F2 (c_heap st2) v v' ->
              copy_of h0 reg (F2 ∪ {[obj]}) (c_heap st3) v v') as Hlift.
    { intros v v' Hc. apply copy_of_mono with F2; [|set_solver].
      apply (copy_of_kept _ _ _ _ _ Hc). intros b ob Hb Hob. simpl.
      rewrite list_lookup_insert_ne; [done|]. by intros <-. }
    assert (copy_of h0 reg (F2 ∪ {[obj]}) (c_heap st3) (VObject a) (VObject obj)) as Hcopy.
    { apply (copy_record _ _ _ _ a obj o (freeze (record_object fields)) fields);
        try done.
      - set_solver.
      - simpl. apply list_lookup_insert_eq. by apply lookup_lt_Some in Hheap2.
      - by rewrite Hfs.
      - intros name v' Hin. apply Hlift. by apply Hco2. }
    exists (VObject obj), st3, (F2 ∪ {[obj]}). split; [done|]. split.
    { split; simpl.
      - rewrite length_insert. apply (ci_length _ _ _ HI2).
      - intros a' o' Ho'. rewrite list_lookup_insert_ne.
        + by apply (ci_source _ _ _ HI2).
        + apply lookup_lt_Some in Ho'. lia.
      - intros b [Hb| ->%elem_of_singleton]%elem_of_union.
        + destruct (ci_F _ _ _ HI2 b Hb) as (Hlb & ob & Hob & Hf). split; [done|].
          exists ob. split; [|done]. rewrite list_lookup_insert_ne; [done|].
          by intros <-.
        + split; [done|]. exists (freeze (record_object fields)). split; [|done].
          apply list_lookup_insert_eq. by apply lookup_lt_Some in Hheap2.
      - intros a' v' Hav. destruct (ci_already _ _ _ HI2 a' v' Hav) as [Hu|Hc].
        + apply elem_of_union in Hu as [?| ->%elem_of_singleton]; [by left|right].
          assert (already st2 !! a = Some (VObject obj)) as Ha2.
          { apply (lookup_weaken (already st1)); [|apply (cb_already _ _ _ Hfr2)].
            simpl. apply lookup_insert_eq. }
          rewrite Ha2 in Hav. by injection Hav as <-.
        + right. by apply Hlift. }
    split; [set_solver|]. split; [done|]. split.
    + intros b ob Hb. simpl. rewrite list_lookup_insert_ne by (apply not_eq_sym; by eapply Hold).
      apply (cb_heap _ _ _ Hfr2); [by eapply Hold|]. simpl.
      by apply lookup_app_l_Some.
    + simpl. etrans; [|apply (cb_already _ _ _ Hfr2)]. simpl.
      by apply insert_subseteq.
  - (* an array *)
    rewrite forallb_elem_of in Hp.
    destruct (copyArray_inv _ _ _ _ Ho Hps) as (Hclass & Helems).
    destruct (copyArray_plain _ _ _ _ Ho Hps) as (Hpr & Hprops).
    assert (passStyleOf (c_heap st) reg (VObject a) = Ok PScopyArray) as Hps'.
    { by rewrite (passStyleOf_intrinsic_proto h0 (c_heap st) reg a o ArrayPrototype). }
    cbn [pureCopy]. rewrite Hps'. cbn [called copied_bind].
    destruct (already st !! a) as [v'|] eqn:Hal.
    { exists v', st, F. split_and!; [done|done|done|by apply Hknown|by split]. }
    cbv zeta. rewrite decide_True by done.
    set (obj := length (c_heap st)) in *.
    set (st1 := {| c_heap := c_heap st ++ [new_array];
                   already := <[a := VObject obj]> (already st) |}).
    assert (Object_entries (c_heap st1) (VObject a)
            = Ok (omap entry_of (indexed_from 0 (o_elems o)))) as Hentries.
    { simpl. rewrite lookup_app_l by (by apply lookup_lt_Some in Hcur).
      rewrite Hcur. unfold own_string_entries. rewrite Hclass, Hprops.
      rewrite omap_app. simpl. by rewrite app_nil_r. }
    rewrite Hentries. cbn [called copied_bind].
    assert (CInv (U ∪ {[a]}) F st1) as HI1.
    { split; simpl.
      - rewrite length_app. lia.
      - intros a' o' Ho'. apply lookup_app_l_Some. by apply (ci_source _ _ _ HI).
      - intros b Hb. destruct (ci_F _ _ _ HI b Hb) as (Hlb & ob & Hob & Hf).
        split; [done|]. exists ob. split; [by apply lookup_app_l_Some|done].
      - intros a' v'. rewrite lookup_insert_Some.
        intros [[<- <-]|[Hne Hav]]; [left; set_solver|].
        destruct (ci_already _ _ _ HI a' v' Hav) as [?|Hc]; [left; set_solver|right].
        apply (copy_of_kept _ _ _ _ _ Hc). intros b ob _ Hob.
        by apply lookup_app_l_Some. }
    assert ((N.of_nat (length (o_elems o)) <= 4294967295)%N) as Hlen.
    { unfold arrays_bounded in Hbound. rewrite forallb_elem_of in Hbound.
      apply N.leb_le. apply (Hbound o). by eapply list_elem_of_lookup_2. }
    destruct (copy_elements f obj n (U ∪ {[a]}) Hsim Hn' HU' Hobj
                (o_elems o) [] [] st1 F 0)
      as (st2 & F2 & vs & Hc2 & HI2 & HF2 & Hfr2 & Hheap2 & Hco2).
    { done. }
    { eapply Forall_impl; [exact Helems|]. intros e (v & -> & _). eauto. }
    { intros d Hd. by apply (Hp (Some d)). }
    { done. }
    { simpl. by apply list_lookup_middle. }
    { done. }
    { apply Forall2_nil_2. }
    rewrite Hc2. cbn [copied_bind]. simpl in Hheap2, Hco2.
    assert (harden (VObject obj) (c_heap st2)
            = <[obj := freeze (array_object vs)]> (c_heap st2)) as Hharden.
    { apply (harden_copy _ _ _ ArrayPrototype); try done.
      - by intros kd ?%elem_of_nil.
      - intros d Hd. simpl in Hd.
        apply list_elem_of_fmap in Hd as (v' & [= ->] & Hin). simpl.
        apply list_elem_of_lookup in Hin as [i Hi].
        destruct (Forall2_lookup_r _ _ _ _ _ Hco2 Hi) as (e & _ & d & _ & Hc).
        by eapply CInv_settled. }
    rewrite Hharden.
    set (st3 := {| c_heap := <[obj := freeze (array_object vs)]> (c_heap st2);
                   already := already st2 |}).
    assert (obj ∉ F2) as HobjF.
    { intros Hb. destruct (ci_F _ _ _ HI2 obj Hb) as (_ & ob & Hob & Hf).
      rewrite Hheap2 in Hob. by injection Hob as <-. }
    assert (forall v v', copy_of h0 reg F2 (c_heap st2) v v' ->
              copy_of h0 reg (F2 ∪ {[obj]}) (c_heap st3) v v') as Hlift.
    { intros v v' Hc. apply copy_of_mono with F2; [|set_solver].
      apply (copy_of_kept _ _ _ _ _ Hc). intros b ob Hb Hob. simpl.
      rewrite list_lookup_insert_ne; [done|]. by intros <-. }
    assert (copy_of h0 reg (F2 ∪ {[obj]}) (c_heap st3) (VObject a) (VObject obj)) as Hcopy.
    { apply (copy_array _ _ _ _ a obj o (freeze (array_object vs)) vs); try done.
      - set_solver.
      - simpl. apply list_lookup_insert_eq. by apply lookup_lt_Some in Hheap2.
      - symmetry. by eapply Forall2_length.
      - intros i d v' Hd Hv'.
        destruct (Forall2_lookup_lr _ _ _ _ _ _ Hco2 Hd Hv') as (d' & [= <-] & Hc).
        by apply Hlift. }
    exists (VObject obj), st3, (F2 ∪ {[obj]}). split; [done|]. split.
    { split; simpl.
      - rewrite length_insert. apply (ci_length _ _ _ HI2).
      - intros a' o' Ho'. rewrite list_lookup_insert_ne.
        + by apply (ci_source _ _ _ HI2).
        + apply lookup_lt_Some in Ho'. lia.
      - intros b [Hb| ->%elem_of_singleton]%elem_of_union.
        + destruct (ci_F _ _ _ HI2 b Hb) as (Hlb & ob & Hob & Hf). split; [done|].
          exists ob. split; [|done]. rewrite list_lookup_insert_ne; [done|].
          by intros <-.
        + split; [done|]. exists (freeze (array_object vs)). split; [|done].
          apply list_lookup_insert_eq. by apply lookup_lt_Some in Hheap2.
      - intros a' v' Hav. destruct (ci_already _ _ _ HI2 a' v' Hav) as [Hu|Hc].
        + apply elem_of_union in Hu as [?| ->%elem_of_singleton]; [by left|right].
          assert (already st2 !! a = Some (VObject obj)) as Ha2.
          { apply (lookup_weaken (already st1)); [|apply (cb_already _ _ _ Hfr2)].
            simpl. apply lookup_insert_eq. }
          rewrite Ha2 in Hav. by injection Hav as <-.
        + right. by apply Hlift. }
    split; [set_solver|]. split; [done|]. split.
    + intros b ob Hb. simpl. rewrite list_lookup_insert_ne by (apply not_eq_sym; by eapply Hold).
      apply (cb_heap _ _ _ Hfr2); [by eapply Hold|]. simpl.
      by apply lookup_app_l_Some.
    + simpl. etrans; [|apply (cb_already _ _ _ Hfr2)]. simpl.
      by apply insert_subseteq.
  - (* an error *)
    destruct (copyError_inv _ _ _ _ Ho Hps) as (EC & message & Hpr & Hclass & Hname & Hmsg).
    assert (passStyleOf (c_heap st) reg (VObject a) = Ok PScopyError) as Hps'.
    { by rewrite (passStyleOf_intrinsic_proto h0 (c_heap st) reg a o (ErrorPrototype EC)). }
    cbn [pureCopy]. rewrite Hps'. cbn [called copied_bind].
    destruct (already st !! a) as [v'|] eqn:Hal.
    { exists v', st, F. split_and!; [done|done|done|by apply Hknown|by split]. }
    rewrite Hcur. cbv zeta.
    rewrite !(get_shape_intrinsic (c_heap st) h0 o o _ _ (same_shape_refl o) Hpr).
    rewrite Hname, Hmsg. cbn [to_string]. rewrite getErrorConstructor_errclass_name.
    set (obj := length (c_heap st)) in *.
    set (st1 := {| c_heap := c_heap st ++ [new_error EC message];
                   already := <[a := VObject obj]> (already st) |}).
    assert (forall v v', copy_of h0 reg F (c_heap st) v v' ->
              copy_of h0 reg (F ∪ {[obj]}) (c_heap st1) v v') as Hlift.
    { intros v v' Hc. apply copy_of_mono with F; [|set_solver].
      apply (copy_of_kept _ _ _ _ _ Hc). intros b ob Hb Hob. simpl.
      by apply lookup_app_l_Some. }
    assert (copy_of h0 reg (F ∪ {[obj]}) (c_heap st1) (VObject a) (VObject obj)) as Hcopy.
    { apply (copy_error _ _ _ _ a obj o (new_error EC message) EC message); try done.
      - set_solver.
      - simpl. by apply list_lookup_middle. }
    exists (VObject obj), st1, (F ∪ {[obj]}). split; [done|]. split.
    { split; simpl.
      - rewrite length_app. lia.
      - intros a' o' Ho'. apply lookup_app_l_Some. by apply (ci_source _ _ _ HI).
      - intros b [Hb| ->%elem_of_singleton]%elem_of_union.
        + destruct (ci_F _ _ _ HI b Hb) as (Hlb & ob & Hob & Hf). split; [done|].
          exists ob. split; [by apply lookup_app_l_Some|done].
        + split; [done|]. exists (new_error EC message). split; [|done].
          by apply list_lookup_middle.
      - intros a' v'. rewrite lookup_insert_Some.
        intros [[<- <-]|[Hne Hav]]; [by right|].
        destruct (ci_already _ _ _ HI a' v' Hav) as [?|Hc]; [by left|right].
        by apply Hlift. }
    split; [set_solver|]. split; [done|]. split.
    + intros b ob Hb. simpl. by apply lookup_app_l_Some.
    + simpl. by apply insert_subseteq.
Qed.

Lemma copies_at_all f : copies_at f.
Proof.
  induction f as [|f IH]; intros n v st U F Hn Hp HU HI; [lia|].
  destruct v as [| |b|num|z|s|y|g|a];
    try (exists v, st, F; split_and!; [done|done|done|by constructor|by split]).
  - exists VUndefined, st, F. split_and!; [done|done|done|by constructor|by split].
  - exists VNull, st, F. split_and!; [done|done|done|by constructor|by split].
  - exists (VBool b), st, F. split_and!; [done|done|done|by constructor|by split].
  - exists (VNumber num), st, F. split_and!; [done|done|done|by constructor|by split].
  - exists (VBigInt z), st, F. split_and!; [done|done|done|by constructor|by split].
  - exists (VString s), st, F. split_and!; [done|done|done|by constructor|by split].
  - exists (VSymbol y), st, F. split_and!; [done|done|done|by constructor|by split].
  - by destruct n.
  - by apply (copies_object f IH n).
Qed.

End PureCopy.

(** *** The depth of pure data *)

Lemma forallb_false {A} (f : A -> bool) (l : list A) :
  forallb f l = false -> exists x, x ∈ l /\ f x = false.
Proof.
  induction l as [|x l IH]; [done|]. simpl. destruct (f x) eqn:Hx.
  - intros (y & Hy & Hfy)%IH. exists y. split; [by apply list_elem_of_further|done].
  - intros _. exists x. split; [apply list_elem_of_here|done].
Qed.

Lemma pure_data_deeper h reg n v :
  pure_data (S n) h reg v = true -> pure_data n h reg v = false ->
  exists a, v = VObject a.
Proof. destruct v; destruct n; simpl; eauto; congruence. Qed.

(** Pure data that is not nested less than [S n] deep holds a chain of
    [S n] different objects. *)
Lemma pure_data_chain h reg : forall n a,
  pure_data (S n) h reg (VObject a) = true ->
  pure_data n h reg (VObject a) = false ->
  exists l : list nat,
    length l = S n /\ NoDup l /\
    forall x, x ∈ l -> x < length h /\ pure_data (S n) h reg (VObject x) = true.
Proof.
  induction n as [|m IH]; intros a Hp Hmin.
  - exists [a]. split; [done|]. split; [apply NoDup_singleton|].
    intros x ->%list_elem_of_singleton. split; [|done].
    simpl in Hp. destruct (passStyleOf h reg (VObject a)) as [ps| |]; try done.
    destruct (h !! a) as [o|] eqn:Ho; [|by destruct ps].
    by apply lookup_lt_Some in Ho.
  - assert (exists c, pure_data (S m) h reg (VObject c) = true /\
                      pure_data m h reg (VObject c) = false) as (c & Hc & Hcmin).
    { remember (S m) as k eqn:Hk in Hp. cbn [pure_data] in Hp.
      cbn [pure_data] in Hmin. subst k.
      destruct (passStyleOf h reg (VObject a)) as [ps| |]; try done.
      destruct (h !! a) as [o|]; [|by destruct ps]. destruct ps; try done.
      - apply andb_true_iff in Hp as [Hp1 Hp2]. rewrite Hp1 in Hmin. simpl in Hmin.
        apply forallb_false in Hmin as (name & Hin & Hf).
        rewrite forallb_elem_of in Hp2. specialize (Hp2 name Hin).
        destruct (pure_data_deeper _ _ _ _ Hp2 Hf) as [c Hcv]. rewrite Hcv in *.
        by exists c.
      - apply forallb_false in Hmin as ([d|] & Hin & Hf); [|done].
        rewrite forallb_elem_of in Hp. specialize (Hp (Some d) Hin). simpl in Hp.
        destruct (pure_data_deeper _ _ _ _ Hp Hf) as [c Hcv]. rewrite Hcv in *.
        by exists c. }
    destruct (IH c Hc Hcmin) as (l & Hlen & Hnd & Hall).
    exists (a :: l). split; [by rewrite length_cons, Hlen|]. split.
    + apply NoDup_cons. split; [|done]. intros Hin.
      destruct (Hall a Hin) as [_ Ha]. congruence.
    + intros x [->|Hin]%elem_of_cons.
      * split; [|done]. cbn [pure_data] in Hp.
        destruct (passStyleOf h reg (VObject a)) as [ps| |]; try done.
        destruct (h !! a) as [o|] eqn:Ho; [|by destruct ps].
        by apply lookup_lt_Some in Ho.
      * destruct (Hall x Hin) as [Hx Hpx]. split; [done|].
        apply (pure_data_mono _ _ (S m)); [done|lia].
Qed.

Lemma pure_data_least h reg v : forall n,
  pure_data n h reg v = true ->
  exists m, m <= n /\ pure_data m h reg v = true /\
    forall k, k < m -> pure_data k h reg v = false.
Proof.
  induction n as [|n IH]; intros Hp.
  - exists 0. split; [done|]. split; [done|]. intros k Hk. lia.
  - destruct (pure_data n h reg v) eqn:Hn.
    + destruct (IH eq_refl) as (m & Hm & Hpm & Hleast). exists m. split; [lia|done].
    + exists (S n). split; [done|]. split; [done|]. intros k Hk.
      destruct (pure_data k h reg v) eqn:Hpk; [|done].
      apply (pure_data_mono _ _ _ n) in Hpk; [congruence|lia].
Qed.

(** Pure data is nested no deeper than the heap has objects. *)
Lemma pure_data_depth h reg n v :
  pure_data n h reg v = true -> pure_data (length h) h reg v = true.
Proof.
  intros Hp. destruct (pure_data_least _ _ _ _ Hp) as (m & _ & Hpm & Hleast).
  destruct m as [|m].
  - apply (pure_data_mono _ _ 0); [done|lia].
  - destruct (pure_data_deeper _ _ _ _ Hpm (Hleast m (Nat.lt_succ_diag_r m))) as [a ->].
    destruct (pure_data_chain _ _ _ _ Hpm (Hleast m (Nat.lt_succ_diag_r m)))
      as (l & Hlen & Hnd & Hall).
    apply (pure_data_mono _ _ (S m)); [done|]. rewrite <- Hlen.
    assert (length l <= length (seq 0 (length h))) as Hle.
    { apply submseteq_length, NoDup_submseteq; [done|]. intros x Hx.
      apply elem_of_seq. destruct (Hall x Hx) as [? _]. lia. }
    by rewrite length_seq in Hle.
Qed.

(** *** The parts of a copy *)

(** [part_of h v b]: the object [b] is [v] or is reached from [v] through
    own properties, elements and prototypes. *)
Inductive part_of (h : list object) : value -> nat -> Prop :=
  | part_here (b : nat) : part_of h (VObject b) b
  | part_prop (a b : nat) (o : object) (k : pkey) (d : prop) :
      h !! a = Some o -> (k, d) ∈ o_props o -> part_of h (desc_value d) b ->
      part_of h (VObject a) b
  | part_elem (a b : nat) (o : object) (d : prop) :
      h !! a = Some o -> Some d ∈ o_elems o -> part_of h (desc_value d) b ->
      part_of h (VObject a) b
  | part_proto (a b p : nat) (o : object) :
      h !! a = Some o -> o_proto o = PObject p -> part_of h (VObject p) b ->
      part_of h (VObject a) b.

Lemma copy_of_parts h0 reg F h v v' :
  copy_of h0 reg F h v v' -> forall b, part_of h v' b -> b ∈ F.
Proof.
  induction 1 as
    [v Hv
    |a b0 o o' fields Ho Hps Hb Ho' Hs Hnd Hperm _ IH
    |a b0 o o' elems Ho Hps Hb Ho' Hs Hlen _ IH
    |a b0 o o' EC message Ho Hps Hb Ho' Hs Hn Hm]; intros b Hpart.
  - inversion Hpart; by subst.
  - destruct Hs as (_ & Hpr & Hel & Hprops).
    inversion Hpart as [|? ? o2 k d Ho2 Hin Hrest|? ? o2 d Ho2 Hin Hrest
                        |? ? p o2 Ho2 Hp Hrest]; subst; try done;
      assert (o2 = o') as -> by congruence.
    + rewrite Hprops in Hin. simpl in Hin.
      apply list_elem_of_fmap in Hin as ([name v'] & [= -> ->] & Hin).
      by apply (IH name v').
    + rewrite Hel in Hin. simpl in Hin. by apply elem_of_nil in Hin.
    + by rewrite Hpr in Hp.
  - destruct Hs as (_ & Hpr & Hel & Hprops).
    destruct (copyArray_inv _ _ _ _ Ho Hps) as (_ & Hsome).
    inversion Hpart as [|? ? o2 k d Ho2 Hin Hrest|? ? o2 d Ho2 Hin Hrest
                        |? ? p o2 Ho2 Hp Hrest]; subst; try done;
      assert (o2 = o') as -> by congruence.
    + rewrite Hprops in Hin. simpl in Hin. by apply elem_of_nil in Hin.
    + rewrite Hel in Hin. simpl in Hin.
      apply list_elem_of_fmap in Hin as (v' & [= ->] & Hin).
      apply list_elem_of_lookup in Hin as [i Hi].
      destruct (lookup_lt_is_Some_2 (o_elems o) i) as [e He].
      { rewrite <- Hlen. by apply lookup_lt_Some in Hi. }
      rewrite Forall_forall in Hsome.
      destruct (Hsome e) as (v0 & -> & _); [by eapply list_elem_of_lookup_2|].
      by apply (IH i (DataProp v0 true) v').
    + by rewrite Hpr in Hp.
  - destruct Hs as (_ & Hpr & Hel & Hprops).
    inversion Hpart as [|? ? o2 k d Ho2 Hin Hrest|? ? o2 d Ho2 Hin Hrest
                        |? ? p o2 Ho2 Hp Hrest]; subst; try done;
      assert (o2 = o') as -> by congruence.
    + rewrite Hprops in Hin. simpl in Hin.
      apply list_elem_of_singleton in Hin as [= -> ->]. inversion Hrest.
    + rewrite Hel in Hin. simpl in Hin. by apply elem_of_nil in Hin.
    + by rewrite Hpr in Hp.
Qed.

(** ** pureCopy on pure data *)

(** X18.  [pureCopy] copies pure data: it returns, the value it returns has
    the structure of the value it was given, every object of the copy is a
    new object and is frozen, and the objects that were in the heap are as
    they were. *)
Theorem pureCopy_copies_pure_data (h : list object) (reg : gmap nat string)
    (n : nat) (root : value) :
  pure_data n h reg root = true ->
  arrays_bounded h = true ->
  exists v' h',
    pureCopy_of h reg root = Copied (v', h') /\
    sameStructure h' root v' /\
    (forall a o, h !! a = Some o -> h' !! a = Some o) /\
    (forall b, part_of h' v' b ->
       length h <= b /\ exists o, h' !! b = Some o /\ o_frozen o = true).
Proof.
  intros Hp Hbound. apply pure_data_depth in Hp.
  destruct (copies_at_all h reg Hbound (S (length h)) (length h) root
              {| c_heap := h; already := ∅ |} ∅ ∅)
    as (v' & st' & F' & Hc & HI' & _ & Hco & Hfr); [lia|done|set_solver| |].
  { split; simpl; [done|done|set_solver|]. by intros a v' ?%lookup_empty_Some. }
  exists v', (c_heap st'). split; [|split; [|split]].
  - unfold pureCopy_of. by rewrite Hc.
  - apply (copy_of_sameStructure h reg F' (c_heap st')); [done| |].
    + intros a o Ho. exists o. split; [|apply same_shape_refl].
      by apply (ci_source _ _ _ _ _ HI').
    + intros b o' Ho'. exists o'. split; [done|apply same_shape_refl].
  - apply (cf_heap _ _ Hfr).
  - intros b Hb. apply (ci_F _ _ _ _ _ HI'). by apply (copy_of_parts _ _ _ _ _ _ Hco).
Qed.

Lemma pureCopy_copies_pure_data_witness :
  exists v' h',
    pureCopy_of pure_heap ∅ (VObject 2) = Copied (v', h') /\
    sameStructure h' (VObject 2) v' /\
    (forall a o, pure_heap !! a = Some o -> h' !! a = Some o) /\
    (forall b, part_of h' v' b ->
       length pure_heap <= b /\ exists o, h' !! b = Some o /\ o_frozen o = true).
Proof. apply (pureCopy_copies_pure_data pure_heap ∅ 2 (VObject 2)); reflexivity. Defined.

(** A record in a cycle that passes through another object is not copied:
    hardening the copy of the inner object freezes the copy of the outer
    one, which then refuses the field. *)
Definition mutual_heap : list object :=
  [ plain_record [("inner", VObject 1)];
    plain_record [("outer", VObject 0)] ].

Lemma pureCopy_refuses_a_cycle_through_a_child :
  pureCopy_of mutual_heap ∅ (VObject 0) = CopyThrows AssignToFrozen.
Proof. vm_compute. reflexivity. Qed.

(** ** The copy is pure data *)

(** *** Sorting the names of a copy *)

Definition string_le (s1 s2 : string) : Prop := String.leb s1 s2 = true.

Lemma string_le_trans : Transitive string_le.
Proof.
  unfold string_le, String.leb. intros s1.
  induction s1 as [|c1 s1 IH]; intros [|c2 s2] [|c3 s3]; simpl; try done.
  unfold Ascii.compare.
  destruct (N.compare_spec (N_of_ascii c1) (N_of_ascii c2)) as [H12|H12|H12],
           (N.compare_spec (N_of_ascii c2) (N_of_ascii c3)) as [H23|H23|H23],
           (N.compare_spec (N_of_ascii c1) (N_of_ascii c3)) as [H13|H13|H13];
    try done; try lia.
  apply IH.
Qed.

Lemma string_le_antisym : AntiSymm (=) string_le.
Proof. intros s1 s2. apply String.leb_antisym. Qed.

Lemma sort_insert_sorted (s : string) (l : list string) :
  Sorted string_le l -> Sorted string_le (sort_insert s l).
Proof.
  induction 1 as [|s' l Hl IH Hhd]; simpl.
  - by repeat constructor.
  - destruct (String.leb s s') eqn:Hle.
    + by repeat constructor.
    + constructor; [done|].
      assert (string_le s' s) as Hs' by (by destruct (String.leb_total s s'); [congruence|]).
      destruct Hhd as [|s'' l' Hs'']; simpl; [by constructor|].
      destruct (String.leb s s''); by constructor.
Qed.

Lemma sort_strings_sorted (l : list string) : Sorted string_le (sort_strings l).
Proof.
  induction l as [|s l IH]; [constructor|]. simpl. by apply sort_insert_sorted.
Qed.

(** The sorted list of names depends on the names only, not on their
    order. *)
Lemma sort_strings_Permutation (l1 l2 : list string) :
  l1 ≡ₚ l2 -> sort_strings l1 = sort_strings l2.
Proof.
  intros Hp.
  apply (@Sorted_unique _ string_le string_le_trans string_le_antisym);
    [apply sort_strings_sorted..|].
  by rewrite !sort_strings_perm.
Qed.

(** *** The objects that pureCopy makes are classified as their
    originals *)

Lemma same_shape_frozen (o' o : object) :
  same_shape o' o -> o_frozen o' = true -> o' = freeze o.
Proof.
  destruct o' as [c p f e ps]. intros (Hc & Hp & He & Hps) Hf. simpl in *. by subst.
Qed.

Lemma string_keyed_record (fields : list (string * value)) :
  string_keyed (o_props (record_object fields))
  = map (fun kv => (fst kv, DataProp (snd kv) true)) fields.
Proof.
  unfold string_keyed, record_object. cbn [o_props].
  induction fields as [|[name v] fields IH]; [done|].
  cbn [map omap list_omap fst snd]. by f_equal.
Qed.

Lemma names_record (fields : list (string * value)) :
  getOwnPropertyNames (freeze (record_object fields)) = map fst fields.
Proof.
  unfold getOwnPropertyNames, own_string_entries. cbn [o_class freeze record_object].
  change (o_props (freeze (record_object fields)))
    with (o_props (record_object fields)).
  by rewrite string_keyed_record, map_map.
Qed.

Lemma symbol_keys_record (fields : list (string * value)) :
  symbol_keys (freeze (record_object fields)) = [].
Proof. unfold symbol_keys. simpl. by induction fields. Qed.

Lemma get_record (h : list object) (fields : list (string * value)) name v :
  NoDup (map fst fields) -> (name, v) ∈ fields ->
  get h (freeze (record_object fields)) (KStr name) = v.
Proof.
  intros Hnd Hin. unfold get, lookup_property. rewrite own_property_ordinary by done.
  change (o_props (freeze (record_object fields)))
    with (o_props (record_object fields)).
  by rewrite assoc_record_object, (assoc_lookup_NoDup name v fields Hnd Hin).
Qed.

Lemma copyRecord_named h reg a o :
  h !! a = Some o -> passStyleOf h reg (VObject a) = Ok PScopyRecord ->
  getOwnPropertyNames o <> [].
Proof.
  intros Ho Hps. apply passStyleOf_object_inv in Hps as [[_ ?]|(_ & o' & Ho' & Hq & _ & Hps)];
    [done|]. assert (o' = o) as -> by congruence.
  destruct Hps as [[_ ?]|[_ [[_ ?]|[_ [[_ ?]|[Harr [[Hrec _]|(_ & _ & ?)]]]]]]]; try done.
  apply isPassByCopyRecord_true in Hrec as (_ & Hne & _).
  unfold getOwnPropertyNames. by destruct (own_string_entries o).
Qed.

Lemma copy_of_not_function h0 reg F h v v' :
  copy_of h0 reg F h v v' -> is_function v' = false.
Proof. intros [Hp|(b & -> & _)]%copy_of_inv; [by destruct v'|done]. Qed.

Lemma pure_data_primitive h1 h2 reg n v :
  is_primitive v = true -> pure_data n h2 reg v = pure_data n h1 reg v.
Proof. by destruct v, n. Qed.

Lemma copy_of_pure h0 reg F h :
  (forall b, b ∈ F ->
     reg !! b = None /\ exists o, h !! b = Some o /\ o_frozen o = true) ->
  forall v v', copy_of h0 reg F h v v' ->
  forall n, pure_data n h0 reg v = true -> pure_data n h reg v' = true.
Proof.
  intros HF v v' Hc. induction Hc as
    [v Hv
    |a b o o' fields Ho Hps Hb Ho' Hs Hnd Hperm Hch IH
    |a b o o' elems Ho Hps Hb Ho' Hs Hlen Hch IH
    |a b o o' EC message Ho Hps Hb Ho' Hs Hn Hm]; intros n Hp.
  - by rewrite (pure_data_primitive h0 h).
  - destruct n as [|n]; [done|]. cbn [pure_data] in Hp. rewrite Hps, Ho in Hp.
    apply andb_true_iff in Hp as [[Hplain Hsym]%andb_true_iff Hfields].
    rewrite forallb_elem_of in Hfields.
    destruct (HF b Hb) as (Hreg & o2 & Ho2 & Hfr).
    assert (o2 = o') as -> by congruence.
    apply (same_shape_frozen _ _ Hs) in Hfr. subst o'.
    destruct (copyRecord_inv _ _ _ _ Ho Hps) as (_ & _ & Hq & _).
    assert (passStyleOf h reg (VObject b) = Ok PScopyRecord) as Hps'.
    { apply (copyRecord_shape_classified h reg b _ Ho'); [by rewrite Hreg|].
      split_and!; try done.
      - change (o_props (freeze (record_object fields)))
          with (o_props (record_object fields)).
        rewrite string_keyed_record. intros Hnil.
        apply (copyRecord_named _ _ _ _ Ho Hps).
        apply Permutation_nil_r. rewrite <- Hperm.
        apply fmap_nil_inv in Hnil. by rewrite Hnil.
      - change (o_props (freeze (record_object fields)))
          with (o_props (record_object fields)).
        rewrite string_keyed_record. apply Forall_forall. intros kd Hkd.
        apply list_elem_of_fmap in Hkd as ([name v'] & -> & Hin). simpl.
        exists v'. split; [done|]. eapply copy_of_not_function. by apply (Hch name).
      - apply assoc_None. simpl. rewrite map_map. simpl. intros Hin.
        apply list_elem_of_fmap in Hin as ([name v'] & [= Hname] & Hin). simpl in Hname.
        apply Hq. rewrite <- Hperm. apply list_elem_of_fmap. exists (name, v').
        by rewrite Hname. }
    cbn [pure_data]. rewrite Hps', Ho'. rewrite names_record, symbol_keys_record.
    apply andb_true_iff. split; [apply andb_true_iff; split; [|done]|].
    + unfold plain_names in *.
      apply andb_true_iff in Hplain as [[H1 H2]%andb_true_iff H3].
      apply bool_decide_eq_true in H2.
      rewrite (sort_strings_Permutation _ _ Hperm), H3.
      rewrite !bool_decide_eq_true_2; [done| |done]. by rewrite Hperm.
    + apply forallb_elem_of. intros name Hin.
      apply list_elem_of_fmap in Hin as ([name' v'] & -> & Hin). simpl.
      rewrite (get_record h fields name' v' Hnd Hin).
      apply (IH name' v' Hin). apply Hfields. rewrite <- Hperm.
      apply list_elem_of_fmap. by exists (name', v').
  - destruct n as [|n]; [done|]. cbn [pure_data] in Hp. rewrite Hps, Ho in Hp.
    rewrite forallb_elem_of in Hp.
    destruct (HF b Hb) as (Hreg & o2 & Ho2 & Hfr).
    assert (o2 = o') as -> by congruence.
    apply (same_shape_frozen _ _ Hs) in Hfr. subst o'.
    destruct (copyArray_inv _ _ _ _ Ho Hps) as (_ & Hsome).
    assert (passStyleOf h reg (VObject b) = Ok PScopyArray) as Hps'.
    { apply (copyArray_shape_classified h reg b _ Ho'); [by rewrite Hreg|].
      split_and!; try done. simpl. apply Forall_forall. intros e He.
      apply list_elem_of_fmap in He as (v' & -> & Hin). exists v'. split; [done|].
      apply list_elem_of_lookup in Hin as [i Hi].
      destruct (lookup_lt_is_Some_2 (o_elems o) i) as [e He].
      { rewrite <- Hlen. by apply lookup_lt_Some in Hi. }
      rewrite Forall_forall in Hsome.
      destruct (Hsome e) as (v0 & -> & _); [by eapply list_elem_of_lookup_2|].
      eapply copy_of_not_function. by apply (Hch i (DataProp v0 true) v'). }
    cbn [pure_data]. rewrite Hps', Ho'. apply forallb_elem_of. intros e He.
    simpl in He. apply list_elem_of_fmap in He as (v' & -> & Hin). simpl.
    apply list_elem_of_lookup in Hin as [i Hi].
    destruct (lookup_lt_is_Some_2 (o_elems o) i) as [e He].
    { rewrite <- Hlen. by apply lookup_lt_Some in Hi. }
    rewrite Forall_forall in Hsome.
    destruct (Hsome e) as (v0 & -> & _); [by eapply list_elem_of_lookup_2|].
    apply (IH i (DataProp v0 true) v' He Hi).
    apply (Hp (Some (DataProp v0 true))). by eapply list_elem_of_lookup_2.
  - destruct n as [|n]; [done|].
    destruct (HF b Hb) as (Hreg & o2 & Ho2 & Hfr).
    assert (o2 = o') as -> by congruence.
    apply (same_shape_frozen _ _ Hs) in Hfr. subst o'.
    assert (passStyleOf h reg (VObject b) = Ok PScopyError) as Hps'.
    { apply (copyError_shape_classified h reg b _ Ho'); [by rewrite Hreg|].
      split; [done|]. split; [by exists EC|]. split.
      - intros name. cbn. rewrite list_elem_of_singleton. by left.
      - intros d. cbn. rewrite decide_True by done. intros [= <-]. by exists message. }
    cbn [pure_data]. by rewrite Hps', Ho'.
Qed.

(** X19.  What [pureCopy] returns for pure data is pure data again, nested
    no deeper than what it was given: each object of the copy is
    classified as its original, a record, an array or an error. *)
Theorem pureCopy_returns_pure_data (h : list object) (reg : gmap nat string)
    (n : nat) (root : value) :
  pure_data n h reg root = true ->
  arrays_bounded h = true ->
  (forall a, length h <= a -> reg !! a = None) ->
  exists v' h',
    pureCopy_of h reg root = Copied (v', h') /\
    pure_data n h' reg v' = true.
Proof.
  intros Hp Hbound Hreg. pose proof (pure_data_depth _ _ _ _ Hp) as Hd.
  destruct (copies_at_all h reg Hbound (S (length h)) (length h) root
              {| c_heap := h; already := ∅ |} ∅ ∅)
    as (v' & st' & F' & Hc & HI' & _ & Hco & Hfr); [lia|done|set_solver| |].
  { split; simpl; [done|done|set_solver|]. by intros a v' ?%lookup_empty_Some. }
  exists v', (c_heap st'). split.
  - unfold pureCopy_of. by rewrite Hc.
  - apply (copy_of_pure h reg F' (c_heap st')) with root; [|done|done].
    intros b Hb. destruct (ci_F _ _ _ _ _ HI' b Hb) as [Hlb Hob]. split; [|done].
    by apply Hreg.
Qed.

Lemma pureCopy_returns_pure_data_witness :
  exists v' h',
    pureCopy_of pure_heap ∅ (VObject 2) = Copied (v', h') /\
    pure_data 2 h' ∅ v' = true.
Proof.
  apply (pureCopy_returns_pure_data pure_heap ∅ 2 (VObject 2)); [reflexivity..|].
  intros a _. apply lookup_empty.
Defined.

(** ** What serialize throws *)

Lemma bind_Throw {A B} (m : result A) (k : A -> result B) e :
  bind m k = Throw e -> m = Throw e \/ exists a, m = Ok a /\ k a = Throw e.
Proof. destruct m; simpl; [eauto|by intros [= ->]; left|done]. Qed.

Lemma encode_fields_throws (f : value -> EncState -> result (json * EncState))
    (h : list object) (o : object) (e : exn) :
  forall names st,
    encode_fields f h o names st = Throw e ->
    exists name st1, name ∈ names /\ f (get h o (KStr name)) st1 = Throw e.
Proof.
  induction names as [|name names IH]; intros st H; [done|]. simpl in H.
  apply bind_Throw in H as [H|([t st1] & H1 & H)].
  - exists name, st. split; [apply list_elem_of_here|done].
  - apply bind_Throw in H as [H|(rs & _ & H)]; [|done].
    destruct (IH _ H) as (name' & st2 & Hin & Hf). exists name', st2.
    split; [by apply list_elem_of_further|done].
Qed.

Lemma encode_elements_throws (f : value -> EncState -> result (json * EncState))
    (e : exn) :
  forall elems st,
    encode_elements f elems st = Throw e ->
    exists d st1, Some d ∈ elems /\ f (prop_get d) st1 = Throw e.
Proof.
  induction elems as [|[d|] elems IH]; intros st H; [done| |]; simpl in H.
  - apply bind_Throw in H as [H|([t st1] & H1 & H)].
    + exists d, st. split; [apply list_elem_of_here|done].
    + apply bind_Throw in H as [H|(rs & _ & H)]; [|done].
      destruct (IH _ H) as (d' & st2 & Hin & Hf). exists d', st2.
      split; [by apply list_elem_of_further|done].
  - apply bind_Throw in H as [H|(rs & _ & H)]; [|done].
    destruct (IH _ H) as (d' & st2 & Hin & Hf). exists d', st2.
    split; [by apply list_elem_of_further|done].
Qed.

Section Thrown.
Variable convertValToSlot : value -> value.
Variable marshalName : string.
Variable h : list object.
Variable reg : gmap nat string.

(** What [encode] throws is what classification throws on the value or on
    an object that the value contains, or one of the two errors about a
    symbol. *)
Lemma encode_throws fuel : forall v st e,
  encode convertValToSlot marshalName fuel h reg v st = Throw e ->
  e = UnsupportedSymbol \/ e = SortSymbolKey \/
  passStyleOf h reg v = Throw e \/
  exists b, contains h reg v b /\ passStyleOf h reg (VObject b) = Throw e.
Proof.
  induction fuel as [|fuel IH]; [done|]. intros v st e H.
  cbn [encode] in H. apply bind_Throw in H as [H|(ps & Hps & H)]; [by right; right; left|].
  destruct v as [| |b|num|z|s|y|g|a].
  1-8: simpl in Hps; simplify_eq; simpl in H; repeat case_match; simplify_eq; by left.
  pose proof (passStyleOf_object _ _ _ _ Hps) as Hk.
  destruct (ibidMap st !! a) as [i|]; [by destruct ps|].
  assert (forall c, is_function c = false ->
            encode convertValToSlot marshalName fuel h reg c (ibid_add a st) = Throw e \/
            (exists st1, encode convertValToSlot marshalName fuel h reg c st1 = Throw e) ->
            e = UnsupportedSymbol \/ e = SortSymbolKey \/
            exists b, contains h reg c b /\ passStyleOf h reg (VObject b) = Throw e)
    as Hchild.
  { intros c Hc [Hthrow|[st1 Hthrow]];
      (apply IH in Hthrow as [?|[?|[Hc'|?]]]; [by left|by right; left| |by right; right]);
      (destruct c as [| | | | | | | |a']; try done;
       right; right; exists a'; split; [apply contains_here|done]). }
  destruct ps; try done.
  - (* a record *)
    destruct (passStyleOf_object_inv _ _ _ _ Hps) as [[_ ?]|(_ & o & Ho & _ & _ & Hinv)];
      [done|].
    destruct Hinv as [[_ ?]|[_ [[_ ?]|[_ [[_ ?]|[_ [[Hrec _]|(_ & _ & ?)]]]]]]]; try done.
    apply isPassByCopyRecord_true in Hrec as (_ & _ & Hall).
    destruct (copyRecord_inv _ _ _ _ Ho Hps) as (Hclass & _ & _ & Hown).
    unfold heap_object in H. rewrite Ho in H. cbn [bind] in H.
    destruct (negb (length (symbol_keys o) =? 0)); [injection H as <-; by right; left|].
    apply bind_Throw in H as [H|(r & _ & H)]; [|done].
    apply encode_fields_throws in H as (name & st1 & Hin & Hthrow).
    rewrite sort_strings_perm in Hin.
    assert (is_function (get h o (KStr name)) = false) as Hnf.
    { destruct (Hown name Hin) as [v Hv]. unfold get, lookup_property. rewrite Hv.
      rewrite own_property_ordinary in Hv by done.
      rewrite <- assoc_string_keyed in Hv. apply assoc_Some_elem in Hv.
      rewrite own_string_entries_ordinary in Hall by done.
      rewrite Forall_forall in Hall. destruct (Hall _ Hv) as (v' & [= <-] & Hf). done. }
    destruct (Hchild _ Hnf (or_intror (ex_intro _ st1 Hthrow))) as [?|[?|(b & Hb & Hpb)]];
      [by left|by right; left|].
    right. right. right. exists b. split; [|done].
    by eapply (contains_field _ _ a b o name).
  - (* an array *)
    destruct (passStyleOf_object_inv _ _ _ _ Hps) as [[_ ?]|(_ & o & Ho & _ & _ & _)];
      [done|].
    destruct (copyArray_inv _ _ _ _ Ho Hps) as (_ & Hall).
    unfold heap_object in H. rewrite Ho in H. cbn [bind] in H.
    apply bind_Throw in H as [H|(r & _ & H)]; [|done].
    apply encode_elements_throws in H as (d & st1 & Hin & Hthrow).
    assert (is_function (prop_get d) = false) as Hnf.
    { rewrite Forall_forall in Hall. by destruct (Hall _ Hin) as (v & [= ->] & Hf). }
    destruct (Hchild _ Hnf (or_intror (ex_intro _ st1 Hthrow))) as [?|[?|(b & Hb & Hpb)]];
      [by left|by right; left|].
    right. right. right. exists b. split; [|done].
    by eapply (contains_element _ _ a b o d).
  - (* an error *)
    unfold heap_object in H.
    destruct (passStyleOf_object_inv _ _ _ _ Hps) as [[_ ?]|(_ & o & Ho & _ & _ & _)];
      [done|].
    by rewrite Ho in H.
Qed.
End Thrown.



(** An array that holds an object that is not frozen, and after it a record
    with the reserved name. *)
Definition reserved_later_heap : list object :=
  [ mkObject COrdinary (PIntrinsic ObjectPrototype) false []
      [(KStr "x", DataProp (VNumber (Fin 1)) true)];
    plain_record [("@qclass", VString "slot")];
    plain_array [VObject 0; VObject 1] ].


(** ** A cycle policy that is none of the three *)

(** The number of entries that decoding a tree adds to the ibid table: one
    for each array, each record, each error and each slot. *)
Fixpoint table_entries (t : json) : nat :=
  match t with
  | JArr l => S (foldr (fun t n => table_entries t + n) 0 l)
  | JObj members =>
      match assoc QCLASS members with
      | None => S (foldr (fun kt n => table_entries (snd kt) + n) 0 members)
      | Some (JStr q) => if String.eqb q "error" || String.eqb q "slot" then 1 else 0
      | Some _ => 0
      end
  | _ => 0
  end.

(** [refers_to_unfinished n open t]: the tree [t], decoded when the ibid
    table holds [n] entries of which those at the indices [open] are under
    construction, holds an ibid whose index is one of [open] or is the
    index of an array or a record of [t] around it. *)
Inductive refers_to_unfinished : nat -> list nat -> json -> Prop :=
  | unfinished_ibid (n : nat) (open : list nat) (members : list (string * json))
      (index : nat) :
      assoc QCLASS members = Some (JStr "ibid") ->
      Nat' (assoc "index" members) = Ok index ->
      index ∈ open ->
      refers_to_unfinished n open (JObj members)
  | unfinished_element (n : nat) (open : list nat) (pre post : list json) (t : json) :
      refers_to_unfinished (S n + foldr (fun t n => table_entries t + n) 0 pre)
        (n :: open) t ->
      refers_to_unfinished n open (JArr (pre ++ t :: post))
  | unfinished_member (n : nat) (open : list nat) (pre post : list (string * json))
      (name : string) (t : json) :
      assoc QCLASS (pre ++ (name, t) :: post) = None ->
      refers_to_unfinished (S n + foldr (fun kt n => table_entries (snd kt) + n) 0 pre)
        (n :: open) t ->
      refers_to_unfinished n open (JObj (pre ++ (name, t) :: post)).

(** The objects under construction are objects of the heap. *)
Definition unfinished_allocated (st : RevState) : Prop :=
  forall a, a ∈ unfinishedIbids st -> a < length (r_heap st).

(** What a decoding that returns has done to the ibid table: [k] entries
    more, and the same objects under construction. *)
Record table_grows (k : nat) (st st' : RevState) : Prop := {
  tg_ibids : exists l, ibids st' = ibids st ++ l /\ length l = k;
  tg_unfinished : unfinishedIbids st' = unfinishedIbids st;
  tg_heap : length (r_heap st) <= length (r_heap st');
}.

Lemma table_grows_refl st : table_grows 0 st st.
Proof. split; [|done|done]. exists []. by rewrite app_nil_r. Qed.

Lemma table_grows_trans k1 k2 st1 st2 st3 :
  table_grows k1 st1 st2 -> table_grows k2 st2 st3 -> table_grows (k1 + k2) st1 st3.
Proof.
  intros [(l1 & E1 & L1) U1 H1] [(l2 & E2 & L2) U2 H2]. split.
  - exists (l1 ++ l2). rewrite E2, E1, <- app_assoc, length_app. split; [done|lia].
  - congruence.
  - lia.
Qed.

Lemma table_grows_allocated k st st' :
  table_grows k st st' -> unfinished_allocated st -> unfinished_allocated st'.
Proof.
  intros [_ U H] Hwf a Ha. rewrite U in Ha. apply Hwf in Ha. lia.
Qed.

Lemma assign_field_length obj name v h h' :
  assign_field obj name v h = Ok h' -> length h' = length h.
Proof.
  unfold assign_field. destruct (h !! obj) as [o|]; [|by intros [= <-]].
  assert (forall (c : bool) (o1 : object),
            (if c then Throw AssignInherited else Ok (<[obj := o1]> h)) = Ok h' ->
            length h' = length h) as Hdef.
  { intros [] o1 Hd; [done|]. injection Hd as <-. apply length_insert. }
  destruct (String.eqb name "__proto__"); [|by eapply Hdef].
  destruct (o_proto o) as [|[]|]; try (by eapply Hdef).
  destruct v; try (by intros [= <-]); try (intros [= <-]; apply length_insert).
  destruct (chain_reaches _ _ _ _); [done|]. intros [= <-]. apply length_insert.
Qed.

Lemma assign_element_length obj v h : length (assign_element obj v h) = length h.
Proof. unfold assign_element. destruct (h !! obj); [apply length_insert|done]. Qed.

Lemma set_heap_grows h st :
  length h = length (r_heap st) -> table_grows 0 st (set_heap h st).
Proof.
  intros Hl. split; simpl; [|done|lia]. exists []. by rewrite app_nil_r.
Qed.

Section CyclePolicy.
Variable convertSlotToVal : value -> option json -> value.
Variable slots_in : list value.

Local Abbreviation rev p := (fullRevive convertSlotToVal slots_in p).

Definition counts (p : value) (t : json) : Prop :=
  forall st v st', rev p t st = Ok (v, st') -> unfinished_allocated st ->
    table_grows (table_entries t) st st'.

Lemma revive_elements_grows p obj (l : list json) :
  Forall (counts p) l ->
  forall st st', revive_elements (rev p) obj l st = Ok st' ->
    unfinished_allocated st ->
    table_grows (foldr (fun t n => table_entries t + n) 0 l) st st'.
Proof.
  induction 1 as [|t l Ht _ IH]; intros st st' H Hwf.
  - injection H as <-. apply table_grows_refl.
  - simpl in H. apply bind_Ok in H as ([v st1] & H1 & H). simpl in H.
    pose proof (Ht _ _ _ H1 Hwf) as G1.
    pose proof (set_heap_grows (assign_element obj v (r_heap st1)) st1
                  (assign_element_length _ _ _)) as G2.
    pose proof (table_grows_trans _ _ _ _ _ G1 G2) as G12.
    apply IH in H; [|by eapply table_grows_allocated].
    simpl. replace (table_entries t + foldr (fun t n => table_entries t + n) 0 l)
      with (table_entries t + 0 + foldr (fun t n => table_entries t + n) 0 l) by lia.
    by eapply table_grows_trans.
Qed.

Lemma revive_fields_grows p obj (l : list (string * json)) :
  Forall (fun kt => counts p (snd kt)) l ->
  forall st st', revive_fields (rev p) obj l st = Ok st' ->
    unfinished_allocated st ->
    table_grows (foldr (fun kt n => table_entries (snd kt) + n) 0 l) st st'.
Proof.
  induction 1 as [|[name t] l Ht _ IH]; intros st st' H Hwf.
  - injection H as <-. apply table_grows_refl.
  - simpl in H. apply bind_Ok in H as ([v st1] & H1 & H). simpl in H.
    apply bind_Ok in H as (h1 & Hh1 & H).
    pose proof (Ht _ _ _ H1 Hwf) as G1.
    pose proof (set_heap_grows h1 st1 (assign_field_length _ _ _ _ _ Hh1)) as G2.
    pose proof (table_grows_trans _ _ _ _ _ G1 G2) as G12.
    apply IH in H; [|by eapply table_grows_allocated].
    simpl. replace (table_entries t + foldr (fun kt n => table_entries (snd kt) + n) 0 l)
      with (table_entries t + 0 + foldr (fun kt n => table_entries (snd kt) + n) 0 l)
      by lia.
    by eapply table_grows_trans.
Qed.

Lemma started_grows (o : object) (obj : nat) (k : nat) (st st1 st2 : RevState) :
  ibid_start o st = (obj, st1) ->
  unfinished_allocated st ->
  table_grows k st1 st2 ->
  table_grows (S k) st (ibid_finish obj st2).
Proof.
  intros Hs Hwf [(l & E & L) U H]. injection Hs as <- <-. simpl in *. split; simpl.
  - exists (VObject (length (r_heap st)) :: l). rewrite E, <- app_assoc. simpl.
    split; [done|lia].
  - rewrite U. assert (length (r_heap st) ∉ unfinishedIbids st) as Hnew.
    { intros Hin%Hwf. lia. }
    clear -Hnew. set_solver.
  - rewrite length_app in H. lia.
Qed.

Lemma started_allocated (o : object) (obj : nat) (st st1 : RevState) :
  ibid_start o st = (obj, st1) ->
  unfinished_allocated st -> unfinished_allocated st1.
Proof.
  intros Hs Hwf. injection Hs as <- <-. intros a. simpl. rewrite length_app. simpl.
  intros [->%elem_of_singleton|Ha%Hwf]%elem_of_union; lia.
Qed.

(** A decoding that returns has added [table_entries] entries. *)
Lemma fullRevive_counts p t : counts p t.
Proof.
  induction t as [| | | |l IH|l IH] using json_induction; intros st v st' H Hwf.
  1-4: injection H as <- <-; apply table_grows_refl.
  - cbn [fullRevive] in H. destruct (ibid_start new_array st) as [obj st1] eqn:Hs.
    apply bind_Ok in H as (st2 & H2 & H). injection H as <- <-.
    cbn [table_entries]. apply (started_grows _ _ _ _ _ _ Hs Hwf).
    apply (revive_elements_grows p obj l IH _ _ H2).
    by eapply started_allocated.
  - cbn [fullRevive table_entries] in *. destruct (assoc QCLASS l) as [x|].
    + destruct x as [| | |q| |]; try done.
      destruct (String.eqb_spec q "undefined") as [Hq|_];
        [subst q; injection H as <- <-; apply table_grows_refl|].
      destruct (String.eqb_spec q "NaN") as [Hq|_];
        [subst q; injection H as <- <-; apply table_grows_refl|].
      destruct (String.eqb_spec q "Infinity") as [Hq|_];
        [subst q; injection H as <- <-; apply table_grows_refl|].
      destruct (String.eqb_spec q "-Infinity") as [Hq|_];
        [subst q; injection H as <- <-; apply table_grows_refl|].
      destruct (String.eqb_spec q "bigint") as [Hq|_].
      { subst q. destruct (json_is_string _); [|done].
        apply bind_Ok in H as (z & _ & H). injection H as <- <-. apply table_grows_refl. }
      destruct (String.eqb_spec q "@@asyncIterator") as [Hq|_];
        [subst q; injection H as <- <-; apply table_grows_refl|].
      destruct (String.eqb_spec q "ibid") as [Hq|_].
      { subst q. apply bind_Ok in H as (w & _ & H). injection H as <- <-. apply table_grows_refl. }
      destruct (String.eqb_spec q "error") as [Hq|_].
      { subst q. destruct (json_is_string _); [|done]. destruct (json_is_string _); [|done].
        injection H as <- <-. split; cbn [r_heap ibids unfinishedIbids ibid_register set_heap];
          [|done|rewrite length_app; lia].
        by eexists [_]. }
      destruct (String.eqb_spec q "slot") as [Hq|_]; [subst q|done].
      apply bind_Ok in H as (i & _ & H). injection H as <- <-.
      split; cbn [r_heap ibids unfinishedIbids ibid_register]; [|done|done].
      by eexists [_].
    + destruct (ibid_start new_object st) as [obj st1] eqn:Hs.
      apply bind_Ok in H as (st2 & H2 & H). injection H as <- <-.
      apply (started_grows _ _ _ _ _ _ Hs Hwf).
      apply (revive_fields_grows p obj l IH _ _ H2).
      by eapply started_allocated.
Qed.

Lemma revive_elements_app f obj (l1 l2 : list json) : forall st,
  revive_elements f obj (l1 ++ l2) st
  = (st1 <- revive_elements f obj l1 st ;; revive_elements f obj l2 st1).
Proof.
  induction l1 as [|t l1 IH]; intros st; [done|]. simpl.
  destruct (f t st) as [[v st1]| |]; simpl; [apply IH|done|done].
Qed.

Lemma revive_fields_app f obj (l1 l2 : list (string * json)) : forall st,
  revive_fields f obj (l1 ++ l2) st
  = (st1 <- revive_fields f obj l1 st ;; revive_fields f obj l2 st1).
Proof.
  induction l1 as [|[name t] l1 IH]; intros st; [done|]. simpl.
  destruct (f t st) as [[v st1]| |]; simpl; [|done|done].
  destruct (assign_field _ _ _ _); simpl; [apply IH|done|done].
Qed.

(** The entries at the indices [open] are objects under construction. *)
Definition under_construction (open : list nat) (st : RevState) : Prop :=
  forall i, i ∈ open ->
    exists a, ibids st !! i = Some (VObject a) /\ a ∈ unfinishedIbids st.

Lemma under_construction_grows k open st st' :
  table_grows k st st' -> under_construction open st -> under_construction open st'.
Proof.
  intros [(l & E & _) U _] Hopen i Hi. destruct (Hopen i Hi) as (a & Ha & Hu).
  exists a. rewrite E, U. split; [by apply lookup_app_l_Some|done].
Qed.

Lemma under_construction_start open (o : object) (obj : nat) (st st1 : RevState) :
  ibid_start o st = (obj, st1) ->
  under_construction open st ->
  under_construction (length (ibids st) :: open) st1.
Proof.
  intros Hs Hopen. injection Hs as <- <-. intros i [->|Hi]%elem_of_cons; simpl.
  - exists (length (r_heap st)). split; [by apply list_lookup_middle|set_solver].
  - destruct (Hopen i Hi) as (a & Ha & Hu). exists a.
    split; [by apply lookup_app_l_Some|set_solver].
Qed.

Lemma all_count p (l : list json) : Forall (counts p) l.
Proof. apply Forall_forall. intros t _. apply fullRevive_counts. Qed.

Lemma all_members_count p (l : list (string * json)) :
  Forall (fun kt => counts p (snd kt)) l.
Proof. apply Forall_forall. intros t _. apply fullRevive_counts. Qed.

Lemma started_length (o : object) (obj : nat) (st st1 : RevState) :
  ibid_start o st = (obj, st1) -> length (ibids st1) = S (length (ibids st)).
Proof. intros Hs. injection Hs as <- <-. simpl. rewrite length_app. simpl. lia. Qed.

(** A policy that does not let a cycle pass. *)
Definition refuses_cycles (p : value) : Prop :=
  value_is p "allowCycles" = false /\ value_is p "warnOfCycles" = false.

(** Under such a policy the decoding of a tree that refers to an entry
    under construction does not return. *)
Lemma refers_to_unfinished_no_result p n open t :
  refuses_cycles p ->
  refers_to_unfinished n open t ->
  forall st, length (ibids st) = n -> unfinished_allocated st ->
    under_construction open st ->
    forall r, rev p t st <> Ok r.
Proof.
  intros [Hp1 Hp2]. induction 1 as
    [n open members index Hq Hi Hin
    |n open pre post t _ IH
    |n open pre post name t Hq _ IH]; intros st Hn Hwf Hopen r H.
  - cbn [fullRevive] in H. rewrite Hq in H. simpl in H.
    apply bind_Ok in H as (v & Hv & _). unfold ibid_get in Hv. rewrite Hi in Hv.
    cbn [bind] in Hv. destruct (Hopen index Hin) as (a & Ha & Hu).
    destruct (Nat.leb_spec (length (ibids st)) index) as [Hle|_].
    { apply lookup_lt_Some in Ha. lia. }
    rewrite Ha in Hv. simpl in Hv. rewrite bool_decide_eq_true_2 in Hv by done.
    rewrite Hp1, Hp2 in Hv. by destruct (value_is p "forbidCycles").
  - cbn [fullRevive] in H. destruct (ibid_start new_array st) as [obj st1] eqn:Hs.
    apply bind_Ok in H as (st3 & H3 & _). rewrite revive_elements_app in H3.
    apply bind_Ok in H3 as (st2 & H2 & H3). simpl in H3.
    apply bind_Ok in H3 as (r1 & H1 & _).
    pose proof (started_allocated _ _ _ _ Hs Hwf) as Hwf1.
    pose proof (revive_elements_grows p obj pre (all_count p pre) _ _ H2 Hwf1) as G.
    apply (IH st2) with r1; [|by eapply table_grows_allocated| |done].
    + destruct G as [(l & E & L) _ _]. rewrite E, length_app, L.
      rewrite (started_length _ _ _ _ Hs). lia.
    + apply (under_construction_grows _ _ _ _ G). rewrite <- Hn.
      by eapply under_construction_start.
  - cbn [fullRevive] in H. rewrite Hq in H.
    destruct (ibid_start new_object st) as [obj st1] eqn:Hs.
    apply bind_Ok in H as (st3 & H3 & _). rewrite revive_fields_app in H3.
    apply bind_Ok in H3 as (st2 & H2 & H3). simpl in H3.
    apply bind_Ok in H3 as (r1 & H1 & _).
    pose proof (started_allocated _ _ _ _ Hs Hwf) as Hwf1.
    pose proof (revive_fields_grows p obj pre (all_members_count p pre) _ _ H2 Hwf1) as G.
    apply (IH st2) with r1; [|by eapply table_grows_allocated| |done].
    + destruct G as [(l & E & L) _ _]. rewrite E, length_app, L.
      rewrite (started_length _ _ _ _ Hs). lia.
    + apply (under_construction_grows _ _ _ _ G). rewrite <- Hn.
      by eapply under_construction_start.
Qed.

(** *** What a policy that is none of the three changes *)

(** Where the decoding returns under allowCycles, it returns the same
    under the policy [p], or complains about the policy. *)
Definition policy_only {A : Type} (r1 r2 : result A) : Prop :=
  forall a, r1 = Ok a -> r2 = Ok a \/ r2 = Throw UnrecognizedCyclePolicy.

Lemma policy_only_refl {A} (r : result A) : policy_only r r.
Proof. intros a ->. by left. Qed.

Lemma policy_only_bind {A B} (m1 m2 : result A) (k1 k2 : A -> result B) :
  policy_only m1 m2 ->
  (forall a, m1 = Ok a -> policy_only (k1 a) (k2 a)) ->
  policy_only (bind m1 k1) (bind m2 k2).
Proof.
  intros Hm Hk b Hb. apply bind_Ok in Hb as (a & Ha & Hb).
  destruct (Hm a Ha) as [->| ->]; [|by right]. simpl. by apply (Hk a).
Qed.

Section Unknown.
Variable p : value.
Hypothesis Hp : known_policy p = false.

Local Abbreviation rev_allow :=
  (fullRevive convertSlotToVal slots_in (VString "allowCycles")).

Lemma ibid_get_policy_only idx st :
  policy_only (ibid_get (VString "allowCycles") idx st) (ibid_get p idx st).
Proof.
  unfold known_policy in Hp. apply orb_false_elim in Hp as [Hp' H3].
  apply orb_false_elim in Hp' as [H1 H2].
  unfold ibid_get. apply policy_only_bind; [apply policy_only_refl|].
  intros i _. destruct (length (ibids st) <=? i); [apply policy_only_refl|].
  destruct (ibids st !! i) as [v|]; [|apply policy_only_refl].
  destruct (unfinished_has st v); [|apply policy_only_refl].
  rewrite H1, H2, H3. simpl. intros a _. by right.
Qed.

Lemma revive_fields_policy_only obj members :
  Forall (fun kt => forall st, policy_only (rev_allow (snd kt) st) (rev p (snd kt) st))
    members ->
  forall st, policy_only (revive_fields rev_allow obj members st)
               (revive_fields (rev p) obj members st).
Proof.
  induction 1 as [|[k t] l Ht _ IH]; intros st; simpl; [apply policy_only_refl|].
  apply policy_only_bind; [apply Ht|]. intros r _.
  apply policy_only_bind; [apply policy_only_refl|]. intros h _. apply IH.
Qed.

Lemma revive_elements_policy_only obj elems :
  Forall (fun t => forall st, policy_only (rev_allow t st) (rev p t st)) elems ->
  forall st, policy_only (revive_elements rev_allow obj elems st)
               (revive_elements (rev p) obj elems st).
Proof.
  induction 1 as [|t l Ht _ IH]; intros st; simpl; [apply policy_only_refl|].
  apply policy_only_bind; [apply Ht|]. intros r _. apply IH.
Qed.

Lemma fullRevive_policy_only t :
  forall st, policy_only (rev_allow t st) (rev p t st).
Proof.
  induction t as [| | | |l IH|l IH] using json_induction; intros st.
  1-4: apply policy_only_refl.
  - simpl. destruct (ibid_start new_array st) as [obj st1].
    apply policy_only_bind; [by apply revive_elements_policy_only|].
    intros; apply policy_only_refl.
  - simpl. destruct (assoc QCLASS l) as [[| | |q| |]|].
    1-3,5-6: apply policy_only_refl.
    + repeat (case_match; try apply policy_only_refl).
      apply policy_only_bind; [apply ibid_get_policy_only|].
      intros; apply policy_only_refl.
    + destruct (ibid_start new_object st) as [obj st1].
      apply policy_only_bind; [by apply revive_fields_policy_only|].
      intros; apply policy_only_refl.
Qed.
End Unknown.
End CyclePolicy.



(** ** The occurrences of a presence in one serialize call *)

(** Two ways of cutting one list at an element: the same cut, or one cut
    before the other. *)
Lemma split_compare {A} (pre1 pre2 post1 post2 : list A) (x1 x2 : A) :
  pre1 ++ x1 :: post1 = pre2 ++ x2 :: post2 ->
  (pre1 = pre2 /\ x1 = x2 /\ post1 = post2) \/
  (exists mid, pre2 = pre1 ++ x1 :: mid /\ length pre1 < length pre2) \/
  (exists mid, pre1 = pre2 ++ x2 :: mid /\ length pre2 < length pre1).
Proof.
  revert pre2. induction pre1 as [|y pre1 IH]; intros [|z pre2] H; simpl in *.
  - injection H as -> ->. by left.
  - injection H as -> ->. right. left. exists pre2. split; [done|lia].
  - injection H as -> <-. right. right. exists pre1. split; [done|lia].
  - injection H as -> H. destruct (IH _ H) as [(-> & -> & ->)|[(mid & -> & ?)|(mid & -> & ?)]].
    + by left.
    + right. left. exists mid. split; [done|simpl; lia].
    + right. right. exists mid. split; [done|simpl; lia].
Qed.

(** The order of the traversal on paths: a position comes before the
    later positions and before what lies below them. *)
Fixpoint path_before (p q : list nat) : bool :=
  match p, q with
  | [], _ :: _ => true
  | i :: p', j :: q' => (i <? j) || ((i =? j) && path_before p' q')
  | _, _ => false
  end.

(** What one call of the encoder keeps: the entries of the ibid table with
    their indices, and the slots listed so far. *)
Record keeps (st st' : EncState) : Prop := {
  k_ibid : ibidMap st ⊆ ibidMap st';
  k_slots : slots st `prefix_of` slots st';
}.

Lemma keeps_refl st : keeps st st.
Proof. by split. Qed.

Lemma keeps_trans st1 st2 st3 : keeps st1 st2 -> keeps st2 st3 -> keeps st1 st3.
Proof. intros [A1 B1] [A2 B2]. split; by etrans. Qed.

(** An object that has a slot has an entry in the ibid table. *)
Definition slot_known (st : EncState) : Prop :=
  forall a, is_Some (slotMap st !! a) -> is_Some (ibidMap st !! a).

Section Occurrences.
Variable convertValToSlot : value -> value.
Variable marshalName : string.
Variable h : list object.
Variable reg : gmap nat string.

Local Abbreviation enc := (encode convertValToSlot marshalName).

Lemma enc_record_eq f a o st :
  passStyleOf h reg (VObject a) = Ok PScopyRecord ->
  ibidMap st !! a = None -> h !! a = Some o ->
  enc (S f) h reg (VObject a) st
  = (if negb (length (symbol_keys o) =? 0) then Throw SortSymbolKey
     else
       r <- encode_fields (enc f h reg) h o (sort_strings (getOwnPropertyNames o))
              (ibid_add a st) ;;
       Ok (JObj (fromEntries (fst r)), snd r)).
Proof.
  intros Hps Hi Ho. cbn [encode]. rewrite Hps. cbn [bind]. rewrite Hi.
  unfold heap_object. by rewrite Ho.
Qed.

Lemma enc_array_eq f a o st :
  passStyleOf h reg (VObject a) = Ok PScopyArray ->
  ibidMap st !! a = None -> h !! a = Some o ->
  enc (S f) h reg (VObject a) st
  = (r <- encode_elements (enc f h reg) (o_elems o) (ibid_add a st) ;;
     Ok (JArr (fst r), snd r)).
Proof.
  intros Hps Hi Ho. cbn [encode]. rewrite Hps. cbn [bind]. rewrite Hi.
  unfold heap_object. by rewrite Ho.
Qed.

Lemma encode_fields_split (f : value -> EncState -> result (json * EncState))
    (o : object) (name : string) (post : list string) :
  forall pre st es st',
    encode_fields f h o (pre ++ name :: post) st = Ok (es, st') ->
    exists e1 st1 t st2 e3,
      encode_fields f h o pre st = Ok (e1, st1) /\
      f (get h o (KStr name)) st1 = Ok (t, st2) /\
      encode_fields f h o post st2 = Ok (e3, st').
Proof.
  induction pre as [|x pre IH]; intros st es st' H; simpl in H.
  - apply bind_Ok in H as ([t st2] & H1 & H). apply bind_Ok in H as ([e3 st3] & H2 & H).
    injection H as <- <-. by exists [], st, t, st2, e3.
  - apply bind_Ok in H as ([t0 st0] & H0 & H). apply bind_Ok in H as ([es1 st3] & H2 & H).
    injection H as <- <-. simpl in H2.
    destruct (IH _ _ _ H2) as (e1 & st1 & t & st2 & e3 & A & B & C).
    exists ((x, t0) :: e1), st1, t, st2, e3. split; [|done].
    simpl. rewrite H0. simpl. by rewrite A.
Qed.

Lemma encode_elements_split (f : value -> EncState -> result (json * EncState))
    (d : prop) (post : list (option prop)) :
  forall pre st ts st',
    encode_elements f (pre ++ Some d :: post) st = Ok (ts, st') ->
    exists t1 st1 t st2 t3,
      encode_elements f pre st = Ok (t1, st1) /\
      f (prop_get d) st1 = Ok (t, st2) /\
      encode_elements f post st2 = Ok (t3, st').
Proof.
  induction pre as [|[x|] pre IH]; intros st ts st' H; simpl in H.
  - apply bind_Ok in H as ([t st2] & H1 & H). apply bind_Ok in H as ([t3 st3] & H2 & H).
    injection H as <- <-. by exists [], st, t, st2, t3.
  - apply bind_Ok in H as ([t0 st0] & H0 & H). apply bind_Ok in H as ([ts1 st3] & H2 & H).
    injection H as <- <-. simpl in H2.
    destruct (IH _ _ _ H2) as (t1 & st1 & t & st2 & t3 & A & B & C).
    exists (t0 :: t1), st1, t, st2, t3. split; [|done].
    simpl. rewrite H0. simpl. by rewrite A.
  - apply bind_Ok in H as ([ts1 st3] & H2 & H). injection H as <- <-. simpl in H2.
    destruct (IH _ _ _ H2) as (t1 & st1 & t & st2 & t3 & A & B & C).
    exists (JNull :: t1), st1, t, st2, t3. split; [|done].
    simpl. by rewrite A.
Qed.

(** *** The tables only grow *)

Lemma encode_fields_keeps (f : value -> EncState -> result (json * EncState))
    (o : object) :
  (forall v st t st', f v st = Ok (t, st') ->
     keeps st st' /\ (slot_known st -> slot_known st')) ->
  forall names st es st',
    encode_fields f h o names st = Ok (es, st') ->
    keeps st st' /\ (slot_known st -> slot_known st').
Proof.
  intros Hf. induction names as [|name names IH]; intros st es st' H.
  - injection H as <- <-. split; [apply keeps_refl|done].
  - simpl in H. apply bind_Ok in H as ([t st1] & H1 & H).
    apply bind_Ok in H as ([es1 st2] & H2 & H). injection H as <- <-. simpl in *.
    apply Hf in H1 as [K1 S1]. apply IH in H2 as [K2 S2].
    split; [by eapply keeps_trans|auto].
Qed.

Lemma encode_elements_keeps (f : value -> EncState -> result (json * EncState)) :
  (forall v st t st', f v st = Ok (t, st') ->
     keeps st st' /\ (slot_known st -> slot_known st')) ->
  forall elems st ts st',
    encode_elements f elems st = Ok (ts, st') ->
    keeps st st' /\ (slot_known st -> slot_known st').
Proof.
  intros Hf. induction elems as [|[d|] elems IH]; intros st ts st' H.
  - injection H as <- <-. split; [apply keeps_refl|done].
  - simpl in H. apply bind_Ok in H as ([t st1] & H1 & H).
    apply bind_Ok in H as ([ts1 st2] & H2 & H). injection H as <- <-. simpl in *.
    apply Hf in H1 as [K1 S1]. apply IH in H2 as [K2 S2].
    split; [by eapply keeps_trans|auto].
  - simpl in H. apply bind_Ok in H as ([ts1 st2] & H2 & H). injection H as <- <-.
    simpl in *. by apply IH in H2.
Qed.

Lemma ibid_add_keeps a st : ibidMap st !! a = None -> keeps st (ibid_add a st).
Proof. intros Hi. split; simpl; [by apply insert_subseteq|done]. Qed.

Lemma ibid_add_slot_known a st : slot_known st -> slot_known (ibid_add a st).
Proof.
  intros Hk b Hb. simpl in *. destruct (decide (b = a)) as [->|Hne].
  - rewrite lookup_insert_eq. eauto.
  - rewrite lookup_insert_ne by done. by apply Hk.
Qed.

Lemma serializeSlot_keeps a iface st t st' :
  serializeSlot convertValToSlot a iface (ibid_add a st) = (t, st') ->
  keeps (ibid_add a st) st' /\ (slot_known (ibid_add a st) -> slot_known st').
Proof.
  unfold serializeSlot. cbn [slotMap ibid_add slots].
  destruct (slotMap st !! a) as [i|] eqn:Hs.
  - destruct iface; intros [= <- <-]; (split; [apply keeps_refl|done]).
  - assert (forall st1,
              st1 = {| slots := slots st ++ [convertValToSlot (VObject a)];
                       slotMap := <[a := length (slots st)]> (slotMap st);
                       ibidMap := <[a := ibidCount st]> (ibidMap st);
                       ibidCount := ibidCount st + 1;
                       errorCount := errorCount st |} ->
              keeps (ibid_add a st) st1 /\
              (slot_known (ibid_add a st) -> slot_known st1)) as Hst.
    { intros st1 ->. split.
      - split; simpl; [done|]. by apply prefix_app_r.
      - intros Hk b Hb. simpl in *. destruct (decide (b = a)) as [->|Hne].
        + rewrite lookup_insert_eq. eauto.
        + rewrite lookup_insert_ne in Hb by done. by apply Hk. }
    destruct iface; intros [= <- <-]; by apply Hst.
Qed.

Lemma serializeSlot_leaves_ibidMap a iface st t st' :
  serializeSlot convertValToSlot a iface st = (t, st') -> ibidMap st' = ibidMap st.
Proof.
  unfold serializeSlot.
  destruct (slotMap st !! a), iface; by intros [= <- <-].
Qed.

Lemma enc_keeps fuel : forall v st t st',
  enc fuel h reg v st = Ok (t, st') ->
  keeps st st' /\ (slot_known st -> slot_known st').
Proof.
  induction fuel as [|fuel IH]; [done|]. intros v st t st' H.
  destruct v as [| | | | | | | |a].
  1-8: cbn [encode] in H; apply bind_Ok in H as (ps & Hps & H);
    assert (st' = st) as ->
    by (simpl in Hps; simplify_eq; simpl in H; repeat case_match; simplify_eq; done);
    (split; [apply keeps_refl|done]).
  destruct (passStyleOf h reg (VObject a)) as [ps| |] eqn:Hps;
    [|by cbn [encode] in H; rewrite Hps in H..].
  pose proof (passStyleOf_object _ _ _ _ Hps) as Hk.
  destruct (ibidMap st !! a) as [i|] eqn:Hi.
  { rewrite (encode_seen _ _ _ _ _ _ _ _ i Hps Hi) in H. injection H as <- <-.
    split; [apply keeps_refl|done]. }
  pose proof (ibid_add_keeps a st Hi) as K0.
  pose proof (ibid_add_slot_known a st) as S0.
  destruct ps; try done.
  - destruct (passStyleOf_object_inv _ _ _ _ Hps) as [[_ ?]|(_ & o & Ho & _)]; [done|].
    rewrite (enc_record_eq _ _ o) in H by done.
    destruct (negb _); [done|]. apply bind_Ok in H as ([es st1] & H1 & H).
    injection H as <- <-. apply (encode_fields_keeps _ _ (IH)) in H1 as [K1 S1].
    split; [by eapply keeps_trans|auto].
  - destruct (passStyleOf_object_inv _ _ _ _ Hps) as [[_ ?]|(_ & o & Ho & _)]; [done|].
    rewrite (enc_array_eq _ _ o) in H by done.
    apply bind_Ok in H as ([ts st1] & H1 & H).
    injection H as <- <-. apply (encode_elements_keeps _ (IH)) in H1 as [K1 S1].
    split; [by eapply keeps_trans|auto].
  - cbn [encode] in H. rewrite Hps in H. cbn [bind] in H. rewrite Hi in H.
    destruct (heap_object h a) as [o| |]; [|done|done]. cbn [bind] in H.
    destruct (nextErrorId _ _) as [errorId st1] eqn:Hn. injection H as <- <-.
    unfold nextErrorId in Hn. injection Hn as <- <-.
    split; [split; [apply (k_ibid _ _ K0)|apply (k_slots _ _ K0)]|].
    intros Hs. apply (S0 Hs).
  - cbn [encode] in H. rewrite Hps in H. cbn [bind] in H. rewrite Hi in H.
    injection H as H. apply serializeSlot_keeps in H as [K1 S1].
    split; [by eapply keeps_trans|auto].
  - cbn [encode] in H. rewrite Hps in H. cbn [bind] in H. rewrite Hi in H.
    injection H as H. apply serializeSlot_keeps in H as [K1 S1].
    split; [by eapply keeps_trans|auto].
Qed.

(** *** The calls that one call makes *)

(** [within fuel v st path fuel' v' st']: while [encode] works on [v] from
    the state [st], it calls itself on [v'] in the state [st']; [path]
    leads from [v] to that occurrence of [v'], through positions among the
    sorted names of a record and among the elements of an array. *)
Inductive within : nat -> value -> EncState -> list nat ->
    nat -> value -> EncState -> Prop :=
  | within_here (fuel : nat) (v : value) (st : EncState) :
      within fuel v st [] fuel v st
  | within_field (fuel a : nat) (o : object) (st : EncState)
      (pre post : list string) (name : string) (entries : list (string * json))
      (st1 : EncState) (path : list nat) (fuel' : nat) (v' : value) (st' : EncState) :
      passStyleOf h reg (VObject a) = Ok PScopyRecord ->
      ibidMap st !! a = None ->
      h !! a = Some o ->
      length (symbol_keys o) = 0 ->
      sort_strings (getOwnPropertyNames o) = pre ++ name :: post ->
      encode_fields (enc fuel h reg) h o pre (ibid_add a st) = Ok (entries, st1) ->
      within fuel (get h o (KStr name)) st1 path fuel' v' st' ->
      within (S fuel) (VObject a) st (length pre :: path) fuel' v' st'
  | within_element (fuel a : nat) (o : object) (st : EncState)
      (pre post : list (option prop)) (d : prop) (ts : list json)
      (st1 : EncState) (path : list nat) (fuel' : nat) (v' : value) (st' : EncState) :
      passStyleOf h reg (VObject a) = Ok PScopyArray ->
      ibidMap st !! a = None ->
      h !! a = Some o ->
      o_elems o = pre ++ Some d :: post ->
      encode_elements (enc fuel h reg) pre (ibid_add a st) = Ok (ts, st1) ->
      within fuel (prop_get d) st1 path fuel' v' st' ->
      within (S fuel) (VObject a) st (length pre :: path) fuel' v' st'.

(** When the call returns, the call within it has returned, and the
    tables have only grown from the one to the other. *)
Lemma within_result fuel v st path f v' s :
  within fuel v st path f v' s ->
  forall t st', enc fuel h reg v st = Ok (t, st') ->
  exists t' s',
    enc f h reg v' s = Ok (t', s') /\
    keeps st s /\ keeps s' st' /\ (slot_known st -> slot_known s).
Proof.
  induction 1 as
    [fuel v st
    |fuel a o st pre post name entries st1 path f v' s Hps Hi Ho Hsym Hnames Hpre _ IH
    |fuel a o st pre post d ts st1 path f v' s Hps Hi Ho Helems Hpre _ IH];
    intros t st' H.
  - exists t, st'. split; [done|]. split; [apply keeps_refl|].
    split; [apply keeps_refl|done].
  - rewrite (enc_record_eq _ _ o) in H by done. rewrite Hsym in H. cbn [negb Nat.eqb] in H.
    apply bind_Ok in H as ([es st2] & H & Hfin). injection Hfin as <- <-.
    rewrite Hnames in H.
    apply encode_fields_split in H as (e1 & st1' & t1 & st3 & e3 & A & B & C).
    rewrite Hpre in A. injection A as <- <-.
    destruct (IH _ _ B) as (t' & s' & Hcall & K1 & K2 & S1).
    apply (encode_fields_keeps _ _ (enc_keeps fuel)) in Hpre as [Kpre Spre].
    apply (encode_fields_keeps _ _ (enc_keeps fuel)) in C as [Kpost _].
    exists t', s'. split; [done|]. split.
    { eapply keeps_trans; [by apply ibid_add_keeps|]. by eapply keeps_trans. }
    split; [by eapply keeps_trans|].
    intros Hs. apply S1, Spre. by apply ibid_add_slot_known.
  - rewrite (enc_array_eq _ _ o) in H by done.
    apply bind_Ok in H as ([es st2] & H & Hfin). injection Hfin as <- <-.
    rewrite Helems in H.
    apply encode_elements_split in H as (e1 & st1' & t1 & st3 & e3 & A & B & C).
    rewrite Hpre in A. injection A as <- <-.
    destruct (IH _ _ B) as (t' & s' & Hcall & K1 & K2 & S1).
    apply (encode_elements_keeps _ (enc_keeps fuel)) in Hpre as [Kpre Spre].
    apply (encode_elements_keeps _ (enc_keeps fuel)) in C as [Kpost _].
    exists t', s'. split; [done|]. split.
    { eapply keeps_trans; [by apply ibid_add_keeps|]. by eapply keeps_trans. }
    split; [by eapply keeps_trans|].
    intros Hs. apply S1, Spre. by apply ibid_add_slot_known.
Qed.

(** The envelope of a presence. *)
Definition slot_envelope (iface : option string) (index : nat) : json :=
  qclass_envelope "slot"
    (match iface with
     | Some iface => [("iface", JStr iface)]
     | None => []
     end ++ [("index", json_of_nat index)]).

Lemma encode_fields_app (f : value -> EncState -> result (json * EncState))
    (o : object) (name : string) :
  forall pre st e1 st1 t st2,
    encode_fields f h o pre st = Ok (e1, st1) ->
    f (get h o (KStr name)) st1 = Ok (t, st2) ->
    encode_fields f h o (pre ++ [name]) st = Ok (e1 ++ [(name, t)], st2).
Proof.
  induction pre as [|x pre IH]; intros st e1 st1 t st2 H1 H2; simpl in *.
  - injection H1 as <- <-. by rewrite H2.
  - apply bind_Ok in H1 as ([t0 st0] & H0 & H1). apply bind_Ok in H1 as ([es st3] & H1 & H).
    injection H as <- <-. simpl in H1. rewrite H0. simpl.
    by rewrite (IH _ _ _ _ _ H1 H2).
Qed.

Lemma encode_elements_app (f : value -> EncState -> result (json * EncState))
    (x : option prop) :
  forall pre st t1 st1 t st2,
    encode_elements f pre st = Ok (t1, st1) ->
    match x with
    | Some d => f (prop_get d) st1 = Ok (t, st2)
    | None => t = JNull /\ st2 = st1
    end ->
    encode_elements f (pre ++ [x]) st = Ok (t1 ++ [t], st2).
Proof.
  induction pre as [|[y|] pre IH]; intros st t1 st1 t st2 H1 H2; simpl in *.
  - injection H1 as <- <-. destruct x as [d|]; [by rewrite H2|by destruct H2 as [-> ->]].
  - apply bind_Ok in H1 as ([t0 st0] & H0 & H1). apply bind_Ok in H1 as ([ts st3] & H1 & H).
    injection H as <- <-. simpl in H1. rewrite H0. simpl.
    by rewrite (IH _ _ _ _ _ H1 H2).
  - apply bind_Ok in H1 as ([ts st3] & H1 & H).
    injection H as <- <-. simpl in H1. by rewrite (IH _ _ _ _ _ H1 H2).
Qed.

(** An object enters the ibid table only by a call on that object. *)
Lemma entered_by_a_call fuel : forall v st t st' a,
  enc fuel h reg v st = Ok (t, st') ->
  ibidMap st !! a = None -> is_Some (ibidMap st' !! a) ->
  exists p f s, within fuel v st p f (VObject a) s /\ ibidMap s !! a = None.
Proof.
  induction fuel as [|fuel IH]; [done|]. intros v st t st' a H Hnone Hsome.
  destruct v as [| | | | | | | |b].
  1-8: cbn [encode] in H; apply bind_Ok in H as (ps & Hps & H);
    assert (st' = st) as ->
    by (simpl in Hps; simplify_eq; simpl in H; repeat case_match; simplify_eq; done);
    rewrite Hnone in Hsome; by destruct Hsome.
  destruct (decide (b = a)) as [->|Hne].
  { exists [], (S fuel), st. split; [constructor|done]. }
  destruct (passStyleOf h reg (VObject b)) as [ps| |] eqn:Hps;
    [|by cbn [encode] in H; rewrite Hps in H..].
  pose proof (passStyleOf_object _ _ _ _ Hps) as Hk.
  destruct (ibidMap st !! b) as [i|] eqn:Hi.
  { rewrite (encode_seen _ _ _ _ _ _ _ _ i Hps Hi) in H. injection H as <- <-.
    rewrite Hnone in Hsome. by destruct Hsome. }
  assert (ibidMap (ibid_add b st) !! a = None) as Hnone0.
  { simpl. by rewrite lookup_insert_ne. }
  destruct ps; try done.
  - destruct (passStyleOf_object_inv _ _ _ _ Hps) as [[_ ?]|(_ & o & Ho & _)]; [done|].
    rewrite (enc_record_eq _ _ o) in H by done.
    destruct (length (symbol_keys o)) as [|n] eqn:Hsym; [|done]. cbn [negb Nat.eqb] in H.
    apply bind_Ok in H as ([es st1] & H1 & H). injection H as <- <-.
    assert (forall post pre e1 st1 es st2,
              sort_strings (getOwnPropertyNames o) = pre ++ post ->
              encode_fields (enc fuel h reg) h o pre (ibid_add b st) = Ok (e1, st1) ->
              ibidMap st1 !! a = None ->
              encode_fields (enc fuel h reg) h o post st1 = Ok (es, st2) ->
              is_Some (ibidMap st2 !! a) ->
              exists p f s, within (S fuel) (VObject b) st p f (VObject a) s /\
                            ibidMap s !! a = None) as Hloop.
    { induction post as [|name post IHp]; intros pre e1 s1 es' s2 Hcut Hpre Hn Hpost Hs.
      - injection Hpost as <- <-. rewrite Hn in Hs. by destruct Hs.
      - simpl in Hpost. apply bind_Ok in Hpost as ([t0 s3] & H0 & Hpost).
        apply bind_Ok in Hpost as ([es3 s4] & Hpost & Hfin). injection Hfin as <- <-.
        simpl in Hpost.
        destruct (ibidMap s3 !! a) as [j|] eqn:Hj.
        + destruct (IH _ _ _ _ a H0 Hn) as (p & f & s & Hw & Hs0); [by eexists|].
          exists (length pre :: p), f, s. split; [|done].
          by eapply within_field.
        + apply (IHp (pre ++ [name]) (e1 ++ [(name, t0)]) s3 es3 s4); try done.
          * by rewrite <- app_assoc.
          * by apply encode_fields_app with s1. }
    by apply (Hloop _ [] [] _ _ _ eq_refl eq_refl Hnone0 H1).
  - destruct (passStyleOf_object_inv _ _ _ _ Hps) as [[_ ?]|(_ & o & Ho & _)]; [done|].
    rewrite (enc_array_eq _ _ o) in H by done.
    apply bind_Ok in H as ([ts st1] & H1 & H). injection H as <- <-.
    assert (forall post pre e1 st1 es st2,
              o_elems o = pre ++ post ->
              encode_elements (enc fuel h reg) pre (ibid_add b st) = Ok (e1, st1) ->
              ibidMap st1 !! a = None ->
              encode_elements (enc fuel h reg) post st1 = Ok (es, st2) ->
              is_Some (ibidMap st2 !! a) ->
              exists p f s, within (S fuel) (VObject b) st p f (VObject a) s /\
                            ibidMap s !! a = None) as Hloop.
    { induction post as [|[d|] post IHp]; intros pre e1 s1 es' s2 Hcut Hpre Hn Hpost Hs.
      - injection Hpost as <- <-. rewrite Hn in Hs. by destruct Hs.
      - simpl in Hpost. apply bind_Ok in Hpost as ([t0 s3] & H0 & Hpost).
        apply bind_Ok in Hpost as ([es3 s4] & Hpost & Hfin). injection Hfin as <- <-.
        simpl in Hpost.
        destruct (ibidMap s3 !! a) as [j|] eqn:Hj.
        + destruct (IH _ _ _ _ a H0 Hn) as (p & f & s & Hw & Hs0); [by eexists|].
          exists (length pre :: p), f, s. split; [|done].
          by eapply within_element.
        + apply (IHp (pre ++ [Some d]) (e1 ++ [t0]) s3 es3 s4); try done.
          * by rewrite <- app_assoc.
          * by apply (encode_elements_app _ (Some d)) with s1.
      - simpl in Hpost. apply bind_Ok in Hpost as ([es3 s4] & Hpost & Hfin).
        injection Hfin as <- <-. simpl in Hpost.
        apply (IHp (pre ++ [None]) (e1 ++ [JNull]) s1 es3 s4); try done.
        * by rewrite <- app_assoc.
        * by apply (encode_elements_app _ None) with s1. }
    by apply (Hloop _ [] [] _ _ _ eq_refl eq_refl Hnone0 H1).
  - cbn [encode] in H. rewrite Hps in H. cbn [bind] in H. rewrite Hi in H.
    destruct (heap_object h b) as [o| |]; [|done|done]. cbn [bind] in H.
    destruct (nextErrorId _ _) as [errorId st1] eqn:Hn. injection H as <- <-.
    unfold nextErrorId in Hn. injection Hn as <- <-. simpl in Hsome.
    rewrite lookup_insert_ne in Hsome by done. rewrite Hnone in Hsome. by destruct Hsome.
  - cbn [encode] in H. rewrite Hps in H. cbn [bind] in H. rewrite Hi in H.
    injection H as H. apply serializeSlot_leaves_ibidMap in H. rewrite H, Hnone0 in Hsome.
    by destruct Hsome.
  - cbn [encode] in H. rewrite Hps in H. cbn [bind] in H. rewrite Hi in H.
    injection H as H. apply serializeSlot_leaves_ibidMap in H. rewrite H, Hnone0 in Hsome.
    by destruct Hsome.
Qed.

Section Presence.
Variable r : nat.
Hypothesis Hremote : passStyleOf h reg (VObject r) = Ok REMOTE_STYLE.

(** A call on the presence leaves it in the ibid table. *)
Lemma call_enters f s t s' :
  enc f h reg (VObject r) s = Ok (t, s') -> is_Some (ibidMap s' !! r).
Proof.
  intros H. destruct f as [|f]; [done|].
  destruct (ibidMap s !! r) as [i|] eqn:Hi.
  - rewrite (encode_seen _ _ _ _ _ _ _ _ i Hremote Hi) in H. injection H as <- <-. eauto.
  - cbn [encode] in H. rewrite Hremote in H. cbn [bind] in H. rewrite Hi in H.
    injection H as H. apply serializeSlot_keeps in H as [K _].
    exists (ibidCount s). apply (lookup_weaken _ _ _ _ (lookup_insert_eq _ _ _) (k_ibid _ _ K)).
Qed.

(** A call on the presence that finds the ibid table without it gives the
    presence a slot and leaves it in the table, under the index that the
    counter showed. *)
Lemma first_call_enters fuel v st path f s t st' :
  within fuel v st path f (VObject r) s ->
  ibidMap s !! r = None ->
  slot_known st ->
  enc fuel h reg v st = Ok (t, st') ->
  exists s',
    enc f h reg (VObject r) s = Ok (slot_envelope (reg !! r) (length (slots s)), s') /\
    slots s' = slots s ++ [convertValToSlot (VObject r)] /\
    ibidMap st' !! r = Some (ibidCount s) /\
    slots st' !! length (slots s) = Some (convertValToSlot (VObject r)).
Proof.
  intros Hw Hnone Hknown H.
  destruct (within_result _ _ _ _ _ _ _ Hw _ _ H) as (t' & s' & Hcall & K1 & K2 & S1).
  destruct f as [|f']; [done|].
  assert (slotMap s !! r = None) as Hslot.
  { destruct (slotMap s !! r) as [i|] eqn:E; [|done].
    destruct (S1 Hknown r) as [j Hj]; [by eexists|congruence]. }
  rewrite (encode_remote_first _ _ _ _ _ _ _ Hremote Hnone Hslot) in Hcall.
  injection Hcall as <- <-. eexists. split; [by apply encode_remote_first|].
  split; [done|]. split.
  - apply (lookup_weaken _ _ _ _ (lookup_insert_eq _ _ _) (k_ibid _ _ K2)).
  - apply (prefix_lookup_Some _ _ _ _ (list_lookup_middle _ _ _ _ eq_refl) (k_slots _ _ K2)).
Qed.

(** The call on the presence that finds the ibid table without it is the
    first one on the way of the traversal; every other call comes after it
    and finds the presence under the index that the first call gave it. *)
Lemma later_calls_find_it fuel v st p1 f1 vr s1 :
  within fuel v st p1 f1 vr s1 ->
  vr = VObject r ->
  ibidMap s1 !! r = None ->
  slot_known st ->
  forall t st', enc fuel h reg v st = Ok (t, st') ->
  forall p2 f2 s2,
    within fuel v st p2 f2 (VObject r) s2 ->
    (p2 = p1 /\ f2 = f1 /\ s2 = s1) \/
    (path_before p1 p2 = true /\ ibidMap s2 !! r = Some (ibidCount s1)).
Proof.
  induction 1 as
    [fuel v st
    |fuel a o st pre post name entries st1 path f v' s Hps Hi Ho Hsym Hnames Hpre Hsub IH
    |fuel a o st pre post d ts st1 path f v' s Hps Hi Ho Helems Hpre Hsub IH];
    intros Hvr Hnone Hknown t st' H p2 f2 s2 Hw2.
  - subst v. inversion Hw2; subst; [by left|congruence..].
  - subst v'.
    inversion Hw2 as
      [|? ? o2 ? pre2 post2 name2 entries2 st12 path2 ? ? ? _ _ Ho2 _ Hnames2 Hpre2 Hsub2
       |? ? o2 ? pre2 post2 d2 ts2 st12 path2 ? ? ? Hps2 _ _ _ _ _]; subst;
      [congruence| |congruence].
    assert (o2 = o) as -> by congruence.
    rewrite (enc_record_eq _ _ o) in H by done. rewrite Hsym in H. cbn [negb Nat.eqb] in H.
    apply bind_Ok in H as ([es st2] & H & Hfin). injection Hfin as <- <-.
    pose proof (ibid_add_slot_known a st Hknown) as Hknown0.
    pose proof H as H2. rewrite Hnames in H. rewrite Hnames2 in H2.
    apply encode_fields_split in H as (e1 & st1' & t1 & st3 & e3 & A1 & B1 & C1).
    rewrite Hpre in A1. injection A1 as <- <-.
    apply encode_fields_split in H2 as (e12 & st12' & t12 & st32 & e32 & A2 & B2 & C2).
    rewrite Hpre2 in A2. injection A2 as <- <-.
    pose proof (encode_fields_keeps _ _ (enc_keeps fuel) _ _ _ _ Hpre) as [_ Spre].
    rewrite Hnames in Hnames2.
    destruct (split_compare _ _ _ _ _ _ Hnames2)
      as [(<- & <- & <-)|[(mid & -> & Hlt)|(mid & -> & Hlt)]].
    + (* the same field *)
      rewrite Hpre in Hpre2. injection Hpre2 as <- <-.
      destruct (IH eq_refl Hnone (Spre Hknown0) _ _ B1 path2 _ _ Hsub2)
        as [(-> & -> & ->)|[Hb Hfound]]; [by left|].
      right. split; [|done]. simpl. by rewrite Nat.ltb_irrefl, Nat.eqb_refl, Hb.
    + (* a later field *)
      right. split; [simpl; by apply Nat.ltb_lt in Hlt as ->|].
      apply encode_fields_split in Hpre2 as (e1' & st1' & t1' & st3' & e3' & A & B & C).
      rewrite Hpre in A. injection A as <- <-.
      destruct (first_call_enters _ _ _ _ _ _ _ _ Hsub Hnone (Spre Hknown0) B)
        as (_ & _ & _ & Hin & _).
      apply (encode_fields_keeps _ _ (enc_keeps fuel)) in C as [Kmid _].
      destruct (within_result _ _ _ _ _ _ _ Hsub2 _ _ B2) as (_ & _ & _ & K2 & _).
      apply (lookup_weaken _ _ _ _ Hin).
      etrans; [apply (k_ibid _ _ Kmid)|apply (k_ibid _ _ K2)].
    + (* an earlier field *)
      exfalso.
      apply encode_fields_split in Hpre as (e1' & st1' & t1' & st3' & e3' & A & B & C).
      rewrite Hpre2 in A. injection A as <- <-.
      destruct (within_result _ _ _ _ _ _ _ Hsub2 _ _ B) as (t' & s2' & Hcall & _ & K2 & _).
      apply call_enters in Hcall as [i Hin].
      apply (encode_fields_keeps _ _ (enc_keeps fuel)) in C as [Kmid _].
      destruct (within_result _ _ _ _ _ _ _ Hsub _ _ B1) as (_ & _ & _ & K1 & _).
      assert (ibidMap s !! r = Some i) as Hs; [|congruence].
      apply (lookup_weaken _ _ _ _ Hin).
      etrans; [apply (k_ibid _ _ K2)|]. etrans; [apply (k_ibid _ _ Kmid)|apply (k_ibid _ _ K1)].
  - subst v'.
    inversion Hw2 as
      [|? ? o2 ? pre2 post2 name2 entries2 st12 path2 ? ? ? Hps2 _ _ _ _ _ _
       |? ? o2 ? pre2 post2 d2 ts2 st12 path2 ? ? ? _ _ Ho2 Helems2 Hpre2 Hsub2]; subst;
      [congruence|congruence|].
    assert (o2 = o) as -> by congruence.
    rewrite (enc_array_eq _ _ o) in H by done.
    apply bind_Ok in H as ([es st2] & H & Hfin). injection Hfin as <- <-.
    pose proof (ibid_add_slot_known a st Hknown) as Hknown0.
    pose proof H as H2. rewrite Helems in H. rewrite Helems2 in H2.
    apply encode_elements_split in H as (e1 & st1' & t1 & st3 & e3 & A1 & B1 & C1).
    rewrite Hpre in A1. injection A1 as <- <-.
    apply encode_elements_split in H2 as (e12 & st12' & t12 & st32 & e32 & A2 & B2 & C2).
    rewrite Hpre2 in A2. injection A2 as <- <-.
    pose proof (encode_elements_keeps _ (enc_keeps fuel) _ _ _ _ Hpre) as [_ Spre].
    rewrite Helems in Helems2.
    destruct (split_compare _ _ _ _ _ _ Helems2)
      as [(<- & Hd & <-)|[(mid & -> & Hlt)|(mid & -> & Hlt)]].
    + injection Hd as <-.
      rewrite Hpre in Hpre2. injection Hpre2 as <- <-.
      destruct (IH eq_refl Hnone (Spre Hknown0) _ _ B1 path2 _ _ Hsub2)
        as [(-> & -> & ->)|[Hb Hfound]]; [by left|].
      right. split; [|done]. simpl. by rewrite Nat.ltb_irrefl, Nat.eqb_refl, Hb.
    + right. split; [simpl; by apply Nat.ltb_lt in Hlt as ->|].
      apply encode_elements_split in Hpre2 as (e1' & st1' & t1' & st3' & e3' & A & B & C).
      rewrite Hpre in A. injection A as <- <-.
      destruct (first_call_enters _ _ _ _ _ _ _ _ Hsub Hnone (Spre Hknown0) B)
        as (_ & _ & _ & Hin & _).
      apply (encode_elements_keeps _ (enc_keeps fuel)) in C as [Kmid _].
      destruct (within_result _ _ _ _ _ _ _ Hsub2 _ _ B2) as (_ & _ & _ & K2 & _).
      apply (lookup_weaken _ _ _ _ Hin).
      etrans; [apply (k_ibid _ _ Kmid)|apply (k_ibid _ _ K2)].
    + exfalso.
      apply encode_elements_split in Hpre as (e1' & st1' & t1' & st3' & e3' & A & B & C).
      rewrite Hpre2 in A. injection A as <- <-.
      destruct (within_result _ _ _ _ _ _ _ Hsub2 _ _ B) as (t' & s2' & Hcall & _ & K2 & _).
      apply call_enters in Hcall as [i Hin].
      apply (encode_elements_keeps _ (enc_keeps fuel)) in C as [Kmid _].
      destruct (within_result _ _ _ _ _ _ _ Hsub _ _ B1) as (_ & _ & _ & K1 & _).
      assert (ibidMap s !! r = Some i) as Hs; [|congruence].
      apply (lookup_weaken _ _ _ _ Hin).
      etrans; [apply (k_ibid _ _ K2)|]. etrans; [apply (k_ibid _ _ Kmid)|apply (k_ibid _ _ K1)].
Qed.
End Presence.
End Occurrences.

(** C3, amended.  Within one serialize call a presence gets its slot at
    the call that finds the ibid table without it; that call is the first
    on the way of the traversal, and every other occurrence of the presence
    is written as an ibid backreference to the index the first one took,
    the tables left as they were.  An occurrence is never without a first
    one.  serialize({a:r, b:r}) for a registered remotable r gives the
    slots [handleOf(r)] and a body whose field a is the slot envelope and
    whose field b is the ibid envelope with index 1. *)
Theorem repeated_remote_is_ibid (convertValToSlot : value -> value) (marshalName : string) :
  (forall (h : heap) (reg : registry) (errorCount0 : nat) (root : value) (r : addr)
          (data : capdata) (errorCount1 : nat),
     passStyleOf h reg (VObject r) = Ok REMOTE_STYLE ->
     serialize convertValToSlot marshalName h reg errorCount0 root
       = Ok (data, errorCount1) ->
     (forall p f s,
        within convertValToSlot marshalName h reg
          (S (length h)) root (init_EncState errorCount0) p f (VObject r) s ->
        exists p1 f1 s1,
          within convertValToSlot marshalName h reg
            (S (length h)) root (init_EncState errorCount0) p1 f1 (VObject r) s1 /\
          ibidMap s1 !! r = None) /\
     (forall p1 f1 s1,
        within convertValToSlot marshalName h reg
          (S (length h)) root (init_EncState errorCount0) p1 f1 (VObject r) s1 ->
        ibidMap s1 !! r = None ->
        (exists s1',
           encode convertValToSlot marshalName f1 h reg (VObject r) s1
             = Ok (slot_envelope (reg !! r) (length (slots s1)), s1') /\
           slots s1' = slots s1 ++ [convertValToSlot (VObject r)]) /\
        cap_slots data !! length (slots s1) = Some (convertValToSlot (VObject r)) /\
        (forall p2 f2 s2,
           within convertValToSlot marshalName h reg
             (S (length h)) root (init_EncState errorCount0) p2 f2 (VObject r) s2 ->
           (p2 = p1 /\ f2 = f1 /\ s2 = s1) \/
           (path_before p1 p2 = true /\
            encode convertValToSlot marshalName f2 h reg (VObject r) s2
              = Ok (ibid_envelope (ibidCount s1), s2))))) /\
  serialize convertValToSlot marshalName remote_twice_heap remote_twice_registry 0
    (VObject 1)
  = Ok ({| body := qq "{'a':{'@qclass':'slot','iface':'Remotable','index':0},'b':{'@qclass':'ibid','index':1}}";
           cap_slots := [convertValToSlot (VObject 0)] |}, 0).
Proof.
  split; [|vm_compute; reflexivity].
  intros h reg errorCount0 root r data errorCount1 Hremote Hser.
  unfold serialize in Hser. apply bind_Ok in Hser as ([t st'] & Henc & Hser).
  injection Hser as <- <-. cbn [cap_slots fst snd].
  assert (slot_known (init_EncState errorCount0)) as Hknown.
  { intros a [i Hi]. simpl in Hi. by rewrite lookup_empty in Hi. }
  split.
  - intros p f s Hw.
    destruct (within_result _ _ _ _ _ _ _ _ _ _ _ Hw _ _ Henc) as (t' & s' & Hcall & _ & K & _).
    apply (call_enters _ _ _ _ _ Hremote) in Hcall as [i Hi].
    apply (entered_by_a_call _ _ _ _ _ _ _ _ _ r Henc); [apply lookup_empty|].
    exists i. apply (lookup_weaken _ _ _ _ Hi (k_ibid _ _ K)).
  - intros p1 f1 s1 Hw1 Hnone.
    destruct (first_call_enters _ _ _ _ _ Hremote _ _ _ _ _ _ _ _ Hw1 Hnone Hknown Henc)
      as (s1' & Hcall & Hslots & _ & Hcap).
    split; [by exists s1'|]. split; [done|].
    intros p2 f2 s2 Hw2.
    destruct (later_calls_find_it _ _ _ _ _ Hremote _ _ _ _ _ _ _ Hw1 eq_refl Hnone Hknown
                _ _ Henc _ _ _ Hw2) as [?|[Hb Hin]]; [by left|right].
    split; [done|].
    destruct (within_result _ _ _ _ _ _ _ _ _ _ _ Hw2 _ _ Henc) as (t' & s' & Hcall2 & _).
    destruct f2 as [|f2]; [done|]. by eapply encode_seen.
Qed.

(** The state in which the encoder comes to the second field of {a:r, b:r}. *)
Definition remote_twice_second : EncState :=
  {| slots := [VObject 0]; slotMap := {[ 0 := 0 ]}; ibidMap := {[ 0 := 1; 1 := 0 ]};
     ibidCount := 2; errorCount := 0 |}.

Lemma repeated_remote_is_ibid_witness :
  path_before [0] [1] = true /\
  encode defaultValToSlotFn "anon-marshal" 2 remote_twice_heap remote_twice_registry
    (VObject 0) remote_twice_second
  = Ok (ibid_envelope 1, remote_twice_second).
Proof.
  assert (passStyleOf remote_twice_heap remote_twice_registry (VObject 0) = Ok REMOTE_STYLE)
    as Hremote by (vm_compute; reflexivity).
  assert (serialize defaultValToSlotFn "anon-marshal" remote_twice_heap
            remote_twice_registry 0 (VObject 1)
          = Ok ({| body := qq "{'a':{'@qclass':'slot','iface':'Remotable','index':0},'b':{'@qclass':'ibid','index':1}}";
                   cap_slots := [VObject 0] |}, 0)) as Hser by (vm_compute; reflexivity).
  destruct (proj1 (repeated_remote_is_ibid defaultValToSlotFn "anon-marshal")
              remote_twice_heap remote_twice_registry 0 (VObject 1) 0 _ _ Hremote Hser)
    as [_ Hfirst].
  assert (within defaultValToSlotFn "anon-marshal" remote_twice_heap remote_twice_registry
            3 (VObject 1) (init_EncState 0) [0] 2 (VObject 0)
            (ibid_add 1 (init_EncState 0))) as W1.
  { apply (within_field _ _ _ _ 2 1
             (plain_record [("a", VObject 0); ("b", VObject 0)]) (init_EncState 0)
             [] ["b"] "a" [] (ibid_add 1 (init_EncState 0)) [] 2 (VObject 0)
             (ibid_add 1 (init_EncState 0)));
      try (vm_compute; reflexivity).
    apply within_here. }
  assert (within defaultValToSlotFn "anon-marshal" remote_twice_heap remote_twice_registry
            3 (VObject 1) (init_EncState 0) [1] 2 (VObject 0) remote_twice_second) as W2.
  { apply (within_field _ _ _ _ 2 1
             (plain_record [("a", VObject 0); ("b", VObject 0)]) (init_EncState 0)
             ["a"] [] "b"
             [("a", slot_envelope (Some "Remotable") 0)] remote_twice_second [] 2 (VObject 0)
             remote_twice_second);
      try (vm_compute; reflexivity).
    apply within_here. }
  destruct (Hfirst [0] 2 _ W1 eq_refl) as (_ & _ & Hlater).
  destruct (Hlater [1] 2 _ W2) as [(Hp & _)|[Hb Hcall]]; [discriminate Hp|].
  split; [exact Hb|exact Hcall].
Defined.
